(** * Boolean algebra and Karnaugh-map simulator: the core of [script.js]

    A shallow embedding of the tokenizer, the shunting-yard parser, the RPN
    evaluator, the Quine-McCluskey minimizer, the K-map layout generator and
    the truth-table generator, followed by the properties established for
    them.

    Conventions.
    - JavaScript strings are [string]s whose characters are 8-bit code units
      (Latin-1); [s[i]] out of range is [undefined], modelled by [None].
    - JavaScript arrays are lists.  An operator stack or value stack keeps its
      top at the head of the list; arrays that are only pushed to keep their
      elements in push order.
    - A JavaScript [Set] whose iteration order is observed is a duplicate-free
      list in insertion order; a [Set] only queried with [has]/[size] is a
      [gset].  A plain object used as a dictionary is a [gmap], except where
      its keys are enumerated, where it is an association list kept in the
      enumeration order of the engine (ascending integer keys).
    - An environment, which is keyed by names, is a [gmap] of its own
      properties together with the members that every plain object inherits
      from [Object.prototype] (section 4).
    - [throw new Error(...)] is the [Err] case of [outcome]. *)

From Stdlib Require Import ZArith String Ascii Bool.
From stdpp Require Import gmap strings list sorting.

Local Open Scope string_scope.
Local Open Scope list_scope.
Local Open Scope nat_scope.

(** ** Errors *)

Inductive eval_error :=
  | UndefinedVariable (v : string)
  | InsufficientOperands (op : string)
  | InvalidExpression
  | UnknownOperator (op : string).

Inductive parse_error :=
  | UnmatchedRightParen
  | UnbalancedParens.

Inductive error :=
  | LexError (pos : nat) (ch : ascii)
  | ParseError (e : parse_error)
  | EvalError (e : eval_error).

Inductive outcome (A : Type) :=
  | Ok (a : A)
  | Err (e : error).
Arguments Ok {A} a.
Arguments Err {A} e.

Definition rbind {A B} (r : outcome A) (k : A -> outcome B) : outcome B :=
  match r with
  | Ok a => k a
  | Err e => Err e
  end.

Notation "x <-! r ; k" := (rbind r (fun x => k))
  (at level 100, r at next level, right associativity).

(** ** 1. Constants and utilities *)

Definition GRAY2 : list Z := [0; 1]%Z.
Definition GRAY4 : list Z := [0; 1; 3; 2]%Z.

(** [n.toString(2)] for a non-negative integer. *)
Fixpoint pos_toString2 (p : positive) (acc : string) : string :=
  match p with
  | xH => String "1" acc
  | xO p' => pos_toString2 p' (String "0" acc)
  | xI p' => pos_toString2 p' (String "1" acc)
  end.

Definition toString2 (n : nat) : string :=
  match N.of_nat n with
  | N0 => "0"
  | Npos p => pos_toString2 p ""
  end.

Fixpoint repeat_char (c : ascii) (k : nat) : string :=
  match k with
  | O => ""
  | S k' => String c (repeat_char c k')
  end.

Definition padStart (s : string) (width : nat) (c : ascii) : string :=
  repeat_char c (width - String.length s) +:+ s.

Definition toBin (n width : nat) : string := padStart (toString2 n) width "0".

(** 32-bit integer operators: [x << k], [x >> k], [x & y], [x | y]. *)
Definition toInt32 (x : Z) : Z :=
  ((x + 2 ^ 31) mod 2 ^ 32 - 2 ^ 31)%Z.
Definition shl32 (x k : Z) : Z := toInt32 (Z.shiftl (toInt32 x) (k mod 32)).
Definition shr32 (x k : Z) : Z := Z.shiftr (toInt32 x) (k mod 32).
Definition and32 (x y : Z) : Z := Z.land (toInt32 x) (toInt32 y).
Definition or32 (x y : Z) : Z := Z.lor (toInt32 x) (toInt32 y).

(** ** 2. Tokenizer *)

Record op_tok := mkOp {
  op_value : string;
  unary : bool;
  postfix : bool;
  precedence : nat;
  associativity : string;
  implicit : bool
}.

Inductive token :=
  | NUM (value : Z)
  | VAR (value : string)
  | OP (o : op_tok)
  | LP
  | RP.

Definition char_code (c : ascii) : nat := nat_of_ascii c.

(** [\s] restricted to 8-bit code units. *)
Definition is_whitespace (c : ascii) : bool :=
  let n := char_code c in
  ((9 <=? n) && (n <=? 13)) || (n =? 32) || (n =? 160).

(** [/[A-Za-z]/.test(ch)] *)
Definition is_letter (c : ascii) : bool :=
  let n := char_code c in
  ((65 <=? n) && (n <=? 90)) || ((97 <=? n) && (n <=? 122)).

Definition toUpperCase (c : ascii) : ascii :=
  let n := char_code c in
  if (97 <=? n) && (n <=? 122) then ascii_of_nat (n - 32) else c.

(** [raw.replace(/\s+/g, '')] *)
Fixpoint strip_whitespace (raw : string) : string :=
  match raw with
  | EmptyString => EmptyString
  | String c rest =>
      if is_whitespace c then strip_whitespace rest
      else String c (strip_whitespace rest)
  end.

Definition postfix_not : token :=
  OP (mkOp "NOT" true true 4 "right" false).
Definition prefix_not : token :=
  OP (mkOp "NOT" true false 4 "right" false).
Definition binary_op (op : string) (prec : nat) : token :=
  OP (mkOp op false false prec "left" false).
Definition implicit_and : token :=
  OP (mkOp "AND" false false 3 "left" true).

Definition char_string (c : ascii) : string := String c EmptyString.

(** The scanning loop of [tokenize]: [src] is the part of the stripped input
    from index [i] on, [tokens] what has been pushed so far.  The inner
    [quotes] is the [while (src[i] === "'")] loop. *)
Fixpoint tokenize_loop (src : string) (i : nat) (tokens : list token)
    {struct src} : outcome (list token) :=
  match src with
  | EmptyString => Ok tokens
  | String ch rest =>
      if Ascii.eqb ch "0" || Ascii.eqb ch "1" then
        tokenize_loop rest (S i)
          (tokens ++ [NUM (if Ascii.eqb ch "1" then 1 else 0)])
      else if is_letter ch then
        let tokens := tokens ++ [VAR (char_string (toUpperCase ch))] in
        (fix quotes (s : string) (i negCount : nat) {struct s} :=
           let finish :=
             tokenize_loop s i
               (if Nat.odd negCount then tokens ++ [postfix_not] else tokens) in
           match s with
           | EmptyString => finish
           | String c s' =>
               if Ascii.eqb c "'" then quotes s' (S i) (S negCount)
               else finish
           end) rest (S i) 0
      else if Ascii.eqb ch "(" then tokenize_loop rest (S i) (tokens ++ [LP])
      else if Ascii.eqb ch ")" then tokenize_loop rest (S i) (tokens ++ [RP])
      else if Ascii.eqb ch "!" || Ascii.eqb ch "~" then
        tokenize_loop rest (S i) (tokens ++ [prefix_not])
      else if Ascii.eqb ch "&" || Ascii.eqb ch "*" || Ascii.eqb ch "+"
              || Ascii.eqb ch "|" || Ascii.eqb ch "^" then
        let op :=
          if Ascii.eqb ch "&" || Ascii.eqb ch "*" then "AND"
          else if Ascii.eqb ch "+" || Ascii.eqb ch "|" then "OR"
          else "XOR" in
        let prec :=
          if String.eqb op "OR" then 1 else if String.eqb op "XOR" then 2 else 3 in
        tokenize_loop rest (S i) (tokens ++ [binary_op op prec])
      else Err (LexError i ch)
  end.

Definition tokenize (raw : string) : outcome (list token) :=
  tokenize_loop (strip_whitespace raw) 0 [].

(** ** 3. Parser (shunting-yard) *)

(** [isOperand(tok)] and [beginsOperand(tok)]; [None] is [undefined], which
    makes the conjunction falsy. *)
Definition isOperand (tok : option token) : bool :=
  match tok with
  | Some (VAR _) | Some (NUM _) | Some RP => true
  | Some (OP o) => postfix o
  | _ => false
  end.

Definition beginsOperand (tok : option token) : bool :=
  match tok with
  | Some (VAR _) | Some (NUM _) | Some LP => true
  | Some (OP o) => String.eqb (op_value o) "NOT" && negb (postfix o)
  | _ => false
  end.

(** Phase 1: [a] is [tokens[i]], [b] is [tokens[i + 1]]. *)
Fixpoint insertImplicit (tokens : list token) : list token :=
  match tokens with
  | [] => []
  | a :: rest =>
      let b := head rest in
      if isOperand (Some a) && beginsOperand b
      then a :: implicit_and :: insertImplicit rest
      else a :: insertImplicit rest
  end.

(** The [while (stack.length)] loop of a binary operator [t]. *)
Fixpoint pop_operators (t : op_tok) (stack output : list token)
    : list token * list token :=
  match stack with
  | OP top :: stack' =>
      if (precedence t <? precedence top)
         || ((precedence top =? precedence t)
             && String.eqb (associativity t) "left")
      then pop_operators t stack' (output ++ [OP top])
      else (stack, output)
  | _ => (stack, output)
  end.

(** The loop of a right parenthesis: pop to the output until [LP] is on top;
    [None] when the stack is exhausted first. *)
Fixpoint pop_until_LP (stack output : list token)
    : option (list token * list token) :=
  match stack with
  | [] => None
  | LP :: stack' => Some (stack', output)
  | s :: stack' => pop_until_LP stack' (output ++ [s])
  end.

Definition shunt (t : token) (stack output : list token)
    : outcome (list token * list token) :=
  match t with
  | VAR _ | NUM _ => Ok (stack, output ++ [t])
  | OP o =>
      if postfix o && String.eqb (op_value o) "NOT" then Ok (stack, output ++ [t])
      else if unary o && negb (postfix o) then Ok (t :: stack, output)
      else if negb (unary o) then
        let '(stack', output') := pop_operators o stack output in
        Ok (t :: stack', output')
      else Ok (stack, output)
  | LP => Ok (t :: stack, output)
  | RP =>
      match pop_until_LP stack output with
      | Some so => Ok so
      | None => Err (ParseError UnmatchedRightParen)
      end
  end.

Fixpoint shunting_loop (tokens stack output : list token)
    : outcome (list token * list token) :=
  match tokens with
  | [] => Ok (stack, output)
  | t :: rest =>
      so <-! shunt t stack output;
      shunting_loop rest so.1 so.2
  end.

(** The final [while (stack.length)] loop. *)
Fixpoint drain_stack (stack output : list token) : outcome (list token) :=
  match stack with
  | [] => Ok output
  | LP :: _ | RP :: _ => Err (ParseError UnbalancedParens)
  | s :: stack' => drain_stack stack' (output ++ [s])
  end.

Definition toRPN (tokens : list token) : outcome (list token) :=
  so <-! shunting_loop (insertImplicit tokens) [] [];
  drain_stack so.1 so.2.

(** ** 4. RPN evaluator *)

(** [!!x] for a number. *)
Definition truthy (x : Z) : bool := negb (x =? 0)%Z.

(** An environment is a plain object, [{}] with properties assigned to it:
    the map holds its own properties, which are numbers, and the object
    inherits the members of [Object.prototype], which are functions and, for
    [__proto__], the prototype itself. *)
Definition object_prototype_keys : list string :=
  ["constructor"; "__defineGetter__"; "__defineSetter__"; "hasOwnProperty";
   "__lookupGetter__"; "__lookupSetter__"; "isPrototypeOf";
   "propertyIsEnumerable"; "toString"; "valueOf"; "__proto__";
   "toLocaleString"].

Definition inherited (v : string) : bool :=
  bool_decide (v ∈ object_prototype_keys).

(** [v in env] *)
Definition has_property (env : gmap string Z) (v : string) : bool :=
  match env !! v with
  | Some _ => true
  | None => inherited v
  end.

(** [!!env[v]]: an inherited member is truthy, [undefined] is not. *)
Definition property_truthy (env : gmap string Z) (v : string) : bool :=
  match env !! v with
  | Some x => truthy x
  | None => inherited v
  end.

(** [env[k] = x] for a number [x]: the setter of the inherited [__proto__]
    ignores a number; every other assignment makes or updates an own
    property. *)
Definition set_property (env : gmap string Z) (k : string) (x : Z)
    : gmap string Z :=
  match env !! k with
  | None => if String.eqb k "__proto__" then env else <[k := x]> env
  | Some _ => <[k := x]> env
  end.

Definition eval_token (env : gmap string Z) (tok : token) (stack : list bool)
    : outcome (list bool) :=
  match tok with
  | NUM v => Ok (truthy v :: stack)
  | VAR v =>
      if has_property env v then Ok (property_truthy env v :: stack)
      else Err (EvalError (UndefinedVariable v))
  | OP o =>
      if String.eqb (op_value o) "NOT" then
        match stack with
        | a :: stack' => Ok (negb a :: stack')
        | [] => Err (EvalError (InsufficientOperands "NOT"))
        end
      else
        match stack with
        | b :: a :: stack' =>
            if String.eqb (op_value o) "AND" then Ok ((a && b) :: stack')
            else if String.eqb (op_value o) "OR" then Ok ((a || b) :: stack')
            else if String.eqb (op_value o) "XOR" then Ok (xorb a b :: stack')
            else Err (EvalError (UnknownOperator (op_value o)))
        | _ => Err (EvalError (InsufficientOperands (op_value o)))
        end
  | LP | RP => Ok stack
  end.

Fixpoint eval_loop (env : gmap string Z) (rpn : list token) (stack : list bool)
    : outcome (list bool) :=
  match rpn with
  | [] => Ok stack
  | tok :: rest =>
      stack' <-! eval_token env tok stack;
      eval_loop env rest stack'
  end.

Definition evalRPN (rpn : list token) (env : gmap string Z) : outcome Z :=
  stack <-! eval_loop env rpn [];
  match stack with
  | [v] => Ok (if v then 1 else 0)%Z
  | _ => Err (EvalError InvalidExpression)
  end.

(** ** 5. Quine-McCluskey *)

Fixpoint countOnes (binStr : string) : nat :=
  match binStr with
  | EmptyString => 0
  | String c rest => if Ascii.eqb c "1" then S (countOnes rest) else countOnes rest
  end.

(** [s[0]] and the rest of [s]; [None] is [undefined]. *)
Definition uncons (s : string) : option ascii * string :=
  match s with
  | EmptyString => (None, EmptyString)
  | String c rest => (Some c, rest)
  end.

Definition same_char (x : ascii) (y : option ascii) : bool :=
  match y with
  | Some c => Ascii.eqb x c
  | None => false
  end.

(** The loop of [canCombine] from the current index on: [a] and [b] are the
    remaining suffixes, [diff] the differences counted so far. *)
Fixpoint canCombine_loop (a b : string) (diff : nat) : bool :=
  match a with
  | EmptyString => diff =? 1
  | String x a' =>
      let '(y, b') := uncons b in
      let diff := if same_char x y then diff else S diff in
      if 1 <? diff then false else canCombine_loop a' b' diff
  end.

Definition canCombine (a b : string) : bool := canCombine_loop a b 0.

Fixpoint combine (a b : string) : string :=
  match a with
  | EmptyString => EmptyString
  | String x a' =>
      let '(y, b') := uncons b in
      String (if same_char x y then x else "-"%char) (combine a' b')
  end.

Fixpoint covers (implicant mintermBin : string) : bool :=
  match implicant with
  | EmptyString => true
  | String x implicant' =>
      let '(y, mintermBin') := uncons mintermBin in
      if Ascii.eqb x "-" then covers implicant' mintermBin'
      else if same_char x y then covers implicant' mintermBin'
      else false
  end.

Record item := mkItem { bin : string; used : bool; from : list string }.

Definition mark_used (it : item) : item := mkItem (bin it) true (from it).

(** An object whose keys are numbers of ones, enumerated in ascending key
    order. *)
Definition groups := list (nat * list item).

(** [if (!g[k]) g[k] = []; g[k].push(it)] *)
Fixpoint push_group (k : nat) (it : item) (g : groups) : groups :=
  match g with
  | [] => [(k, [it])]
  | (k', its) :: g' =>
      if k =? k' then (k', its ++ [it]) :: g'
      else if k <? k' then (k, [it]) :: g
      else (k', its) :: push_group k it g'
  end.

(** Insertion into a [Set] that is later enumerated. *)
Definition ordered_add {A} `{EqDecision A} (x : A) (l : list A) : list A :=
  if decide (x ∈ l) then l else l ++ [x].

(** [[...new Set(l)]] *)
Definition ordered_set {A} `{EqDecision A} (l : list A) : list A :=
  fold_left (fun acc x => ordered_add x acc) l [].

(** [c.replace(/-/g, '')] *)
Fixpoint remove_dashes (c : string) : string :=
  match c with
  | EmptyString => EmptyString
  | String x c' =>
      if Ascii.eqb x "-" then remove_dashes c' else String x (remove_dashes c')
  end.

Definition combined_item (a b : item) : item :=
  mkItem (combine (bin a) (bin b)) false (ordered_set (from a ++ from b)).

(** [for (const b of g2)] for one [a]: returns [a] and [g2] with their
    [used] flags updated, the new groups and [anyCombined]. *)
Fixpoint combine_with (a : item) (g2 : list item) (newGroups : groups)
    (anyCombined : bool) : item * list item * groups * bool :=
  match g2 with
  | [] => (a, [], newGroups, anyCombined)
  | b :: g2' =>
      if canCombine (bin a) (bin b) then
        let it := combined_item a b in
        let ones := countOnes (remove_dashes (bin it)) in
        let '(a', g2'', ng, any) :=
          combine_with (mark_used a) g2' (push_group ones it newGroups) true in
        (a', mark_used b :: g2'', ng, any)
      else
        let '(a', g2'', ng, any) := combine_with a g2' newGroups anyCombined in
        (a', b :: g2'', ng, any)
  end.

(** [for (const a of g1)] *)
Fixpoint combine_groups (g1 g2 : list item) (newGroups : groups)
    (anyCombined : bool) : list item * list item * groups * bool :=
  match g1 with
  | [] => ([], g2, newGroups, anyCombined)
  | a :: g1' =>
      let '(a', g2', ng, any) := combine_with a g2 newGroups anyCombined in
      let '(g1'', g2'', ng', any') := combine_groups g1' g2' ng any in
      (a' :: g1'', g2'', ng', any')
  end.

(** [for (idx = 0; idx < keys.length - 1; idx++)]: [(k1, g1)] is the group at
    [idx], [rest] the groups after it. *)
Fixpoint combine_adjacent (k1 : nat) (g1 : list item) (rest : groups)
    (newGroups : groups) (anyCombined : bool) : groups * groups * bool :=
  match rest with
  | [] => ([(k1, g1)], newGroups, anyCombined)
  | (k2, g2) :: rest' =>
      let '(g1', g2', ng, any) := combine_groups g1 g2 newGroups anyCombined in
      let '(rest'', ng', any') := combine_adjacent k2 g2' rest' ng any in
      ((k1, g1') :: rest'', ng', any')
  end.

Definition combine_round (g : groups) : groups * groups * bool :=
  match g with
  | [] => ([], [], false)
  | (k1, g1) :: rest => combine_adjacent k1 g1 rest [] false
  end.

(** [it.bin + '|' + it.from.join(',')] *)
Definition item_key (it : item) : string :=
  bin it +:+ "|" +:+ String.concat "," (from it).

Fixpoint dedup_loop (its unique : list item) (seen : gset string) : list item :=
  match its with
  | [] => unique
  | it :: its' =>
      let key := item_key it in
      if decide (key ∈ seen) then dedup_loop its' unique seen
      else dedup_loop its' (unique ++ [it]) ({[key]} ∪ seen)
  end.

Definition dedup_groups (g : groups) : groups :=
  map (fun kg => (kg.1, dedup_loop kg.2 [] ∅)) g.

Definition unused_bins (g : groups) : list string :=
  flat_map (fun kg => map bin (filter (fun it => used it = false) kg.2)) g.

(** The [while (anyCombined)] loop; [fuel] bounds the number of rounds and
    [None] means it was not enough. *)
Fixpoint combine_rounds (fuel : nat) (g : groups)
    (allCombinedLevels : list (list string))
    : option (list (list string) * groups) :=
  match fuel with
  | O => None
  | S fuel' =>
      let '(g', newGroups, anyCombined) := combine_round g in
      let newGroups := dedup_groups newGroups in
      let levels := allCombinedLevels ++ [unused_bins g'] in
      if anyCombined then combine_rounds fuel' newGroups levels
      else Some (levels, newGroups)
  end.

Definition initial_groups (bins : list string) : groups :=
  fold_left (fun g b => push_group (countOnes b) (mkItem b false [b]) g) bins [].

Definition all_bins (g : groups) : list string :=
  flat_map (fun kg => map bin kg.2) g.

(** Phases 1 to 3: the list of prime implicants. *)
Definition prime_list (fuel : nat) (bins : list string) : option (list string) :=
  match combine_rounds fuel (initial_groups bins) [] with
  | None => None
  | Some (levels, g) => Some (ordered_set (concat levels ++ all_bins g))
  end.

(** Phase 4: [cover[i]] is the ascending list of the [j] with
    [covers(primeList[j], minBin[i])]. *)
Fixpoint cover_row (primeList : list string) (j : nat) (m : string) : list nat :=
  match primeList with
  | [] => []
  | p :: primeList' =>
      if covers p m then j :: cover_row primeList' (S j) m
      else cover_row primeList' (S j) m
  end.

Definition cover_chart (primeList minBin : list string) : list (list nat) :=
  map (cover_row primeList 0) minBin.

(** Phase 5. *)
Fixpoint essentials (cover : list (list nat)) (chosen : list nat) : list nat :=
  match cover with
  | [] => chosen
  | [j] :: cover' => essentials cover' (ordered_add j chosen)
  | _ :: cover' => essentials cover' chosen
  end.

(** [markCovered]; [i] is the index of the first row of [cover]. *)
Fixpoint markCovered (cover : list (list nat)) (i : nat) (chosen : list nat)
    (coveredRows : gset nat) : gset nat :=
  match cover with
  | [] => coveredRows
  | js :: cover' =>
      if decide (i ∈ coveredRows) then markCovered cover' (S i) chosen coveredRows
      else if existsb (fun j => bool_decide (j ∈ chosen)) js
      then markCovered cover' (S i) chosen ({[i]} ∪ coveredRows)
      else markCovered cover' (S i) chosen coveredRows
  end.

(** The count of uncovered rows that [j] covers. *)
Fixpoint cover_count (cover : list (list nat)) (i : nat) (coveredRows : gset nat)
    (j : nat) : nat :=
  match cover with
  | [] => 0
  | js :: cover' =>
      if decide (i ∈ coveredRows) then cover_count cover' (S i) coveredRows j
      else if bool_decide (j ∈ js) then S (cover_count cover' (S i) coveredRows j)
      else cover_count cover' (S i) coveredRows j
  end.

(** The search for [bestJ]: [best] is [None] while [bestJ] and
    [bestCoverCount] are both [-1], else [Some (bestJ, bestCoverCount)];
    [count] further candidates from [j] on are examined. *)
Fixpoint best_candidate (cover : list (list nat)) (chosen : list nat)
    (coveredRows : gset nat) (j count : nat) (best : option (nat * nat))
    : option (nat * nat) :=
  match count with
  | O => best
  | S count' =>
      let best' :=
        if decide (j ∈ chosen) then best
        else
          let c := cover_count cover 0 coveredRows j in
          match best with
          | None => Some (j, c)
          | Some (_, bestCoverCount) =>
              if bestCoverCount <? c then Some (j, c) else best
          end in
      best_candidate cover chosen coveredRows (S j) count' best'
  end.

(** Phase 6; [None] when [fuel] iterations were not enough. *)
Fixpoint greedy_loop (fuel : nat) (cover : list (list nat)) (nPrimes : nat)
    (chosen : list nat) (coveredRows : gset nat) : option (list nat) :=
  if decide (size coveredRows < length cover) then
    match fuel with
    | O => None
    | S fuel' =>
        match best_candidate cover chosen coveredRows 0 nPrimes None with
        | None => Some chosen
        | Some (bestJ, _) =>
            let chosen := ordered_add bestJ chosen in
            greedy_loop fuel' cover nPrimes chosen
              (markCovered cover 0 chosen coveredRows)
        end
    end
  else Some chosen.

(** Phases 5 and 6 together. *)
Definition select_implicants (primeList minBin : list string) : option (list nat) :=
  let cover := cover_chart primeList minBin in
  let chosen := essentials cover [] in
  greedy_loop (S (length primeList)) cover (length primeList) chosen
    (markCovered cover 0 chosen ∅).

(** [vars[i]] used in a string concatenation. *)
Definition var_name (vars : list string) (i : nat) : string :=
  match vars !! i with
  | Some v => v
  | None => "undefined"
  end.

Fixpoint sop_term_loop (mask : string) (i : nat) (vars : list string)
    (s : string) : string :=
  match mask with
  | EmptyString => s
  | String c mask' =>
      if Ascii.eqb c "-" then sop_term_loop mask' (S i) vars s
      else
        let v := var_name vars i in
        sop_term_loop mask' (S i) vars
          (s +:+ (if Ascii.eqb c "1" then v else v +:+ "'"))
  end.

Definition sop_term (vars : list string) (mask : string) : string :=
  let s := sop_term_loop mask 0 vars "" in
  if String.eqb s "" then "1" else s.

Definition implicantsToSOP (impls : list string) (vars : list string) : string :=
  match impls with
  | [] => "0"
  | _ => String.concat " + " (map (sop_term vars) impls)
  end.

Fixpoint pos_term_loop (mask : string) (i : nat) (vars : list string)
    (s : string) : string :=
  match mask with
  | EmptyString => s
  | String c mask' =>
      if Ascii.eqb c "-" then pos_term_loop mask' (S i) vars s
      else
        let v := var_name vars i in
        let s := if String.eqb s "" then s else s +:+ " + " in
        pos_term_loop mask' (S i) vars
          (s +:+ (if Ascii.eqb c "0" then v else v +:+ "'"))
  end.

Definition pos_term (vars : list string) (mask : string) : string :=
  let s := pos_term_loop mask 0 vars "" in
  if String.eqb s "" then "1" else "(" +:+ s +:+ ")".

Definition implicantsToPOS (impls : list string) (vars : list string) : string :=
  match impls with
  | [] => "1"
  | _ => String.concat "" (map (pos_term vars) impls)
  end.

Inductive mode := SOP | POS.

Record qm_output := mkOutput { implicants : list string; result : string }.

(** [qmSimplify]; [None] only when the bound on the combination rounds or on
    the covering iterations was not enough. *)
Definition qmSimplify (minterms dontcares : list nat) (varNames : list string)
    (md : mode) : option qm_output :=
  let allTerms := minterms ++ dontcares in
  match allTerms with
  | [] => Some (mkOutput [] (match md with SOP => "0" | POS => "1" end))
  | _ =>
      let W := length varNames in
      let bins := map (fun m => toBin m W) allTerms in
      match prime_list (S W) bins with
      | None => None
      | Some primeList =>
          let minBin := map (fun m => toBin m W) minterms in
          match select_implicants primeList minBin with
          | None => None
          | Some chosen =>
              let implicants := map (fun j => primeList !!! j) chosen in
              Some (mkOutput implicants
                      (match md with
                       | SOP => implicantsToSOP implicants varNames
                       | POS => implicantsToPOS implicants varNames
                       end))
          end
      end
  end.

(** ** 6. K-map layout *)

Record layout := mkLayout {
  rows : list Z;
  cols : list Z;
  rowVars : list string;
  colVars : list string;
  (** [index({r, c})]; [None] is [undefined] *)
  index : nat -> nat -> option Z
}.

(** An array element used as an operand of a bitwise operator: [undefined]
    becomes [0]. *)
Definition int32_of (x : option Z) : Z :=
  match x with
  | Some v => toInt32 v
  | None => 0%Z
  end.

Definition kmapLayoutForVars (nVars : nat) : option layout :=
  match nVars with
  | 1 =>
      Some (mkLayout [0; 1]%Z [0]%Z ["A"] []
              (fun r c => GRAY2 !! r))
  | 2 =>
      Some (mkLayout GRAY2 GRAY2 ["A"] ["B"]
              (fun r c =>
                 let A := int32_of (GRAY2 !! r) in
                 let B := int32_of (GRAY2 !! c) in
                 Some (or32 (shl32 A 1) B)))
  | 3 =>
      Some (mkLayout GRAY2 GRAY4 ["A"] ["B"; "C"]
              (fun r c =>
                 let A := int32_of (GRAY2 !! r) in
                 let BC := int32_of (GRAY4 !! c) in
                 let B := and32 (shr32 BC 1) 1 in
                 let C := and32 BC 1 in
                 Some (or32 (or32 (shl32 A 2) (shl32 B 1)) C)))
  | 4 =>
      Some (mkLayout GRAY4 GRAY4 ["A"; "B"] ["C"; "D"]
              (fun r c =>
                 let AB := int32_of (GRAY4 !! r) in
                 let CD := int32_of (GRAY4 !! c) in
                 let A := and32 (shr32 AB 1) 1 in
                 let B := and32 AB 1 in
                 let C := and32 (shr32 CD 1) 1 in
                 let D := and32 CD 1 in
                 Some (or32 (or32 (or32 (shl32 A 3) (shl32 B 2)) (shl32 C 1)) D)))
  | _ => None
  end.

(** ** 7. Truth table *)

Record row := mkRow { row_m : Z; row_env : gmap string Z; row_y : Z }.

(** The inner loop [for (i = 0; i < n; i++) env[vars[i]] = (m >> (n-1-i)) & 1],
    run from index [i] over the remaining names. *)
Fixpoint assign_vars (n m : Z) (i : Z) (names : list string)
    (env : gmap string Z) : gmap string Z :=
  match names with
  | [] => env
  | v :: names' =>
      assign_vars n m (i + 1) names'
        (set_property env v (and32 (shr32 m (n - 1 - i)) 1))
  end.

Definition make_env (vars : list string) (m : Z) : gmap string Z :=
  assign_vars (Z.of_nat (length vars)) m 0 vars ∅.

(** The outer loop [for (m = 0; m < total; m++)], with [count] iterations
    left. *)
Fixpoint table_loop (vars : list string) (rpn : option (list token))
    (m : Z) (count : nat) (rows : list row) : outcome (list row) :=
  match count with
  | O => Ok rows
  | S count' =>
      let env := make_env vars m in
      y <-! match rpn with
            | Some e => evalRPN e env
            | None => Ok 0%Z
            end;
      table_loop vars rpn (m + 1) count' (rows ++ [mkRow m env y])
  end.

Definition buildTruthTable (vars : list string) (rpn : option (list token))
    : outcome (list row) :=
  let n := Z.of_nat (length vars) in
  let total := shl32 1 n in
  table_loop vars rpn 0 (Z.to_nat total) [].

(** ** 1. Utilities: the variables of an expression *)


(** [s.toUpperCase()] on a string of ASCII characters. *)
Fixpoint string_toUpperCase (s : string) : string :=
  match s with
  | EmptyString => EmptyString
  | String c s' => String (toUpperCase c) (string_toUpperCase s')
  end.

(** [uniqueSortedVars(vars)]: the [Set] keeps the first occurrence of each
    name, and [sort()] without a comparison function orders strings by their
    code units. *)
Definition code_unit_le (a b : string) : Prop := String.leb a b = true.

#[local] Instance code_unit_le_dec : RelDecision code_unit_le.
Proof. intros a b. unfold code_unit_le. apply _. Defined.

Definition uniqueSortedVars (vars : list string) : list string :=
  let set := ordered_set (map string_toUpperCase vars) in
  merge_sort code_unit_le set.

(** [expr.match(/[A-Za-z]/g) || []] *)
Definition match_letters (expr : string) : list string :=
  map char_string (filter (fun c => is_letter c = true) (list_ascii_of_string expr)).

Definition extractVars (expr : string) : list string :=
  let vars := map string_toUpperCase (match_letters expr) in
  uniqueSortedVars vars.

(** ** 9. The K-map of the application state *)

(** The data of [currentKMap] and the functions that read and write it; what
    these functions write to the page is left out.  A cell holds [0], [1] or
    ['d']. *)
Definition MAX_VARS : nat := 4.
Definition MAX_TRUTH_TABLE_VARS : nat := 8.

Inductive cell := Zero | One | DontCare.

#[global] Instance cell_eq_dec : EqDecision cell.
Proof. solve_decision. Defined.

Record kmap := mkKMap {
  km_vars : list string;
  km_n : nat;
  km_layout : option layout;
  km_cells : list cell;
  km_total : Z
}.

Definition with_cells (s : kmap) (cells : list cell) : kmap :=
  mkKMap (km_vars s) (km_n s) (km_layout s) cells (km_total s).

(** [initKMap(vars)]: [new Array(total).fill(0)] with [total = 1 << n]. *)
Definition initKMap (vars : list string) : kmap :=
  let n := Nat.min (length vars) MAX_VARS in
  let total := shl32 1 (Z.of_nat n) in
  mkKMap (take n vars) n (kmapLayoutForVars n)
    (replicate (Z.to_nat total) Zero) total.

(** The click listener of the cell with number [idx], a number below
    [total]: [cells[idx] = val === 0 ? 1 : (val === 1 ? 'd' : 0)]. *)
Definition cell_click (s : kmap) (idx : nat) : kmap :=
  let val := km_cells s !! idx in
  with_cells s
    (<[idx := match val with
              | Some Zero => One
              | Some One => DontCare
              | _ => Zero
              end]> (km_cells s)).

(** [for (const m of terms) if (m >= 0 && m < total) cells[m] = v] *)
Definition paint_terms (v : cell) (total : Z) (terms : list Z)
    (cells : list cell) : list cell :=
  fold_left
    (fun cells m =>
       if (0 <=? m)%Z && (m <? total)%Z then <[Z.to_nat m := v]> cells
       else cells)
    terms cells.

(** [paintKMapFromData(minterms, dontcares)]; the first loop writes [0] to
    the cells [0 .. total - 1], which the array always has. *)
Definition paintKMapFromData (s : kmap) (minterms dontcares : list Z) : kmap :=
  match km_layout s with
  | None => s
  | Some _ =>
      let total := km_total s in
      let cells :=
        fold_left (fun cells i => <[i := Zero]> cells)
          (seq 0 (Z.to_nat total)) (km_cells s) in
      let cells := paint_terms One total minterms cells in
      let cells := paint_terms DontCare total dontcares cells in
      with_cells s cells
  end.

(** The loop of [collectDataFromKMap], with [count] cells left from [i]. *)
Fixpoint collect_loop (cells : list cell) (i count : nat)
    (minterms dontcares : list nat) : list nat * list nat :=
  match count with
  | O => (minterms, dontcares)
  | S count' =>
      match cells !! i with
      | Some One => collect_loop cells (S i) count' (minterms ++ [i]) dontcares
      | Some DontCare => collect_loop cells (S i) count' minterms (dontcares ++ [i])
      | _ => collect_loop cells (S i) count' minterms dontcares
      end
  end.

(** [collectDataFromKMap()]; [sort((a, b) => a - b)] orders numbers. *)
Definition collectDataFromKMap (s : kmap) : list nat * list nat :=
  let '(minterms, dontcares) :=
    collect_loop (km_cells s) 0 (Z.to_nat (km_total s)) [] [] in
  (merge_sort Nat.le minterms, merge_sort Nat.le dontcares).

(** [simplifyFromKMap()]: the text written to the result field; [None] as
    for [qmSimplify]. *)
Definition simplifyFromKMap (s : kmap) (md : mode) : option string :=
  if km_n s =? 0 then
    Some (match km_cells s !! 0 with Some One => "1" | _ => "0" end)
  else
    let '(minterms1, dontcares) := collectDataFromKMap s in
    let effectiveMinterms :=
      match md with
      | SOP => minterms1
      | POS =>
          let allTerms := seq 0 (Z.to_nat (km_total s)) in
          let onAndDC : gset nat := list_to_set (minterms1 ++ dontcares) in
          filter (fun m => m ∉ onAndDC) allTerms
      end in
    match qmSimplify effectiveMinterms dontcares (km_vars s) md with
    | Some out => Some (result out)
    | None => None
    end.

(** ** 11. Event handlers: the Evaluate button *)

(** [s.trim()] on a string of 8-bit code units. *)
Fixpoint trimStart (s : string) : string :=
  match s with
  | EmptyString => EmptyString
  | String c s' => if is_whitespace c then trimStart s' else s
  end.

Fixpoint trimEnd (s : string) : string :=
  match s with
  | EmptyString => EmptyString
  | String c s' =>
      match trimEnd s' with
      | EmptyString => if is_whitespace c then EmptyString else String c EmptyString
      | rest => String c rest
      end
  end.

Definition trim (s : string) : string := trimEnd (trimStart s).

(** The three [showError(...); return] of the click handler of [btnEval]. *)
Inductive rejection := EmptyExpression | NoVariables | TooManyVariables.

(** What the handler leaves when it reaches [showSuccess]: [currentVars],
    [currentRPN], the rows given to [renderTruthTable], [minFull],
    [currentKMap], and the text of [outSimplified], where [None] is the
    notice that the K-map is for at most four variables. *)
Record evaluated := mkEvaluated {
  ev_vars : list string;
  ev_rpn : list token;
  ev_rows : list row;
  ev_minFull : list Z;
  ev_kmap : kmap;
  ev_simplified : option string
}.

Inductive evaluation :=
  | Rejected (r : rejection)
  | Thrown (e : error)
  | Evaluated (ev : evaluated).

(** The click handler of [btnEval] on the text [value] of the input field;
    [Thrown] is the [catch] branch, and the result is [None] as for
    [qmSimplify].  [minFull] holds the numbers [m] of rows, which
    [qmSimplify] takes as natural numbers. *)
Definition btnEval_click (value : string) (currentMode : mode)
    : option evaluation :=
  let expr := trim value in
  if String.eqb expr "" then Some (Rejected EmptyExpression)
  else
    let vars0 := extractVars expr in
    if length vars0 =? 0 then Some (Rejected NoVariables)
    else if MAX_TRUTH_TABLE_VARS <? length vars0 then
      Some (Rejected TooManyVariables)
    else
      let currentVars := take MAX_TRUTH_TABLE_VARS vars0 in
      match (toks <-! tokenize expr;
             currentRPN <-! toRPN toks;
             rows <-! buildTruthTable currentVars (Some currentRPN);
             Ok (currentRPN, rows)) with
      | Err e => Some (Thrown e)
      | Ok (currentRPN, rows) =>
          let minFull := map row_m (filter (fun r => row_y r = 1%Z) rows) in
          let kVars := take MAX_VARS currentVars in
          let km := initKMap kVars in
          if length currentVars <=? MAX_VARS then
            let km := paintKMapFromData km minFull [] in
            let effectiveMinterms :=
              match currentMode with
              | SOP => map Z.to_nat minFull
              | POS =>
                  let allTerms := seq 0 (Z.to_nat (km_total km)) in
                  let onAndDC : gset Z := list_to_set minFull in
                  filter (fun m => Z.of_nat m ∉ onAndDC) allTerms
              end in
            match qmSimplify effectiveMinterms [] kVars currentMode with
            | Some out =>
                Some (Evaluated
                        (mkEvaluated currentVars currentRPN rows minFull km
                           (Some (result out))))
            | None => None
            end
          else
            Some (Evaluated
                    (mkEvaluated currentVars currentRPN rows minFull km None))
      end.

(** * Vocabulary of the properties *)

(** ** The K-map grid *)

(** The binary representations of [x] and [y] differ in exactly one bit. *)
Definition one_bit_apart (x y : Z) : Prop :=
  ∃ k, (0 ≤ k)%Z ∧
    ∀ i, (0 ≤ i)%Z → Z.testbit x i ≠ Z.testbit y i ↔ i = k.

(** Two distinct cells of the grid of [L] that are neighbours in a row or in
    a column, the last row (column) being a neighbour of the first. *)
Definition next_in (len i : nat) : nat := (i + 1) mod len.

Definition adjacent_cells (L : layout) (p q : nat * nat) : Prop :=
  let R := length (rows L) in
  let C := length (cols L) in
  p.1 < R ∧ p.2 < C ∧ q.1 < R ∧ q.2 < C ∧ p ≠ q ∧
  ((p.2 = q.2 ∧ (q.1 = next_in R p.1 ∨ p.1 = next_in R q.1)) ∨
   (p.1 = q.1 ∧ (q.2 = next_in C p.2 ∨ p.2 = next_in C q.2))).

(** ** The tokenizer *)

(** The inner loop of [tokenize] that counts the apostrophes after a
    variable, as a function of its own. *)
Fixpoint quotes_loop (tokens : list token) (s : string) (i negCount : nat)
    : outcome (list token) :=
  let finish :=
    tokenize_loop s i
      (if Nat.odd negCount then tokens ++ [postfix_not] else tokens) in
  match s with
  | EmptyString => finish
  | String c s' =>
      if Ascii.eqb c "'" then quotes_loop tokens s' (S i) (S negCount)
      else finish
  end.

(** Reading [p] from left to right: is the last character read a letter, or
    an apostrophe of a run of apostrophes that follows a letter?  [st] is the
    answer for what precedes [p]. *)
Fixpoint letter_run (p : string) (st : bool) : bool :=
  match p with
  | EmptyString => st
  | String c p' =>
      letter_run p'
        (if is_letter c then true else if Ascii.eqb c "'" then st else false)
  end.

(** An apostrophe placed right after the stripped text [p] follows a letter,
    possibly with further apostrophes in between. *)
Definition apostrophe_follows_letter (p : string) : bool := letter_run p false.

(** What the scanner does at a token boundary followed by [p] and then an
    apostrophe that no letter run of [p] reaches. *)
Definition fails_at_apostrophe (rest p : string) : Prop :=
  ∀ i tokens,
    ∃ pos ch,
      tokenize_loop (p +:+ String "'" rest) i tokens = Err (LexError pos ch)
      ∧ pos ≤ i + String.length p
      ∧ (∀ toks, tokenize_loop p i tokens = Ok toks →
           pos = i + String.length p ∧ ch = "'"%char).

(** The same inside the apostrophe loop of a variable. *)
Definition quotes_fail_at_apostrophe (rest p : string) : Prop :=
  ∀ i tokens negCount,
    ∃ pos ch,
      quotes_loop tokens (p +:+ String "'" rest) i negCount
        = Err (LexError pos ch)
      ∧ pos ≤ i + String.length p
      ∧ (∀ toks, quotes_loop tokens p i negCount = Ok toks →
           pos = i + String.length p ∧ ch = "'"%char).

Fixpoint no_whitespace (s : string) : bool :=
  match s with
  | EmptyString => true
  | String c s' => negb (is_whitespace c) && no_whitespace s'
  end.

(** ** The evaluator and the truth table *)

(** A boolean as the number the evaluator returns. *)
Definition bit_of (v : bool) : Z := if v then 1%Z else 0%Z.

(** The assignment A=1, B=0, C=0. *)
Definition env_100 : gmap string Z :=
  <["A" := 1%Z]> (<["B" := 0%Z]> (<["C" := 0%Z]> ∅)).

(** The output of a row: [rpn ? evalRPN(rpn, env) : 0]. *)
Definition row_output (rpn : option (list token)) (env : gmap string Z)
    : outcome Z :=
  match rpn with
  | Some e => evalRPN e env
  | None => Ok 0%Z
  end.

(** Bit [k] of [m], as a number. *)
Definition bit (m : nat) (k : nat) : Z := Z.b2z (Z.testbit (Z.of_nat m) (Z.of_nat k)).

(** Thirty-two names that differ from each other. *)
Definition names32 : list string :=
  map (fun k => char_string (ascii_of_nat (65 + k))) (seq 0 32).

(** ** The POS rendering *)

(** The POS rendering in the words of the specification: the literals of a
    sum term, one for each position that is not a dash (the plain variable
    for [0], the complemented one otherwise); a sum term is its literals
    joined by [" + "] in parentheses, or ["1"] without literals; the sum
    terms follow each other without separator. *)
Fixpoint pos_literals (vars : list string) (i : nat) (mask : string)
    : list string :=
  match mask with
  | EmptyString => []
  | String c mask' =>
      if Ascii.eqb c "-" then pos_literals vars (S i) mask'
      else (if Ascii.eqb c "0" then var_name vars i
            else var_name vars i +:+ "'")
           :: pos_literals vars (S i) mask'
  end.

Definition pos_sum (vars : list string) (mask : string) : string :=
  match pos_literals vars 0 mask with
  | [] => "1"
  | lits => "(" +:+ String.concat " + " lits +:+ ")"
  end.

Definition pos_text (vars impls : list string) : string :=
  match impls with
  | [] => "1"
  | _ => String.concat "" (map (pos_sum vars) impls)
  end.

(** ** Bit patterns *)

(** Strings over [0], [1], [-] and over [0], [1]; the number of dashes. *)
Definition pattern_char (c : ascii) : bool :=
  Ascii.eqb c "0" || Ascii.eqb c "1" || Ascii.eqb c "-".

Definition binary_char (c : ascii) : bool :=
  Ascii.eqb c "0" || Ascii.eqb c "1".

Fixpoint string_forall (f : ascii -> bool) (s : string) : bool :=
  match s with
  | EmptyString => true
  | String c s' => f c && string_forall f s'
  end.

Definition is_pattern (s : string) : bool := string_forall pattern_char s.
Definition is_binary (s : string) : bool := string_forall binary_char s.

Fixpoint countDashes (s : string) : nat :=
  match s with
  | EmptyString => 0
  | String c s' => if Ascii.eqb c "-" then S (countDashes s') else countDashes s'
  end.

(** The [k] low bits of [m], most significant first. *)
Definition bit_char (b : bool) : ascii := if b then "1"%char else "0"%char.

Fixpoint bits_string (m : N) (k : nat) : string :=
  match k with
  | O => EmptyString
  | S j => String (bit_char (N.testbit m (N.of_nat j))) (bits_string m j)
  end.

(** ** The combination rounds *)

(** No two implicants of a group share their bit pattern together with their
    from-set. *)
Definition same_set (l1 l2 : list string) : Prop := ∀ x, x ∈ l1 ↔ x ∈ l2.

Definition pattern_or_from_set_differ (g : list item) : Prop :=
  ∀ i j a b, i ≠ j → g !! i = Some a → g !! j = Some b →
    bin a ≠ bin b ∨ ¬ same_set (from a) (from b).

(** The groups after [k] combination rounds and their deduplication. *)
Fixpoint groups_after (k : nat) (g : groups) : groups :=
  match k with
  | O => g
  | S k' => groups_after k' (dedup_groups (combine_round g).1.2)
  end.

(** The combination loops without their state: the items of a group table,
    an item marked when a condition holds, the items pushed for one [a], and
    a sequence of pushes. *)
Definition all_items (g : groups) : list item := flat_map (fun kg => kg.2) g.

Definition mark_if (c : bool) (it : item) : item :=
  if c then mark_used it else it.

Definition can_pair (a b : item) : bool := canCombine (bin a) (bin b).

Definition pairs_of (a : item) (g2 : list item) : list item :=
  flat_map (fun b => if can_pair a b then [combined_item a b] else []) g2.

Definition push_all (its : list item) (g : groups) : groups :=
  fold_left
    (fun g it => push_group (countOnes (remove_dashes (bin it))) it g) its g.

(** Some item of [g] covers at least what [it] covers. *)
Definition has_superset (g : groups) (it : item) : Prop :=
  ∃ c, c ∈ all_items g ∧ ∀ x, covers (bin it) x = true → covers (bin c) x = true.

(** An item marked used has been combined into an item of [g]. *)
Definition used_is_combined (g : groups) (it : item) : Prop :=
  used it = true → has_superset g it.

(** A fresh item whose pattern combines two of the patterns [B]. *)
Definition combined_from (B : list string) (c : item) : Prop :=
  used c = false
  ∧ ∃ p q, p ∈ B ∧ q ∈ B ∧ canCombine p q = true ∧ bin c = combine p q.

(** [x] is covered by a prime implicant collected so far or by a pattern
    still in the groups. *)
Definition covered_by_primes (levels : list (list string)) (g : groups)
    (x : string) : Prop :=
  ∃ p, (p ∈ concat levels ∨ p ∈ all_bins g) ∧ covers p x = true.

(** A pattern of width [W] that covers no minterm outside of [X]. *)
Definition sound_pattern (W : nat) (X : list string) (p : string) : Prop :=
  is_pattern p = true ∧ String.length p = W
  ∧ ∀ x, is_binary x = true → String.length x = W → covers p x = true → x ∈ X.

(** The items of the groups in round [d]: fresh, sound, with [d] dashes. *)
Definition round_item (W d : nat) (X : list string) (it : item) : Prop :=
  used it = false ∧ countDashes (bin it) = d ∧ sound_pattern W X (bin it).

(** ** The selection phase *)

(** The selection phase in the words of the specification, over the prime
    implicants [primeList] and the true minterms [minBin]. *)
Section selection.
Variables primeList minBin : list string.

(** Implicant [j] covers minterm [i]. *)
Definition covers_row (j i : nat) : bool :=
  match primeList !! j, minBin !! i with
  | Some p, Some m => covers p m
  | _, _ => false
  end.

(** The minterms that no chosen implicant covers. *)
Definition uncovered (chosen : list nat) : list nat :=
  filter (fun i => existsb (fun j => covers_row j i) chosen = false)
    (seq 0 (length minBin)).

(** The number of uncovered minterms that implicant [j] covers. *)
Definition gain (chosen : list nat) (j : nat) : nat :=
  length (filter (fun i => covers_row j i = true) (uncovered chosen)).

(** An essential implicant is the sole coverer of some minterm. *)
Definition essential (j : nat) : Prop :=
  ∃ i, ∀ j', covers_row j' i = true ↔ j' = j.

(** The greedy loop: it stops when all minterms are covered or no implicant
    covers any remaining minterm; otherwise it adds the implicant, not chosen
    yet, that covers the most uncovered minterms, the lowest index winning
    ties, and goes on. *)
Inductive greedy_cover : list nat → list nat → Prop :=
  | greedy_stop chosen :
      uncovered chosen = [] ∨ (∀ j, gain chosen j = 0) →
      greedy_cover chosen chosen
  | greedy_pick chosen j final :
      uncovered chosen ≠ [] →
      j < length primeList → j ∉ chosen →
      0 < gain chosen j →
      (∀ j', j' < length primeList → j' ∉ chosen →
             gain chosen j' ≤ gain chosen j) →
      (∀ j', j' < j → j' ∉ chosen → gain chosen j' < gain chosen j) →
      greedy_cover (chosen ++ [j]) final →
      greedy_cover chosen final.

(** The chosen set is the essential implicants followed by the picks of the
    greedy loop, and no other list is. *)
Definition selected_as_specified (chosen : list nat) : Prop :=
  ∃ ess,
    (∀ j, j ∈ ess ↔ essential j)
    ∧ greedy_cover ess chosen
    ∧ ∀ final, greedy_cover ess final → final = chosen.

(** The state of the covering loop of the code: [coveredRows] holds the rows
    covered by [chosen]. *)
Definition covered_rows_of (chosen : list nat) (coveredRows : gset nat) : Prop :=
  ∀ i, i ∈ coveredRows ↔
       i < length minBin ∧ existsb (fun j => covers_row j i) chosen = true.

(** The implicants of the list that are not chosen yet. *)
Definition unchosen (chosen : list nat) : list nat :=
  filter (fun j => j ∉ chosen) (seq 0 (length primeList)).

(** What [best_candidate] has found after examining the candidates from
    [lo] up to [hi]. *)
Definition best_so_far (chosen : list nat) (f : nat → nat) (lo hi : nat)
    (best : option (nat * nat)) : Prop :=
  match best with
  | None => ∀ j, lo ≤ j < hi → j ∈ chosen
  | Some (bj, bc) =>
      (lo ≤ bj < hi) ∧ (bj ∉ chosen) ∧ (bc = f bj)
      ∧ (∀ j, lo ≤ j < hi → j ∉ chosen → f j ≤ bc)
      ∧ (∀ j, lo ≤ j < bj → j ∉ chosen → f j < bc)
  end.

End selection.

(** ** Sums of products *)

(** A sum of products, as the SOP rendering writes it and as the parser
    reads it back: a literal is a letter, complemented or not; a product is a
    list of literals (the empty product is the constant 1); a sum is a list
    of products. *)
Definition literal := (ascii * bool)%type.

Definition is_upper (c : ascii) : bool :=
  (65 <=? char_code c) && (char_code c <=? 90).

Definition lit_text (l : literal) : string :=
  String l.1 (if l.2 then "'" else "").

Definition lit_tokens (l : literal) : list token :=
  VAR (char_string l.1) :: (if l.2 then [postfix_not] else []).

Definition or_token : token := binary_op "OR" 1.

Definition product_text (lits : list literal) : string :=
  match lits with
  | [] => "1"
  | _ => String.concat "" (map lit_text lits)
  end.

Definition product_tokens (lits : list literal) : list token :=
  match lits with
  | [] => [NUM 1]
  | _ => flat_map lit_tokens lits
  end.

Definition product_infix (lits : list literal) : list token :=
  match lits with
  | [] => [NUM 1]
  | l :: ls => lit_tokens l ++ flat_map (fun l' => implicit_and :: lit_tokens l') ls
  end.

Definition product_rpn (lits : list literal) : list token :=
  match lits with
  | [] => [NUM 1]
  | l :: ls => lit_tokens l ++ flat_map (fun l' => lit_tokens l' ++ [implicit_and]) ls
  end.

Definition sum_tokens (terms : list (list literal)) : list token :=
  match terms with
  | [] => []
  | t :: ts => product_tokens t ++ flat_map (fun t' => or_token :: product_tokens t') ts
  end.

Definition sum_infix (terms : list (list literal)) : list token :=
  match terms with
  | [] => []
  | t :: ts => product_infix t ++ flat_map (fun t' => or_token :: product_infix t') ts
  end.

Definition sum_rpn (terms : list (list literal)) : list token :=
  match terms with
  | [] => []
  | t :: ts => product_rpn t ++ flat_map (fun t' => product_rpn t' ++ [or_token]) ts
  end.

Definition lit_value (env : gmap string Z) (l : literal) : bool :=
  xorb l.2 (match env !! char_string l.1 with
            | Some x => truthy x
            | None => false
            end).

(** The literals of a mask over the letters of the variables: none for a
    dash, the letter for [1], its complement otherwise. *)
Fixpoint mask_literals (mask : string) (letters : list ascii) : list literal :=
  match mask, letters with
  | String c mask', l :: letters' =>
      if Ascii.eqb c "-" then mask_literals mask' letters'
      else (l, negb (Ascii.eqb c "1")) :: mask_literals mask' letters'
  | _, _ => []
  end.

Definition starts_with_quote (s : string) : bool :=
  match s with
  | String c _ => Ascii.eqb c "'"
  | EmptyString => false
  end.

(** An operator stack from which an AND pops nothing. *)
Definition below_and (stack : list token) : Prop :=
  stack = [] ∨ stack = [or_token].

(** The letter of a literal has a value in the environment. *)
Definition bound (env : gmap string Z) (l : literal) : Prop :=
  is_Some (env !! char_string l.1).

(** The result of a scan that started at index 0 with no tokens, seen from a
    scan that started at index [i] with [tokens] already pushed. *)
Definition resume (i : nat) (tokens : list token) (r : outcome (list token))
    : outcome (list token) :=
  match r with
  | Ok ts => Ok (tokens ++ ts)
  | Err (LexError pos ch) => Err (LexError (i + pos) ch)
  | Err e => Err e
  end.

(** The characters the scanner accepts wherever they stand. *)
Definition accepted (c : ascii) : bool :=
  Ascii.eqb c "0" || Ascii.eqb c "1" || is_letter c
  || Ascii.eqb c "(" || Ascii.eqb c ")" || Ascii.eqb c "!" || Ascii.eqb c "~"
  || Ascii.eqb c "&" || Ascii.eqb c "*" || Ascii.eqb c "+" || Ascii.eqb c "|"
  || Ascii.eqb c "^".

(** The tokens the scanner produces. *)
Definition lexed_token (t : token) : Prop :=
  t ∈ [NUM 0; NUM 1; LP; RP; prefix_not; postfix_not;
       binary_op "AND" 3; binary_op "OR" 1; binary_op "XOR" 2]
  ∨ ∃ c, is_upper c = true ∧ t = VAR (char_string c).

(** The upper-case letter [v] stands for a letter of [s]. *)
Definition names_letter_of (s : string) (v : string) : Prop :=
  ∃ c, c ∈ list_ascii_of_string s ∧ is_letter c = true
       ∧ v = char_string (toUpperCase c).

(** What a successful scan returns. *)
Definition scanned (s : string) (ts : list token) : Prop :=
  Forall lexed_token ts ∧ ∀ v, VAR v ∈ ts ↔ names_letter_of s v.

(** The first character of a name. *)
Definition first_char (s : string) : ascii :=
  match s with
  | String c _ => c
  | EmptyString => "000"%char
  end.

(** The tokens that the parser passes on to its output: all but the
    parentheses and an operator that is unary and postfix without being a
    NOT, which no branch of the loop handles. *)
Definition kept (t : token) : bool :=
  match t with
  | VAR _ | NUM _ => true
  | OP o =>
      (postfix o && String.eqb (op_value o) "NOT")
      || (unary o && negb (postfix o)) || negb (unary o)
  | LP | RP => false
  end.

Definition operand (t : token) : bool :=
  match t with
  | VAR _ | NUM _ => true
  | _ => false
  end.

(** What the operator stack holds. *)
Definition stacked (t : token) : Prop :=
  t = LP ∨ ∃ o, t = OP o ∧ kept t = true.

(** The parentheses of a token list: the number of parentheses left open
    after [tokens], starting from [depth]; [None] when a right parenthesis
    closes nothing. *)
Fixpoint paren_scan (tokens : list token) (depth : nat) : option nat :=
  match tokens with
  | [] => Some depth
  | LP :: rest => paren_scan rest (S depth)
  | RP :: rest =>
      match depth with
      | O => None
      | S d => paren_scan rest d
      end
  | _ :: rest => paren_scan rest depth
  end.

(** The left parentheses on the operator stack. *)
Fixpoint open_parens (stack : list token) : nat :=
  match stack with
  | [] => 0
  | LP :: rest => S (open_parens rest)
  | _ :: rest => open_parens rest
  end.

(** The names of the operators of the evaluator. *)
Definition operator_names : list string := ["NOT"; "AND"; "OR"; "XOR"].

(** A token on which the evaluator fails, if at all, for lack of operands:
    a variable that [env] has, an operator of a known name. *)
Definition evaluable (env : gmap string Z) (t : token) : Prop :=
  match t with
  | VAR v => has_property env v = true
  | OP o => op_value o ∈ operator_names
  | _ => True
  end.

(** ** Syntax trees *)

(** The expressions of the input language as syntax trees: a variable, a
    constant, a parenthesized expression, a postfix or prefix NOT, a binary
    operator written out, and two operands that follow each other (the
    implicit AND). *)
Inductive binop := BAnd | BXor | BOr.

Inductive tree :=
  | TVar (v : string)
  | TNum (n : Z)
  | TParen (t : tree)
  | TPostNot (t : tree)
  | TPreNot (t : tree)
  | TBin (op : binop) (a b : tree)
  | TJuxt (a b : tree).

Definition op_token (op : binop) : token :=
  match op with
  | BAnd => binary_op "AND" 3
  | BXor => binary_op "XOR" 2
  | BOr => binary_op "OR" 1
  end.

Definition op_level (op : binop) : nat :=
  match op with
  | BAnd => 3
  | BXor => 2
  | BOr => 1
  end.

(** The binding strength of the outermost construct: OR 1, XOR 2, AND 3,
    prefix NOT 4, everything else 5. *)
Definition level (t : tree) : nat :=
  match t with
  | TBin op _ _ => op_level op
  | TJuxt _ _ => 3
  | TPreNot _ => 4
  | _ => 5
  end.

(** A tree that needs no further parentheses: a postfix NOT follows a
    variable, a constant, a parenthesis or another postfix NOT; a prefix NOT
    precedes one of these or another prefix NOT; the left operand of a binary
    operator binds at least as strongly as the operator and the right operand
    more strongly (operators of the same strength group to the left). *)
Fixpoint well_formed (t : tree) : bool :=
  match t with
  | TVar _ | TNum _ => true
  | TParen t => well_formed t
  | TPostNot t => well_formed t && (5 <=? level t)
  | TPreNot t => well_formed t && (4 <=? level t)
  | TBin op a b =>
      well_formed a && well_formed b
      && (op_level op <=? level a) && (op_level op <? level b)
  | TJuxt a b =>
      well_formed a && well_formed b && (3 <=? level a) && (3 <? level b)
  end.

(** The tokens of a tree as the scanner gives them, the same with the
    implicit ANDs, and the postfix form. *)
Fixpoint tokens_of (t : tree) : list token :=
  match t with
  | TVar v => [VAR v]
  | TNum n => [NUM n]
  | TParen t => LP :: tokens_of t ++ [RP]
  | TPostNot t => tokens_of t ++ [postfix_not]
  | TPreNot t => prefix_not :: tokens_of t
  | TBin op a b => tokens_of a ++ op_token op :: tokens_of b
  | TJuxt a b => tokens_of a ++ tokens_of b
  end.

Fixpoint explicit_of (t : tree) : list token :=
  match t with
  | TVar v => [VAR v]
  | TNum n => [NUM n]
  | TParen t => LP :: explicit_of t ++ [RP]
  | TPostNot t => explicit_of t ++ [postfix_not]
  | TPreNot t => prefix_not :: explicit_of t
  | TBin op a b => explicit_of a ++ op_token op :: explicit_of b
  | TJuxt a b => explicit_of a ++ implicit_and :: explicit_of b
  end.

Fixpoint postfix_of (t : tree) : list token :=
  match t with
  | TVar v => [VAR v]
  | TNum n => [NUM n]
  | TParen t => postfix_of t
  | TPostNot t => postfix_of t ++ [postfix_not]
  | TPreNot t => postfix_of t ++ [prefix_not]
  | TBin op a b => postfix_of a ++ postfix_of b ++ [op_token op]
  | TJuxt a b => postfix_of a ++ postfix_of b ++ [implicit_and]
  end.

(** The value of a tree; a variable is read as a property of the
    environment, own or inherited, and the operands of a binary operator are
    both evaluated, the left one first. *)
Definition apply_binop (op : binop) (x y : bool) : bool :=
  match op with
  | BAnd => x && y
  | BXor => xorb x y
  | BOr => x || y
  end.

Fixpoint value_of (env : gmap string Z) (t : tree) : outcome bool :=
  match t with
  | TVar v =>
      if has_property env v then Ok (property_truthy env v)
      else Err (EvalError (UndefinedVariable v))
  | TNum n => Ok (truthy n)
  | TParen t => value_of env t
  | TPostNot t | TPreNot t => x <-! value_of env t; Ok (negb x)
  | TBin op a b =>
      x <-! value_of env a; y <-! value_of env b; Ok (apply_binop op x y)
  | TJuxt a b => x <-! value_of env a; y <-! value_of env b; Ok (x && y)
  end.

(** An operator stack on which an operator of strength [k] or more pops
    nothing. *)
Definition shields (k : nat) (stack : list token) : Prop :=
  match stack with
  | OP o :: _ => precedence o < k ∨ 4 ≤ k
  | _ => True
  end.

(** Operators of strength [k] or more. *)
Definition pending (k : nat) (s : token) : Prop :=
  ∃ o, s = OP o ∧ k ≤ precedence o ∧ precedence o ≤ 4.

(** The text of a tree, with [*], [^], [+] and [!] for the operators, and the
    trees that have one: the variables are single upper-case letters, the
    constants 0 and 1, and a postfix NOT follows a variable. *)
Definition op_text (op : binop) : string :=
  match op with
  | BAnd => "*"
  | BXor => "^"
  | BOr => "+"
  end.

Fixpoint text_of (t : tree) : string :=
  match t with
  | TVar v => v
  | TNum n => if (n =? 0)%Z then "0" else "1"
  | TParen t => "(" +:+ text_of t +:+ ")"
  | TPostNot t => text_of t +:+ "'"
  | TPreNot t => "!" +:+ text_of t
  | TBin op a b => text_of a +:+ op_text op +:+ text_of b
  | TJuxt a b => text_of a +:+ text_of b
  end.

Definition upper_name (v : string) : bool :=
  match v with
  | String c EmptyString => is_upper c
  | _ => false
  end.

Fixpoint printable (t : tree) : bool :=
  match t with
  | TVar v => upper_name v
  | TNum n => (n =? 0)%Z || (n =? 1)%Z
  | TPostNot (TVar v) => upper_name v
  | TPostNot _ => false
  | TParen t | TPreNot t => printable t
  | TBin _ a b | TJuxt a b => printable a && printable b
  end.

(** ** Products of sums *)

(** The literals of a mask in a product of sums: none for a dash, the letter
    for [0], its complement otherwise. *)
Fixpoint pos_mask_literals (mask : string) (letters : list ascii) : list literal :=
  match mask, letters with
  | String c mask', l :: letters' =>
      if Ascii.eqb c "-" then pos_mask_literals mask' letters'
      else (l, negb (Ascii.eqb c "0")) :: pos_mask_literals mask' letters'
  | _, _ => []
  end.

(** The syntax trees of a literal, of a sum of literals in parentheses (the
    constant 1 without literals) and of a product of such sums. *)
Definition literal_tree (l : literal) : tree :=
  if l.2 then TPostNot (TVar (char_string l.1)) else TVar (char_string l.1).

Definition sum_tree (lits : list literal) : tree :=
  match lits with
  | [] => TNum 1
  | l :: ls =>
      TParen (fold_left (fun acc l' => TBin BOr acc (literal_tree l')) ls
                (literal_tree l))
  end.

Definition product_tree (factors : list (list literal)) : tree :=
  match factors with
  | [] => TNum 1
  | f :: fs => fold_left (fun acc f' => TJuxt acc (sum_tree f')) fs (sum_tree f)
  end.

(** The value of a factor of the product on the row [x]: an implicant of
    dashes only is written as the constant 1. *)
Definition pos_factor (p x : string) : bool :=
  (countDashes p =? String.length p) || negb (covers p x).

(** ** The cells of the K-map *)

(** The cells of the grid of [L], row by row, and the numbers they hold. *)
Definition grid_cells (L : layout) : list (nat * nat) :=
  flat_map (fun r => map (fun c => (r, c)) (seq 0 (length (cols L))))
    (seq 0 (length (rows L))).

Definition grid_numbers (L : layout) : list (option Z) :=
  map (fun rc => index L rc.1 rc.2) (grid_cells L).

(** The number that the labels of row [r] and column [c] spell: the row code
    followed by the column code. *)
Definition labelled (L : layout) (r c : nat) : option Z :=
  match rows L !! r, cols L !! c with
  | Some rv, Some cv => Some (rv * 2 ^ Z.of_nat (length (colVars L)) + cv)%Z
  | _, _ => None
  end.

(** ** Prime implicants *)

(** One combination round without its state.  An item is marked when it
    pairs with an item of the group before it or of the group after it; the
    new items are the pairs of each group with the next; [anyCombined] tells
    whether there is such a pair. *)
Definition next_group (rest : groups) : list item :=
  match rest with
  | (_, g2) :: _ => g2
  | [] => []
  end.

Definition marked (prev next : list item) (a : item) : item :=
  mark_if (existsb (fun b => can_pair b a) prev || existsb (can_pair a) next) a.

Fixpoint mark_round (prev : list item) (G : groups) : groups :=
  match G with
  | [] => []
  | (k, g) :: rest =>
      (k, map (marked prev (next_group rest)) g) :: mark_round g rest
  end.

Fixpoint pairs_round (G : groups) : list item :=
  match G with
  | [] => []
  | (_, g) :: rest =>
      flat_map (fun a => pairs_of a (next_group rest)) g ++ pairs_round rest
  end.

Fixpoint any_round (G : groups) : bool :=
  match G with
  | [] => false
  | (_, g) :: rest =>
      existsb (fun a => existsb (can_pair a) (next_group rest)) g || any_round rest
  end.

(** [q] is [p] with some of its characters replaced by dashes: every row
    that [p] covers, [q] covers. *)
Fixpoint generalizes (q p : string) : bool :=
  match q, p with
  | EmptyString, EmptyString => true
  | String a q', String b p' =>
      (Ascii.eqb a "-" || Ascii.eqb a b) && generalizes q' p'
  | _, _ => false
  end.

(** A prime implicant of the terms [X]: an implicant that no other implicant
    generalizes. *)
Definition prime_implicant (W : nat) (X : list string) (p : string) : Prop :=
  sound_pattern W X p
  ∧ ∀ q, sound_pattern W X q → generalizes q p = true → q = p.

(** The keys of the groups increase and the items of a group have as many
    ones as its key says. *)
Definition ascending (G : groups) : Prop :=
  StronglySorted (fun x y : nat * list item => x.1 < y.1) G
  ∧ Forall (fun kg : nat * list item =>
              Forall (fun it => countOnes (bin it) = kg.1) kg.2) G.

(** The groups hold every implicant with [d] dashes. *)
Definition level_complete (W d : nat) (X : list string) (G : groups) : Prop :=
  ∀ p, sound_pattern W X p → countDashes p = d → p ∈ all_bins G.

(** ** The K-map state *)

(** A K-map with a grid: the array has [total] cells. *)
Definition kmap_ok (s : kmap) : Prop :=
  km_layout s ≠ None ∧ Z.of_nat (length (km_cells s)) = km_total s.

(** The cells that show [v], in ascending order. *)
Definition cells_showing (v : cell) (s : kmap) : list nat :=
  filter (fun i => km_cells s !! i = Some v) (seq 0 (length (km_cells s))).

(** A K-map for the variables [vars], as [initKMap(vars)] makes it, with any
    cells. *)
Definition kmap_for (vars : list string) (s : kmap) : Prop :=
  let n := Nat.min (length vars) MAX_VARS in
  km_vars s = take n vars ∧ km_n s = n
  ∧ km_layout s = kmapLayoutForVars n
  ∧ km_total s = Z.of_nat (2 ^ n)
  ∧ length (km_cells s) = 2 ^ n.

(** * Properties *)

(** ** The worked example of the specification *)

(** C9: tokenizing [AB'+C] gives Var A, Var B, postfix NOT, OR, Var C; the
    parser inserts an implicit AND between A and B, ahead of the postfix NOT,
    and outputs the postfix sequence A B NOT AND C OR; evaluating it with
    A=1, B=0, C=0 returns 1. *)
Theorem example_AB_not_plus_C :
  tokenize "AB'+C"
    = Ok [VAR "A"; VAR "B"; postfix_not; binary_op "OR" 1; VAR "C"]
  ∧ insertImplicit [VAR "A"; VAR "B"; postfix_not; binary_op "OR" 1; VAR "C"]
    = [VAR "A"; implicit_and; VAR "B"; postfix_not; binary_op "OR" 1; VAR "C"]
  ∧ toRPN [VAR "A"; VAR "B"; postfix_not; binary_op "OR" 1; VAR "C"]
    = Ok [VAR "A"; VAR "B"; postfix_not; implicit_and; VAR "C";
          binary_op "OR" 1]
  ∧ evalRPN [VAR "A"; VAR "B"; postfix_not; implicit_and; VAR "C";
             binary_op "OR" 1] env_100 = Ok 1%Z.
Proof. repeat split; vm_compute; reflexivity. Qed.

(** ** Gray-code adjacency of the K-map layout *)

Lemma xor_pow2_one_bit x y k :
  (0 ≤ k)%Z → Z.lxor x y = (2 ^ k)%Z → one_bit_apart x y.
Proof.
  intros Hk Hxor. exists k. split; [done|]. intros i Hi.
  assert (Hbit : xorb (Z.testbit x i) (Z.testbit y i) = (k =? i)%Z).
  { rewrite <- Z.lxor_spec, Hxor. by apply Z.pow2_bits_eqb. }
  destruct (Z.eqb_spec k i) as [->|Hne];
    destruct (Z.testbit x i), (Z.testbit y i); simpl in Hbit;
    try discriminate; split; intros; try done; congruence.
Qed.

Ltac bounded_cases n :=
  repeat (destruct n as [|n]; [|try (exfalso; simpl in *; lia)]);
  try (exfalso; simpl in *; lia).

Ltac one_bit_goal :=
  do 2 eexists; split; [reflexivity|]; split; [reflexivity|];
  first [ apply (xor_pow2_one_bit _ _ 0); [lia|by vm_compute]
        | apply (xor_pow2_one_bit _ _ 1); [lia|by vm_compute]
        | apply (xor_pow2_one_bit _ _ 2); [lia|by vm_compute]
        | apply (xor_pow2_one_bit _ _ 3); [lia|by vm_compute] ].

Ltac adjacency_cases :=
  let r := fresh "r" in let c := fresh "c" in
  let r' := fresh "r'" in let c' := fresh "c'" in
  intros [r c] [r' c'] (Hr & Hc & Hr' & Hc' & Hne & Hadj);
  simpl in Hr, Hc, Hr', Hc';
  bounded_cases r; bounded_cases c; bounded_cases r'; bounded_cases c';
  first [ by (exfalso; apply Hne)
        | by (exfalso; vm_compute in Hadj;
              destruct Hadj as [[? [?|?]]|[? [?|?]]]; discriminate)
        | one_bit_goal ].

(** C6: for n = 1, 2, 3, 4 the layout generator returns a layout in which
    any two adjacent cells (row or column neighbours, the last row and
    column wrapping to the first) are mapped by [index] to minterm indices
    whose binary representations differ in exactly one bit. *)
Theorem gray_code_adjacency (n : nat) :
  1 ≤ n ≤ 4 →
  ∃ L, kmapLayoutForVars n = Some L ∧
    ∀ p q, adjacent_cells L p q →
      ∃ x y, index L p.1 p.2 = Some x ∧ index L q.1 q.2 = Some y ∧
             one_bit_apart x y.
Proof.
  intros Hn.
  destruct n as [|[|[|[|[|n]]]]]; try lia;
    (eexists; split; [reflexivity|]); adjacency_cases.
Qed.

Lemma gray_code_adjacency_witness :
  ∃ L, kmapLayoutForVars 4 = Some L ∧
    ∃ x y, index L 3 2 = Some x ∧ index L 0 2 = Some y ∧ one_bit_apart x y.
Proof.
  destruct (gray_code_adjacency 4 ltac:(lia)) as (L & HL & Hadj).
  exists L. split; [exact HL|].
  apply (Hadj (3, 2) (0, 2)).
  injection HL as <-. unfold adjacent_cells; simpl.
  repeat split; try lia; try discriminate.
Defined.

(** ** Deduplication of combined implicants *)

(** C3 (evaluated on the code): for the minterms 0, 1, 2, 3 over two
    variables the group left by the second combination round and its
    deduplication holds the pattern [--] twice, with the same from-set listed
    in two different orders, so two surviving implicants share their bit
    pattern and their from-set. *)
Theorem dedup_keeps_reordered_from_sets :
  let its := [mkItem "--" false ["00"; "01"; "10"; "11"];
              mkItem "--" false ["00"; "10"; "01"; "11"]] in
  groups_after 2 (initial_groups (map (fun m => toBin m 2) [0; 1; 2; 3]))
    = [(0, its)]
  ∧ ¬ pattern_or_from_set_differ its.
Proof.
  split; [by vm_compute|].
  intros Hdiff.
  destruct (Hdiff 0 1 _ _ ltac:(lia) eq_refl eq_refl) as [Hbin|Hfrom].
  - by apply Hbin.
  - apply Hfrom. intros x. simpl. rewrite !elem_of_cons, !elem_of_nil. tauto.
Qed.

(** ** The evaluator *)

Lemma eval_loop_app env pre post stack :
  eval_loop env (pre ++ post) stack
  = (stack' <-! eval_loop env pre stack; eval_loop env post stack').
Proof.
  revert stack. induction pre as [|tok pre IH]; intros stack; simpl; [done|].
  destruct (eval_token env tok stack); simpl; [apply IH|done].
Qed.

(** The properties of an environment. *)
Lemma has_property_own env v x :
  env !! v = Some x →
  has_property env v = true ∧ property_truthy env v = truthy x.
Proof. intros H. unfold has_property, property_truthy. by rewrite H. Qed.


Lemma eval_token_own env v x stack :
  env !! v = Some x → eval_token env (VAR v) stack = Ok (truthy x :: stack).
Proof.
  intros H. cbn [eval_token].
  by destruct (has_property_own env v x H) as [-> ->].
Qed.

Lemma set_property_lookup_ne env k x v :
  v ≠ k → set_property env k x !! v = env !! v.
Proof.
  intros Hne. unfold set_property.
  destruct (env !! k); [by rewrite lookup_insert_ne|].
  destruct (String.eqb k "__proto__"); [done|by rewrite lookup_insert_ne].
Qed.

Lemma set_property_lookup env k x :
  k ≠ "__proto__" → set_property env k x !! k = Some x.
Proof.
  intros Hne. unfold set_property.
  destruct (env !! k); [by rewrite lookup_insert_eq|].
  destruct (String.eqb_spec k "__proto__"); [done|by rewrite lookup_insert_eq].
Qed.

Lemma set_property_has env k x : has_property (set_property env k x) k = true.
Proof.
  unfold set_property, has_property.
  destruct (env !! k) eqn:Hk; [by rewrite lookup_insert_eq|].
  destruct (String.eqb_spec k "__proto__") as [->|_];
    [by rewrite Hk|by rewrite lookup_insert_eq].
Qed.

Lemma char_string_not_proto c : char_string c ≠ "__proto__".
Proof. unfold char_string. discriminate. Qed.




(** ** The tokenizer and apostrophes *)

Lemma quotes_loop_eq tokens s i negCount :
  (fix quotes (s : string) (i negCount : nat) {struct s} :=
     let finish :=
       tokenize_loop s i
         (if Nat.odd negCount then tokens ++ [postfix_not] else tokens) in
     match s with
     | EmptyString => finish
     | String c s' =>
         if Ascii.eqb c "'" then quotes s' (S i) (S negCount) else finish
     end) s i negCount
  = quotes_loop tokens s i negCount.
Proof.
  revert i negCount. induction s as [|c s IH]; intros i negCount; [done|].
  simpl. destruct (Ascii.eqb c "'"); [apply IH|done].
Qed.

Lemma tokenize_loop_letter ch rest i tokens :
  Ascii.eqb ch "0" || Ascii.eqb ch "1" = false →
  is_letter ch = true →
  tokenize_loop (String ch rest) i tokens
  = quotes_loop (tokens ++ [VAR (char_string (toUpperCase ch))]) rest (S i) 0.
Proof.
  intros Hd Hl. cbn [tokenize_loop]. rewrite Hd, Hl. apply quotes_loop_eq.
Qed.

Lemma is_letter_not_quote c : is_letter c = true → Ascii.eqb c "'" = false.
Proof.
  destruct (Ascii.eqb_spec c "'") as [->|]; [by vm_compute|done].
Qed.

(** The apostrophe loop stops at the first character that is not an
    apostrophe. *)
Lemma quotes_loop_stop tokens c s i negCount :
  Ascii.eqb c "'" = false →
  quotes_loop tokens (String c s) i negCount
  = tokenize_loop (String c s) i
      (if Nat.odd negCount then tokens ++ [postfix_not] else tokens).
Proof. intros Hc. cbn [quotes_loop]. by rewrite Hc. Qed.

Lemma letter_run_reset c p st :
  Ascii.eqb c "'" = false →
  letter_run (String c p) st = letter_run (String c p) false.
Proof. intros Hc. simpl. by rewrite Hc. Qed.

Lemma string_app_cons c (s t : string) : String c s +:+ t = String c (s +:+ t).
Proof. done. Qed.

Lemma string_app_length (s t : string) :
  String.length (s +:+ t) = String.length s + String.length t.
Proof. induction s as [|c s IH]; simpl; [done|]. by rewrite IH. Qed.

Section apostrophe.
Variable rest : string.

Lemma scan_to_apostrophe p :
  (letter_run p false = false → fails_at_apostrophe rest p)
  ∧ (letter_run p true = false → quotes_fail_at_apostrophe rest p).
Proof.
  induction p as [|c p [IHtok IHquo]].
  - split; [|done]. intros _ i tokens. exists i, "'"%char.
    split; [done|]. split; [simpl; lia|]. intros _ _. simpl. split; [lia|done].
  - assert (Hstep : ∀ i tokens',
      letter_run p false = false →
      ∃ pos ch,
        tokenize_loop (p +:+ String "'" rest) (S i) tokens'
          = Err (LexError pos ch)
        ∧ pos ≤ i + String.length (String c p)
        ∧ (∀ toks, tokenize_loop p (S i) tokens' = Ok toks →
             pos = i + String.length (String c p) ∧ ch = "'"%char)).
    { intros i tokens' Hrun.
      destruct (IHtok Hrun (S i) tokens') as (pos & ch & Heq & Hle & Hok).
      exists pos, ch. simpl. split; [done|]. split; [lia|].
      intros toks Htoks. destruct (Hok toks Htoks). split; [lia|done]. }
    assert (Htoken : letter_run (String c p) false = false →
                     fails_at_apostrophe rest (String c p)).
    { intros Hrun i tokens. rewrite string_app_cons.
      destruct (Ascii.eqb c "0" || Ascii.eqb c "1") eqn:Hdigit.
      { assert (is_letter c = false) as Hl.
        { destruct (Ascii.eqb_spec c "0") as [->|]; [done|].
          destruct (Ascii.eqb_spec c "1") as [->|]; done. }
        assert (Ascii.eqb c "'" = false) as Hq.
        { destruct (Ascii.eqb_spec c "0") as [->|]; [done|].
          destruct (Ascii.eqb_spec c "1") as [->|]; done. }
        simpl in Hrun. rewrite Hl, Hq in Hrun.
        cbn [tokenize_loop]. rewrite Hdigit. by apply Hstep. }
      destruct (is_letter c) eqn:Hletter.
      { rewrite !tokenize_loop_letter by done.
        simpl in Hrun. rewrite Hletter in Hrun.
        destruct (IHquo Hrun (S i)
                    (tokens ++ [VAR (char_string (toUpperCase c))]) 0)
          as (pos & ch & Heq & Hle & Hok).
        exists pos, ch. simpl. split; [done|]. split; [lia|].
        intros toks Htoks. destruct (Hok toks Htoks). split; [lia|done]. }
      cbn [tokenize_loop]. rewrite Hdigit, Hletter.
      destruct (Ascii.eqb c "'") eqn:Hquote.
      { apply Ascii.eqb_eq in Hquote as ->.
        exists i, "'"%char. simpl. split; [done|]. split; [lia|done]. }
      simpl in Hrun. rewrite Hletter, Hquote in Hrun.
      repeat match goal with
             | |- context [if ?b then _ else _] =>
                 destruct b; [by apply Hstep|]
             end.
      exists i, c. split; [done|]. split; [lia|done]. }
    split; [done|].
    intros Hrun i tokens negCount. rewrite string_app_cons.
    destruct (Ascii.eqb c "'") eqn:Hquote.
    + cbn [quotes_loop]. rewrite Hquote.
      simpl in Hrun. rewrite Hquote in Hrun.
      assert (is_letter c = false) as Hl.
      { apply Ascii.eqb_eq in Hquote as ->. done. }
      rewrite Hl in Hrun.
      destruct (IHquo Hrun (S i) tokens (S negCount))
        as (pos & ch & Heq & Hle & Hok).
      exists pos, ch. simpl. split; [done|]. split; [lia|].
      intros toks Htoks. destruct (Hok toks Htoks). split; [lia|done].
    + rewrite !quotes_loop_stop by done.
      rewrite letter_run_reset in Hrun by done.
      rewrite <- string_app_cons. by apply Htoken.
Qed.
End apostrophe.

Lemma strip_no_whitespace raw : no_whitespace (strip_whitespace raw) = true.
Proof.
  induction raw as [|c raw IH]; [done|]. simpl.
  destruct (is_whitespace c) eqn:Hc; [done|]. simpl. by rewrite Hc.
Qed.

Lemma no_whitespace_app_l (s t : string) :
  no_whitespace (s +:+ t) = true → no_whitespace s = true.
Proof.
  induction s as [|c s IH]; simpl; [done|].
  intros [Hc Hs]%andb_true_iff. rewrite Hc. simpl. by apply IH.
Qed.

Lemma strip_fixed s : no_whitespace s = true → strip_whitespace s = s.
Proof.
  induction s as [|c s IH]; simpl; [done|].
  intros [Hc Hs]%andb_true_iff. apply negb_true_iff in Hc. rewrite Hc.
  by rewrite IH.
Qed.

(** C10: an apostrophe is accepted only right after a letter (or after the
    apostrophes that follow a letter), positions being those of the input
    without its whitespace.  If the text before an apostrophe does not end
    that way -- it is empty, or ends with a digit, a parenthesis or an
    operator -- tokenizing fails with a LexError no later than that
    apostrophe, and when the text before it is itself accepted the error
    carries the apostrophe and its position. *)
Theorem apostrophe_only_after_letter raw p rest :
  strip_whitespace raw = p +:+ String "'" rest →
  apostrophe_follows_letter p = false →
  (∃ pos ch, tokenize raw = Err (LexError pos ch) ∧ pos ≤ String.length p)
  ∧ (∀ toks, tokenize p = Ok toks →
       tokenize raw = Err (LexError (String.length p) "'")).
Proof.
  intros Hraw Hrun.
  destruct (proj1 (scan_to_apostrophe rest p) Hrun 0 [])
    as (pos & ch & Heq & Hle & Hok).
  unfold tokenize. rewrite Hraw. split.
  - exists pos, ch. split; [done|]. simpl in Hle. lia.
  - intros toks Htoks. rewrite strip_fixed in Htoks.
    + destruct (Hok toks Htoks) as [-> ->]. by rewrite Heq.
    + apply (no_whitespace_app_l _ (String "'" rest)).
      rewrite <- Hraw. apply strip_no_whitespace.
Qed.

Lemma apostrophe_only_after_letter_witness :
  tokenize "( A + B )'" = Err (LexError 5 "'")
  ∧ tokenize "'A" = Err (LexError 0 "'")
  ∧ tokenize "1'" = Err (LexError 1 "'").
Proof.
  split; [|split].
  - apply (proj2 (apostrophe_only_after_letter "( A + B )'" "(A+B)" ""
                    eq_refl eq_refl)
             [LP; VAR "A"; binary_op "OR" 1; VAR "B"; RP] eq_refl).
  - apply (proj2 (apostrophe_only_after_letter "'A" "" "A" eq_refl eq_refl)
             [] eq_refl).
  - apply (proj2 (apostrophe_only_after_letter "1'" "1" "" eq_refl eq_refl)
             [NUM 1] eq_refl).
Defined.

(** ** POS rendering *)

Lemma string_app_nil_r (s : string) : s +:+ "" = s.
Proof. induction s as [|c s IH]; [done|]. by rewrite string_app_cons, IH. Qed.

Lemma string_app_assoc (s t u : string) : s +:+ (t +:+ u) = (s +:+ t) +:+ u.
Proof.
  induction s as [|c s IH]; [done|]. by rewrite !string_app_cons, IH.
Qed.

Lemma string_app_nonempty_r (s t : string) : t ≠ "" → s +:+ t ≠ "".
Proof. intros Ht. destruct s; [done|]. by rewrite string_app_cons. Qed.

Lemma string_eqb_empty (s : string) : s ≠ "" → String.eqb s "" = false.
Proof. intros Hs. by apply String.eqb_neq. Qed.

Lemma var_name_nonempty vars i :
  Forall (fun v => v ≠ "") vars → var_name vars i ≠ "".
Proof.
  intros Hvars. unfold var_name. destruct (vars !! i) as [v|] eqn:Hv; [|done].
  eapply Forall_lookup_1 in Hvars; eauto.
Qed.

Lemma pos_literals_nonempty vars i mask :
  Forall (fun v => v ≠ "") vars →
  Forall (fun l => l ≠ "") (pos_literals vars i mask).
Proof.
  intros Hvars. revert i.
  induction mask as [|c mask IH]; intros i; simpl; [constructor|].
  destruct (Ascii.eqb c "-"); [apply IH|]. constructor; [|apply IH].
  destruct (Ascii.eqb c "0"); [by apply var_name_nonempty|].
  by apply string_app_nonempty_r.
Qed.

Lemma concat_empty_cons (y : string) (ys : list string) :
  String.concat "" (y :: ys) = y +:+ String.concat "" ys.
Proof.
  destruct ys as [|z ys]; [by rewrite string_app_nil_r|done].
Qed.

Lemma concat_sep_cons (sep l : string) (ls : list string) :
  String.concat sep (l :: ls)
  = l +:+ String.concat "" (map (fun x => sep +:+ x) ls).
Proof.
  revert l. induction ls as [|x ls IH]; intros l.
  - by rewrite string_app_nil_r.
  - change (String.concat sep (l :: x :: ls))
      with (l +:+ sep +:+ String.concat sep (x :: ls)).
    rewrite IH. cbn [map]. rewrite concat_empty_cons.
    by rewrite <- !string_app_assoc.
Qed.

(** The accumulator of the loop once a first literal has been appended. *)
Lemma pos_term_loop_started vars mask i s :
  Forall (fun v => v ≠ "") vars → s ≠ "" →
  pos_term_loop mask i vars s
  = s +:+ String.concat "" (map (fun l => " + " +:+ l) (pos_literals vars i mask)).
Proof.
  intros Hvars. revert i s.
  induction mask as [|c mask IH]; intros i s Hs; simpl.
  { by rewrite string_app_nil_r. }
  destruct (Ascii.eqb c "-"); [by apply IH|].
  rewrite (string_eqb_empty s Hs).
  rewrite IH.
  - cbn [map]. rewrite concat_empty_cons. by rewrite <- !string_app_assoc.
  - apply string_app_nonempty_r.
    destruct (Ascii.eqb c "0"); [by apply var_name_nonempty|].
    by apply string_app_nonempty_r.
Qed.

Lemma pos_term_spec vars mask :
  Forall (fun v => v ≠ "") vars → pos_term vars mask = pos_sum vars mask.
Proof.
  intros Hvars. unfold pos_term, pos_sum.
  assert (Hloop : ∀ i,
    pos_term_loop mask i vars ""
    = match pos_literals vars i mask with
      | [] => ""
      | lits => String.concat " + " lits
      end).
  { induction mask as [|c mask IH]; intros i;
      cbn [pos_term_loop pos_literals]; [done|].
    destruct (Ascii.eqb c "-"); [apply IH|].
    set (l := if Ascii.eqb c "0" then _ else _).
    assert (l ≠ "") as Hl.
    { subst l. destruct (Ascii.eqb c "0"); [by apply var_name_nonempty|].
      by apply string_app_nonempty_r. }
    cbn [String.eqb]. change ("" +:+ l) with l.
    rewrite pos_term_loop_started by done.
    lazy iota beta. by rewrite concat_sep_cons. }
  rewrite Hloop.
  pose proof (pos_literals_nonempty vars 0 mask Hvars) as Hne.
  destruct (pos_literals vars 0 mask) as [|l ls]; [done|].
  apply Forall_cons in Hne as [Hl _].
  rewrite string_eqb_empty; [done|].
  destruct ls as [|l' ls]; [done|].
  cbn [String.concat]. destruct l; [done|]. by rewrite string_app_cons.
Qed.

(** C7: minimizing the minterms 0 and 3 over A, B in POS mode returns the
    implicants 00 and 11 and the text [(A + B)(A' + B')]; in general (for
    variable names that are not empty) the POS text is the concatenation,
    without separator, of the parenthesized sum terms, a position that is not
    a dash contributing the plain variable for [0] and the complemented one
    for [1]. *)
Theorem pos_rendering :
  qmSimplify [0; 3] [] ["A"; "B"] POS
    = Some (mkOutput ["00"; "11"] "(A + B)(A' + B')")
  ∧ ∀ vars impls,
      Forall (fun v => v ≠ "") vars →
      implicantsToPOS impls vars = pos_text vars impls.
Proof.
  split; [by vm_compute|].
  intros vars impls Hvars. unfold implicantsToPOS, pos_text.
  destruct impls as [|mask impls]; [done|].
  f_equal. apply map_ext_in. intros m _. by apply pos_term_spec.
Qed.

Lemma pos_rendering_witness :
  implicantsToPOS ["00"; "11"] ["A"; "B"] = "(A + B)(A' + B')".
Proof.
  apply (proj2 pos_rendering ["A"; "B"] ["00"; "11"]).
  repeat constructor; discriminate.
Defined.

(** ** The truth table *)

Ltac decide_by_compute :=
  match goal with
  | |- ?P => apply (bool_decide_unpack P); vm_compute; reflexivity
  end.

Lemma toInt32_small x : (- 2 ^ 31 ≤ x < 2 ^ 31)%Z → toInt32 x = x.
Proof. intros Hx. unfold toInt32. rewrite Z.mod_small; lia. Qed.

Lemma shl32_one n : n ≤ 30 → shl32 1 (Z.of_nat n) = (2 ^ Z.of_nat n)%Z.
Proof.
  intros Hn. unfold shl32.
  rewrite (toInt32_small 1) by lia.
  rewrite Z.mod_small by lia.
  rewrite Z.shiftl_1_l.
  apply toInt32_small.
  assert (2 ^ Z.of_nat n ≤ 2 ^ 30)%Z by (apply Z.pow_le_mono_r; lia).
  lia.
Qed.

Lemma bit_extract (m k : Z) :
  (0 ≤ m < 2 ^ 31)%Z → (0 ≤ k < 32)%Z →
  and32 (shr32 m k) 1 = Z.b2z (Z.testbit m k).
Proof.
  intros Hm Hk. unfold and32, shr32.
  rewrite (toInt32_small m) by lia.
  rewrite Z.mod_small by lia.
  assert (0 ≤ Z.shiftr m k ≤ m)%Z as Hshift.
  { rewrite Z.shiftr_div_pow2 by lia. split.
    - apply Z.div_pos; lia.
    - apply Z.div_le_upper_bound; [lia|]. nia. }
  rewrite !toInt32_small by lia.
  change 1%Z with (Z.ones 1). rewrite Z.land_ones by lia.
  rewrite Z.pow_1_r, <- Z.bit0_mod.
  by rewrite Z.shiftr_spec, Z.add_0_l by lia.
Qed.

Lemma assign_vars_other n m i names env v :
  v ∉ names → assign_vars n m i names env !! v = env !! v.
Proof.
  revert i env. induction names as [|a names IH]; intros i env Hv; [done|].
  apply not_elem_of_cons in Hv as [Hne Hv]. simpl.
  rewrite IH by done. by rewrite set_property_lookup_ne.
Qed.

Lemma assign_vars_lookup n m i names env j v :
  NoDup names → names !! j = Some v → v ≠ "__proto__" →
  assign_vars n m i names env !! v
  = Some (and32 (shr32 m (n - 1 - (i + Z.of_nat j))) 1).
Proof.
  revert i env j. induction names as [|a names IH]; intros i env j Hnd Hj Hv.
  { done. }
  apply NoDup_cons in Hnd as [Ha Hnd]. simpl.
  destruct j as [|j]; simpl in Hj.
  - injection Hj as ->. rewrite assign_vars_other by done.
    rewrite set_property_lookup by done. do 3 f_equal. lia.
  - rewrite (IH _ _ j) by done. do 3 f_equal. lia.
Qed.

Lemma make_env_lookup vars m i v :
  NoDup vars → length vars ≤ 30 → m < 2 ^ length vars →
  vars !! i = Some v → v ≠ "__proto__" →
  make_env vars (Z.of_nat m) !! v = Some (bit m (length vars - 1 - i)).
Proof.
  intros Hnd Hlen Hm Hi Hv. unfold make_env.
  rewrite (assign_vars_lookup _ _ _ _ _ i) by done.
  apply lookup_lt_Some in Hi as Hlt.
  f_equal. unfold bit.
  replace (Z.of_nat (length vars) - 1 - (0 + Z.of_nat i))%Z
    with (Z.of_nat (length vars - 1 - i)) by lia.
  apply bit_extract; [|lia].
  split; [lia|].
  apply Nat2Z.inj_lt in Hm. rewrite Nat2Z.inj_pow in Hm.
  assert (2 ^ Z.of_nat (length vars) ≤ 2 ^ 30)%Z
    by (apply Z.pow_le_mono_r; lia).
  change (Z.of_nat 2) with 2%Z in Hm. lia.
Qed.

Lemma make_env_other vars m v : v ∉ vars → make_env vars m !! v = None.
Proof. intros Hv. unfold make_env. by rewrite assign_vars_other. Qed.

Lemma table_loop_ok vars rpn count :
  ∀ m rows,
    (∀ k, k < count →
       ∃ y, row_output rpn (make_env vars (m + Z.of_nat k)) = Ok y) →
    ∃ new,
      table_loop vars rpn m count rows = Ok (rows ++ new)
      ∧ length new = count
      ∧ ∀ k, k < count →
          ∃ r, new !! k = Some r ∧ row_m r = (m + Z.of_nat k)%Z
               ∧ row_env r = make_env vars (m + Z.of_nat k)
               ∧ row_output rpn (row_env r) = Ok (row_y r).
Proof.
  induction count as [|count IH]; intros m rows Hok.
  { exists []. rewrite app_nil_r. split; [done|]. split; [done|]. lia. }
  destruct (Hok 0 ltac:(lia)) as [y Hy]. rewrite Z.add_0_r in Hy.
  destruct (IH (m + 1)%Z (rows ++ [mkRow m (make_env vars m) y])) as
    (new & Heq & Hlen & Hrows).
  { intros k Hk. destruct (Hok (S k) ltac:(lia)) as [y' Hy'].
    exists y'. rewrite <- Hy'. do 2 f_equal. lia. }
  exists (mkRow m (make_env vars m) y :: new).
  split; [|split].
  - cbn [table_loop]. fold (row_output rpn (make_env vars m)). rewrite Hy.
    cbn [rbind]. rewrite Heq. by rewrite <- app_assoc.
  - simpl. by rewrite Hlen.
  - intros [|k] Hk.
    + eexists. split; [done|]. simpl. rewrite Z.add_0_r. done.
    + destruct (Hrows k ltac:(lia)) as (r & Hr & Hm & Henv & Hout).
      exists r. simpl. split; [done|].
      replace (m + Z.of_nat (S k))%Z with (m + 1 + Z.of_nat k)%Z by lia.
      repeat split; assumption.
Qed.

Lemma table_loop_err vars rpn count :
  ∀ m rows k e,
    k < count →
    (∀ k', k' < k →
       ∃ y, row_output rpn (make_env vars (m + Z.of_nat k')) = Ok y) →
    row_output rpn (make_env vars (m + Z.of_nat k)) = Err e →
    table_loop vars rpn m count rows = Err e.
Proof.
  induction count as [|count IH]; intros m rows k e Hk Hbefore Herr; [lia|].
  cbn [table_loop]. fold (row_output rpn (make_env vars m)).
  destruct k as [|k].
  - rewrite Z.add_0_r in Herr. by rewrite Herr.
  - destruct (Hbefore 0 ltac:(lia)) as [y Hy]. rewrite Z.add_0_r in Hy.
    rewrite Hy. cbn [rbind]. apply (IH _ _ k); [lia| |].
    + intros k' Hk'. destruct (Hbefore (S k') ltac:(lia)) as [y' Hy'].
      exists y'. rewrite <- Hy'. do 2 f_equal. lia.
    + rewrite <- Herr. do 2 f_equal. lia.
Qed.

Lemma buildTruthTable_total (vars : list string) :
  length vars ≤ 30 →
  Z.to_nat (shl32 1 (Z.of_nat (length vars))) = 2 ^ length vars.
Proof.
  intros Hlen. rewrite shl32_one by done.
  rewrite <- (Nat2Z.id (2 ^ length vars)). f_equal.
  by rewrite Nat2Z.inj_pow.
Qed.

(** The table of an expression that evaluates under every assignment. *)
Lemma buildTruthTable_success vars rpn :
  length vars ≤ 30 →
  (∀ m, m < 2 ^ length vars →
     ∃ y, row_output rpn (make_env vars (Z.of_nat m)) = Ok y) →
  ∃ table,
    buildTruthTable vars rpn = Ok table
    ∧ length table = 2 ^ length vars
    ∧ ∀ m, m < 2 ^ length vars →
        ∃ r, table !! m = Some r
             ∧ row_m r = Z.of_nat m
             ∧ row_env r = make_env vars (Z.of_nat m)
             ∧ row_output rpn (row_env r) = Ok (row_y r).
Proof.
  intros Hlen Hok.
  unfold buildTruthTable. rewrite buildTruthTable_total by done.
  destruct (table_loop_ok vars rpn (2 ^ length vars) 0 []) as
    (table & Heq & Hlength & Hrows).
  { intros k Hk. rewrite Z.add_0_l. by apply Hok. }
  exists table. split; [done|]. split; [done|].
  intros m Hm. destruct (Hrows m Hm) as (r & Hr & Hrm & Henv & Hout).
  rewrite Z.add_0_l in Hrm, Henv. by exists r.
Qed.

(** C5, as the code has it: for distinct variable names other than
    [__proto__], at most 30 of them,
    and an expression (or none) whose evaluation succeeds under every
    assignment, [buildTruthTable] returns the 2^n rows in the order
    m = 0 .. 2^n - 1; the environment of row m gives the i-th variable bit
    n-1-i of m and holds nothing else, the output is the evaluator's result
    under that environment, and 0 when there is no expression.  When the
    evaluation fails for some row, the first such error is the result and no
    rows are returned. *)
Theorem buildTruthTable_rows vars rpn :
  NoDup vars → "__proto__" ∉ vars → length vars ≤ 30 →
  ((∀ m, m < 2 ^ length vars →
      ∃ y, row_output rpn (make_env vars (Z.of_nat m)) = Ok y) →
   ∃ table,
     buildTruthTable vars rpn = Ok table
     ∧ length table = 2 ^ length vars
     ∧ ∀ m, m < 2 ^ length vars →
         ∃ r, table !! m = Some r
              ∧ row_m r = Z.of_nat m
              ∧ (∀ i v, vars !! i = Some v →
                   row_env r !! v = Some (bit m (length vars - 1 - i)))
              ∧ (∀ v, v ∉ vars → row_env r !! v = None)
              ∧ row_output rpn (row_env r) = Ok (row_y r)
              ∧ (rpn = None → row_y r = 0%Z))
  ∧ (∀ m e,
       m < 2 ^ length vars →
       (∀ m', m' < m →
          ∃ y, row_output rpn (make_env vars (Z.of_nat m')) = Ok y) →
       row_output rpn (make_env vars (Z.of_nat m)) = Err e →
       buildTruthTable vars rpn = Err e).
Proof.
  intros Hnd Hproto Hlen. split.
  { intros Hok.
    destruct (buildTruthTable_success vars rpn Hlen Hok)
      as (table & Heq & Hlength & Hrows).
    exists table. split; [done|]. split; [done|].
    intros m Hm. destruct (Hrows m Hm) as (r & Hr & Hrm & Henv & Hout).
    exists r. split; [done|]. split; [done|]. rewrite Henv.
    split; [|split; [|split]].
    - intros i v Hi. apply make_env_lookup; [done..|].
      intros ->. apply Hproto. by eapply list_elem_of_lookup_2.
    - intros v Hv. by apply make_env_other.
    - by rewrite <- Henv.
    - intros ->. simpl in Hout. by injection Hout. }
  intros m e Hm Hbefore Herr.
  unfold buildTruthTable. rewrite buildTruthTable_total by done.
  apply (table_loop_err _ _ _ _ _ m); [done| |by rewrite Z.add_0_l].
  intros k' Hk'. rewrite Z.add_0_l. by apply Hbefore.
Qed.

Lemma buildTruthTable_rows_witness :
  ∃ table,
    buildTruthTable ["A"; "B"] (Some [VAR "A"; VAR "B"; implicit_and]) = Ok table
    ∧ length table = 4.
Proof.
  destruct (proj1 (buildTruthTable_rows ["A"; "B"]
                     (Some [VAR "A"; VAR "B"; implicit_and])
                     ltac:(decide_by_compute) ltac:(decide_by_compute)
                     ltac:(simpl; lia)))
    as (table & Heq & Hlength & _).
  - intros m Hm. simpl in Hm.
    destruct m as [|[|[|[|m]]]]; [| | | |lia]; eexists; by vm_compute.
  - exists table. by split.
Defined.

(** C5 does not hold as stated for every variable list and every
    expression: an expression whose evaluation fails yields an error and no
    rows; a name listed twice keeps the bit of its last position; a list of
    32 names yields one row, as [1 << 32] is [1]; and the name [__proto__]
    gets no bit, as the assignment of a number to it stores nothing, so that
    it is read as true in every row. *)
Lemma buildTruthTable_counterexample :
  buildTruthTable ["A"] (Some [VAR "B"])
    = Err (EvalError (UndefinedVariable "B"))
  ∧ (∃ table r,
       buildTruthTable ["A"; "A"] None = Ok table
       ∧ table !! 2 = Some r
       ∧ bit 2 (2 - 1 - 0) = 1%Z
       ∧ row_env r !! "A" = Some 0%Z)
  ∧ (∃ table,
       buildTruthTable names32 None = Ok table
       ∧ NoDup names32 ∧ length names32 = 32 ∧ length table = 1)
  ∧ (∃ table r,
       buildTruthTable ["__proto__"] (Some [VAR "__proto__"]) = Ok table
       ∧ table !! 0 = Some r
       ∧ bit 0 (1 - 1 - 0) = 0%Z
       ∧ row_env r !! "__proto__" = None
       ∧ row_y r = 1%Z).
Proof.
  split; [by vm_compute|]. split; [|split].
  - do 2 eexists. split; [by vm_compute|]. split; [done|]. by vm_compute.
  - eexists. split; [by vm_compute|]. split; [|done].
    decide_by_compute.
  - do 2 eexists. split; [by vm_compute|]. split; [done|]. by vm_compute.
Qed.

(** ** Quine-McCluskey: facts on bit patterns *)

Lemma covers_refl s : covers s s = true.
Proof.
  induction s as [|c s IH]; [done|]. simpl.
  destruct (Ascii.eqb c "-"); [done|]. by rewrite Ascii.eqb_refl.
Qed.

Ltac char_step :=
  cbn [covers combine uncons same_char canCombine_loop countDashes];
  first [ rewrite Ascii.eqb_refl
        | match goal with
          | |- context [Ascii.eqb ?u ?v] =>
              lazymatch u with
              | context [Ascii.eqb] => fail
              | _ => destruct (Ascii.eqb_spec u v); subst
              end
          end ].

Ltac char_cases :=
  repeat char_step;
  cbn [covers combine uncons same_char canCombine_loop countDashes].

Lemma covers_combine_l a b x : covers a x = true → covers (combine a b) x = true.
Proof.
  revert b x. induction a as [|c a IH]; intros b x; [done|].
  destruct b as [|y b], x as [|z x]; char_cases; try done; try apply IH.
Qed.

Lemma covers_combine_r a b x : covers b x = true → covers (combine a b) x = true.
Proof.
  revert b x. induction a as [|c a IH]; intros b x; [done|].
  destruct b as [|y b], x as [|z x]; char_cases;
    try done; try apply IH; try (intros _; by apply (IH "")).
Qed.

Lemma is_pattern_combine a b : is_pattern a = true → is_pattern (combine a b) = true.
Proof.
  unfold is_pattern. revert b. induction a as [|c a IH]; intros b; [done|].
  cbn [string_forall]. intros [Hc Ha]%andb_true_iff.
  destruct b as [|y b]; cbn [combine uncons same_char string_forall];
    rewrite (IH _ Ha), andb_true_r; [done|].
  by destruct (Ascii.eqb c y).
Qed.

Lemma length_combine a b : String.length (combine a b) = String.length a.
Proof.
  revert b. induction a as [|c a IH]; intros b; [done|].
  destruct b as [|y b]; cbn [combine uncons String.length]; by rewrite IH.
Qed.

Lemma is_binary_pattern s : is_binary s = true → is_pattern s = true.
Proof.
  unfold is_binary, is_pattern.
  induction s as [|c s IH]; [done|]. cbn [string_forall].
  intros [Hc Hs]%andb_true_iff. rewrite (IH Hs), andb_true_r.
  unfold pattern_char. unfold binary_char in Hc. by rewrite Hc.
Qed.

(** Once a difference has been counted, [canCombine] asks the rest of [a] to
    be the rest of [b]. *)
Lemma canCombine_loop_one a b :
  String.length a = String.length b →
  canCombine_loop a b 1 = true → a = b.
Proof.
  revert b. induction a as [|x a IH]; intros [|y b] Hlen; try done.
  simpl. destruct (Ascii.eqb_spec x y) as [->|Hne]; [|done].
  simpl. intros Hloop. f_equal. apply IH; [|done]. simpl in Hlen. lia.
Qed.

(** Two patterns of the same length that can be combined are equal except
    at one position. *)
Lemma canCombine_split a b :
  String.length a = String.length b →
  canCombine a b = true →
  ∃ pre x y suf,
    a = pre +:+ String x suf ∧ b = pre +:+ String y suf ∧ x ≠ y.
Proof.
  unfold canCombine. revert b.
  induction a as [|x a IH]; intros [|y b] Hlen; try done.
  simpl. destruct (Ascii.eqb_spec x y) as [->|Hne]; simpl.
  - intros Hloop. destruct (IH b) as (pre & x' & y' & suf & -> & -> & Hxy);
      [simpl in Hlen; lia|done|].
    by exists (String y pre), x', y', suf.
  - intros Hloop. apply canCombine_loop_one in Hloop as ->;
      [|simpl in Hlen; lia].
    by exists "", x, y, b.
Qed.

Lemma combine_same s : combine s s = s.
Proof.
  induction s as [|c s IH]; [done|]. simpl. by rewrite Ascii.eqb_refl, IH.
Qed.

Lemma combine_split pre x y suf :
  x ≠ y →
  combine (pre +:+ String x suf) (pre +:+ String y suf)
  = pre +:+ String "-" suf.
Proof.
  intros Hxy. induction pre as [|c pre IH].
  - change ("" +:+ String x suf) with (String x suf).
    change ("" +:+ String y suf) with (String y suf).
    cbn [combine uncons same_char]. rewrite combine_same.
    by destruct (Ascii.eqb_spec x y).
  - rewrite !string_app_cons. cbn [combine uncons same_char].
    by rewrite Ascii.eqb_refl, IH.
Qed.

Lemma countDashes_app s t : countDashes (s +:+ t) = countDashes s + countDashes t.
Proof.
  induction s as [|c s IH]; [done|]. rewrite string_app_cons. simpl.
  rewrite IH. by destruct (Ascii.eqb c "-").
Qed.

Lemma countDashes_le s : countDashes s ≤ String.length s.
Proof.
  induction s as [|c s IH]; simpl; [done|]. destruct (Ascii.eqb c "-"); lia.
Qed.

Lemma countDashes_combine a b :
  String.length a = String.length b →
  countDashes a = countDashes b →
  canCombine a b = true →
  countDashes (combine a b) = S (countDashes a).
Proof.
  intros Hlen Hdash Hcomb.
  destruct (canCombine_split a b Hlen Hcomb)
    as (pre & x & y & suf & -> & -> & Hxy).
  rewrite combine_split by done.
  rewrite !countDashes_app in *. simpl in *.
  destruct (Ascii.eqb_spec x "-") as [->|Hx],
           (Ascii.eqb_spec y "-") as [->|Hy]; try done; lia.
Qed.

Lemma covers_app p q x y :
  String.length p = String.length x →
  covers (p +:+ q) (x +:+ y) = covers p x && covers q y.
Proof.
  revert x. induction p as [|c p IH]; intros [|z x] Hlen; try done.
  rewrite !string_app_cons. simpl.
  rewrite IH by (simpl in Hlen; lia).
  destruct (Ascii.eqb c "-"); [done|]. by destruct (Ascii.eqb c z).
Qed.

Lemma string_split_at (n : nat) (x : string) :
  n < String.length x →
  ∃ pre c suf, x = pre +:+ String c suf ∧ String.length pre = n.
Proof.
  revert x. induction n as [|n IH]; intros [|c x] Hlen; simpl in Hlen; try lia.
  - by exists "", c, x.
  - destruct (IH x) as (pre & c' & suf & -> & Hpre); [lia|].
    exists (String c pre), c', suf. simpl. by rewrite Hpre.
Qed.

Lemma string_forall_app f s t :
  string_forall f (s +:+ t) = string_forall f s && string_forall f t.
Proof.
  induction s as [|c s IH]; [done|]. rewrite string_app_cons.
  cbn [string_forall]. by rewrite IH, andb_assoc.
Qed.

(** A minterm covered by the combination of two patterns is covered by one
    of them. *)
Lemma covers_combine_inv a b x :
  String.length a = String.length b →
  String.length x = String.length a →
  is_pattern a = true → is_pattern b = true → is_binary x = true →
  canCombine a b = true →
  covers (combine a b) x = true →
  covers a x = true ∨ covers b x = true.
Proof.
  intros Hlen Hx Ha Hb Hbin Hcomb.
  destruct (canCombine_split a b Hlen Hcomb)
    as (pre & u & v & suf & -> & -> & Huv).
  rewrite combine_split by done.
  destruct (string_split_at (String.length pre) x)
    as (xpre & w & xsuf & -> & Hxpre).
  { rewrite Hx, string_app_length. simpl. lia. }
  rewrite !covers_app by done.
  unfold is_pattern, is_binary in *.
  rewrite string_forall_app in Ha, Hb, Hbin.
  apply andb_true_iff in Ha as [_ Ha], Hb as [_ Hb], Hbin as [_ Hbin].
  simpl in Ha, Hb, Hbin.
  apply andb_true_iff in Ha as [Hu _], Hb as [Hv _], Hbin as [Hw _].
  simpl. intros [Hpre Hsuf]%andb_true_iff. rewrite Hpre, Hsuf. simpl.
  unfold pattern_char in Hu, Hv. unfold binary_char in Hw.
  destruct (Ascii.eqb_spec u "-"); [by left|].
  destruct (Ascii.eqb_spec v "-"); [by right|].
  destruct (Ascii.eqb_spec u w); [by left|].
  destruct (Ascii.eqb_spec v w); [by right|].
  exfalso.
  destruct (Ascii.eqb_spec u "0"), (Ascii.eqb_spec u "1"),
           (Ascii.eqb_spec v "0"), (Ascii.eqb_spec v "1"),
           (Ascii.eqb_spec w "0"), (Ascii.eqb_spec w "1");
    simpl in *; congruence.
Qed.

(** ** Quine-McCluskey: one combination round *)

Lemma elem_of_map {A B} (f : A → B) (l : list A) (y : B) :
  y ∈ map f l ↔ ∃ x, y = f x ∧ x ∈ l.
Proof.
  rewrite list_elem_of_In, in_map_iff. setoid_rewrite list_elem_of_In.
  split; intros (x & Hx & Hl); eauto.
Qed.

Lemma elem_of_flat_map {A B} (f : A → list B) (l : list A) (y : B) :
  y ∈ flat_map f l ↔ ∃ x, x ∈ l ∧ y ∈ f x.
Proof.
  rewrite list_elem_of_In, in_flat_map. by setoid_rewrite list_elem_of_In.
Qed.

Lemma elem_of_all_items_push k it g c :
  c ∈ all_items (push_group k it g) ↔ c = it ∨ c ∈ all_items g.
Proof.
  unfold all_items. induction g as [|[k' its] g IH]; simpl.
  - rewrite list_elem_of_singleton, elem_of_nil. tauto.
  - destruct (k =? k'); [|destruct (k <? k')]; simpl.
    + rewrite !elem_of_app, list_elem_of_singleton. tauto.
    + rewrite !elem_of_cons, !elem_of_app. tauto.
    + rewrite !elem_of_app, IH. tauto.
Qed.

Lemma elem_of_all_items_push_all its g c :
  c ∈ all_items (push_all its g) ↔ c ∈ its ∨ c ∈ all_items g.
Proof.
  unfold push_all. revert g. induction its as [|it its IH]; intros g; simpl.
  - rewrite elem_of_nil. tauto.
  - rewrite IH, elem_of_all_items_push, elem_of_cons. tauto.
Qed.

Lemma push_all_app its1 its2 g :
  push_all (its1 ++ its2) g = push_all its2 (push_all its1 g).
Proof. unfold push_all. by rewrite fold_left_app. Qed.

Lemma mark_if_mark_if c1 c2 it : mark_if c1 (mark_if c2 it) = mark_if (c2 || c1) it.
Proof. by destruct c1, c2. Qed.

Lemma bin_mark_if c it : bin (mark_if c it) = bin it.
Proof. by destruct c. Qed.

Lemma from_mark_if c it : from (mark_if c it) = from it.
Proof. by destruct c. Qed.

Lemma used_mark_if c it : used (mark_if c it) = c || used it.
Proof. by destruct c. Qed.

Lemma can_pair_mark_l c a b : can_pair (mark_if c a) b = can_pair a b.
Proof. unfold can_pair. by rewrite bin_mark_if. Qed.

Lemma can_pair_mark_r c a b : can_pair a (mark_if c b) = can_pair a b.
Proof. unfold can_pair. by rewrite bin_mark_if. Qed.

Lemma combined_item_mark_r c a b : combined_item a (mark_if c b) = combined_item a b.
Proof. unfold combined_item. by rewrite bin_mark_if, from_mark_if. Qed.

Lemma existsb_can_pair_marked a (f : item → bool) g2 :
  existsb (can_pair a) (map (fun b => mark_if (f b) b) g2)
  = existsb (can_pair a) g2.
Proof.
  induction g2 as [|b g2 IH]; simpl; [done|].
  by rewrite can_pair_mark_r, IH.
Qed.

Lemma pairs_of_marked a (f : item → bool) g2 :
  pairs_of a (map (fun b => mark_if (f b) b) g2) = pairs_of a g2.
Proof.
  unfold pairs_of. induction g2 as [|b g2 IH]; simpl; [done|].
  by rewrite can_pair_mark_r, combined_item_mark_r, IH.
Qed.

(** The loop over [g2] for one [a], in closed form. *)
Lemma combine_with_eq a g2 ng any :
  combine_with a g2 ng any
  = (mark_if (existsb (can_pair a) g2) a,
     map (fun b => mark_if (can_pair a b) b) g2,
     push_all (pairs_of a g2) ng,
     any || existsb (can_pair a) g2).
Proof.
  revert a ng any. induction g2 as [|b g2 IH]; intros a ng any.
  { simpl. by rewrite orb_false_r. }
  cbn [combine_with]. fold (can_pair a b).
  destruct (can_pair a b) eqn:Hab.
  - rewrite IH.
    change (can_pair (mark_used a)) with (can_pair a).
    change (pairs_of (mark_used a) g2) with (pairs_of a g2).
    cbn [existsb map]. rewrite Hab. cbn [orb mark_if].
    unfold pairs_of at 2. cbn [flat_map]. rewrite Hab.
    fold (pairs_of a g2). rewrite orb_true_r.
    rewrite push_all_app. by destruct (existsb (can_pair a) g2).
  - rewrite IH. cbn [existsb map]. rewrite Hab. cbn [orb mark_if].
    unfold pairs_of at 2. cbn [flat_map]. rewrite Hab. done.
Qed.

Lemma existsb_ext {A} (f g : A → bool) (l : list A) :
  (∀ x, f x = g x) → existsb f l = existsb g l.
Proof.
  intros Hfg. induction l as [|x l IH]; simpl; [done|]. by rewrite Hfg, IH.
Qed.

Lemma flat_map_ext' {A B} (f g : A → list B) (l : list A) :
  (∀ x, f x = g x) → flat_map f l = flat_map g l.
Proof.
  intros Hfg. induction l as [|x l IH]; simpl; [done|]. by rewrite Hfg, IH.
Qed.

(** The loop over [g1], in closed form. *)
Lemma combine_groups_eq g1 g2 ng any :
  combine_groups g1 g2 ng any
  = (map (fun a => mark_if (existsb (can_pair a) g2) a) g1,
     map (fun b => mark_if (existsb (fun a => can_pair a b) g1) b) g2,
     push_all (flat_map (fun a => pairs_of a g2) g1) ng,
     any || existsb (fun a => existsb (can_pair a) g2) g1).
Proof.
  revert g2 ng any. induction g1 as [|a g1 IH]; intros g2 ng any.
  { simpl. rewrite orb_false_r. f_equal. f_equal. f_equal.
    symmetry. apply map_id. }
  cbn [combine_groups]. rewrite combine_with_eq, IH.
  cbn [map flat_map existsb]. rewrite push_all_app.
  f_equal; [f_equal; [f_equal|]|].
  - f_equal. apply map_ext. intros a'. by rewrite existsb_can_pair_marked.
  - rewrite map_map. apply map_ext. intros b.
    rewrite mark_if_mark_if. f_equal. f_equal.
    apply existsb_ext. intros a'. apply can_pair_mark_r.
  - f_equal. apply flat_map_ext'. intros a'. apply pairs_of_marked.
  - rewrite <- orb_assoc. f_equal. f_equal.
    apply existsb_ext. intros a'. apply existsb_can_pair_marked.
Qed.

Lemma elem_of_pairs_of a g2 c :
  c ∈ pairs_of a g2 ↔ ∃ b, b ∈ g2 ∧ can_pair a b = true ∧ c = combined_item a b.
Proof.
  unfold pairs_of. rewrite elem_of_flat_map. split.
  - intros (b & Hb & Hc). exists b. destruct (can_pair a b).
    + apply list_elem_of_singleton in Hc. done.
    + by apply elem_of_nil in Hc.
  - intros (b & Hb & Hab & ->). exists b. rewrite Hab.
    split; [done|]. by apply list_elem_of_singleton.
Qed.

Lemma existsb_true {A} (f : A → bool) (l : list A) :
  existsb f l = true ↔ ∃ x, x ∈ l ∧ f x = true.
Proof. rewrite existsb_exists. by setoid_rewrite list_elem_of_In. Qed.

Lemma has_superset_mono g g' it :
  (∀ c, c ∈ all_items g → c ∈ all_items g') →
  has_superset g it → has_superset g' it.
Proof. intros Hsub (c & Hc & Hcov). exists c. split; [by apply Hsub|done]. Qed.

Lemma has_superset_mark g c it : has_superset g it → has_superset g (mark_if c it).
Proof. unfold has_superset. by rewrite bin_mark_if. Qed.

(** What one pass over two adjacent groups establishes. *)
Lemma combine_groups_spec g1 g2 ng any g1' g2' ng' any' :
  combine_groups g1 g2 ng any = (g1', g2', ng', any') →
  map bin g1' = map bin g1 ∧ map bin g2' = map bin g2
  ∧ (∀ c, c ∈ all_items ng' ↔
        c ∈ all_items ng
        ∨ ∃ a b, a ∈ g1 ∧ b ∈ g2 ∧ can_pair a b = true ∧ c = combined_item a b)
  ∧ (Forall (used_is_combined ng) g1 → Forall (used_is_combined ng') g1')
  ∧ (Forall (used_is_combined ng) g2 → Forall (used_is_combined ng') g2')
  ∧ (any' = true → any = true ∨ ∃ c, c ∈ all_items ng').
Proof.
  rewrite combine_groups_eq. intros [= <- <- <- <-].
  assert (Hnew : ∀ c, c ∈ all_items
                         (push_all (flat_map (fun a => pairs_of a g2) g1) ng) ↔
        c ∈ all_items ng
        ∨ ∃ a b, a ∈ g1 ∧ b ∈ g2 ∧ can_pair a b = true ∧ c = combined_item a b).
  { intros c. rewrite elem_of_all_items_push_all, elem_of_flat_map.
    setoid_rewrite elem_of_pairs_of. split.
    - intros [(a & Ha & b & Hb & Hab & ->)|Hc]; [right|by left].
      by exists a, b.
    - intros [Hc|(a & b & Ha & Hb & Hab & ->)]; [by right|left].
      exists a. split; [done|]. by exists b. }
  split; [|split; [|split; [done|split; [|split]]]].
  - rewrite map_map. apply map_ext. intros a. apply bin_mark_if.
  - rewrite map_map. apply map_ext. intros b. apply bin_mark_if.
  - intros Hg1. apply Forall_forall. intros a' Ha'.
    apply elem_of_map in Ha' as (a & -> & Ha).
    intros Hused. rewrite used_mark_if in Hused.
    apply has_superset_mark.
    destruct (existsb (can_pair a) g2) eqn:Hex.
    + apply existsb_true in Hex as (b & Hb & Hab).
      exists (combined_item a b). split.
      * apply Hnew. right. by exists a, b.
      * intros x. apply covers_combine_l.
    + rewrite Forall_forall in Hg1.
      eapply has_superset_mono; [|by apply Hg1].
      intros c Hc. apply Hnew. by left.
  - intros Hg2. apply Forall_forall. intros b' Hb'.
    apply elem_of_map in Hb' as (b & -> & Hb).
    intros Hused. rewrite used_mark_if in Hused.
    apply has_superset_mark.
    destruct (existsb (fun a => can_pair a b) g1) eqn:Hex.
    + apply existsb_true in Hex as (a & Ha & Hab).
      exists (combined_item a b). split.
      * apply Hnew. right. by exists a, b.
      * intros x. apply covers_combine_r.
    + rewrite Forall_forall in Hg2.
      eapply has_superset_mono; [|by apply Hg2].
      intros c Hc. apply Hnew. by left.
  - intros [Hany|Hex]%orb_true_iff; [by left|right].
    apply existsb_true in Hex as (a & Ha & Hex).
    apply existsb_true in Hex as (b & Hb & Hab).
    exists (combined_item a b). apply Hnew. right. by exists a, b.
Qed.

Lemma used_is_combined_mono g g' it :
  (∀ c, c ∈ all_items g → c ∈ all_items g') →
  used_is_combined g it → used_is_combined g' it.
Proof. intros Hsub Hit Hused. eapply has_superset_mono; eauto. Qed.

Lemma elem_of_map_bin (its its' : list item) it :
  map bin its' = map bin its → it ∈ its' → bin it ∈ map bin its.
Proof. intros <- Hit. apply elem_of_map. by exists it. Qed.

(** What the pass over all adjacent groups establishes. *)
Lemma combine_adjacent_spec rest :
  ∀ k1 g1 ng any G' ng' any',
    combine_adjacent k1 g1 rest ng any = (G', ng', any') →
    map bin (all_items G') = map bin (g1 ++ all_items rest)
    ∧ (∀ c, c ∈ all_items ng → c ∈ all_items ng')
    ∧ (∀ c, c ∈ all_items ng' →
         c ∈ all_items ng ∨ combined_from (map bin (g1 ++ all_items rest)) c)
    ∧ (Forall (used_is_combined ng) (g1 ++ all_items rest) →
       Forall (used_is_combined ng') (all_items G'))
    ∧ (any' = true → any = true ∨ ∃ c, c ∈ all_items ng').
Proof.
  induction rest as [|[k2 g2] rest IH]; intros k1 g1 ng any G' ng' any'.
  { simpl. intros [= <- <- <-]. simpl. rewrite !app_nil_r.
    split; [done|]. split; [done|]. split; [by left|]. split; [done|].
    by left. }
  cbn [combine_adjacent].
  destruct (combine_groups g1 g2 ng any) as [[[g1' g2'] ng1] any1] eqn:Hpass.
  destruct (combine_adjacent k2 g2' rest ng1 any1) as [[rest' ng2] any2]
    eqn:Hrec.
  intros [= <- <- <-].
  apply combine_groups_spec in Hpass
    as (Hbin1 & Hbin2 & Hnew1 & Hused1 & Hused2 & Hany1).
  apply IH in Hrec as (Hbin & Hsub & Hnew & Hused & Hany).
  change (all_items ((k1, g1') :: rest')) with (g1' ++ all_items rest').
  change (all_items ((k2, g2) :: rest)) with (g2 ++ all_items rest).
  assert (Hbins : map bin (g2' ++ all_items rest)
                  = map bin (g2 ++ all_items rest)).
  { by rewrite !map_app, Hbin2. }
  split; [|split; [|split; [|split]]].
  - rewrite !map_app, Hbin, Hbin1, Hbins. by rewrite !map_app.
  - intros c Hc. apply Hsub, Hnew1. by left.
  - intros c Hc. apply Hnew in Hc as [Hc|(Hfresh & p & q & Hp & Hq & Hpq)].
    + apply Hnew1 in Hc as [Hc|(a & b & Ha & Hb & Hab & ->)]; [by left|].
      right. split; [done|]. exists (bin a), (bin b).
      split; [|split; [|done]]; apply elem_of_map.
      * exists a. split; [done|]. apply elem_of_app. by left.
      * exists b. split; [done|]. rewrite !elem_of_app. right. by left.
    + right. split; [done|]. exists p, q. rewrite Hbins in Hp, Hq.
      rewrite (map_app _ g1). rewrite !elem_of_app. auto.
  - intros Hall. apply Forall_app in Hall as [Hg1 Hrest].
    apply Forall_app in Hrest as [Hg2 Hrest].
    apply Forall_app. split.
    + eapply Forall_impl; [by apply Hused1|].
      intros it. by apply used_is_combined_mono.
    + apply Hused. apply Forall_app. split; [by apply Hused2|].
      eapply Forall_impl; [exact Hrest|].
      intros it. apply used_is_combined_mono. intros c Hc.
      apply Hnew1. by left.
  - intros Hany2. destruct (Hany Hany2) as [Hany1'|Hex]; [|by right].
    destruct (Hany1 Hany1') as [?|(c & Hc)]; [by left|].
    right. exists c. by apply Hsub.
Qed.

Lemma combine_round_spec g g' ng any :
  combine_round g = (g', ng, any) →
  map bin (all_items g') = map bin (all_items g)
  ∧ (∀ c, c ∈ all_items ng → combined_from (map bin (all_items g)) c)
  ∧ (Forall (fun it => used it = false) (all_items g) →
     Forall (used_is_combined ng) (all_items g'))
  ∧ (any = true → ∃ c, c ∈ all_items ng).
Proof.
  destruct g as [|[k1 g1] rest]; simpl.
  { intros [= <- <- <-]. split; [done|]. split; [|split; [done|done]].
    intros c Hc. by apply elem_of_nil in Hc. }
  intros Hround.
  apply combine_adjacent_spec in Hround as (Hbin & Hsub & Hnew & Hused & Hany).
  split; [done|]. split; [|split].
  - intros c Hc. destruct (Hnew c Hc) as [Hnil|?]; [|done].
    by apply elem_of_nil in Hnil.
  - intros Hfresh. apply Hused. eapply Forall_impl; [exact Hfresh|].
    intros it Hit Hused'. congruence.
  - intros Hany'. by destruct (Hany Hany').
Qed.

(** ** Quine-McCluskey: deduplication and the rounds *)

Lemma dedup_loop_spec its :
  ∀ unique seen,
    (∀ k, k ∈ seen ↔ ∃ u, u ∈ unique ∧ item_key u = k) →
    (∀ c, c ∈ dedup_loop its unique seen → c ∈ unique ∨ c ∈ its)
    ∧ (∀ c, c ∈ unique ∨ c ∈ its →
         ∃ c', c' ∈ dedup_loop its unique seen ∧ item_key c' = item_key c)
    ∧ (NoDup (map item_key unique) →
       NoDup (map item_key (dedup_loop its unique seen))).
Proof.
  induction its as [|it its IH]; intros unique seen Hseen.
  { simpl. split; [by left|]. split; [|done].
    intros c [Hc|Hc]; [by exists c|by apply elem_of_nil in Hc]. }
  cbn [dedup_loop]. destruct (decide (item_key it ∈ seen)) as [Hin|Hout].
  - destruct (IH unique seen Hseen) as (Hsub & Hkeep & Hnodup).
    split; [|split; [|done]].
    + intros c Hc. rewrite elem_of_cons. destruct (Hsub c Hc); auto.
    + intros c [Hc|[->|Hc]%elem_of_cons]; [apply Hkeep; by left| |
                                            apply Hkeep; by right].
      apply Hseen in Hin as (u & Hu & Hkey).
      destruct (Hkeep u (or_introl Hu)) as (c' & Hc' & Hkey').
      exists c'. split; [done|]. congruence.
  - destruct (IH (unique ++ [it]) ({[item_key it]} ∪ seen))
      as (Hsub & Hkeep & Hnodup).
    { intros k. rewrite elem_of_union, elem_of_singleton, Hseen. split.
      - intros [->|(u & Hu & Hk)].
        + exists it. split; [|done]. apply elem_of_app. right.
          by apply list_elem_of_singleton.
        + exists u. split; [|done]. apply elem_of_app. by left.
      - intros (u & [Hu|Hu%list_elem_of_singleton]%elem_of_app & Hk).
        + right. by exists u.
        + left. by subst. }
    split; [|split].
    + intros c Hc. rewrite elem_of_cons.
      destruct (Hsub c Hc) as [[?|?%list_elem_of_singleton]%elem_of_app|?];
        auto.
    + intros c Hc. apply Hkeep. rewrite elem_of_app, list_elem_of_singleton.
      rewrite elem_of_cons in Hc. tauto.
    + intros Hnd. apply Hnodup. rewrite map_app. apply NoDup_app.
      split; [done|]. split; [|apply NoDup_singleton].
      intros k Hk ->%list_elem_of_singleton. apply Hout, Hseen.
      apply elem_of_map in Hk as (u & Hk & Hu). by exists u.
Qed.

Lemma dedup_loop_start its :
  (∀ c, c ∈ dedup_loop its [] ∅ → c ∈ its)
  ∧ (∀ c, c ∈ its → ∃ c', c' ∈ dedup_loop its [] ∅ ∧ item_key c' = item_key c)
  ∧ NoDup (map item_key (dedup_loop its [] ∅)).
Proof.
  destruct (dedup_loop_spec its [] ∅) as (Hsub & Hkeep & Hnodup).
  { intros k. split; [by intros ?%elem_of_empty|].
    by intros (u & ?%elem_of_nil & _). }
  split; [|split].
  - intros c Hc. destruct (Hsub c Hc) as [?%elem_of_nil|?]; done.
  - intros c Hc. apply Hkeep. by right.
  - apply Hnodup. constructor.
Qed.

Lemma dedup_groups_subset g c :
  c ∈ all_items (dedup_groups g) → c ∈ all_items g.
Proof.
  unfold all_items, dedup_groups. rewrite !elem_of_flat_map.
  intros ([k its] & Hin & Hc). apply elem_of_map in Hin as ([k' its'] & [= -> ->] & Hin).
  exists (k', its'). split; [done|]. by apply dedup_loop_start.
Qed.

Lemma dedup_groups_keeps g c :
  c ∈ all_items g →
  ∃ c', c' ∈ all_items (dedup_groups g) ∧ item_key c' = item_key c.
Proof.
  unfold all_items, dedup_groups. rewrite elem_of_flat_map.
  intros ([k its] & Hin & Hc).
  destruct (proj1 (proj2 (dedup_loop_start its)) c Hc) as (c' & Hc' & Hkey).
  exists c'. split; [|done]. apply elem_of_flat_map.
  exists (k, dedup_loop its [] ∅). split; [|done].
  apply elem_of_map. by exists (k, its).
Qed.

Lemma pattern_key_inj p q r1 r2 :
  is_pattern p = true → is_pattern q = true →
  p +:+ String "|" r1 = q +:+ String "|" r2 → p = q.
Proof.
  unfold is_pattern. revert q.
  induction p as [|c p IH]; intros [|d q]; cbn [string_forall]; try done.
  - intros _ [Hd _]%andb_true_iff. rewrite string_app_cons.
    intros [= <- _]. done.
  - intros [Hc _]%andb_true_iff _. rewrite string_app_cons.
    intros [= -> _]. done.
  - intros [_ Hp]%andb_true_iff [_ Hq]%andb_true_iff.
    rewrite !string_app_cons. intros [= -> Heq]. f_equal. by apply IH.
Qed.

Lemma item_key_bin a b :
  is_pattern (bin a) = true → is_pattern (bin b) = true →
  item_key a = item_key b → bin a = bin b.
Proof. intros Ha Hb. unfold item_key. by apply pattern_key_inj. Qed.

Lemma all_bins_eq g : all_bins g = map bin (all_items g).
Proof.
  unfold all_bins, all_items. induction g as [|[k its] g IH]; simpl; [done|].
  by rewrite map_app, IH.
Qed.

Lemma elem_of_unused_bins g p :
  p ∈ unused_bins g ↔ ∃ it, it ∈ all_items g ∧ used it = false ∧ bin it = p.
Proof.
  unfold unused_bins, all_items. rewrite elem_of_flat_map. split.
  - intros ([k its] & Hin & Hp). apply elem_of_map in Hp as (it & -> & Hit).
    apply list_elem_of_filter in Hit as [Hused Hit].
    exists it. split; [|done]. apply elem_of_flat_map. by exists (k, its).
  - intros (it & Hit & Hused & <-).
    apply elem_of_flat_map in Hit as ([k its] & Hin & Hit).
    exists (k, its). split; [done|]. apply elem_of_map. exists it.
    split; [done|]. by apply list_elem_of_filter.
Qed.

Lemma combined_from_pattern B c :
  Forall (fun p => is_pattern p = true) B →
  combined_from B c → is_pattern (bin c) = true.
Proof.
  intros HB (_ & p & q & Hp & _ & _ & ->).
  apply is_pattern_combine. rewrite Forall_forall in HB. by apply HB.
Qed.

(** One round keeps the groups fresh and made of patterns, and whatever was
    covered stays covered by a collected prime implicant or by the new
    groups. *)
Lemma combine_round_covered g g' ng any levels :
  combine_round g = (g', ng, any) →
  Forall (fun it => used it = false) (all_items g) →
  Forall (fun p => is_pattern p = true) (map bin (all_items g)) →
  Forall (fun it => used it = false) (all_items (dedup_groups ng))
  ∧ Forall (fun p => is_pattern p = true) (map bin (all_items (dedup_groups ng)))
  ∧ ∀ x, covered_by_primes levels g x →
         covered_by_primes (levels ++ [unused_bins g']) (dedup_groups ng) x.
Proof.
  intros Hround Hfresh Hpat.
  apply combine_round_spec in Hround as (Hbin & Hnew & Hused & Hany).
  specialize (Hused Hfresh).
  assert (Hng : ∀ c, c ∈ all_items ng → is_pattern (bin c) = true).
  { intros c Hc. eapply combined_from_pattern; [exact Hpat|by apply Hnew]. }
  split; [|split].
  - apply Forall_forall. intros c Hc%dedup_groups_subset. by apply Hnew.
  - apply Forall_forall. intros p (c & -> & Hc%dedup_groups_subset)%elem_of_map.
    by apply Hng.
  - intros x (p & Hp & Hcov). unfold covered_by_primes.
    rewrite concat_app. setoid_rewrite elem_of_app. simpl.
    rewrite app_nil_r.
    destruct Hp as [Hp|Hp]; [exists p; auto|].
    rewrite all_bins_eq, <- Hbin in Hp.
    apply elem_of_map in Hp as (it' & -> & Hit').
    destruct (used it') eqn:Hu.
    + rewrite Forall_forall in Hused.
      destruct (Hused it' Hit' Hu) as (c & Hc & Hsup).
      destruct (dedup_groups_keeps ng c Hc) as (c' & Hc' & Hkey).
      exists (bin c'). split.
      * right. rewrite all_bins_eq. apply elem_of_map. by exists c'.
      * rewrite (item_key_bin c' c); [by apply Hsup| |by apply Hng|done].
        by apply Hng, dedup_groups_subset.
    + exists (bin it'). split; [|done]. left. right.
      apply elem_of_unused_bins. by exists it'.
Qed.

Lemma combine_rounds_covered fuel :
  ∀ g levels levels' g',
    combine_rounds fuel g levels = Some (levels', g') →
    Forall (fun it => used it = false) (all_items g) →
    Forall (fun p => is_pattern p = true) (map bin (all_items g)) →
    ∀ x, covered_by_primes levels g x → covered_by_primes levels' g' x.
Proof.
  induction fuel as [|fuel IH]; intros g levels levels' gf; [done|].
  cbn [combine_rounds].
  destruct (combine_round g) as [[g' ng] any] eqn:Hround.
  intros Hres Hfresh Hpat x Hx.
  destruct (combine_round_covered _ _ _ _ levels Hround Hfresh Hpat)
    as (Hfresh' & Hpat' & Hcov).
  destruct any.
  - eapply IH; eauto.
  - injection Hres as <- <-. by apply Hcov.
Qed.

(** ** Quine-McCluskey: the list of prime implicants *)

Lemma elem_of_ordered_add {A} `{EqDecision A} (x y : A) (l : list A) :
  y ∈ ordered_add x l ↔ y = x ∨ y ∈ l.
Proof.
  unfold ordered_add. destruct (decide (x ∈ l)) as [Hin|Hout].
  - split; [by right|]. by intros [->|?].
  - rewrite elem_of_app, list_elem_of_singleton. tauto.
Qed.

Lemma NoDup_ordered_add {A} `{EqDecision A} (x : A) (l : list A) :
  NoDup l → NoDup (ordered_add x l).
Proof.
  intros Hnd. unfold ordered_add. destruct (decide (x ∈ l)) as [Hin|Hout].
  - done.
  - apply NoDup_app. split; [done|]. split; [|apply NoDup_singleton].
    by intros y Hy ->%list_elem_of_singleton.
Qed.

Lemma ordered_set_spec {A} `{EqDecision A} (l : list A) :
  (∀ y, y ∈ ordered_set l ↔ y ∈ l) ∧ NoDup (ordered_set l).
Proof.
  unfold ordered_set.
  assert (Hgen : ∀ acc,
    (∀ y, y ∈ fold_left (fun acc x => ordered_add x acc) l acc ↔ y ∈ acc ∨ y ∈ l)
    ∧ (NoDup acc → NoDup (fold_left (fun acc x => ordered_add x acc) l acc))).
  { induction l as [|x l IH]; intros acc; simpl.
    - split; [|done]. intros y. rewrite elem_of_nil. tauto.
    - destruct (IH (ordered_add x acc)) as [Hmem Hnd]. split.
      + intros y. rewrite Hmem, elem_of_ordered_add, elem_of_cons. tauto.
      + intros Hacc. by apply Hnd, NoDup_ordered_add. }
  destruct (Hgen []) as [Hmem Hnd]. split.
  - intros y. rewrite Hmem, elem_of_nil. tauto.
  - apply Hnd. constructor.
Qed.

Lemma elem_of_initial_groups bins it :
  it ∈ all_items (initial_groups bins) ↔ ∃ b, b ∈ bins ∧ it = mkItem b false [b].
Proof.
  unfold initial_groups.
  assert (Hgen : ∀ g,
    it ∈ all_items
           (fold_left (fun g b => push_group (countOnes b) (mkItem b false [b]) g)
              bins g)
    ↔ it ∈ all_items g ∨ ∃ b, b ∈ bins ∧ it = mkItem b false [b]).
  { induction bins as [|b bins IH]; intros g; simpl.
    - split; [by left|]. intros [?|(b & ?%elem_of_nil & _)]; done.
    - rewrite IH, elem_of_all_items_push. split.
      + intros [[->|?]|(b' & Hb' & ->)]; [right|by left|right].
        * exists b. split; [|done]. by apply elem_of_cons; left.
        * exists b'. split; [|done]. by apply elem_of_cons; right.
      + intros [?|(b' & [->|Hb']%elem_of_cons & ->)]; [by left; right| |].
        * left. by left.
        * right. by exists b'. }
  rewrite Hgen. split; [|by right].
  by intros [?%elem_of_nil|?].
Qed.

(** Every term handed to the minimizer is covered by a prime implicant of
    the list, whenever the rounds come to an end. *)
Lemma prime_list_complete fuel bins primeList :
  Forall (fun b => is_pattern b = true) bins →
  prime_list fuel bins = Some primeList →
  NoDup primeList
  ∧ ∀ x, x ∈ bins → ∃ p, p ∈ primeList ∧ covers p x = true.
Proof.
  intros Hbins. unfold prime_list.
  destruct (combine_rounds fuel (initial_groups bins) []) as [[levels g]|]
    eqn:Hrounds; [|done].
  intros [= <-].
  destruct (ordered_set_spec (concat levels ++ all_bins g)) as [Hmem Hnd].
  split; [done|]. intros x Hx.
  destruct (combine_rounds_covered _ _ _ _ _ Hrounds) with (x := x)
    as (p & Hp & Hcov).
  - apply Forall_forall. by intros it (b & _ & ->)%elem_of_initial_groups.
  - apply Forall_forall.
    intros p (it & -> & (b & Hb & ->)%elem_of_initial_groups)%elem_of_map.
    rewrite Forall_forall in Hbins. by apply Hbins.
  - exists x. split; [|apply covers_refl]. right.
    rewrite all_bins_eq. apply elem_of_map. exists (mkItem x false [x]).
    split; [done|]. apply elem_of_initial_groups. by exists x.
  - exists p. split; [|done]. apply Hmem, elem_of_app. tauto.
Qed.

(** ** Quine-McCluskey: the selection phase *)

Section selection_proofs.
Variables primeList minBin : list string.

Let cover := cover_chart primeList minBin.

Lemma elem_of_cover_row pl j0 m j :
  j ∈ cover_row pl j0 m ↔
  ∃ k p, j = j0 + k ∧ pl !! k = Some p ∧ covers p m = true.
Proof.
  revert j0. induction pl as [|p pl IH]; intros j0; simpl.
  - rewrite elem_of_nil. split; [done|]. by intros (k & p & _ & ? & _).
  - destruct (covers p m) eqn:Hp.
    + rewrite elem_of_cons, IH. split.
      * intros [->|(k & q & -> & Hk & Hq)].
        -- exists 0, p. split; [lia|done].
        -- exists (S k), q. split; [lia|done].
      * intros ([|k] & q & -> & Hk & Hq).
        -- left. lia.
        -- right. exists k, q. split; [lia|done].
    + rewrite IH. split.
      * intros (k & q & -> & Hk & Hq). exists (S k), q. split; [lia|done].
      * intros ([|k] & q & -> & Hk & Hq).
        -- simpl in Hk. congruence.
        -- exists k, q. split; [lia|done].
Qed.

Lemma NoDup_cover_row pl j0 m : NoDup (cover_row pl j0 m).
Proof.
  revert j0. induction pl as [|p pl IH]; intros j0; simpl; [constructor|].
  destruct (covers p m); [|apply IH]. constructor; [|apply IH].
  intros (k & q & Hj & _)%elem_of_cover_row. lia.
Qed.

Lemma length_cover : length cover = length minBin.
Proof. apply length_map. Qed.

Lemma cover_lookup i js :
  cover !! i = Some js ↔ ∃ m, minBin !! i = Some m ∧ js = cover_row primeList 0 m.
Proof.
  unfold cover, cover_chart. revert i. induction minBin as [|m0 ms IH]; intros i; simpl.
  - split; [done|]. by intros (m & ? & _).
  - destruct i as [|i]; simpl.
    + split; [intros [= <-]; by exists m0|]. by intros (m & [= <-] & ->).
    + apply IH.
Qed.

Lemma elem_of_cover i js j :
  cover !! i = Some js → j ∈ js ↔ covers_row primeList minBin j i = true.
Proof.
  intros (m & Hm & ->)%cover_lookup. rewrite elem_of_cover_row.
  unfold covers_row. rewrite Hm. split.
  - intros (k & p & -> & Hk & Hp). simpl. by rewrite Hk.
  - destruct (primeList !! j) as [p|] eqn:Hj; [|done].
    intros Hp. by exists j, p.
Qed.

Lemma covers_row_lt j i :
  covers_row primeList minBin j i = true → j < length primeList ∧ i < length minBin.
Proof.
  unfold covers_row.
  destruct (primeList !! j) as [p|] eqn:Hj; [|done].
  destruct (minBin !! i) as [m|] eqn:Hi; [|done].
  intros _. split; by eapply lookup_lt_Some.
Qed.

(** *** Essential implicants *)

Lemma elem_of_essentials rows chosen j :
  j ∈ essentials rows chosen ↔ j ∈ chosen ∨ [j] ∈ rows.
Proof.
  revert chosen. induction rows as [|js rows IH]; intros chosen.
  - simpl. rewrite elem_of_nil. tauto.
  - rewrite elem_of_cons.
    destruct js as [|j1 [|j2 js]]; cbn [essentials]; rewrite IH.
    + split; [intros [?|?]; auto|]. intros [?|[[=]|?]]; auto.
    + rewrite elem_of_ordered_add. split.
      * intros [[->|?]|?]; [right; by left|by left|right; by right].
      * intros [?|[[= ->]|?]]; [left; by right|left; by left|by right].
    + split; [intros [?|?]; auto|]. intros [?|[[=]|?]]; auto.
Qed.

Lemma essentials_spec j :
  j ∈ essentials cover [] ↔ essential primeList minBin j.
Proof.
  rewrite elem_of_essentials, elem_of_nil, list_elem_of_lookup. split.
  - intros [[]|(i & Hi)]. exists i. intros j'.
    rewrite <- (elem_of_cover i [j] j' Hi). apply list_elem_of_singleton.
  - intros (i & Hsole). right. exists i.
    assert (covers_row primeList minBin j i = true) as Hj by by apply Hsole.
    apply covers_row_lt in Hj as Hlt.
    destruct (lookup_lt_is_Some_2 cover i) as [js Hjs].
    { rewrite length_cover. lia. }
    rewrite Hjs. f_equal.
    assert (Hmem : ∀ j', j' ∈ js ↔ j' = j).
    { intros j'. rewrite (elem_of_cover i js j' Hjs). apply Hsole. }
    assert (NoDup js) as Hnd.
    { apply cover_lookup in Hjs as (m & _ & ->). apply NoDup_cover_row. }
    destruct js as [|a js].
    { exfalso. apply (elem_of_nil j). by apply Hmem. }
    assert (a = j) as -> by (apply Hmem, elem_of_cons; by left).
    destruct js as [|b js]; [done|].
    apply NoDup_cons in Hnd as [Hnotin _].
    destruct Hnotin. assert (b = j) as ->.
    { apply Hmem. rewrite !elem_of_cons. auto. }
    apply elem_of_cons. by left.
Qed.

(** *** Covered rows *)

Lemma elem_of_markCovered rows i0 chosen coveredRows x :
  x ∈ markCovered rows i0 chosen coveredRows ↔
  x ∈ coveredRows
  ∨ ∃ k js, x = i0 + k ∧ rows !! k = Some js
            ∧ existsb (fun j => bool_decide (j ∈ chosen)) js = true.
Proof.
  revert i0 coveredRows.
  induction rows as [|js rows IH]; intros i0 coveredRows; cbn [markCovered].
  { split; [by left|]. by intros [?|(k & js & _ & ? & _)]. }
  assert (Hshift : (∃ k js', x = S i0 + k ∧ rows !! k = Some js'
                     ∧ existsb (fun j => bool_decide (j ∈ chosen)) js' = true)
                   ∨ (x = i0 ∧ existsb (fun j => bool_decide (j ∈ chosen)) js = true)
                   ↔ ∃ k js', x = i0 + k ∧ (js :: rows) !! k = Some js'
                     ∧ existsb (fun j => bool_decide (j ∈ chosen)) js' = true).
  { split.
    - intros [(k & js' & -> & Hk & Hex)|[-> Hex]].
      + exists (S k), js'. split; [lia|done].
      + exists 0, js. split; [lia|done].
    - intros ([|k] & js' & -> & Hk & Hex).
      + right. injection Hk as <-. split; [lia|done].
      + left. exists k, js'. split; [lia|done]. }
  rewrite <- Hshift.
  destruct (decide (i0 ∈ coveredRows)) as [Hin|Hout].
  - rewrite IH. split; [tauto|]. intros [?|[?|[-> _]]]; auto.
  - destruct (existsb _ js) eqn:Hex.
    + rewrite IH, elem_of_union, elem_of_singleton. tauto.
    + rewrite IH. split; [tauto|]. intros [?|[?|[_ ?]]]; auto. done.
Qed.

Lemma chosen_covers_row i js chosen :
  cover !! i = Some js →
  existsb (fun j => bool_decide (j ∈ chosen)) js
  = existsb (fun j => covers_row primeList minBin j i) chosen.
Proof.
  intros Hjs. apply eq_true_iff_eq. rewrite !existsb_true. split.
  - intros (j & Hj & Hc%bool_decide_eq_true). exists j.
    split; [done|]. by apply (elem_of_cover i js j Hjs).
  - intros (j & Hj & Hc). exists j. split.
    + by apply (elem_of_cover i js j Hjs).
    + by apply bool_decide_eq_true.
Qed.

Lemma existsb_covers_mono i (chosen chosen' : list nat) :
  (∀ j, j ∈ chosen → j ∈ chosen') →
  existsb (fun j => covers_row primeList minBin j i) chosen = true →
  existsb (fun j => covers_row primeList minBin j i) chosen' = true.
Proof.
  intros Hsub. rewrite !existsb_true. intros (j & Hj & Hc).
  exists j. split; [by apply Hsub|done].
Qed.

(** [markCovered] brings [coveredRows] up to date with [chosen]. *)
Lemma markCovered_spec chosen chosen' coveredRows :
  (∀ j, j ∈ chosen → j ∈ chosen') →
  covered_rows_of primeList minBin chosen coveredRows →
  covered_rows_of primeList minBin chosen'
    (markCovered cover 0 chosen' coveredRows).
Proof.
  intros Hsub Hinv i. rewrite elem_of_markCovered, (Hinv i). split.
  - intros [[Hi Hex]|(k & js & -> & Hk & Hex)].
    + split; [done|]. by eapply existsb_covers_mono.
    + simpl. split.
      * rewrite <- length_cover. by eapply lookup_lt_Some.
      * by rewrite <- (chosen_covers_row k js).
  - intros [Hi Hex]. right.
    destruct (lookup_lt_is_Some_2 cover i) as [js Hjs].
    { by rewrite length_cover. }
    exists i, js. split; [done|]. split; [done|].
    by rewrite (chosen_covers_row i js).
Qed.

Lemma covered_rows_of_empty : covered_rows_of primeList minBin [] ∅.
Proof. intros i. simpl. split; [by intros ?%elem_of_empty|]. by intros [_ ?]. Qed.

Lemma covered_rows_size chosen coveredRows :
  covered_rows_of primeList minBin chosen coveredRows →
  size coveredRows + length (uncovered primeList minBin chosen) = length minBin.
Proof.
  intros Hinv.
  set (P := fun i => existsb (fun j => covers_row primeList minBin j i) chosen = true).
  assert (coveredRows = list_to_set (filter P (seq 0 (length minBin)))) as ->.
  { apply set_eq. intros i.
    rewrite (Hinv i), elem_of_list_to_set, list_elem_of_filter, elem_of_seq.
    unfold P. split; [intros [? ?]; split; [done|lia]|intros [? ?]; split; [lia|done]]. }
  rewrite size_list_to_set by (apply NoDup_filter, NoDup_seq).
  pose proof (filter_app_complement P (seq 0 (length minBin))) as Hperm.
  apply Permutation_length in Hperm.
  rewrite length_app, length_seq in Hperm. etrans; [|exact Hperm].
  f_equal. f_equal. unfold uncovered. apply list_filter_iff.
  intros i. unfold P. by destruct (existsb _ chosen).
Qed.

(** *** The count of a candidate and the best candidate *)

Lemma cover_count_suffix chosen coveredRows j rows :
  covered_rows_of primeList minBin chosen coveredRows →
  ∀ i0,
    (∀ k js, rows !! k = Some js → cover !! (i0 + k) = Some js) →
    cover_count rows i0 coveredRows j
    = length (filter (fun i => covers_row primeList minBin j i = true)
                (filter (fun i => existsb (fun j => covers_row primeList minBin j i)
                                    chosen = false)
                   (seq i0 (length rows)))).
Proof.
  intros Hinv. induction rows as [|js rows IH]; intros i0 Hrows; [done|].
  cbn [cover_count length seq].
  assert (cover !! i0 = Some js) as Hjs.
  { rewrite <- (Nat.add_0_r i0). by apply Hrows. }
  assert (i0 < length minBin) as Hlt.
  { rewrite <- length_cover. by eapply lookup_lt_Some. }
  rewrite (IH (S i0)).
  2:{ intros k js' Hk. replace (S i0 + k) with (i0 + S k) by lia.
      by apply Hrows. }
  rewrite filter_cons.
  destruct (decide (i0 ∈ coveredRows)) as [Hin|Hout].
  - apply Hinv in Hin as [_ Hex]. rewrite decide_False; [done|]. by rewrite Hex.
  - assert (existsb (fun j => covers_row primeList minBin j i0) chosen = false)
      as Hex.
    { destruct (existsb _ chosen) eqn:Hex; [|done].
      destruct Hout. by apply Hinv. }
    rewrite decide_True by done. rewrite filter_cons.
    destruct (bool_decide (j ∈ js)) eqn:Hj.
    + apply bool_decide_eq_true in Hj.
      apply (elem_of_cover i0 js j Hjs) in Hj. by rewrite decide_True.
    + apply bool_decide_eq_false in Hj. rewrite decide_False; [done|].
      intros Hc. by apply Hj, (elem_of_cover i0 js j Hjs).
Qed.

Lemma cover_count_gain chosen coveredRows j :
  covered_rows_of primeList minBin chosen coveredRows →
  cover_count cover 0 coveredRows j = gain primeList minBin chosen j.
Proof.
  intros Hinv. rewrite (cover_count_suffix chosen) by done.
  unfold gain, uncovered. by rewrite length_cover.
Qed.

Lemma best_candidate_spec chosen coveredRows lo count :
  ∀ j0 best,
    lo ≤ j0 →
    best_so_far chosen (cover_count cover 0 coveredRows) lo j0 best →
    best_so_far chosen (cover_count cover 0 coveredRows) lo (j0 + count)
      (best_candidate cover chosen coveredRows j0 count best).
Proof.
  induction count as [|count IH]; intros j0 best Hlo Hbest.
  { by rewrite Nat.add_0_r. }
  cbn [best_candidate]. replace (j0 + S count) with (S j0 + count) by lia.
  apply IH; [lia|].
  set (f := cover_count cover 0 coveredRows) in *.
  destruct (decide (j0 ∈ chosen)) as [Hin|Hout].
  - destruct best as [[bj bc]|]; simpl in *.
    + destruct Hbest as (Hrange & Hbj & Hbc & Hmax & Hfirst).
      split; [lia|]. split; [done|]. split; [done|]. split; [|done].
      intros j Hj Hjc. apply Hmax; [|done].
      destruct (decide (j = j0)) as [->|]; [done|lia].
    + intros j Hj. destruct (decide (j = j0)) as [->|]; [done|].
      apply Hbest. lia.
  - destruct best as [[bj bc]|]; simpl in *.
    + destruct Hbest as (Hrange & Hbj & Hbc & Hmax & Hfirst).
      destruct (Nat.ltb_spec bc (f j0)) as [Hlt|Hge]; simpl.
      * split; [lia|]. split; [done|]. split; [done|]. split.
        -- intros j Hj Hjc. destruct (decide (j = j0)) as [->|]; [done|].
           assert (f j ≤ bc) by (apply Hmax; [lia|done]). lia.
        -- intros j Hj Hjc.
           assert (f j ≤ bc) by (apply Hmax; [lia|done]). lia.
      * split; [lia|]. split; [done|]. split; [done|]. split; [|done].
        intros j Hj Hjc. destruct (decide (j = j0)) as [->|]; [done|].
        apply Hmax; [lia|done].
    + split; [lia|]. split; [done|]. split; [done|]. split.
      * intros j Hj Hjc. destruct (decide (j = j0)) as [->|]; [done|].
        destruct Hjc. apply Hbest. lia.
      * intros j Hj Hjc. destruct Hjc. apply Hbest. lia.
Qed.

(** *** The greedy loop *)

Lemma unchosen_add chosen j :
  j < length primeList → j ∉ chosen →
  length (unchosen primeList (chosen ++ [j])) < length (unchosen primeList chosen).
Proof.
  intros Hj Hout. unfold unchosen.
  rewrite (list_filter_iff (fun j' => j' ∉ chosen ++ [j])
             (fun j' => j' ≠ j ∧ j' ∉ chosen)).
  2:{ intros j'. rewrite elem_of_app, list_elem_of_singleton. tauto. }
  rewrite <- list_filter_filter.
  apply (length_filter_lt _ _ j); [|tauto].
  apply list_elem_of_filter. split; [done|]. apply elem_of_seq. lia.
Qed.

(** While a row is uncovered, the search finds a candidate, and it is the
    one the specification picks. *)
Lemma greedy_candidate chosen coveredRows :
  (∀ i, i < length minBin → ∃ j, covers_row primeList minBin j i = true) →
  covered_rows_of primeList minBin chosen coveredRows →
  size coveredRows < length cover →
  ∃ bj bc,
    best_candidate cover chosen coveredRows 0 (length primeList) None
      = Some (bj, bc)
    ∧ bj < length primeList ∧ (bj ∉ chosen)
    ∧ uncovered primeList minBin chosen ≠ []
    ∧ 0 < gain primeList minBin chosen bj
    ∧ (∀ j', j' < length primeList → j' ∉ chosen →
         gain primeList minBin chosen j' ≤ gain primeList minBin chosen bj)
    ∧ (∀ j', j' < bj → j' ∉ chosen →
         gain primeList minBin chosen j' < gain primeList minBin chosen bj).
Proof.
  intros Hcoverer Hinv Hlt. rewrite length_cover in Hlt.
  pose proof (covered_rows_size chosen coveredRows Hinv) as Hsize.
  destruct (uncovered primeList minBin chosen) as [|i rest] eqn:Hunc;
    [simpl in Hsize; lia|].
  assert (i ∈ uncovered primeList minBin chosen) as Hi.
  { rewrite Hunc. apply elem_of_cons. by left. }
  apply list_elem_of_filter in Hi as [Hiunc Hirange].
  apply elem_of_seq in Hirange.
  destruct (Hcoverer i ltac:(lia)) as [j0 Hj0].
  apply covers_row_lt in Hj0 as Hj0lt.
  assert (j0 ∉ chosen) as Hj0out.
  { intros Hin.
    assert (existsb (fun j => covers_row primeList minBin j i) chosen = true)
      as Hex by (apply existsb_true; by exists j0).
    congruence. }
  assert (0 < gain primeList minBin chosen j0) as Hgain0.
  { unfold gain. rewrite Hunc, filter_cons, decide_True by done. simpl. lia. }
  pose proof (best_candidate_spec chosen coveredRows 0 (length primeList)
                0 None (Nat.le_refl 0)) as Hbest.
  simpl in Hbest. specialize (Hbest ltac:(intros j ?; lia)).
  destruct (best_candidate cover chosen coveredRows 0 (length primeList) None)
    as [[bj bc]|].
  2:{ destruct Hj0out. apply Hbest. lia. }
  destruct Hbest as (Hrange & Hbj & Hbc & Hmax & Hfirst).
  rewrite (cover_count_gain chosen) in Hbc by done. subst bc.
  exists bj, (gain primeList minBin chosen bj).
  split; [done|]. split; [lia|]. split; [done|]. split; [done|].
  split; [|split].
  - assert (gain primeList minBin chosen j0 ≤ gain primeList minBin chosen bj);
      [|lia].
    rewrite <- (cover_count_gain chosen coveredRows j0) by done.
    apply Hmax; [lia|done].
  - intros j' Hj' Hout'.
    rewrite <- (cover_count_gain chosen coveredRows j') by done.
    apply Hmax; [lia|done].
  - intros j' Hj' Hout'.
    rewrite <- (cover_count_gain chosen coveredRows j') by done.
    apply Hfirst; [lia|done].
Qed.

(** The loop of the code ends within its bound and does what the
    specification says. *)
Lemma greedy_loop_spec fuel :
  ∀ chosen coveredRows,
    (∀ i, i < length minBin → ∃ j, covers_row primeList minBin j i = true) →
    covered_rows_of primeList minBin chosen coveredRows →
    length (unchosen primeList chosen) ≤ fuel →
    ∃ final,
      greedy_loop fuel cover (length primeList) chosen coveredRows = Some final
      ∧ greedy_cover primeList minBin chosen final.
Proof.
  assert (Hstop : ∀ chosen coveredRows,
    covered_rows_of primeList minBin chosen coveredRows →
    ¬ size coveredRows < length cover →
    greedy_cover primeList minBin chosen chosen).
  { intros chosen coveredRows Hinv Hge. apply greedy_stop. left.
    pose proof (covered_rows_size chosen coveredRows Hinv) as Hsize.
    rewrite length_cover in Hge.
    destruct (uncovered primeList minBin chosen); [done|simpl in Hsize; lia]. }
  induction fuel as [|fuel IH]; intros chosen coveredRows Hcoverer Hinv Hfuel;
    cbn [greedy_loop];
    destruct (decide (size coveredRows < length cover)) as [Hlt|Hge];
    try (exists chosen; split; [done|by eapply Hstop]);
    destruct (greedy_candidate chosen coveredRows Hcoverer Hinv Hlt)
      as (bj & bc & Hbest & Hbj & Hout & Hunc & Hgain & Hmax & Hfirst).
  - exfalso.
    assert (bj ∈ unchosen primeList chosen) as Hin.
    { apply list_elem_of_filter. split; [done|]. apply elem_of_seq. lia. }
    destruct (unchosen primeList chosen);
      [by apply elem_of_nil in Hin|simpl in Hfuel; lia].
  - rewrite Hbest.
    assert (ordered_add bj chosen = chosen ++ [bj]) as ->.
    { unfold ordered_add. by rewrite decide_False. }
    destruct (IH (chosen ++ [bj])
                (markCovered cover 0 (chosen ++ [bj]) coveredRows))
      as (final & Hfinal & Hgreedy).
    + done.
    + apply (markCovered_spec chosen); [|done].
      intros j Hj. apply elem_of_app. by left.
    + pose proof (unchosen_add chosen bj Hbj Hout). lia.
    + exists final. split; [done|]. by eapply greedy_pick.
Qed.

(** The picks of the greedy loop are determined by the set it starts from. *)
Lemma greedy_cover_deterministic chosen final1 final2 :
  greedy_cover primeList minBin chosen final1 →
  greedy_cover primeList minBin chosen final2 →
  final1 = final2.
Proof.
  intros H1. revert final2.
  induction H1 as [chosen Hstop
                  |chosen j1 final1 Hunc1 Hj1 Hout1 Hgain1 Hmax1 Hlow1 _ IH];
    intros final2 H2.
  - destruct H2 as [|chosen j2 final2 Hunc2 _ _ Hgain2 _ _ _]; [done|].
    destruct Hstop as [Hnone|Hzero]; [done|].
    specialize (Hzero j2). lia.
  - destruct H2 as [chosen Hstop
                   |chosen j2 final2 Hunc2 Hj2 Hout2 Hgain2 Hmax2 Hlow2 H2].
    + destruct Hstop as [Hnone|Hzero]; [done|].
      specialize (Hzero j1). lia.
    + assert (j1 = j2) as ->; [|by apply IH].
      destruct (Nat.lt_trichotomy j1 j2) as [Hlt|[?|Hlt]]; [|done|].
      * specialize (Hlow2 j1 Hlt Hout1). specialize (Hmax1 j2 Hj2 Hout2). lia.
      * specialize (Hlow1 j2 Hlt Hout2). specialize (Hmax2 j1 Hj1 Hout1). lia.
Qed.

Lemma select_implicants_spec :
  (∀ i, i < length minBin → ∃ j, covers_row primeList minBin j i = true) →
  ∃ chosen,
    select_implicants primeList minBin = Some chosen
    ∧ selected_as_specified primeList minBin chosen.
Proof.
  intros Hcoverer. unfold select_implicants. fold cover.
  destruct (greedy_loop_spec (S (length primeList)) (essentials cover [])
              (markCovered cover 0 (essentials cover []) ∅))
    as (final & Hfinal & Hgreedy).
  - done.
  - apply (markCovered_spec []); [|apply covered_rows_of_empty].
    by intros j ?%elem_of_nil.
  - unfold unchosen. etrans; [apply length_filter|]. rewrite length_seq. lia.
  - exists final. split; [done|]. exists (essentials cover []).
    split; [apply essentials_spec|]. split; [done|].
    intros final' Hfinal'. by eapply greedy_cover_deterministic.
Qed.

(** Once the greedy loop has stopped, every minterm that some implicant
    covers is covered by a chosen one. *)
Lemma greedy_cover_final chosen final :
  greedy_cover primeList minBin chosen final →
  (∀ j, j ∈ chosen → j ∈ final)
  ∧ (∀ j, j ∈ final → j ∈ chosen ∨ j < length primeList)
  ∧ ∀ i j, covers_row primeList minBin j i = true →
           existsb (fun j => covers_row primeList minBin j i) final = true.
Proof.
  induction 1
    as [chosen Hstop|chosen j final _ Hj _ _ _ _ _ (IHsub & IHin & IHcov)].
  - split; [done|]. split; [by left|]. intros i j Hj.
    destruct (existsb _ chosen) eqn:Hex; [done|]. exfalso.
    assert (i ∈ uncovered primeList minBin chosen) as Hi.
    { apply list_elem_of_filter. split; [done|]. apply elem_of_seq.
      apply covers_row_lt in Hj. lia. }
    destruct Hstop as [Hnone|Hgain].
    + rewrite Hnone in Hi. by apply elem_of_nil in Hi.
    + specialize (Hgain j). unfold gain in Hgain.
      assert (i ∈ filter (fun i => covers_row primeList minBin j i = true)
                    (uncovered primeList minBin chosen)) as Hin
        by by apply list_elem_of_filter.
      destruct (filter _ (uncovered primeList minBin chosen));
        [by apply elem_of_nil in Hin|done].
  - split; [|split; [|done]].
    + intros j' Hj'. apply IHsub, elem_of_app. by left.
    + intros j' Hj'.
      destruct (IHin j' Hj') as [[?|Heq%list_elem_of_singleton]%elem_of_app|?];
        subst; auto.
Qed.

End selection_proofs.

(** ** Quine-McCluskey on well-formed terms: soundness and termination *)

Lemma countDashes_binary b : is_binary b = true → countDashes b = 0.
Proof.
  unfold is_binary. induction b as [|c b IH]; [done|].
  cbn [string_forall countDashes]. intros [Hc Hb]%andb_true_iff.
  unfold binary_char in Hc.
  destruct (Ascii.eqb_spec c "-") as [->|]; [done|]. by apply IH.
Qed.

Lemma covers_binary b x :
  is_binary b = true → String.length x = String.length b →
  covers b x = true → x = b.
Proof.
  unfold is_binary. revert x.
  induction b as [|c b IH]; intros [|z x]; try done.
  cbn [string_forall covers uncons same_char String.length].
  intros [Hc Hb]%andb_true_iff Hlen. unfold binary_char in Hc.
  destruct (Ascii.eqb_spec c "-") as [->|]; [done|].
  destruct (Ascii.eqb_spec c z) as [->|]; [|done].
  intros Hcov. f_equal. apply IH; [done|lia|done].
Qed.

Lemma sound_pattern_combine W X p q :
  sound_pattern W X p → sound_pattern W X q →
  canCombine p q = true →
  sound_pattern W X (combine p q).
Proof.
  intros (Hp & Hlp & Hsp) (Hq & Hlq & Hsq) Hcomb.
  split; [by apply is_pattern_combine|]. split; [by rewrite length_combine|].
  intros x Hx Hlx Hcov.
  destruct (covers_combine_inv p q x) as [?|?]; auto; congruence.
Qed.

Lemma combine_round_wf W d X g g' ng any :
  combine_round g = (g', ng, any) →
  Forall (round_item W d X) (all_items g) →
  Forall (round_item W (S d) X) (all_items (dedup_groups ng))
  ∧ Forall (sound_pattern W X) (unused_bins g')
  ∧ (any = true → S d ≤ W).
Proof.
  intros Hround Hitems. rewrite Forall_forall in Hitems.
  apply combine_round_spec in Hround as (Hbin & Hnew & _ & Hany).
  assert (Hng : ∀ c, c ∈ all_items ng → round_item W (S d) X c).
  { intros c (Hfresh & p & q & Hp & Hq & Hpq & Hc)%Hnew.
    apply elem_of_map in Hp as (a & -> & Ha), Hq as (b & -> & Hb).
    destruct (Hitems a Ha) as (_ & Hda & Hsa).
    destruct (Hitems b Hb) as (_ & Hdb & Hsb).
    split; [done|]. rewrite Hc. split.
    - rewrite countDashes_combine; [by rewrite Hda| |congruence|done].
      destruct Hsa as (_ & -> & _), Hsb as (_ & -> & _). done.
    - by apply sound_pattern_combine. }
  split; [|split].
  - apply Forall_forall. intros c Hc%dedup_groups_subset. by apply Hng.
  - apply Forall_forall. intros p (it' & Hit' & _ & <-)%elem_of_unused_bins.
    apply (elem_of_map_bin (all_items g)) in Hit'; [|done].
    apply elem_of_map in Hit' as (it & -> & Hit). by apply Hitems.
  - intros (c & Hc)%Hany. destruct (Hng c Hc) as (_ & <- & _ & <- & _).
    apply countDashes_le.
Qed.

Lemma combine_rounds_wf W X fuel :
  ∀ d g levels,
    d ≤ W → W < d + fuel →
    Forall (round_item W d X) (all_items g) →
    Forall (sound_pattern W X) (concat levels) →
    ∃ levels' g',
      combine_rounds fuel g levels = Some (levels', g')
      ∧ Forall (sound_pattern W X) (concat levels')
      ∧ Forall (sound_pattern W X) (all_bins g').
Proof.
  induction fuel as [|fuel IH]; intros d g levels Hd Hfuel Hitems Hlevels;
    [lia|].
  cbn [combine_rounds].
  destruct (combine_round g) as [[g' ng] any] eqn:Hround.
  destruct (combine_round_wf W d X _ _ _ _ Hround Hitems)
    as (Hnew & Hprimes & Hany).
  assert (Forall (sound_pattern W X) (concat (levels ++ [unused_bins g'])))
    as Hlevels'.
  { rewrite concat_app. apply Forall_app. split; [done|].
    simpl. by rewrite app_nil_r. }
  destruct any.
  - apply (IH (S d)); [by apply Hany|lia|done|done].
  - eexists _, _. split; [done|]. split; [done|].
    rewrite all_bins_eq. apply Forall_forall.
    intros p (c & -> & Hc)%elem_of_map.
    rewrite Forall_forall in Hnew. by destruct (Hnew c Hc) as (_ & _ & ?).
Qed.

(** For binary terms of width [W] the rounds end within [W + 1] iterations,
    and every prime implicant is a pattern of width [W] that covers terms
    of the input only. *)
Lemma prime_list_sound W bins :
  Forall (fun b => is_binary b = true ∧ String.length b = W) bins →
  ∃ primeList,
    prime_list (S W) bins = Some primeList
    ∧ Forall (sound_pattern W bins) primeList.
Proof.
  intros Hbins. rewrite Forall_forall in Hbins. unfold prime_list.
  destruct (combine_rounds_wf W bins (S W) 0 (initial_groups bins) [])
    as (levels & g & -> & Hlevels & Hg); [lia|lia| |constructor|].
  - apply Forall_forall. intros it (b & Hb & ->)%elem_of_initial_groups.
    destruct (Hbins b Hb) as [Hbin Hlen].
    split; [done|]. split; [by apply countDashes_binary|].
    split; [by apply is_binary_pattern|]. split; [done|].
    intros x Hx Hlx Hcov. simpl in Hcov.
    by rewrite (covers_binary b x) by (done || congruence).
  - eexists. split; [done|]. apply Forall_forall. intros p Hp.
    apply (proj1 (proj1 (ordered_set_spec _) p)) in Hp.
    apply elem_of_app in Hp as [Hp|Hp].
    + rewrite Forall_forall in Hlevels. by apply Hlevels.
    + rewrite Forall_forall in Hg. by apply Hg.
Qed.

(** ** The binary strings of the minterms *)

Lemma length_bits_string m k : String.length (bits_string m k) = k.
Proof. induction k as [|k IH]; simpl; [done|]. by rewrite IH. Qed.

Lemma is_binary_bits_string m k : is_binary (bits_string m k) = true.
Proof.
  unfold is_binary. induction k as [|k IH]; [done|].
  cbn [bits_string string_forall]. rewrite IH.
  by destruct (N.testbit m (N.of_nat k)).
Qed.

Lemma bits_string_double (m : N) (b : bool) k :
  bits_string (2 * m + N.b2n b) (S k)
  = bits_string m k +:+ String (bit_char b) "".
Proof.
  induction k as [|k IH].
  - cbn [bits_string]. change (N.of_nat 0) with 0%N.
    by rewrite N.testbit_0_r.
  - change (bits_string (2 * m + N.b2n b) (S (S k)))
      with (String (bit_char (N.testbit (2 * m + N.b2n b) (N.of_nat (S k))))
              (bits_string (2 * m + N.b2n b) (S k))).
    rewrite IH, Nat2N.inj_succ, N.testbit_succ_r. done.
Qed.

Lemma pos_toString2_bits p acc :
  pos_toString2 p acc = bits_string (Npos p) (Pos.size_nat p) +:+ acc.
Proof.
  revert acc. induction p as [p IH|p IH|]; intros acc.
  - cbn [pos_toString2 Pos.size_nat]. rewrite IH.
    change (N.pos p~1) with (2 * N.pos p + N.b2n true)%N.
    by rewrite bits_string_double, <- string_app_assoc.
  - cbn [pos_toString2 Pos.size_nat]. rewrite IH.
    change (N.pos p~0) with (2 * N.pos p + N.b2n false)%N.
    by rewrite bits_string_double, <- string_app_assoc.
  - done.
Qed.

Lemma size_nat_pos p : 0 < Pos.size_nat p.
Proof. destruct p; simpl; lia. Qed.

Lemma top_bit p :
  N.testbit (Npos p) (N.of_nat (Pos.size_nat p - 1)) = true.
Proof.
  induction p as [p IH|p IH|]; [| |done].
  - cbn [Pos.size_nat]. pose proof (size_nat_pos p).
    replace (S (Pos.size_nat p) - 1) with (S (Pos.size_nat p - 1)) by lia.
    change (N.pos p~1) with (2 * N.pos p + N.b2n true)%N.
    by rewrite Nat2N.inj_succ, N.testbit_succ_r.
  - cbn [Pos.size_nat]. pose proof (size_nat_pos p).
    replace (S (Pos.size_nat p) - 1) with (S (Pos.size_nat p - 1)) by lia.
    change (N.pos p~0) with (2 * N.pos p + N.b2n false)%N.
    by rewrite Nat2N.inj_succ, N.testbit_succ_r.
Qed.

Lemma testbit_above (m : N) (W j : nat) :
  (m < 2 ^ N.of_nat W)%N → W ≤ j → N.testbit m (N.of_nat j) = false.
Proof.
  intros Hm Hj. rewrite <- (N.mod_small m (2 ^ N.of_nat W)) by done.
  apply N.mod_pow2_bits_high. lia.
Qed.

Lemma size_nat_le p W : (Npos p < 2 ^ N.of_nat W)%N → Pos.size_nat p ≤ W.
Proof.
  intros Hp. destruct (decide (Pos.size_nat p ≤ W)) as [|Hgt]; [done|].
  pose proof (top_bit p) as Htop.
  rewrite (testbit_above _ W) in Htop; [done|done|lia].
Qed.

Lemma bits_string_pad (m : N) (s k : nat) :
  (m < 2 ^ N.of_nat s)%N →
  bits_string m (k + s) = repeat_char "0" k +:+ bits_string m s.
Proof.
  intros Hm. induction k as [|k IH]; [done|].
  cbn [Nat.add bits_string repeat_char]. rewrite string_app_cons, IH.
  by rewrite (testbit_above m s) by (done || lia).
Qed.

Lemma pos_lt_size p : (Npos p < 2 ^ N.of_nat (Pos.size_nat p))%N.
Proof.
  induction p as [p IH|p IH|]; [| |done].
  - cbn [Pos.size_nat]. rewrite Nat2N.inj_succ, N.pow_succ_r'. lia.
  - cbn [Pos.size_nat]. rewrite Nat2N.inj_succ, N.pow_succ_r'. lia.
Qed.

(** For [m] below [2^W] and a positive width, [toBin m W] is the string of
    the [W] low bits of [m]. *)
Lemma toBin_bits m W :
  0 < W → m < 2 ^ W → toBin m W = bits_string (N.of_nat m) W.
Proof.
  intros HW Hm. unfold toBin, padStart, toString2.
  destruct (N.of_nat m) as [|p] eqn:Hp.
  - simpl String.length. destruct W as [|W]; [lia|].
    replace (S W - 1) with W by lia.
    clear. induction W as [|W IH]; [done|].
    change (bits_string 0 (S (S W)))
      with (String "0" (bits_string 0 (S W))).
    by rewrite <- IH.
  - assert (N.pos p < 2 ^ N.of_nat W)%N as Hlt.
    { rewrite <- Hp. change 2%N with (N.of_nat 2).
      rewrite <- Nat2N.inj_pow. lia. }
    pose proof (size_nat_le p W Hlt) as Hsize.
    rewrite pos_toString2_bits, string_app_nil_r, length_bits_string.
    rewrite <- (bits_string_pad _ _ _ (pos_lt_size p)). f_equal. lia.
Qed.

Lemma string_forall_repeat f c k :
  f c = true → string_forall f (repeat_char c k) = true.
Proof. intros Hc. induction k as [|k IH]; simpl; [done|]. by rewrite Hc. Qed.

Lemma is_binary_pos_toString2 p acc :
  is_binary acc = true → is_binary (pos_toString2 p acc) = true.
Proof.
  revert acc. induction p as [p IH|p IH|]; intros acc Hacc; simpl.
  - by apply IH.
  - by apply IH.
  - done.
Qed.

(** Whatever the width, [toBin] yields a string of binary digits. *)
Lemma is_binary_toBin m W : is_binary (toBin m W) = true.
Proof.
  unfold toBin, padStart, is_binary. rewrite string_forall_app.
  rewrite string_forall_repeat by done. simpl. unfold toString2.
  destruct (N.of_nat m); [done|]. by apply is_binary_pos_toString2.
Qed.

Lemma length_toBin m W : 0 < W → m < 2 ^ W → String.length (toBin m W) = W.
Proof. intros HW Hm. by rewrite toBin_bits, length_bits_string. Qed.

Lemma bits_string_inj W (m m' : N) :
  (m < 2 ^ N.of_nat W)%N → (m' < 2 ^ N.of_nat W)%N →
  bits_string m W = bits_string m' W → m = m'.
Proof.
  intros Hm Hm' Heq. apply N.bits_inj. intros j.
  destruct (decide (N.to_nat j < W)) as [Hj|Hj].
  - replace j with (N.of_nat (N.to_nat j)) by lia.
    revert Hj Heq. generalize (N.to_nat j). clear. intros i.
    induction W as [|W IH]; [lia|]. cbn [bits_string].
    intros Hi [= Hbit Hrest].
    destruct (decide (i = W)) as [->|].
    + by destruct (N.testbit m (N.of_nat W)), (N.testbit m' (N.of_nat W)).
    + apply IH; [lia|done].
  - replace j with (N.of_nat (N.to_nat j)) by lia.
    rewrite !(testbit_above _ W); [done|done|lia|done|lia].
Qed.

Lemma toBin_inj W m m' :
  0 < W → m < 2 ^ W → m' < 2 ^ W → toBin m W = toBin m' W → m = m'.
Proof.
  intros HW Hm Hm'. rewrite !toBin_bits by done. intros Heq.
  apply Nat2N.inj, (bits_string_inj W); [| |done];
    change 2%N with (N.of_nat 2); rewrite <- Nat2N.inj_pow; lia.
Qed.

(** ** The selection phase of the minimizer *)

Lemma toBin_patterns W (terms : list nat) :
  Forall (fun b => is_pattern b = true) (map (fun m => toBin m W) terms).
Proof.
  apply Forall_forall. intros b (m & -> & _)%elem_of_map.
  apply is_binary_pattern, is_binary_toBin.
Qed.

Lemma toBin_wellformed W (terms : list nat) :
  0 < W → Forall (fun m => m < 2 ^ W) terms →
  Forall (fun b => is_binary b = true ∧ String.length b = W)
    (map (fun m => toBin m W) terms).
Proof.
  intros HW Hterms. rewrite Forall_forall in Hterms.
  apply Forall_forall. intros b (m & -> & Hm)%elem_of_map.
  split; [apply is_binary_toBin|]. apply length_toBin; [done|by apply Hterms].
Qed.

(** Every true minterm has a coverer in the list of prime implicants. *)
Lemma minterms_have_coverers fuel minterms dontcares W primeList :
  prime_list fuel (map (fun m => toBin m W) (minterms ++ dontcares))
    = Some primeList →
  ∀ i, i < length (map (fun m => toBin m W) minterms) →
       ∃ j, covers_row primeList (map (fun m => toBin m W) minterms) j i = true.
Proof.
  intros Hprimes i Hi.
  apply prime_list_complete in Hprimes as [_ Hcomplete];
    [|apply toBin_patterns].
  destruct (lookup_lt_is_Some_2 _ _ Hi) as [x Hx].
  destruct (Hcomplete x) as (p & Hp & Hcov).
  { apply list_elem_of_lookup_2 in Hx.
    apply elem_of_map in Hx as (m & -> & Hm).
    apply elem_of_map. exists m. split; [done|]. apply elem_of_app. by left. }
  apply list_elem_of_lookup_1 in Hp as [j Hj].
  exists j. unfold covers_row. by rewrite Hj, Hx.
Qed.

(** Past the early return, [qmSimplify] is its three phases in a row. *)
Lemma qmSimplify_nonempty minterms dontcares varNames md :
  minterms ++ dontcares ≠ [] →
  qmSimplify minterms dontcares varNames md
  = let W := length varNames in
    let minBin := map (fun m => toBin m W) minterms in
    match prime_list (S W) (map (fun m => toBin m W) (minterms ++ dontcares)) with
    | None => None
    | Some primeList =>
        match select_implicants primeList minBin with
        | None => None
        | Some chosen =>
            let implicants := map (fun j => primeList !!! j) chosen in
            Some (mkOutput implicants
                    (match md with
                     | SOP => implicantsToSOP implicants varNames
                     | POS => implicantsToPOS implicants varNames
                     end))
        end
    end.
Proof. intros Hne. unfold qmSimplify. by destruct (minterms ++ dontcares). Qed.

(** C2: in the selection phase of the minimizer the chosen implicants are
    the essential prime implicants (each the sole coverer of some true
    minterm) followed by the picks of the greedy loop: while minterms are
    uncovered, the implicant not chosen yet that covers the most uncovered
    minterms, the lowest index winning ties, until all minterms are covered
    or no implicant covers a remaining one.  For terms below 2^W over W > 0
    variables the minimizer returns. *)
Theorem selection_phase minterms dontcares varNames md :
  let W := length varNames in
  let bins := map (fun m => toBin m W) (minterms ++ dontcares) in
  let minBin := map (fun m => toBin m W) minterms in
  minterms ++ dontcares ≠ [] →
  (∀ out, qmSimplify minterms dontcares varNames md = Some out →
     ∃ primeList chosen,
       prime_list (S W) bins = Some primeList
       ∧ select_implicants primeList minBin = Some chosen
       ∧ implicants out = map (fun j => primeList !!! j) chosen
       ∧ selected_as_specified primeList minBin chosen)
  ∧ (0 < W → Forall (fun m => m < 2 ^ W) (minterms ++ dontcares) →
     ∃ out, qmSimplify minterms dontcares varNames md = Some out).
Proof.
  intros W bins minBin Hterms.
  rewrite (qmSimplify_nonempty _ _ _ _ Hterms). cbv zeta.
  fold W bins minBin.
  split.
  - intros out Hout.
    destruct (prime_list (S W) bins) as [primeList|] eqn:Hprimes; [|done].
    destruct (select_implicants_spec primeList minBin)
      as (chosen & Hchosen & Hspec).
    { by eapply minterms_have_coverers. }
    rewrite Hchosen in Hout. injection Hout as <-.
    by exists primeList, chosen.
  - intros HW Hbelow.
    destruct (prime_list_sound W bins) as (primeList & Hprimes & _).
    { by apply toBin_wellformed. }
    rewrite Hprimes.
    destruct (select_implicants_spec primeList minBin)
      as (chosen & -> & _).
    { by eapply minterms_have_coverers. }
    by eexists.
Qed.

Lemma selection_phase_witness :
  ∃ primeList,
    prime_list 4 (map (fun m => toBin m 3) [0; 1; 2; 5; 6; 7]) = Some primeList
    ∧ select_implicants primeList (map (fun m => toBin m 3) [0; 1; 2; 5; 6; 7])
      = Some [0; 3; 4]
    ∧ selected_as_specified primeList
        (map (fun m => toBin m 3) [0; 1; 2; 5; 6; 7]) [0; 3; 4].
Proof.
  destruct (selection_phase [0; 1; 2; 5; 6; 7] [] ["A"; "B"; "C"] SOP)
    as [Hspec _]; [done|].
  destruct (Hspec (mkOutput ["00-"; "-10"; "1-1"] "A'B' + BC' + AC"))
    as (primeList & chosen & Hprimes & Hchosen & _ & Hsel);
    [by vm_compute|].
  exists primeList. split; [exact Hprimes|].
  assert (chosen = [0; 3; 4]) as ->; [|by split].
  vm_compute in Hprimes. injection Hprimes as <-.
  vm_compute in Hchosen. by injection Hchosen.
Defined.

(** ** Reading a sum of products back: the tokenizer *)

Lemma is_upper_letter c : is_upper c = true → is_letter c = true.
Proof. unfold is_upper, is_letter. intros ->. done. Qed.

Lemma is_upper_not_digit c :
  is_upper c = true → Ascii.eqb c "0" || Ascii.eqb c "1" = false.
Proof.
  intros Hc. destruct (Ascii.eqb_spec c "0") as [->|]; [done|].
  destruct (Ascii.eqb_spec c "1") as [->|]; done.
Qed.

Lemma is_upper_toUpperCase c : is_upper c = true → toUpperCase c = c.
Proof.
  unfold is_upper, toUpperCase. intros [H1 H2]%andb_true_iff.
  apply Nat.leb_le in H2.
  destruct (Nat.leb_spec 97 (char_code c)); [lia|done].
Qed.

Lemma is_upper_not_quote c : is_upper c = true → Ascii.eqb c "'" = false.
Proof. intros Hc. destruct (Ascii.eqb_spec c "'") as [->|]; done. Qed.

Lemma is_upper_not_whitespace c : is_upper c = true → is_whitespace c = false.
Proof.
  unfold is_upper, is_whitespace. intros [H1 H2]%andb_true_iff.
  apply Nat.leb_le in H1, H2.
  destruct (Nat.leb_spec 9 (char_code c)), (Nat.leb_spec (char_code c) 13),
    (Nat.eqb_spec (char_code c) 32), (Nat.eqb_spec (char_code c) 160);
    simpl; try done; lia.
Qed.

(** A literal is read as its tokens, whatever follows it, as long as that
    is not an apostrophe. *)
Lemma tokenize_literal l rest i tokens :
  is_upper l.1 = true → starts_with_quote rest = false →
  ∃ i', tokenize_loop (lit_text l +:+ rest) i tokens
        = tokenize_loop rest i' (tokens ++ lit_tokens l).
Proof.
  intros Hl Hrest. destruct l as [c neg]. simpl in Hl.
  unfold lit_text, lit_tokens. cbn [fst snd].
  rewrite string_app_cons.
  rewrite tokenize_loop_letter
    by (by apply is_upper_not_digit || by apply is_upper_letter).
  rewrite is_upper_toUpperCase by done.
  assert (Hstop : ∀ i k toks,
    quotes_loop toks rest i k
    = tokenize_loop rest i (if Nat.odd k then toks ++ [postfix_not] else toks)).
  { intros i0 k toks. destruct rest as [|c' rest]; [done|].
    by apply quotes_loop_stop. }
  destruct neg.
  - exists (S (S i)). rewrite string_app_cons. cbn [quotes_loop].
    rewrite Ascii.eqb_refl. change ("" +:+ rest) with rest.
    rewrite Hstop. by rewrite <- app_assoc.
  - exists (S i). change ("" +:+ rest) with rest. by rewrite Hstop.
Qed.

Lemma lit_text_not_quote l rest :
  is_upper l.1 = true → starts_with_quote (lit_text l +:+ rest) = false.
Proof. intros Hl. by apply is_upper_not_quote. Qed.

Lemma tokenize_literals lits rest i tokens :
  Forall (fun l => is_upper l.1 = true) lits →
  starts_with_quote rest = false →
  ∃ i', tokenize_loop (String.concat "" (map lit_text lits) +:+ rest) i tokens
        = tokenize_loop rest i' (tokens ++ flat_map lit_tokens lits).
Proof.
  intros Hlits Hrest. revert i tokens.
  induction Hlits as [|l lits Hl Hlits IH]; intros i tokens.
  { exists i. simpl. by rewrite app_nil_r. }
  cbn [map flat_map]. rewrite concat_empty_cons, <- string_app_assoc.
  destruct (tokenize_literal l (String.concat "" (map lit_text lits) +:+ rest)
              i tokens Hl) as [i1 ->].
  { destruct lits as [|l' lits]; [done|].
    apply Forall_cons in Hlits as [Hl' _].
    cbn [map]. rewrite concat_empty_cons, <- string_app_assoc.
    by apply lit_text_not_quote. }
  destruct (IH i1 (tokens ++ lit_tokens l)) as [i2 ->].
  exists i2. by rewrite <- app_assoc.
Qed.

Lemma tokenize_product lits rest i tokens :
  Forall (fun l => is_upper l.1 = true) lits →
  starts_with_quote rest = false →
  ∃ i', tokenize_loop (product_text lits +:+ rest) i tokens
        = tokenize_loop rest i' (tokens ++ product_tokens lits).
Proof.
  intros Hlits Hrest. destruct lits as [|l lits].
  - by exists (S i).
  - by apply tokenize_literals.
Qed.

Lemma tokenize_sum terms :
  Forall (Forall (fun l => is_upper l.1 = true)) terms →
  ∀ i tokens,
    tokenize_loop (String.concat "+" (map product_text terms)) i tokens
    = Ok (tokens ++ sum_tokens terms).
Proof.
  intros Hterms. destruct terms as [|t ts]; intros i tokens.
  { simpl. by rewrite app_nil_r. }
  apply Forall_cons in Hterms as [Ht Hts].
  cbn [map]. rewrite concat_sep_cons. unfold sum_tokens.
  revert t Ht i tokens. induction Hts as [|t' ts Ht' Hts IH]; intros t Ht i tokens.
  - destruct (tokenize_product t "" i tokens Ht eq_refl) as [i' Heq].
    simpl. rewrite app_nil_r. rewrite string_app_nil_r in *. by rewrite Heq.
  - cbn [map flat_map]. rewrite concat_empty_cons.
    destruct (tokenize_product t
                (("+" +:+ product_text t')
                 +:+ String.concat "" (map (fun x => "+" +:+ x) (map product_text ts)))
                i tokens Ht eq_refl) as [i' ->].
    rewrite <- string_app_assoc.
    change ("+" +:+ ?s) with (String "+" s).
    cbn [tokenize_loop]. change (is_letter "+") with false.
    cbn [Ascii.eqb Bool.eqb orb andb String.eqb].
    rewrite (IH t' Ht' (S i')).
    by rewrite <- !app_assoc.
Qed.

(** ** Reading a sum of products back: the parser *)

Lemma insertImplicit_literal l rest :
  insertImplicit (lit_tokens l ++ rest)
  = lit_tokens l
    ++ (if beginsOperand (head rest) then [implicit_and] else [])
    ++ insertImplicit rest.
Proof.
  destruct l as [c [|]]; unfold lit_tokens; cbn [fst snd app insertImplicit head];
    cbn [isOperand beginsOperand postfix_not postfix op_value andb negb].
  - by destruct (beginsOperand (head rest)).
  - by destruct (beginsOperand (head rest)).
Qed.

Lemma head_lit_tokens l rest : beginsOperand (head (lit_tokens l ++ rest)) = true.
Proof. done. Qed.

Lemma insertImplicit_product lits rest :
  beginsOperand (head rest) = false →
  insertImplicit (product_tokens lits ++ rest)
  = product_infix lits ++ insertImplicit rest.
Proof.
  intros Hrest. destruct lits as [|l lits].
  { cbn [product_tokens product_infix app insertImplicit isOperand andb].
    by rewrite Hrest. }
  unfold product_tokens, product_infix. cbn [flat_map].
  revert l. induction lits as [|l' lits IH]; intros l.
  - cbn [flat_map]. rewrite !app_nil_r, insertImplicit_literal. by rewrite Hrest.
  - rewrite <- app_assoc, insertImplicit_literal.
    cbn [flat_map]. rewrite <- (app_assoc (lit_tokens l')), head_lit_tokens.
    rewrite (app_assoc (lit_tokens l')). rewrite IH.
    by rewrite <- !app_assoc.
Qed.

Lemma insertImplicit_sum terms :
  insertImplicit (sum_tokens terms) = sum_infix terms.
Proof.
  destruct terms as [|t ts]; [done|]. unfold sum_tokens, sum_infix.
  revert t. induction ts as [|t' ts IH]; intros t.
  - cbn [flat_map]. by rewrite insertImplicit_product.
  - cbn [flat_map]. rewrite insertImplicit_product by done.
    cbn [app insertImplicit isOperand or_token binary_op postfix andb].
    rewrite IH. done.
Qed.

Lemma shunting_loop_app tokens rest stack output :
  shunting_loop (tokens ++ rest) stack output
  = (so <-! shunting_loop tokens stack output; shunting_loop rest so.1 so.2).
Proof.
  revert stack output.
  induction tokens as [|t tokens IH]; intros stack output; [done|].
  cbn [app shunting_loop].
  destruct (shunt t stack output) as [[stack' output']|e]; [|done].
  cbn [rbind fst snd]. apply IH.
Qed.

Lemma shunting_literal l stack output :
  shunting_loop (lit_tokens l) stack output = Ok (stack, output ++ lit_tokens l).
Proof.
  destruct l as [c [|]]; unfold lit_tokens; cbn; [|done].
  by rewrite <- app_assoc.
Qed.

Lemma shunt_and ands stack output :
  below_and stack → ands = [] ∨ ands = [implicit_and] →
  shunt implicit_and (ands ++ stack) output
  = Ok (implicit_and :: stack, output ++ ands).
Proof.
  intros [-> | ->] [-> | ->]; cbn; by rewrite ?app_nil_r.
Qed.

Lemma shunting_and_literal l ands stack output :
  below_and stack → ands = [] ∨ ands = [implicit_and] →
  shunting_loop (implicit_and :: lit_tokens l) (ands ++ stack) output
  = Ok (implicit_and :: stack, output ++ ands ++ lit_tokens l).
Proof.
  intros Hstack Hands. cbn [shunting_loop]. rewrite shunt_and by done.
  cbn [rbind fst snd]. rewrite shunting_literal. by rewrite <- app_assoc.
Qed.

(** The products after the first: each AND pops the one before it. *)
Lemma shunting_more_literals ls :
  ∀ ands stack output,
    below_and stack → ands = [] ∨ ands = [implicit_and] →
    ∃ ands' output',
      shunting_loop (flat_map (fun l' => implicit_and :: lit_tokens l') ls)
        (ands ++ stack) output
      = Ok (ands' ++ stack, output')
      ∧ (ands' = [] ∨ ands' = [implicit_and])
      ∧ output' ++ ands'
        = output ++ ands
          ++ flat_map (fun l' => lit_tokens l' ++ [implicit_and]) ls.
Proof.
  induction ls as [|l ls IH]; intros ands stack output Hstack Hands.
  { exists ands, output. by rewrite app_nil_r. }
  cbn [flat_map].
  change (implicit_and :: lit_tokens l ++ ?r)
    with ((implicit_and :: lit_tokens l) ++ r).
  rewrite shunting_loop_app, shunting_and_literal by done.
  cbn [rbind fst snd].
  destruct (IH [implicit_and] stack (output ++ ands ++ lit_tokens l))
    as (ands' & output' & Heq & Hands' & Hout); [done|by right|].
  exists ands', output'. split; [done|]. split; [done|].
  rewrite Hout. by rewrite <- !app_assoc.
Qed.

Lemma shunting_product lits stack output :
  below_and stack →
  ∃ ands output',
    shunting_loop (product_infix lits) stack output = Ok (ands ++ stack, output')
    ∧ (ands = [] ∨ ands = [implicit_and])
    ∧ output' ++ ands = output ++ product_rpn lits.
Proof.
  intros Hstack. destruct lits as [|l ls].
  { exists [], (output ++ [NUM 1]). split; [done|]. split; [by left|].
    by rewrite app_nil_r. }
  unfold product_infix, product_rpn.
  rewrite shunting_loop_app, shunting_literal. cbn [rbind fst snd].
  destruct (shunting_more_literals ls [] stack (output ++ lit_tokens l))
    as (ands & output' & Heq & Hands & Hout); [done|by left|].
  exists ands, output'. split; [done|]. split; [done|].
  rewrite Hout. by rewrite <- !app_assoc.
Qed.

Lemma shunting_or ands stack output :
  below_and stack → ands = [] ∨ ands = [implicit_and] →
  shunt or_token (ands ++ stack) output = Ok ([or_token], output ++ ands ++ stack).
Proof.
  intros [-> | ->] [-> | ->]; cbn; by rewrite ?app_nil_r, <- ?app_assoc.
Qed.

Lemma drain_pending ands stack output :
  below_and stack → ands = [] ∨ ands = [implicit_and] →
  drain_stack (ands ++ stack) output = Ok (output ++ ands ++ stack).
Proof.
  intros [-> | ->] [-> | ->]; cbn; by rewrite ?app_nil_r, <- ?app_assoc.
Qed.

(** The products after the first of a sum: each OR pops the pending AND and
    the OR before it. *)
Lemma shunting_more_products ts :
  ∀ ands stack output,
    below_and stack → ands = [] ∨ ands = [implicit_and] →
    ∃ ands' stack' output',
      shunting_loop (flat_map (fun t' => or_token :: product_infix t') ts)
        (ands ++ stack) output
      = Ok (ands' ++ stack', output')
      ∧ below_and stack' ∧ (ands' = [] ∨ ands' = [implicit_and])
      ∧ output' ++ ands' ++ stack'
        = output ++ ands ++ stack
          ++ flat_map (fun t' => product_rpn t' ++ [or_token]) ts.
Proof.
  induction ts as [|t ts IH]; intros ands stack output Hstack Hands.
  { exists ands, stack, output. by rewrite app_nil_r. }
  cbn [flat_map app shunting_loop].
  rewrite shunting_or by done. cbn [rbind fst snd].
  rewrite shunting_loop_app.
  destruct (shunting_product t [or_token] (output ++ ands ++ stack))
    as (ands1 & output1 & -> & Hands1 & Hout1); [by right|].
  cbn [rbind fst snd].
  destruct (IH ands1 [or_token] output1) as
    (ands' & stack' & output' & Heq & Hstack' & Hands' & Hout);
    [by right|done|].
  exists ands', stack', output'. split; [done|]. split; [done|].
  split; [done|]. rewrite Hout.
  rewrite (app_assoc output1), Hout1. by rewrite <- !app_assoc.
Qed.

Lemma toRPN_sum terms : toRPN (sum_tokens terms) = Ok (sum_rpn terms).
Proof.
  unfold toRPN. rewrite insertImplicit_sum.
  destruct terms as [|t ts]; [done|]. unfold sum_infix, sum_rpn.
  rewrite shunting_loop_app.
  destruct (shunting_product t [] []) as (ands & output & -> & Hands & Hout);
    [by left|].
  cbn [rbind fst snd].
  destruct (shunting_more_products ts ands [] output)
    as (ands' & stack' & output' & -> & Hstack' & Hands' & Hout');
    [by left|done|].
  cbn [rbind fst snd]. rewrite drain_pending by done.
  rewrite Hout'. cbn [app]. rewrite app_assoc, Hout. done.
Qed.

(** ** Reading a sum of products back: the evaluator *)

Section eval_sum.
Variable env : gmap string Z.

Lemma eval_literal l rest stack :
  bound env l →
  eval_loop env (lit_tokens l ++ rest) stack
  = eval_loop env rest (lit_value env l :: stack).
Proof.
  intros [x Hx]. destruct l as [c neg]. unfold lit_tokens, lit_value.
  cbn [fst snd] in *. cbn [app eval_loop]. rewrite (eval_token_own _ _ _ _ Hx), Hx.
  cbn [rbind]. destruct neg; [|done].
  cbn [app eval_loop eval_token postfix_not op_value String.eqb Ascii.eqb
       Bool.eqb rbind xorb]. done.
Qed.

Lemma eval_more_literals ls rest a stack :
  Forall (bound env) ls →
  eval_loop env
    (flat_map (fun l' => lit_tokens l' ++ [implicit_and]) ls ++ rest)
    (a :: stack)
  = eval_loop env rest ((a && forallb (lit_value env) ls) :: stack).
Proof.
  intros Hls. revert a.
  induction Hls as [|l ls Hl Hls IH]; intros a.
  { simpl. by rewrite andb_true_r. }
  cbn [flat_map forallb]. rewrite <- !app_assoc, eval_literal by done.
  cbn [app eval_loop eval_token implicit_and op_value String.eqb Ascii.eqb
       Bool.eqb rbind].
  rewrite IH. by rewrite andb_assoc.
Qed.

Lemma eval_product lits rest stack :
  Forall (bound env) lits →
  eval_loop env (product_rpn lits ++ rest) stack
  = eval_loop env rest (forallb (lit_value env) lits :: stack).
Proof.
  intros Hlits. destruct Hlits as [|l ls Hl Hls]; [done|].
  unfold product_rpn. rewrite <- app_assoc, eval_literal by done.
  by rewrite eval_more_literals.
Qed.

Lemma eval_more_products ts rest a stack :
  Forall (Forall (bound env)) ts →
  eval_loop env
    (flat_map (fun t' => product_rpn t' ++ [or_token]) ts ++ rest) (a :: stack)
  = eval_loop env rest
      ((a || existsb (forallb (lit_value env)) ts) :: stack).
Proof.
  intros Hts. revert a.
  induction Hts as [|t ts Ht Hts IH]; intros a.
  { simpl. by rewrite orb_false_r. }
  cbn [flat_map existsb]. rewrite <- !app_assoc, eval_product by done.
  cbn [app eval_loop eval_token or_token binary_op op_value String.eqb
       Ascii.eqb Bool.eqb rbind].
  rewrite IH. by rewrite orb_assoc.
Qed.

Lemma evalRPN_sum terms :
  terms ≠ [] → Forall (Forall (bound env)) terms →
  evalRPN (sum_rpn terms) env
  = Ok (bit_of (existsb (forallb (lit_value env)) terms)).
Proof.
  intros Hne Hterms. destruct Hterms as [|t ts Ht Hts]; [done|].
  unfold evalRPN, sum_rpn.
  rewrite eval_product by done.
  rewrite <- (app_nil_r (flat_map _ ts)), eval_more_products by done.
  done.
Qed.
End eval_sum.

(** ** The SOP text of a list of masks *)

Lemma lookup_map_char_string letters i :
  map char_string letters !! i = char_string <$> letters !! i.
Proof.
  revert i. induction letters as [|l ls IH]; intros [|i]; simpl; done.
Qed.

Lemma sop_term_loop_literals letters mask :
  ∀ i s,
    String.length mask + i ≤ length letters →
    sop_term_loop mask i (map char_string letters) s
    = s +:+ String.concat ""
              (map lit_text (mask_literals mask (drop i letters))).
Proof.
  induction mask as [|c mask IH]; intros i s Hlen.
  { simpl. destruct (drop i letters); by rewrite string_app_nil_r. }
  cbn [String.length] in Hlen.
  destruct (lookup_lt_is_Some_2 letters i) as [l Hl]; [lia|].
  rewrite (drop_S _ _ _ Hl). cbn [sop_term_loop mask_literals].
  destruct (Ascii.eqb c "-"); [apply IH; lia|].
  rewrite IH by lia. cbn [map]. rewrite concat_empty_cons.
  unfold var_name. rewrite lookup_map_char_string, Hl. cbn [fmap option_fmap option_map].
  rewrite <- !string_app_assoc. f_equal.
  unfold lit_text. cbn [fst snd]. by destruct (Ascii.eqb c "1").
Qed.

Lemma lit_text_concat_empty lits :
  String.concat "" (map lit_text lits) = "" → lits = [].
Proof.
  destruct lits as [|l ls]; [done|]. cbn [map].
  rewrite concat_empty_cons. unfold lit_text. by rewrite string_app_cons.
Qed.

Lemma sop_term_product letters mask :
  String.length mask ≤ length letters →
  sop_term (map char_string letters) mask
  = product_text (mask_literals mask letters).
Proof.
  intros Hlen. unfold sop_term.
  rewrite sop_term_loop_literals by lia. rewrite drop_0.
  change ("" +:+ ?s) with s.
  destruct (mask_literals mask letters) as [|l ls] eqn:Hlits; [done|].
  rewrite string_eqb_empty; [done|].
  intros Hempty%lit_text_concat_empty. done.
Qed.

Lemma mask_literals_letters mask letters l :
  l ∈ mask_literals mask letters → l.1 ∈ letters.
Proof.
  revert letters. induction mask as [|c mask IH]; intros [|l0 letters];
    cbn [mask_literals]; try by intros ?%elem_of_nil.
  rewrite elem_of_cons. destruct (Ascii.eqb c "-").
  - intros Hl. right. by apply IH.
  - intros [->|Hl]%elem_of_cons; [by left|]. right. by apply IH.
Qed.

(** Under the environment of row [m], the product of a mask is true exactly
    when the mask covers the binary string of [m]. *)
Lemma mask_value env (m : N) mask :
  ∀ letters,
    is_pattern mask = true →
    String.length mask = length letters →
    (∀ pos l, letters !! pos = Some l →
       env !! char_string l
       = Some (Z.b2z (N.testbit m (N.of_nat (length letters - 1 - pos))))) →
    forallb (lit_value env) (mask_literals mask letters)
    = covers mask (bits_string m (length letters)).
Proof.
  unfold is_pattern.
  induction mask as [|c mask IH]; intros [|l letters] Hpat Hlen Henv;
    try done.
  cbn [String.length length] in Hlen.
  cbn [string_forall] in Hpat. apply andb_true_iff in Hpat as [Hc Hpat].
  cbn [mask_literals length bits_string covers uncons same_char].
  assert (IH' : forallb (lit_value env) (mask_literals mask letters)
                = covers mask (bits_string m (length letters))).
  { apply IH; [done|lia|]. intros pos l' Hl'.
    rewrite (Henv (S pos) l' Hl'). cbn [length]. do 4 f_equal. lia. }
  pose proof (Henv 0 l eq_refl) as Hl. cbn [length] in Hl.
  replace (S (length letters) - 1 - 0) with (length letters) in Hl by lia.
  destruct (Ascii.eqb_spec c "-") as [->|Hdash]; [done|].
  cbn [forallb]. rewrite IH'. unfold lit_value. cbn [fst snd]. rewrite Hl.
  unfold pattern_char in Hc.
  destruct (N.testbit m (N.of_nat (length letters)));
    destruct (Ascii.eqb_spec c "1") as [->|H1]; try done;
    destruct (Ascii.eqb_spec c "0") as [->|H0]; try done.
  all: destruct (Ascii.eqb_spec c "-"); done.
Qed.

(** ** The SOP text read back and evaluated *)

Lemma strip_whitespace_app (s t : string) :
  strip_whitespace (s +:+ t) = strip_whitespace s +:+ strip_whitespace t.
Proof.
  induction s as [|c s IH]; [done|]. rewrite string_app_cons. simpl.
  destruct (is_whitespace c); [done|]. by rewrite string_app_cons, IH.
Qed.

Lemma strip_whitespace_concat parts :
  Forall (fun s => no_whitespace s = true) parts →
  strip_whitespace (String.concat " + " parts) = String.concat "+" parts.
Proof.
  intros Hparts. destruct Hparts as [|s parts Hs Hparts]; [done|].
  rewrite !concat_sep_cons, strip_whitespace_app, (strip_fixed s) by done.
  f_equal. induction Hparts as [|s' parts Hs' Hparts IH]; [done|].
  cbn [map]. rewrite !concat_empty_cons, !strip_whitespace_app, IH.
  rewrite (strip_fixed s') by done. done.
Qed.

Lemma no_whitespace_app (s t : string) :
  no_whitespace (s +:+ t) = no_whitespace s && no_whitespace t.
Proof.
  induction s as [|c s IH]; [done|]. rewrite string_app_cons. simpl.
  by rewrite IH, andb_assoc.
Qed.

Lemma no_whitespace_product lits :
  Forall (fun l => is_upper l.1 = true) lits →
  no_whitespace (product_text lits) = true.
Proof.
  intros Hlits. destruct Hlits as [|l lits Hl Hlits]; [done|].
  unfold product_text.
  assert (Forall (fun l => is_upper l.1 = true) (l :: lits)) as Hall
    by by constructor.
  clear Hl Hlits. induction Hall as [|l' ls Hl' Hls IH]; [done|].
  cbn [map]. rewrite concat_empty_cons, no_whitespace_app, IH, andb_true_r.
  unfold lit_text. cbn [no_whitespace].
  rewrite is_upper_not_whitespace by done. by destruct l'.2.
Qed.

Lemma NoDup_map_char_string letters :
  NoDup letters → NoDup (map char_string letters).
Proof.
  induction 1 as [|l ls Hl Hls IH]; [constructor|].
  cbn [map]. constructor; [|done].
  intros (l' & [= <-] & Hl')%elem_of_map. done.
Qed.

Lemma make_env_bound letters m l :
  NoDup letters → length letters ≤ 30 → m < 2 ^ length letters →
  l ∈ letters →
  ∃ pos, letters !! pos = Some l
         ∧ make_env (map char_string letters) (Z.of_nat m) !! char_string l
           = Some (Z.b2z (N.testbit (N.of_nat m)
                            (N.of_nat (length letters - 1 - pos)))).
Proof.
  intros Hnd Hlen Hm [pos Hpos]%list_elem_of_lookup_1.
  exists pos. split; [done|].
  rewrite (make_env_lookup _ m pos).
  - rewrite length_map. unfold bit. do 2 f_equal.
    by rewrite <- !nat_N_Z, Z.testbit_of_N.
  - by apply NoDup_map_char_string.
  - by rewrite length_map.
  - by rewrite length_map.
  - by rewrite lookup_map_char_string, Hpos.
  - apply char_string_not_proto.
Qed.

(** The SOP text of patterns of full width tokenizes and parses, and its
    value under the environment of row [m] tells whether one of the patterns
    covers the binary string of [m]. *)
Lemma sop_text_evaluates letters impls :
  Forall (fun c => is_upper c = true) letters →
  NoDup letters → length letters ≤ 30 →
  Forall (fun p => is_pattern p = true ∧ String.length p = length letters) impls →
  ∃ toks rpn,
    tokenize (implicantsToSOP impls (map char_string letters)) = Ok toks
    ∧ toRPN toks = Ok rpn
    ∧ ∀ m, m < 2 ^ length letters →
        evalRPN rpn (make_env (map char_string letters) (Z.of_nat m))
        = Ok (bit_of (existsb
                        (fun p => covers p (bits_string (N.of_nat m) (length letters)))
                        impls)).
Proof.
  intros Hupper Hnd Hlen Himpls.
  destruct impls as [|p0 impls0] eqn:Hcase.
  { exists [NUM 0], [NUM 0]. by repeat split. }
  rewrite <- Hcase in *. assert (impls ≠ []) as Hne by by rewrite Hcase.
  clear Hcase p0 impls0.
  set (terms := map (fun mask => mask_literals mask letters) impls).
  assert (Hletters : Forall (Forall (fun l : literal => is_upper l.1 = true)) terms).
  { apply Forall_forall. intros t (mask & -> & _)%elem_of_map.
    apply Forall_forall. intros l Hl%mask_literals_letters.
    rewrite Forall_forall in Hupper. by apply Hupper. }
  assert (Htext : implicantsToSOP impls (map char_string letters)
                  = String.concat " + " (map product_text terms)).
  { unfold implicantsToSOP. destruct impls as [|p impls']; [done|].
    f_equal. unfold terms. rewrite map_map. apply map_ext_in.
    intros mask Hmask%list_elem_of_In. apply sop_term_product.
    rewrite Forall_forall in Himpls. destruct (Himpls mask Hmask) as [_ ->].
    done. }
  exists (sum_tokens terms), (sum_rpn terms). split; [|split].
  - unfold tokenize. rewrite Htext, strip_whitespace_concat.
    + by rewrite tokenize_sum.
    + apply Forall_forall. intros s (t & -> & Ht)%elem_of_map.
      apply no_whitespace_product. rewrite Forall_forall in Hletters.
      by apply Hletters.
  - apply toRPN_sum.
  - intros m Hm. rewrite evalRPN_sum.
    + f_equal. f_equal. unfold terms. clear Htext Hletters terms Hne.
      induction Himpls as [|mask impls [Hpat Hwidth] Himpls IH]; [done|].
      cbn [map existsb]. rewrite IH. f_equal.
      apply mask_value; [done|done|]. intros pos l Hl.
      destruct (make_env_bound letters m l Hnd Hlen Hm) as (pos' & Hpos' & ->).
      { by eapply list_elem_of_lookup_2. }
      assert (pos' = pos) as ->; [|done].
      by eapply NoDup_lookup.
    + unfold terms. by destruct impls.
    + apply Forall_forall. intros t (mask & -> & _)%elem_of_map.
      apply Forall_forall. intros l Hl%mask_literals_letters. unfold bound.
      destruct (make_env_bound letters m l.1 Hnd Hlen Hm) as (pos & _ & ->);
        [done|]. by eexists.
Qed.

(** ** The minimizer covers the minterms and nothing but the given terms *)

Lemma qmSimplify_covers minterms dontcares varNames md :
  let W := length varNames in
  minterms ++ dontcares ≠ [] → 0 < W →
  Forall (fun m => m < 2 ^ W) (minterms ++ dontcares) →
  ∃ out,
    qmSimplify minterms dontcares varNames md = Some out
    ∧ Forall (fun p => is_pattern p = true ∧ String.length p = W)
        (implicants out)
    ∧ (∀ m, m ∈ minterms →
         existsb (fun p => covers p (toBin m W)) (implicants out) = true)
    ∧ (∀ m, m < 2 ^ W →
         existsb (fun p => covers p (toBin m W)) (implicants out) = true →
         m ∈ minterms ++ dontcares)
    ∧ result out = match md with
                   | SOP => implicantsToSOP (implicants out) varNames
                   | POS => implicantsToPOS (implicants out) varNames
                   end.
Proof.
  intros W Hne HW Hbelow.
  set (bins := map (fun m => toBin m W) (minterms ++ dontcares)).
  set (minBin := map (fun m => toBin m W) minterms).
  destruct (prime_list_sound W bins) as (primeList & Hprimes & Hsound).
  { by apply toBin_wellformed. }
  destruct (select_implicants_spec primeList minBin)
    as (chosen & Hchosen & ess & Hess & Hgreedy & _).
  { by eapply minterms_have_coverers. }
  destruct (greedy_cover_final _ _ _ _ Hgreedy) as (Hsub & Hin & Hcov).
  assert (Hrange : ∀ j, j ∈ chosen → ∃ p, primeList !! j = Some p).
  { intros j Hj. apply lookup_lt_is_Some_2.
    destruct (Hin j Hj) as [(i & Hi)%Hess|?]; [|done].
    by apply (covers_row_lt primeList minBin j i), Hi. }
  assert (Himpl : ∀ p, p ∈ map (fun j => primeList !!! j) chosen ↔
                       ∃ j, j ∈ chosen ∧ primeList !! j = Some p).
  { intros p. rewrite elem_of_map. split.
    - intros (j & -> & Hj). exists j. split; [done|].
      destruct (Hrange j Hj) as [p Hp].
      by rewrite (list_lookup_total_correct _ _ _ Hp).
    - intros (j & Hj & Hp). exists j.
      by rewrite (list_lookup_total_correct _ _ _ Hp). }
  eexists. split; [|split; [|split; [|split]]].
  - rewrite (qmSimplify_nonempty _ _ _ _ Hne). cbv zeta. fold W bins minBin.
    by rewrite Hprimes, Hchosen.
  - cbn [implicants]. apply Forall_forall.
    intros p (j & _ & Hp%list_elem_of_lookup_2)%Himpl.
    rewrite Forall_forall in Hsound. by destruct (Hsound p Hp) as (? & ? & _).
  - cbn [implicants]. intros m [i Hi]%list_elem_of_lookup_1.
    assert (minBin !! i = Some (toBin m W)) as Hrow.
    { unfold minBin. clear -Hi. revert i Hi.
      induction minterms as [|m0 ms IH]; intros [|i]; simpl; try done.
      - by intros [= ->].
      - apply IH. }
    destruct (minterms_have_coverers (S W) minterms dontcares W primeList
                Hprimes i) as [j0 Hj0].
    { fold minBin. by eapply lookup_lt_Some. }
    apply Hcov in Hj0. apply existsb_true in Hj0 as (j & Hj & Hjcov).
    unfold covers_row in Hjcov. fold minBin in Hjcov. rewrite Hrow in Hjcov.
    destruct (primeList !! j) as [p|] eqn:Hp; [|done].
    apply existsb_true. exists p. split; [|done]. apply Himpl. by exists j.
  - cbn [implicants]. intros m Hm (p & (j & _ & Hp)%Himpl & Hpcov)%existsb_true.
    apply list_elem_of_lookup_2 in Hp.
    rewrite Forall_forall in Hsound. destruct (Hsound p Hp) as (_ & _ & Hs).
    assert (toBin m W ∈ bins) as Hbin.
    { apply Hs; [apply is_binary_toBin|by apply length_toBin|done]. }
    apply elem_of_map in Hbin as (m' & Heq & Hm').
    rewrite Forall_forall in Hbelow.
    by rewrite (toBin_inj W m m' HW Hm (Hbelow m' Hm') Heq).
  - by destruct md.
Qed.

(** ** The degenerate cases *)

Lemma sop_term_loop_dashes vars k i s :
  sop_term_loop (repeat_char "-" k) i vars s = s.
Proof.
  revert i. induction k as [|k IH]; intros i; simpl; [done|]. apply IH.
Qed.

Lemma sop_term_dashes vars k : sop_term vars (repeat_char "-" k) = "1".
Proof. unfold sop_term. by rewrite sop_term_loop_dashes. Qed.

(** With don't-cares only there is no row to cover and nothing is chosen. *)
Lemma dontcares_only dontcares varNames md :
  let W := length varNames in
  dontcares ≠ [] → 0 < W → Forall (fun m => m < 2 ^ W) dontcares →
  qmSimplify [] dontcares varNames md
  = Some (mkOutput [] (match md with SOP => "0" | POS => "1" end)).
Proof.
  intros W Hne HW Hbelow.
  rewrite qmSimplify_nonempty by done. cbv zeta. fold W.
  destruct (prime_list_sound W (map (fun m => toBin m W) ([] ++ dontcares)))
    as (primeList & -> & _).
  { by apply toBin_wellformed. }
  cbn. by destruct md.
Qed.

(** C8: with no minterms and no don't-cares the minimizer returns no
    implicants and the text "0" (SOP) or "1" (POS); an empty chosen set
    renders as "0" (SOP) and "1" (POS), which is also what the minimizer
    returns when it is given don't-cares only; an implicant made of dashes
    only renders as "1" in SOP mode. *)
Theorem degenerate_cases :
  (∀ vars, qmSimplify [] [] vars SOP = Some (mkOutput [] "0"))
  ∧ (∀ vars, qmSimplify [] [] vars POS = Some (mkOutput [] "1"))
  ∧ (∀ vars, implicantsToSOP [] vars = "0")
  ∧ (∀ vars, implicantsToPOS [] vars = "1")
  ∧ (∀ dontcares vars md,
       0 < length vars → Forall (fun m => m < 2 ^ length vars) dontcares →
       qmSimplify [] dontcares vars md
       = Some (mkOutput [] (match md with SOP => "0" | POS => "1" end)))
  ∧ (∀ vars k, sop_term vars (repeat_char "-" k) = "1")
  ∧ (∀ vars k, implicantsToSOP [repeat_char "-" k] vars = "1").
Proof.
  split; [done|]. split; [done|]. split; [done|]. split; [done|].
  split; [|split].
  - intros dontcares vars md HW Hbelow.
    destruct dontcares as [|d dontcares]; [by destruct md|].
    by apply dontcares_only.
  - apply sop_term_dashes.
  - intros vars k. simpl. apply sop_term_dashes.
Qed.

Lemma degenerate_cases_witness :
  qmSimplify [] [1; 2] ["A"; "B"] POS = Some (mkOutput [] "1").
Proof.
  apply (proj1 (proj2 (proj2 (proj2 (proj2 degenerate_cases))))
           [1; 2] ["A"; "B"] POS).
  - simpl. lia.
  - repeat constructor; simpl; lia.
Defined.

(** ** Round trip of the SOP text *)

(** C1, as the code has it: for at most four variables named by distinct
    upper-case letters and minterms below 2^n (none when there is no
    variable), with no don't-cares, the SOP text returned by the minimizer
    tokenizes and parses, and the truth table built from it has 2^n rows
    whose output is 1 exactly on the minterms. *)
Theorem sop_round_trip letters M :
  let vars := map char_string letters in
  let n := length letters in
  Forall (fun c => is_upper c = true) letters → NoDup letters →
  n ≤ 4 → (n = 0 → M = []) →
  Forall (fun m => m < 2 ^ n) M →
  ∃ out toks rpn table,
    qmSimplify M [] vars SOP = Some out
    ∧ tokenize (result out) = Ok toks
    ∧ toRPN toks = Ok rpn
    ∧ buildTruthTable vars (Some rpn) = Ok table
    ∧ length table = 2 ^ n
    ∧ ∀ m, m < 2 ^ n →
        ∃ r, table !! m = Some r
             ∧ row_m r = Z.of_nat m
             ∧ evalRPN rpn (row_env r) = Ok (row_y r)
             ∧ row_y r = bit_of (bool_decide (m ∈ M)).
Proof.
  intros vars n Hupper Hnd Hn Hzero Hbelow.
  assert (Hmin : ∃ out,
    qmSimplify M [] vars SOP = Some out
    ∧ result out = implicantsToSOP (implicants out) vars
    ∧ Forall (fun p => is_pattern p = true ∧ String.length p = n)
        (implicants out)
    ∧ ∀ m, m < 2 ^ n →
        existsb (fun p => covers p (bits_string (N.of_nat m) n)) (implicants out)
        = bool_decide (m ∈ M)).
  { destruct M as [|m0 M0] eqn:HM.
    { exists (mkOutput [] "0"). split; [done|]. split; [done|].
      split; [constructor|]. intros m _. by simpl. }
    rewrite <- HM in *.
    assert (0 < n) as Hpos.
    { destruct (decide (n = 0)) as [Hn0|]; [|lia].
      rewrite (Hzero Hn0) in HM. done. }
    destruct (qmSimplify_covers M [] vars SOP)
      as (out & Hout & Hwf & Hcovers & Honly & Htext).
    - rewrite app_nil_r, HM. done.
    - unfold vars. by rewrite length_map.
    - unfold vars. by rewrite app_nil_r, length_map.
    - unfold vars in Hwf, Hcovers, Honly. rewrite length_map in *.
      fold n in Hwf, Hcovers, Honly. fold vars in Hout, Htext.
      exists out. split; [done|]. split; [done|]. split; [done|].
      intros m Hm. rewrite <- toBin_bits by done.
      destruct (decide (m ∈ M)) as [Hin|Hout'].
      + rewrite bool_decide_eq_true_2 by done. by apply Hcovers.
      + rewrite bool_decide_eq_false_2 by done.
        destruct (existsb _ (implicants out)) eqn:Hex; [|done].
        destruct Hout'. apply Honly in Hex; [|done].
        by rewrite app_nil_r in Hex. }
  destruct Hmin as (out & Hout & Htext & Hwf & Hvalue).
  destruct (sop_text_evaluates letters (implicants out) Hupper Hnd)
    as (toks & rpn & Htoks & Hrpn & Heval); [lia|done|].
  fold vars n in Htoks, Heval.
  assert (length vars = n) as Hvn by apply length_map.
  destruct (buildTruthTable_success vars (Some rpn))
    as (table & Htable & Hlength & Hrows).
  { rewrite Hvn. lia. }
  { rewrite Hvn. intros m Hm. eexists. simpl. by apply Heval. }
  rewrite Hvn in Hlength, Hrows.
  exists out, toks, rpn, table.
  split; [done|]. split; [by rewrite Htext|]. split; [done|].
  split; [done|]. split; [done|].
  intros m Hm. destruct (Hrows m Hm) as (r & Hr & Hrm & Henv & Hy).
  exists r. split; [done|]. split; [done|]. split; [done|].
  simpl in Hy. rewrite Henv, Heval, Hvalue in Hy by done.
  by injection Hy.
Qed.

Lemma sop_round_trip_witness :
  ∃ out toks rpn table,
    qmSimplify [0; 1; 2; 5; 6; 7] [] ["A"; "B"; "C"] SOP = Some out
    ∧ tokenize (result out) = Ok toks
    ∧ toRPN toks = Ok rpn
    ∧ buildTruthTable ["A"; "B"; "C"] (Some rpn) = Ok table
    ∧ length table = 8
    ∧ ∀ m, m < 8 →
        ∃ r, table !! m = Some r
             ∧ row_m r = Z.of_nat m
             ∧ evalRPN rpn (row_env r) = Ok (row_y r)
             ∧ row_y r = bit_of (bool_decide (m ∈ [0; 1; 2; 5; 6; 7])).
Proof.
  apply (sop_round_trip ["A"; "B"; "C"]%char [0; 1; 2; 5; 6; 7]).
  - repeat constructor.
  - apply (bool_decide_unpack _). vm_compute. reflexivity.
  - simpl. lia.
  - simpl. lia.
  - repeat constructor; simpl; lia.
Defined.

(** C1 does not hold for every variable list: with no variable and the
    minterm 0 the text is [undefined'], which does not evaluate; a lower-case
    name is read back as its upper-case letter, which the environment does
    not hold; a name listed twice gives a product that is never true. *)
Lemma sop_round_trip_counterexample :
  (∃ toks rpn,
     qmSimplify [0] [] [] SOP = Some (mkOutput ["0"] "undefined'")
     ∧ tokenize "undefined'" = Ok toks ∧ toRPN toks = Ok rpn
     ∧ buildTruthTable [] (Some rpn) = Err (EvalError (UndefinedVariable "U")))
  ∧ (qmSimplify [1] [] ["a"] SOP = Some (mkOutput ["1"] "a")
     ∧ tokenize "a" = Ok [VAR "A"] ∧ toRPN [VAR "A"] = Ok [VAR "A"]
     ∧ buildTruthTable ["a"] (Some [VAR "A"])
       = Err (EvalError (UndefinedVariable "A")))
  ∧ (∃ toks rpn table r,
       qmSimplify [1] [] ["A"; "A"] SOP = Some (mkOutput ["01"] "A'A")
       ∧ tokenize "A'A" = Ok toks ∧ toRPN toks = Ok rpn
       ∧ buildTruthTable ["A"; "A"] (Some rpn) = Ok table
       ∧ table !! 1 = Some r ∧ row_y r = 0%Z).
Proof.
  split; [|split].
  - do 2 eexists. repeat split; by vm_compute.
  - repeat split; by vm_compute.
  - do 4 eexists. repeat split; by vm_compute.
Qed.

(** * Further properties *)

Lemma resume_resume i j tokens ts r :
  resume i tokens (resume j ts r) = resume (i + j) (tokens ++ ts) r.
Proof.
  destruct r as [a|[pos ch| |]]; cbn; rewrite ?app_assoc, ?Nat.add_assoc; reflexivity.
Qed.

Lemma resume_0 r :
  (∀ e, r = Err e → ∃ pos ch, e = LexError pos ch) → resume 0 [] r = r.
Proof.
  destruct r as [a|e]; cbn; [reflexivity|].
  intros H. destruct (H e eq_refl) as (pos & ch & ->). reflexivity.
Qed.

Lemma tokenize_loop_resume s :
  (∀ i tokens, tokenize_loop s i tokens = resume i tokens (tokenize_loop s 0 []))
  ∧ (∀ tokens i n,
       quotes_loop tokens s i n = resume i tokens (quotes_loop [] s 0 n)).
Proof.
  induction s as [|ch rest [IHt IHq]].
  - split; intros; cbn.
    + rewrite app_nil_r. reflexivity.
    + destruct (Nat.odd n); cbn; rewrite ?app_nil_r; reflexivity.
  - assert (Ht : ∀ i tokens,
      tokenize_loop (String ch rest) i tokens
      = resume i tokens (tokenize_loop (String ch rest) 0 [])).
    { intros i tokens.
      destruct (Ascii.eqb ch "0" || Ascii.eqb ch "1") eqn:E01.
      { cbn [tokenize_loop]. rewrite E01.
        rewrite (IHt (S i)), (IHt 1 ([] ++ _)), resume_resume.
        f_equal. lia. }
      destruct (is_letter ch) eqn:El.
      { rewrite !tokenize_loop_letter by assumption.
        rewrite (IHq _ (S i)), (IHq ([] ++ _) 1), resume_resume.
        f_equal. lia. }
      cbn [tokenize_loop]. rewrite E01, El.
      repeat lazymatch goal with
      | |- context [if ?b then _ else _] =>
          destruct b; [rewrite (IHt (S i)), (IHt 1 ([] ++ _)), resume_resume;
                       f_equal; lia|]
      end.
      cbn. rewrite Nat.add_0_r. reflexivity. }
    split; [exact Ht|].
    intros tokens i n. cbn [quotes_loop].
    destruct (Ascii.eqb ch "'").
    + rewrite (IHq tokens (S i)), (IHq [] 1), resume_resume.
      f_equal; [lia|]. rewrite app_nil_r. reflexivity.
    + rewrite Ht, (Ht 0 (if Nat.odd n then _ else _)), resume_resume.
      rewrite Nat.add_0_r.
      destruct (Nat.odd n); rewrite ?app_nil_r; reflexivity.
Qed.

Lemma tokenize_loop_shift s i tokens :
  tokenize_loop s i tokens = resume i tokens (tokenize_loop s 0 []).
Proof. apply tokenize_loop_resume. Qed.

Lemma quotes_loop_shift tokens s i n :
  quotes_loop tokens s i n = resume i tokens (quotes_loop [] s 0 n).
Proof. apply tokenize_loop_resume. Qed.

Lemma resume_Ok i tokens r ts :
  resume i tokens r = Ok ts → ∃ new, r = Ok new ∧ ts = tokens ++ new.
Proof.
  destruct r as [a|[| |]]; cbn; intros H; inversion H. eauto.
Qed.

Lemma resume_Err i tokens r e :
  resume i tokens r = Err e →
  ∃ e', r = Err e'
        ∧ e = match e' with LexError pos ch => LexError (i + pos) ch | _ => e' end.
Proof.
  destruct r as [a|[| |]]; cbn; intros H; inversion H; eauto.
Qed.

(** Appending text after a scan that succeeds or fails. *)
Lemma tokenize_loop_app a :
  (∀ b i tokens,
     starts_with_quote b = false →
     tokenize_loop (a +:+ b) i tokens
     = match tokenize_loop a i tokens with
       | Ok ta => tokenize_loop b (i + String.length a) ta
       | Err e => Err e
       end)
  ∧ (∀ b tokens i n,
       starts_with_quote b = false →
       quotes_loop tokens (a +:+ b) i n
       = match quotes_loop tokens a i n with
         | Ok ta => tokenize_loop b (i + String.length a) ta
         | Err e => Err e
         end).
Proof.
  induction a as [|ch rest [IHt IHq]].
  - split; intros; cbn [String.append String.length]; rewrite Nat.add_0_r;
      [reflexivity|].
    destruct b as [|c b']; [reflexivity|].
    cbn in H. change ("" +:+ String c b') with (String c b').
    rewrite quotes_loop_stop by assumption. reflexivity.
  - assert (Ht : ∀ b i tokens,
      starts_with_quote b = false →
      tokenize_loop (String ch rest +:+ b) i tokens
      = match tokenize_loop (String ch rest) i tokens with
        | Ok ta => tokenize_loop b (i + String.length (String ch rest)) ta
        | Err e => Err e
        end).
    { intros b i tokens Hb. rewrite string_app_cons.
      cbn [String.length]. replace (i + S (String.length rest)) with
        (S i + String.length rest) by lia.
      destruct (Ascii.eqb ch "0" || Ascii.eqb ch "1") eqn:E01.
      { cbn [tokenize_loop]. rewrite E01. apply IHt, Hb. }
      destruct (is_letter ch) eqn:El.
      { rewrite !tokenize_loop_letter by assumption. apply IHq, Hb. }
      cbn [tokenize_loop]. rewrite E01, El.
      repeat lazymatch goal with
      | |- context [if ?c then _ else _] => destruct c; [apply IHt, Hb|]
      end.
      reflexivity. }
    split; [exact Ht|].
    intros b tokens i n Hb. rewrite string_app_cons. cbn [quotes_loop].
    destruct (Ascii.eqb ch "'").
    + cbn [String.length]. replace (i + S (String.length rest)) with
        (S i + String.length rest) by lia.
      apply IHq, Hb.
    + rewrite <- string_app_cons. apply Ht, Hb.
Qed.

Lemma tokenize_loop_app_err a :
  (∀ b i tokens e,
     tokenize_loop a i tokens = Err e → tokenize_loop (a +:+ b) i tokens = Err e)
  ∧ (∀ b tokens i n e,
       quotes_loop tokens a i n = Err e →
       quotes_loop tokens (a +:+ b) i n = Err e).
Proof.
  induction a as [|ch rest [IHt IHq]].
  - split; intros; cbn in *; discriminate.
  - assert (Ht : ∀ b i tokens e,
      tokenize_loop (String ch rest) i tokens = Err e →
      tokenize_loop (String ch rest +:+ b) i tokens = Err e).
    { intros b i tokens e. rewrite string_app_cons.
      destruct (Ascii.eqb ch "0" || Ascii.eqb ch "1") eqn:E01.
      { cbn [tokenize_loop]. rewrite E01. apply IHt. }
      destruct (is_letter ch) eqn:El.
      { rewrite !tokenize_loop_letter by assumption. apply IHq. }
      cbn [tokenize_loop]. rewrite E01, El.
      repeat lazymatch goal with
      | |- context [if ?c then _ else _] => destruct c; [apply IHt|]
      end.
      trivial. }
    split; [exact Ht|].
    intros b tokens i n e. rewrite string_app_cons. cbn [quotes_loop].
    destruct (Ascii.eqb ch "'").
    + apply IHq.
    + rewrite <- string_app_cons. apply Ht.
Qed.

Lemma tokenize_loop_starts_with_quote b i tokens :
  starts_with_quote b = true → ∃ e, tokenize_loop b i tokens = Err e.
Proof.
  destruct b as [|c b']; [discriminate|]. cbn [starts_with_quote].
  intros ->%Ascii.eqb_eq. eexists. reflexivity.
Qed.

(** The scanner fails only with a lexical error, at a character that it does
    not accept, and the text before that character scans. *)
Lemma tokenize_loop_error s :
  (∀ i tokens e,
     tokenize_loop s i tokens = Err e →
     ∃ p ch rest toks,
       s = p +:+ String ch rest ∧ e = LexError (i + String.length p) ch
       ∧ accepted ch = false ∧ tokenize_loop p i tokens = Ok toks)
  ∧ (∀ tokens i n e,
       quotes_loop tokens s i n = Err e →
       ∃ p ch rest toks,
         s = p +:+ String ch rest ∧ e = LexError (i + String.length p) ch
         ∧ accepted ch = false ∧ quotes_loop tokens p i n = Ok toks).
Proof.
  induction s as [|ch rest [IHt IHq]].
  - split; intros; cbn in *; discriminate.
  - assert (Hcons : ∀ i p (c : ascii) r,
      rest = p +:+ String c r →
      String ch rest = String ch p +:+ String c r
      ∧ LexError (S i + String.length p) c
        = LexError (i + String.length (String ch p)) c).
    { intros i p c r ->. split; [reflexivity|]. cbn [String.length].
      f_equal. lia. }
    assert (Ht : ∀ i tokens e,
      tokenize_loop (String ch rest) i tokens = Err e →
      ∃ p c r toks,
        String ch rest = p +:+ String c r ∧ e = LexError (i + String.length p) c
        ∧ accepted c = false ∧ tokenize_loop p i tokens = Ok toks).
    { intros i tokens e. unfold accepted.
      destruct (Ascii.eqb ch "0" || Ascii.eqb ch "1") eqn:E01.
      { cbn [tokenize_loop]. rewrite E01. intros H.
        destruct (IHt _ _ _ H) as (p & c & r & toks & Hs & -> & Hc & Hp).
        destruct (Hcons i p c r Hs) as [-> ->].
        exists (String ch p), c, r, toks. repeat split; [exact Hc|].
        cbn [tokenize_loop]. rewrite E01. exact Hp. }
      destruct (is_letter ch) eqn:El.
      { rewrite tokenize_loop_letter by assumption. intros H.
        destruct (IHq _ _ _ _ H) as (p & c & r & toks & Hs & -> & Hc & Hp).
        destruct (Hcons i p c r Hs) as [-> ->].
        exists (String ch p), c, r, toks. repeat split; [exact Hc|].
        rewrite tokenize_loop_letter by assumption. exact Hp. }
      cbn [tokenize_loop]. rewrite E01, El.
      destruct (Ascii.eqb ch "(") eqn:E1;
        [|destruct (Ascii.eqb ch ")") eqn:E2;
          [|destruct (Ascii.eqb ch "!" || Ascii.eqb ch "~") eqn:E3;
            [|destruct (Ascii.eqb ch "&" || Ascii.eqb ch "*" || Ascii.eqb ch "+"
                        || Ascii.eqb ch "|" || Ascii.eqb ch "^") eqn:E4]]].
      1-4: intros H;
        destruct (IHt _ _ _ H) as (p & c & r & toks & Hs & -> & Hc & Hp);
        destruct (Hcons i p c r Hs) as [-> ->];
        exists (String ch p), c, r, toks; repeat split; [exact Hc|];
        cbn [tokenize_loop]; rewrite E01, El, ?E1, ?E2, ?E3, ?E4; exact Hp.
      intros [= <-]. exists "", ch, rest, tokens.
      cbn [String.append String.length tokenize_loop]. rewrite Nat.add_0_r.
      repeat split.
      apply orb_false_iff in E01 as [-> ->]. apply orb_false_iff in E3 as [-> ->].
      rewrite El, E1, E2. cbn [orb].
      repeat (apply orb_false_iff in E4 as [E4 ->]). rewrite E4. reflexivity. }
    split; [exact Ht|].
    intros tokens i n e. cbn [quotes_loop].
    destruct (Ascii.eqb ch "'") eqn:Eq.
    + intros H.
      destruct (IHq _ _ _ _ H) as (p & c & r & toks & Hs & -> & Hc & Hp).
      destruct (Hcons i p c r Hs) as [-> ->].
      exists (String ch p), c, r, toks. repeat split; [exact Hc|].
      cbn [quotes_loop]. rewrite Eq. exact Hp.
    + intros H. destruct (Ht _ _ _ H) as (p & c & r & toks & Hs & -> & Hc & Hp).
      destruct p as [|c0 p'].
      * cbn in Hp. injection Hp as <-.
        exists "", c, r, (if Nat.odd n then tokens ++ [postfix_not] else tokens).
        repeat split; [exact Hs|exact Hc].
      * exists (String c0 p'), c, r, toks. repeat split; [exact Hs|exact Hc|].
        rewrite string_app_cons in Hs. injection Hs as <- _.
        rewrite quotes_loop_stop by assumption. exact Hp.
Qed.

Lemma toUpperCase_is_upper c : is_letter c = true → is_upper (toUpperCase c) = true.
Proof.
  unfold is_letter, is_upper, toUpperCase, char_code.
  destruct ((97 <=? nat_of_ascii c) && (nat_of_ascii c <=? 122)) eqn:E.
  - intros _. apply andb_true_iff in E as [E1%Nat.leb_le E2%Nat.leb_le].
    rewrite nat_ascii_embedding by lia.
    apply andb_true_iff; split; apply Nat.leb_le; lia.
  - rewrite orb_false_r. trivial.
Qed.

Lemma toUpperCase_idemp c : toUpperCase (toUpperCase c) = toUpperCase c.
Proof.
  destruct (is_letter c) eqn:El.
  - apply is_upper_toUpperCase, toUpperCase_is_upper, El.
  - unfold is_letter in El. apply orb_false_iff in El as [_ El].
    unfold toUpperCase at 2. rewrite El. unfold toUpperCase. rewrite El.
    reflexivity.
Qed.

Lemma lexed_token_var c :
  is_letter c = true → lexed_token (VAR (char_string (toUpperCase c))).
Proof. intros H. right. eexists. split; [apply toUpperCase_is_upper, H|reflexivity]. Qed.

Lemma lexed_token_const t :
  t ∈ [NUM 0; NUM 1; LP; RP; prefix_not; postfix_not;
       binary_op "AND" 3; binary_op "OR" 1; binary_op "XOR" 2] → lexed_token t.
Proof. intros H. left. exact H. Qed.

Lemma names_letter_of_cons c s v :
  names_letter_of (String c s) v
  ↔ (is_letter c = true ∧ v = char_string (toUpperCase c)) ∨ names_letter_of s v.
Proof.
  unfold names_letter_of. cbn [list_ascii_of_string]. split.
  - intros (c' & [->|Hin]%elem_of_cons & Hl & ->); [left; auto|right; eauto].
  - intros [[Hl ->]|(c' & Hin & Hl & ->)].
    + exists c. rewrite elem_of_cons. auto.
    + exists c'. rewrite elem_of_cons. auto.
Qed.

Lemma scanned_cons_other c s t ts :
  is_letter c = false → lexed_token t → (∀ v, t ≠ VAR v) →
  scanned s ts → scanned (String c s) ([t] ++ ts).
Proof.
  intros Hc Ht Hv [Hall Hvars]. split.
  - constructor; assumption.
  - intros v. cbn [app]. rewrite elem_of_cons, names_letter_of_cons, Hvars, Hc.
    split.
    + intros [H|H]; [symmetry in H; destruct (Hv _ H)|right; exact H].
    + intros [[? _]|H]; [discriminate|right; exact H].
Qed.

Lemma scanned_cons_quote s ts :
  scanned s ts → scanned (String "'" s) ts.
Proof.
  intros [Hall Hvars]. split; [exact Hall|].
  intros v. rewrite names_letter_of_cons, Hvars.
  split; [auto|]. intros [[? _]|H]; [discriminate|exact H].
Qed.

Lemma scanned_cons_letter c s ts :
  is_letter c = true →
  scanned s ts → scanned (String c s) ([VAR (char_string (toUpperCase c))] ++ ts).
Proof.
  intros Hc [Hall Hvars]. split.
  - constructor; [apply lexed_token_var, Hc|exact Hall].
  - intros v. cbn [app]. rewrite elem_of_cons, names_letter_of_cons, Hvars, Hc.
    split.
    + intros [[= ->]|H]; auto.
    + intros [[_ ->]|H]; auto.
Qed.

Lemma scanned_postfix_not s ts :
  scanned s ts → scanned s ([postfix_not] ++ ts).
Proof.
  intros [Hall Hvars]. split.
  - constructor; [|exact Hall]. apply lexed_token_const.
    rewrite !elem_of_cons. tauto.
  - intros v. cbn [app]. rewrite elem_of_cons, Hvars.
    split; [intros [H|H]; [discriminate|exact H]|auto].
Qed.

Ltac lexed_const :=
  apply lexed_token_const; rewrite !elem_of_cons; tauto.

Lemma tokenize_loop_scanned s :
  (∀ ts, tokenize_loop s 0 [] = Ok ts → scanned s ts)
  ∧ (∀ n ts, quotes_loop [] s 0 n = Ok ts → scanned s ts).
Proof.
  induction s as [|ch rest [IHt IHq]].
  - assert (Hnil : scanned "" []).
    { split; [constructor|]. intros v. split; [intros []%elem_of_nil|].
      intros (c & []%elem_of_nil & _). }
    split.
    + intros ts [= <-]. exact Hnil.
    + intros n ts. cbn. destruct (Nat.odd n); intros [= <-]; [|exact Hnil].
      apply (scanned_postfix_not "" []), Hnil.
  - assert (Ht : ∀ ts, tokenize_loop (String ch rest) 0 [] = Ok ts →
                       scanned (String ch rest) ts).
    { intros ts.
      destruct (Ascii.eqb ch "0" || Ascii.eqb ch "1") eqn:E01.
      { cbn [tokenize_loop]. rewrite E01, tokenize_loop_shift.
        intros (new & Hnew%IHt & ->)%resume_Ok.
        apply scanned_cons_other; [| |discriminate|exact Hnew].
        - apply orb_true_iff in E01 as [->%Ascii.eqb_eq| ->%Ascii.eqb_eq];
            reflexivity.
        - destruct (Ascii.eqb ch "1"); lexed_const. }
      destruct (is_letter ch) eqn:El.
      { rewrite tokenize_loop_letter, quotes_loop_shift by assumption.
        intros (new & Hnew%IHq & ->)%resume_Ok.
        apply scanned_cons_letter; assumption. }
      cbn [tokenize_loop]. rewrite E01, El.
      repeat lazymatch goal with
      | |- context [if ?c then tokenize_loop _ _ _ else _] =>
          destruct c eqn:?;
          [rewrite tokenize_loop_shift;
           intros (new & Hnew%IHt & ->)%resume_Ok;
           apply scanned_cons_other; [exact El| |discriminate|exact Hnew]|]
      end; try lexed_const; [|discriminate].
      destruct (Ascii.eqb ch "&" || Ascii.eqb ch "*"); [lexed_const|].
      destruct (Ascii.eqb ch "+" || Ascii.eqb ch "|"); lexed_const. }
    split; [exact Ht|].
    intros n ts. cbn [quotes_loop].
    destruct (Ascii.eqb ch "'") eqn:Eq.
    + apply Ascii.eqb_eq in Eq as ->. rewrite quotes_loop_shift.
      intros (new & Hnew%IHq & ->)%resume_Ok. apply scanned_cons_quote, Hnew.
    + rewrite tokenize_loop_shift.
      intros (new & Hnew%Ht & ->)%resume_Ok.
      destruct (Nat.odd n); [apply scanned_postfix_not|]; exact Hnew.
Qed.

(** *** The variables of an expression *)

Lemma string_toUpperCase_char c :
  string_toUpperCase (char_string c) = char_string (toUpperCase c).
Proof. reflexivity. Qed.

Lemma elem_of_extractVars expr v :
  v ∈ extractVars expr ↔ names_letter_of expr v.
Proof.
  unfold extractVars, uniqueSortedVars, match_letters, names_letter_of.
  rewrite merge_sort_Permutation.
  rewrite (proj1 (ordered_set_spec _)).
  rewrite elem_of_map. split.
  - intros (x & -> & (y & -> & (c & -> & Hc)%elem_of_map)%elem_of_map).
    apply list_elem_of_filter in Hc as [Hl Hc].
    exists c. rewrite !string_toUpperCase_char, toUpperCase_idemp. auto.
  - intros (c & Hc & Hl & ->).
    exists (string_toUpperCase (char_string c)).
    rewrite !string_toUpperCase_char, toUpperCase_idemp. split; [reflexivity|].
    apply elem_of_map. exists (char_string c). split; [reflexivity|].
    apply elem_of_map. exists c. split; [reflexivity|].
    apply list_elem_of_filter. auto.
Qed.

Lemma NoDup_extractVars expr : NoDup (extractVars expr).
Proof.
  unfold extractVars, uniqueSortedVars.
  rewrite merge_sort_Permutation. apply ordered_set_spec.
Qed.

Lemma code_unit_le_char a b :
  code_unit_le (char_string a) (char_string b) ↔ char_code a ≤ char_code b.
Proof.
  unfold code_unit_le, String.leb, char_string, char_code, nat_of_ascii.
  cbn [String.compare]. unfold Ascii.compare.
  destruct (N.compare_spec (N_of_ascii a) (N_of_ascii b)) as [H|H|H];
    split; trivial; try discriminate; lia.
Qed.

Lemma char_code_inj a b : char_code a = char_code b → a = b.
Proof.
  unfold char_code. intros H.
  rewrite <- (ascii_nat_embedding a), <- (ascii_nat_embedding b), H. reflexivity.
Qed.

Lemma Sorted_extractVars expr : Sorted code_unit_le (extractVars expr).
Proof.
  unfold extractVars, uniqueSortedVars. apply Sorted_merge_sort.
  intros a b. unfold code_unit_le. apply String.leb_total.
Qed.

Lemma sorted_letters (letters : list ascii) :
  Sorted code_unit_le (map char_string letters) → NoDup letters →
  StronglySorted (fun a b => char_code a < char_code b) letters.
Proof.
  intros Hs Hnd.
  assert (Hle : StronglySorted (fun a b => char_code a ≤ char_code b) letters).
  { apply Sorted_StronglySorted; [intros x y z; lia|].
    induction letters as [|a l IH]; [constructor|].
    cbn [map] in Hs. apply Sorted_inv in Hs as [Hs Hhd].
    constructor; [apply IH; [exact Hs|]|].
    - apply NoDup_cons in Hnd. tauto.
    - destruct l as [|b l']; constructor.
      cbn [map] in Hhd. apply HdRel_inv in Hhd. apply code_unit_le_char, Hhd. }
  clear Hs. induction Hle as [|a l Hl IH Ha]; [constructor|].
  apply NoDup_cons in Hnd as [Hnotin Hnd].
  constructor; [apply IH, Hnd|].
  rewrite Forall_forall in Ha |- *. intros b Hb.
  specialize (Ha b Hb).
  destruct (decide (char_code a = char_code b)) as [Heq%char_code_inj|Hne];
    [subst; contradiction|lia].
Qed.

Lemma names_letter_of_strip raw v :
  names_letter_of (strip_whitespace raw) v ↔ names_letter_of raw v.
Proof.
  induction raw as [|c raw IH]; [reflexivity|].
  cbn [strip_whitespace]. destruct (is_whitespace c) eqn:Ew.
  - rewrite IH, names_letter_of_cons.
    assert (is_letter c = false) as ->.
    { unfold is_whitespace, is_letter in *.
      destruct (9 <=? char_code c) eqn:E1, (char_code c <=? 13) eqn:E2,
        (char_code c =? 32) eqn:E3, (char_code c =? 160) eqn:E4;
        try discriminate;
        rewrite ?Nat.leb_le, ?Nat.leb_gt, ?Nat.eqb_eq, ?Nat.eqb_neq in *;
        apply orb_false_iff; split; apply andb_false_iff;
        rewrite !Nat.leb_gt; lia. }
    split; [auto|]. intros [[? _]|H]; [discriminate|exact H].
  - rewrite !names_letter_of_cons, IH. reflexivity.
Qed.

(** The names that [extractVars] returns are single characters. *)
Lemma extractVars_chars expr :
  extractVars expr = map char_string (map first_char (extractVars expr))
  ∧ NoDup (map first_char (extractVars expr))
  ∧ Forall (fun c => is_upper c = true) (map first_char (extractVars expr)).
Proof.
  assert (Hsingle : ∀ l : list string,
    (∀ v, v ∈ l → ∃ c, v = char_string c) → l = map char_string (map first_char l)).
  { induction l as [|v l IH]; intros H; [reflexivity|]. cbn [map].
    destruct (H v) as [c ->]; [left|].
    rewrite <- IH; [reflexivity|]. intros v Hv. apply H. right. exact Hv. }
  assert (Hl : extractVars expr = map char_string (map first_char (extractVars expr))).
  { apply Hsingle. intros v (c & _ & _ & ->)%elem_of_extractVars. eauto. }
  split; [exact Hl|]. split.
  - pose proof (NoDup_extractVars expr) as Hnd. rewrite Hl in Hnd.
    clear Hl Hsingle. induction (map first_char (extractVars expr)) as [|a l IH];
      [constructor|].
    cbn [map] in Hnd. apply NoDup_cons in Hnd as [Hn Hnd].
    apply NoDup_cons. split; [|apply IH, Hnd].
    intros Ha. apply Hn, elem_of_map. eauto.
  - apply Forall_forall.
    intros c (v & -> & (c' & _ & Hc' & ->)%elem_of_extractVars)%elem_of_map.
    apply toUpperCase_is_upper, Hc'.
Qed.

(** X1: the variables of an expression are its letters in
    upper case, each once, in ascending order. *)
Theorem extractVars_letters expr :
  ∃ letters,
    extractVars expr = map char_string letters
    ∧ StronglySorted (fun a b => char_code a < char_code b) letters
    ∧ ∀ c, c ∈ letters ↔
           ∃ c', c' ∈ list_ascii_of_string expr ∧ is_letter c' = true
                 ∧ c = toUpperCase c'.
Proof.
  exists (map first_char (extractVars expr)).
  destruct (extractVars_chars expr) as (Hl & Hnd & _).
  split; [exact Hl|]. split.
  - apply sorted_letters; [rewrite <- Hl; apply Sorted_extractVars|exact Hnd].
  - intros c. split.
    + intros (v & -> & (c' & Hc' & Hl' & ->)%elem_of_extractVars)%elem_of_map.
      exists c'. auto.
    + intros (c' & Hc' & Hl' & ->). apply elem_of_map.
      exists (char_string (toUpperCase c')). split; [reflexivity|].
      apply elem_of_extractVars. exists c'. auto.
Qed.

(** X2: a successful scan returns tokens of the nine fixed kinds or variables
    named by one upper-case letter, and the variables among them are those
    that [extractVars] finds. *)
Theorem tokenize_variables expr toks :
  tokenize expr = Ok toks →
  Forall lexed_token toks ∧ ∀ v, VAR v ∈ toks ↔ v ∈ extractVars expr.
Proof.
  unfold tokenize. intros [Hall Hv]%tokenize_loop_scanned.
  split; [exact Hall|]. intros v.
  rewrite Hv, names_letter_of_strip, elem_of_extractVars. reflexivity.
Qed.

Lemma tokenize_variables_witness :
  Forall lexed_token [VAR "A"; binary_op "OR" 1; VAR "B"; VAR "A"; postfix_not]
  ∧ ∀ v, VAR v ∈ [VAR "A"; binary_op "OR" 1; VAR "B"; VAR "A"; postfix_not]
         ↔ v ∈ extractVars "a + b A'".
Proof. apply (tokenize_variables "a + b A'"). reflexivity. Defined.

Lemma strip_prefix (raw p : string) (c : ascii) (rest : string) :
  strip_whitespace raw = p +:+ String c rest → strip_whitespace p = p.
Proof.
  intros H. apply strip_fixed. apply (no_whitespace_app_l p (String c rest)).
  rewrite <- H. apply strip_no_whitespace.
Qed.

(** X3: the scanner fails only with a lexical error; the error names the
    first character of the stripped text at which the scan stops, which is
    not one of the accepted characters, and the text before it scans.
    Conversely an unaccepted character other than an apostrophe fails the
    scan as soon as the text before it scans. *)
Theorem tokenize_errors raw :
  (∀ e, tokenize raw = Err e →
     ∃ p ch rest toks,
       strip_whitespace raw = p +:+ String ch rest
       ∧ e = LexError (String.length p) ch
       ∧ accepted ch = false ∧ tokenize p = Ok toks)
  ∧ (∀ p ch rest toks,
       strip_whitespace raw = p +:+ String ch rest →
       tokenize p = Ok toks → accepted ch = false → ch ≠ "'"%char →
       tokenize raw = Err (LexError (String.length p) ch)).
Proof.
  split.
  - intros e H. unfold tokenize in H.
    destruct (proj1 (tokenize_loop_error _) _ _ _ H)
      as (p & ch & rest & toks & Hs & -> & Hc & Hp).
    exists p, ch, rest, toks. repeat split; [exact Hs|exact Hc|].
    unfold tokenize. rewrite (strip_prefix _ _ _ _ Hs). exact Hp.
  - intros p ch rest toks Hs Hp Hc Hq. unfold tokenize in *.
    rewrite (strip_prefix _ _ _ _ Hs) in Hp. rewrite Hs.
    rewrite (proj1 (tokenize_loop_app p)), Hp.
    2:{ cbn. apply Ascii.eqb_neq, Hq. }
    unfold accepted in Hc. repeat (apply orb_false_iff in Hc as [Hc ?]).
    cbn [tokenize_loop Nat.add].
    repeat match goal with H : _ = false |- _ => rewrite H; clear H end.
    reflexivity.
Qed.

Lemma tokenize_errors_witness :
  tokenize "A + #B" = Err (LexError 2 "#").
Proof.
  apply (proj2 (tokenize_errors "A + #B") "A+" "#"%char "B" [VAR "A"; binary_op "OR" 1]);
    [reflexivity|reflexivity|reflexivity|discriminate].
Defined.

Lemma tokenize_app_resume a b ta :
  tokenize a = Ok ta → starts_with_quote (strip_whitespace b) = false →
  tokenize (a +:+ b)
  = resume (String.length (strip_whitespace a)) ta (tokenize b).
Proof.
  unfold tokenize. rewrite strip_whitespace_app. intros Ha Hb.
  rewrite (proj1 (tokenize_loop_app _)), Ha by exact Hb.
  apply tokenize_loop_shift.
Qed.

Lemma tokenize_app_Ok a b ta tb :
  tokenize a = Ok ta → tokenize b = Ok tb → tokenize (a +:+ b) = Ok (ta ++ tb).
Proof.
  intros Ha Hb. rewrite (tokenize_app_resume a b ta Ha), Hb; [reflexivity|].
  destruct (starts_with_quote (strip_whitespace b)) eqn:Hq; [|reflexivity].
  destruct (tokenize_loop_starts_with_quote _ 0 [] Hq) as [e He].
  unfold tokenize in Hb. rewrite He in Hb. discriminate.
Qed.

(** X4: scanning a concatenation.  A failure of the
    first text is the failure of the whole; after a first text that scans,
    the second is scanned from where the first ends, provided it does not
    begin with an apostrophe; two texts that scan give the concatenation of
    their tokens. *)
Theorem tokenize_concatenation a b :
  (∀ e, tokenize a = Err e → tokenize (a +:+ b) = Err e)
  ∧ (∀ ta, tokenize a = Ok ta →
       starts_with_quote (strip_whitespace b) = false →
       tokenize (a +:+ b)
       = resume (String.length (strip_whitespace a)) ta (tokenize b))
  ∧ (∀ ta tb, tokenize a = Ok ta → tokenize b = Ok tb →
       tokenize (a +:+ b) = Ok (ta ++ tb)).
Proof.
  split; [|split].
  - intros e. unfold tokenize. rewrite strip_whitespace_app.
    apply tokenize_loop_app_err.
  - apply tokenize_app_resume.
  - apply tokenize_app_Ok.
Qed.

Lemma tokenize_concatenation_witness :
  tokenize ("(A + " +:+ "B')") = Ok ([LP; VAR "A"; binary_op "OR" 1] ++ [VAR "B"; postfix_not; RP]).
Proof.
  apply (proj2 (proj2 (tokenize_concatenation "(A + " "B')"))); reflexivity.
Defined.

Lemma pop_operators_app t stack output stack' output' :
  pop_operators t stack output = (stack', output') →
  ∃ popped, stack = popped ++ stack' ∧ output' = output ++ popped
            ∧ Forall (fun s => ∃ o, s = OP o) popped.
Proof.
  revert output. induction stack as [|s st IH]; intros output.
  - intros [= <- <-]. exists []. rewrite ?app_nil_r. auto.
  - cbn [pop_operators]. destruct s as [| |top| |];
      try (intros [= <- <-]; exists []; rewrite ?app_nil_r; auto).
    destruct (_ || _).
    + intros (popped & -> & -> & Hp)%IH. exists (OP top :: popped).
      rewrite <- app_assoc. repeat split. constructor; eauto.
    + intros [= <- <-]. exists []. rewrite ?app_nil_r. auto.
Qed.

Lemma pop_until_LP_app stack output stack' output' :
  pop_until_LP stack output = Some (stack', output') →
  ∃ popped, stack = popped ++ LP :: stack' ∧ output' = output ++ popped
            ∧ Forall (fun s => s ≠ LP) popped.
Proof.
  revert output. induction stack as [|s st IH]; intros output; [discriminate|].
  cbn [pop_until_LP].
  destruct s as [| | | |];
    try (intros (popped & -> & -> & Hp)%IH; eexists (_ :: popped);
         rewrite <- app_assoc; repeat split; constructor; [discriminate|exact Hp]).
  intros [= <- <-]. exists []. rewrite ?app_nil_r. auto.
Qed.

Lemma pop_until_LP_None stack output :
  pop_until_LP stack output = None ↔ LP ∉ stack.
Proof.
  revert output. induction stack as [|s st IH]; intros output.
  - split; [intros _ []%elem_of_nil|reflexivity].
  - cbn [pop_until_LP]. rewrite elem_of_cons.
    destruct s; rewrite ?IH; split; try discriminate; try tauto;
      try (intros H [?|?]; [discriminate|tauto]).
Qed.

Lemma filter_app_kept (l1 l2 : list token) :
  filter (fun t => kept t = true) (l1 ++ l2)
  = filter (fun t => kept t = true) l1 ++ filter (fun t => kept t = true) l2.
Proof. apply filter_app. Qed.

Lemma stacked_kept_popped popped :
  Forall stacked popped → Forall (fun s => s ≠ LP) popped →
  Forall (fun t => kept t = true) popped.
Proof.
  intros Hs Hn. induction Hs as [|s l [->|(o & -> & Hk)] _ IH];
    [constructor| |]; apply Forall_cons in Hn as [Hne Hn].
  - contradiction.
  - constructor; [exact Hk|apply IH, Hn].
Qed.

Lemma filter_all {A} (P : A → Prop) `{∀ x, Decision (P x)} (l : list A) :
  Forall P l → filter P l = l.
Proof.
  induction 1 as [|x l Hx _ IH]; [reflexivity|].
  rewrite filter_cons_True by assumption. f_equal. exact IH.
Qed.

Lemma filter_none {A} (P : A → Prop) `{∀ x, Decision (P x)} (l : list A) :
  Forall (fun x => ¬ P x) l → filter P l = [].
Proof.
  induction 1 as [|x l Hx _ IH]; [reflexivity|].
  rewrite filter_cons_False by assumption. exact IH.
Qed.

Lemma stacked_not_operand st :
  Forall stacked st → filter (fun t => operand t = true) st = [].
Proof.
  intros H. apply filter_none. eapply Forall_impl; [exact H|].
  intros t [->|(o & -> & _)]; cbn; discriminate.
Qed.

(** One step of the loop, as a rearrangement of [output ++ stack]. *)
Lemma shunt_rearranges t stack output stack' output' :
  shunt t stack output = Ok (stack', output') →
  Forall stacked stack → Forall (fun t => kept t = true) output →
  Forall stacked stack' ∧ Forall (fun t => kept t = true) output'
  ∧ filter (fun t => kept t = true) (output' ++ stack')
    ≡ₚ filter (fun t => kept t = true) (output ++ stack)
       ++ filter (fun t => kept t = true) [t]
  ∧ filter (fun t => operand t = true) output'
    = filter (fun t => operand t = true) output
      ++ filter (fun t => operand t = true) [t].
Proof.
  intros Hshunt Hst Hout.
  assert (Hpush : ∀ x, kept x = true →
    filter (fun t => kept t = true) ((output ++ [x]) ++ stack)
    ≡ₚ filter (fun t => kept t = true) (output ++ stack)
       ++ filter (fun t => kept t = true) [x]).
  { intros x Hx. rewrite !filter_app_kept, <- !app_assoc.
    apply Permutation_app_head, Permutation_app_comm. }
  destruct t as [v|v|o| |]; cbn [shunt] in Hshunt.
  - injection Hshunt as <- <-. repeat split; [exact Hst| |apply Hpush; reflexivity|].
    + apply Forall_app; split; [exact Hout|repeat constructor].
    + rewrite filter_app. reflexivity.
  - injection Hshunt as <- <-. repeat split; [exact Hst| |apply Hpush; reflexivity|].
    + apply Forall_app; split; [exact Hout|repeat constructor].
    + rewrite filter_app. reflexivity.
  - destruct (postfix o && String.eqb (op_value o) "NOT") eqn:E1.
    { injection Hshunt as <- <-.
      assert (Hk : kept (OP o) = true) by (cbn; rewrite E1; reflexivity).
      repeat split; [exact Hst| |apply Hpush, Hk|].
      - apply Forall_app; split; [exact Hout|repeat constructor; exact Hk].
      - rewrite filter_app. reflexivity. }
    destruct (unary o && negb (postfix o)) eqn:E2.
    { injection Hshunt as <- <-.
      assert (Hk : kept (OP o) = true) by (cbn; rewrite E1, E2; reflexivity).
      repeat split; [|exact Hout| |].
      - constructor; [right; eauto|exact Hst].
      - rewrite !filter_app_kept, <- !app_assoc. apply Permutation_app_head.
        rewrite (filter_cons_True _ (OP o)) by exact Hk.
        rewrite (filter_cons_True _ (OP o)) by exact Hk.
        cbn [filter list_filter]. apply Permutation_cons_append.
      - cbn. rewrite app_nil_r. reflexivity. }
    destruct (negb (unary o)) eqn:E3.
    { destruct (pop_operators o stack output) as [st1 out1] eqn:Hpop.
      injection Hshunt as <- <-.
      apply pop_operators_app in Hpop as (popped & -> & -> & Hp).
      assert (Hk : kept (OP o) = true) by (cbn; rewrite E1, E2, E3; reflexivity).
      apply Forall_app in Hst as [Hst1 Hst2].
      repeat split.
      - constructor; [right; eauto|exact Hst2].
      - apply Forall_app; split; [exact Hout|].
        apply stacked_kept_popped; [exact Hst1|].
        eapply Forall_impl; [exact Hp|]. intros s [o' ->]. discriminate.
      - rewrite !filter_app_kept, <- !app_assoc.
        do 2 apply Permutation_app_head.
        rewrite (filter_cons_True _ (OP o)) by exact Hk.
        rewrite (filter_cons_True _ (OP o)) by exact Hk.
        cbn [filter list_filter]. apply Permutation_cons_append.
      - rewrite filter_app, (stacked_not_operand popped Hst1), !app_nil_r.
        reflexivity. }
    injection Hshunt as <- <-.
    assert (Hk : kept (OP o) = false) by (cbn; rewrite E1, E2, E3; reflexivity).
    repeat split; [exact Hst|exact Hout| |].
    + rewrite filter_cons_False by (rewrite Hk; discriminate).
      cbn. rewrite app_nil_r. reflexivity.
    + cbn. rewrite app_nil_r. reflexivity.
  - injection Hshunt as <- <-. repeat split; [|exact Hout| |].
    + constructor; [left; reflexivity|exact Hst].
    + rewrite !filter_app_kept. cbn. rewrite app_nil_r. reflexivity.
    + cbn. rewrite app_nil_r. reflexivity.
  - destruct (pop_until_LP stack output) as [[st1 out1]|] eqn:Hpop; [|discriminate].
    injection Hshunt as <- <-.
    apply pop_until_LP_app in Hpop as (popped & -> & -> & Hp).
    apply Forall_app in Hst as [Hst1 Hst2].
    apply Forall_cons in Hst2 as [_ Hst2].
    repeat split; [exact Hst2| | |].
    + apply Forall_app; split; [exact Hout|].
      apply stacked_kept_popped; assumption.
    + rewrite !filter_app_kept. cbn. rewrite app_nil_r, <- !app_assoc. reflexivity.
    + rewrite filter_app, (stacked_not_operand popped Hst1), !app_nil_r.
      reflexivity.
Qed.

Lemma shunting_loop_rearranges tokens :
  ∀ stack output stack' output',
    shunting_loop tokens stack output = Ok (stack', output') →
    Forall stacked stack → Forall (fun t => kept t = true) output →
    Forall stacked stack' ∧ Forall (fun t => kept t = true) output'
    ∧ filter (fun t => kept t = true) (output' ++ stack')
      ≡ₚ filter (fun t => kept t = true) (output ++ stack)
         ++ filter (fun t => kept t = true) tokens
    ∧ filter (fun t => operand t = true) output'
      = filter (fun t => operand t = true) output
        ++ filter (fun t => operand t = true) tokens.
Proof.
  induction tokens as [|t rest IH]; intros stack output stack' output'.
  - intros [= <- <-] Hst Hout. cbn. rewrite !app_nil_r. auto.
  - cbn [shunting_loop]. destruct (shunt t stack output) as [[st1 out1]|e] eqn:Hs;
      [|discriminate].
    cbn [rbind fst snd]. intros Hloop Hst Hout.
    destruct (shunt_rearranges _ _ _ _ _ Hs Hst Hout) as (Hst1 & Hout1 & Hp1 & Ho1).
    destruct (IH _ _ _ _ Hloop Hst1 Hout1) as (Hst2 & Hout2 & Hp2 & Ho2).
    repeat split; [exact Hst2|exact Hout2| |].
    + rewrite Hp2, Hp1, <- app_assoc. apply Permutation_app_head.
      change (t :: rest) with ([t] ++ rest). rewrite filter_app. reflexivity.
    + rewrite Ho2, Ho1, <- app_assoc. f_equal.
      change (t :: rest) with ([t] ++ rest). rewrite filter_app. reflexivity.
Qed.

Lemma drain_stack_app stack :
  ∀ output rpn, drain_stack stack output = Ok rpn →
    rpn = output ++ stack ∧ Forall (fun s => s ≠ LP) stack.
Proof.
  induction stack as [|s st IH]; intros output rpn.
  - intros [= <-]. rewrite app_nil_r. auto.
  - cbn [drain_stack]. destruct s; try discriminate;
      intros [-> Hn]%IH; rewrite <- app_assoc; (split; [reflexivity|]);
      constructor; (discriminate || exact Hn).
Qed.

Lemma insertImplicit_kept tokens :
  filter (fun t => operand t = true) (insertImplicit tokens)
  = filter (fun t => operand t = true) tokens.
Proof.
  induction tokens as [|a rest IH]; [reflexivity|].
  cbn [insertImplicit]. destruct (isOperand (Some a) && beginsOperand (head rest)).
  - change (a :: implicit_and :: insertImplicit rest)
      with ([a] ++ [implicit_and] ++ insertImplicit rest).
    change (a :: rest) with ([a] ++ rest).
    rewrite !filter_app, IH. reflexivity.
  - change (a :: insertImplicit rest) with ([a] ++ insertImplicit rest).
    change (a :: rest) with ([a] ++ rest).
    rewrite !filter_app, IH. reflexivity.
Qed.

Lemma open_parens_app s1 s2 : open_parens (s1 ++ s2) = open_parens s1 + open_parens s2.
Proof.
  induction s1 as [|t s1 IH]; [reflexivity|].
  destruct t; cbn; rewrite IH; reflexivity.
Qed.

Lemma open_parens_none s : Forall (fun t => t ≠ LP) s → open_parens s = 0.
Proof.
  induction 1 as [|t s Ht _ IH]; [reflexivity|].
  destruct t; cbn; try exact IH. contradiction.
Qed.

Lemma open_parens_0 s : open_parens s = 0 → LP ∉ s.
Proof.
  induction s as [|t s IH]; [intros _ []%elem_of_nil|].
  destruct t; cbn; try discriminate;
    intros H%IH [?|?]%elem_of_cons; (discriminate || contradiction).
Qed.

Lemma open_parens_pos s : 0 < open_parens s → LP ∈ s.
Proof.
  induction s as [|t s IH]; [cbn; lia|].
  destruct t; cbn; rewrite elem_of_cons; auto.
Qed.

(** One step of the loop, for the parentheses on the stack. *)
Lemma shunt_parens t stack output :
  Forall stacked stack →
  match paren_scan [t] (open_parens stack) with
  | None => shunt t stack output = Err (ParseError UnmatchedRightParen)
  | Some d =>
      ∃ stack' output',
        shunt t stack output = Ok (stack', output')
        ∧ Forall stacked stack' ∧ open_parens stack' = d
  end.
Proof.
  intros Hst. destruct t as [v|v|o| |]; cbn [paren_scan shunt].
  - eauto.
  - eauto.
  - destruct (postfix o && String.eqb (op_value o) "NOT") eqn:E1; [eauto|].
    destruct (unary o && negb (postfix o)) eqn:E2.
    { eexists _, _. split; [reflexivity|]. split; [|reflexivity].
      constructor; [right; eexists; split; [reflexivity|]|exact Hst].
      cbn. rewrite E1, E2. reflexivity. }
    destruct (negb (unary o)) eqn:E3; [|eauto].
    destruct (pop_operators o stack output) as [st1 out1] eqn:Hpop.
    apply pop_operators_app in Hpop as (popped & -> & -> & Hp).
    eexists _, _. split; [reflexivity|].
    apply Forall_app in Hst as [Hst1 Hst2]. split.
    + constructor; [right; eexists; split; [reflexivity|]|exact Hst2].
      cbn. rewrite E1, E2, E3. reflexivity.
    + cbn [open_parens]. rewrite open_parens_app, (open_parens_none popped); [reflexivity|].
      eapply Forall_impl; [exact Hp|]. intros s [o' ->]. discriminate.
  - eexists _, _. split; [reflexivity|]. split; [|reflexivity].
    constructor; [left; reflexivity|exact Hst].
  - destruct (pop_until_LP stack output) as [[st1 out1]|] eqn:Hpop.
    + apply pop_until_LP_app in Hpop as (popped & -> & -> & Hp).
      rewrite open_parens_app, (open_parens_none popped Hp). cbn.
      eexists _, _. split; [reflexivity|]. split; [|reflexivity].
      apply Forall_app in Hst as [_ Hst]. apply Forall_cons in Hst. tauto.
    + apply pop_until_LP_None in Hpop.
      destruct (open_parens stack) eqn:Hd; [reflexivity|].
      exfalso. apply Hpop, open_parens_pos. lia.
Qed.

Lemma paren_scan_cons t rest depth :
  paren_scan (t :: rest) depth
  = match paren_scan [t] depth with
    | None => None
    | Some d => paren_scan rest d
    end.
Proof. destruct t; try reflexivity. destruct depth; reflexivity. Qed.

Lemma shunting_loop_parens tokens :
  ∀ stack output,
    Forall stacked stack →
    match paren_scan tokens (open_parens stack) with
    | None => shunting_loop tokens stack output
              = Err (ParseError UnmatchedRightParen)
    | Some d =>
        ∃ stack' output',
          shunting_loop tokens stack output = Ok (stack', output')
          ∧ Forall stacked stack' ∧ open_parens stack' = d
    end.
Proof.
  induction tokens as [|t rest IH]; intros stack output Hst.
  - cbn. eauto.
  - rewrite paren_scan_cons. cbn [shunting_loop].
    pose proof (shunt_parens t stack output Hst) as Hs.
    destruct (paren_scan [t] (open_parens stack)) as [d|].
    + destruct Hs as (st1 & out1 & -> & Hst1 & <-). cbn [rbind fst snd].
      apply IH, Hst1.
    + rewrite Hs. reflexivity.
Qed.

Lemma drain_stack_parens stack :
  ∀ output,
    Forall stacked stack →
    drain_stack stack output
    = match open_parens stack with
      | O => Ok (output ++ stack)
      | S _ => Err (ParseError UnbalancedParens)
      end.
Proof.
  induction stack as [|s st IH]; intros output Hst.
  - cbn. rewrite app_nil_r. reflexivity.
  - apply Forall_cons in Hst as [[->|(o & -> & _)] Hst]; [reflexivity|].
    cbn [drain_stack open_parens]. rewrite IH by exact Hst.
    destruct (open_parens st); [|reflexivity]. rewrite <- app_assoc. reflexivity.
Qed.

Lemma paren_scan_insertImplicit tokens :
  ∀ depth, paren_scan (insertImplicit tokens) depth = paren_scan tokens depth.
Proof.
  induction tokens as [|a rest IH]; intros depth; [reflexivity|].
  cbn [insertImplicit]. destruct (isOperand (Some a) && beginsOperand (head rest)).
  - rewrite paren_scan_cons, (paren_scan_cons a rest).
    destruct (paren_scan [a] depth); [|reflexivity].
    cbn [paren_scan implicit_and]. apply IH.
  - rewrite paren_scan_cons, (paren_scan_cons a rest).
    destruct (paren_scan [a] depth); [|reflexivity]. apply IH.
Qed.

(** X5: the parser checks the parentheses and
    nothing else: it fails on a right parenthesis that closes nothing and on
    a left parenthesis that is never closed, and succeeds on every other
    token list. *)
Theorem toRPN_checks_parentheses tokens :
  match paren_scan tokens 0 with
  | None => toRPN tokens = Err (ParseError UnmatchedRightParen)
  | Some (S _) => toRPN tokens = Err (ParseError UnbalancedParens)
  | Some O => ∃ rpn, toRPN tokens = Ok rpn
  end.
Proof.
  unfold toRPN.
  pose proof (shunting_loop_parens (insertImplicit tokens) [] [] (Forall_nil_2 _)) as H.
  rewrite paren_scan_insertImplicit in H. cbn [open_parens] in H.
  destruct (paren_scan tokens 0) as [d|].
  - destruct H as (st & out & -> & Hst & Hd). cbn [rbind fst snd].
    rewrite drain_stack_parens, Hd by exact Hst.
    destruct d; eauto.
  - rewrite H. reflexivity.
Qed.

Lemma toRPN_elements tokens rpn t :
  toRPN tokens = Ok rpn → t ∈ rpn → t ∈ insertImplicit tokens.
Proof.
  unfold toRPN.
  destruct (shunting_loop (insertImplicit tokens) [] []) as [[st out]|e] eqn:Hloop;
    [|discriminate].
  cbn [rbind fst snd]. intros [-> Hn]%drain_stack_app Ht.
  destruct (shunting_loop_rearranges _ _ _ _ _ Hloop (Forall_nil_2 _) (Forall_nil_2 _))
    as (Hst & Hout & Hp & _).
  cbn [app filter list_filter] in Hp.
  assert (Hk : t ∈ filter (fun t => kept t = true) (out ++ st)).
  { rewrite filter_all; [exact Ht|].
    apply Forall_app; split; [exact Hout|].
    apply stacked_kept_popped; assumption. }
  rewrite Hp in Hk. apply list_elem_of_filter in Hk. tauto.
Qed.

(** X6: the output of the parser is a rearrangement of its input with the
    implicit ANDs and without the parentheses, the operands in their order. *)
Theorem toRPN_rearranges tokens rpn :
  toRPN tokens = Ok rpn →
  rpn ≡ₚ filter (fun t => kept t = true) (insertImplicit tokens)
  ∧ filter (fun t => operand t = true) rpn
    = filter (fun t => operand t = true) tokens.
Proof.
  unfold toRPN.
  destruct (shunting_loop (insertImplicit tokens) [] []) as [[st out]|e] eqn:Hloop;
    [|discriminate].
  cbn [rbind fst snd]. intros [-> Hn]%drain_stack_app.
  destruct (shunting_loop_rearranges _ _ _ _ _ Hloop (Forall_nil_2 _) (Forall_nil_2 _))
    as (Hst & Hout & Hp & Ho).
  cbn [app filter list_filter] in Hp, Ho. split.
  - rewrite <- Hp. rewrite filter_all; [reflexivity|].
    apply Forall_app; split; [exact Hout|].
    apply stacked_kept_popped; assumption.
  - rewrite filter_app, (stacked_not_operand st Hst), app_nil_r, Ho.
    apply insertImplicit_kept.
Qed.

Lemma toRPN_rearranges_witness :
  [VAR "A"; VAR "B"; implicit_and; VAR "C"; binary_op "OR" 1]
  ≡ₚ filter (fun t => kept t = true)
       (insertImplicit [VAR "A"; LP; VAR "B"; RP; binary_op "OR" 1; VAR "C"])
  ∧ filter (fun t => operand t = true)
      [VAR "A"; VAR "B"; implicit_and; VAR "C"; binary_op "OR" 1]
    = filter (fun t => operand t = true)
        [VAR "A"; LP; VAR "B"; RP; binary_op "OR" 1; VAR "C"].
Proof.
  apply (toRPN_rearranges [VAR "A"; LP; VAR "B"; RP; binary_op "OR" 1; VAR "C"]).
  reflexivity.
Defined.

Lemma eval_token_evaluable env t stack e :
  evaluable env t → eval_token env t stack = Err e →
  ∃ op, op ∈ operator_names ∧ e = EvalError (InsufficientOperands op).
Proof.
  destruct t as [v|v|o| |]; cbn [evaluable eval_token]; try discriminate.
  - intros ->. discriminate.
  - intros Ho. destruct (String.eqb (op_value o) "NOT") eqn:En.
    + destruct stack; [|discriminate]. intros [= <-].
      exists "NOT". split; [|reflexivity]. unfold operator_names.
      rewrite !elem_of_cons. auto.
    + destruct stack as [|b [|a stack]].
      * intros H. injection H as <-. eauto.
      * intros H. injection H as <-. eauto.
      * unfold operator_names in Ho. rewrite !elem_of_cons, elem_of_nil in Ho.
        destruct Ho as [Ho|[Ho|[Ho|[Ho|[]]]]]; rewrite Ho in *; cbn in *;
          discriminate.
Qed.

Lemma eval_loop_evaluable env rpn :
  ∀ stack e,
    Forall (evaluable env) rpn → eval_loop env rpn stack = Err e →
    ∃ op, op ∈ operator_names ∧ e = EvalError (InsufficientOperands op).
Proof.
  induction rpn as [|t rest IH]; intros stack e Hall; [discriminate|].
  apply Forall_cons in Hall as [Ht Hall]. cbn [eval_loop].
  destruct (eval_token env t stack) as [stack'|e'] eqn:Hs; cbn [rbind].
  - apply IH, Hall.
  - intros [= <-]. eapply eval_token_evaluable; eassumption.
Qed.

Lemma assign_vars_bound n m names :
  ∀ i env v, v ∈ names ∨ has_property env v = true →
             has_property (assign_vars n m i names env) v = true.
Proof.
  induction names as [|x names IH]; intros i env v.
  - intros [[]%elem_of_nil|H]. exact H.
  - cbn [assign_vars]. intros H. apply IH.
    destruct (decide (x = v)) as [->|Hne].
    + right. apply set_property_has.
    + destruct H as [[?|?]%elem_of_cons|H]; [congruence|auto|].
      right. unfold has_property in *.
      rewrite set_property_lookup_ne by congruence. exact H.
Qed.

Lemma make_env_is_Some vars m v :
  v ∈ vars → has_property (make_env vars m) v = true.
Proof. intros H. apply assign_vars_bound. auto. Qed.

Lemma elem_of_insertImplicit tokens t :
  t ∈ insertImplicit tokens → t ∈ tokens ∨ t = implicit_and.
Proof.
  induction tokens as [|a rest IH]; [intros []%elem_of_nil|].
  cbn [insertImplicit]. destruct (isOperand (Some a) && beginsOperand (head rest));
    rewrite !elem_of_cons; intros H; tauto.
Qed.

Lemma lexed_token_evaluable env t :
  lexed_token t → (∀ v, t = VAR v → has_property env v = true) →
  evaluable env t.
Proof.
  intros [H|(c & _ & ->)] Hv; [|apply Hv; reflexivity].
  rewrite !elem_of_cons, elem_of_nil in H.
  unfold evaluable, operator_names.
  destruct H as [->|[->|[->|[->|[->|[->|[->|[->|[->|[]]]]]]]]]];
    cbn; rewrite ?elem_of_cons; auto.
Qed.

(** X7: evaluating an expression that scans and parses, under values for the
    variables [extractVars] finds in it, returns 0 or 1 or fails for lack of
    operands or with an invalid expression; it meets no undefined variable
    and no unknown operator. *)
Theorem evaluation_outcomes expr toks rpn m :
  tokenize expr = Ok toks → toRPN toks = Ok rpn →
  match evalRPN rpn (make_env (extractVars expr) m) with
  | Ok y => y = 0%Z ∨ y = 1%Z
  | Err e =>
      e = EvalError InvalidExpression
      ∨ ∃ op, op ∈ operator_names ∧ e = EvalError (InsufficientOperands op)
  end.
Proof.
  intros Htok Hrpn. unfold tokenize in Htok.
  apply tokenize_loop_scanned in Htok as [Hlex Hvars].
  assert (Hall : Forall (evaluable (make_env (extractVars expr) m)) rpn).
  { apply Forall_forall. intros t Ht.
    apply (toRPN_elements _ _ _ Hrpn) in Ht.
    apply elem_of_insertImplicit in Ht as [Ht| ->].
    - apply lexed_token_evaluable.
      + rewrite Forall_forall in Hlex. apply Hlex, Ht.
      + intros v ->. apply make_env_is_Some, elem_of_extractVars.
        apply names_letter_of_strip, Hvars, Ht.
    - cbn. unfold operator_names. rewrite !elem_of_cons. auto. }
  unfold evalRPN.
  destruct (eval_loop _ rpn []) as [stack|e] eqn:Hloop; cbn [rbind].
  - destruct stack as [|v [|? ?]]; auto. destruct v; auto.
  - right. eapply eval_loop_evaluable; eassumption.
Qed.

Lemma evaluation_outcomes_witness :
  match evalRPN [VAR "A"; VAR "B"; implicit_and; binary_op "OR" 1]
          (make_env (extractVars "ab+") 2) with
  | Ok y => y = 0%Z ∨ y = 1%Z
  | Err e =>
      e = EvalError InvalidExpression
      ∨ ∃ op, op ∈ operator_names ∧ e = EvalError (InsufficientOperands op)
  end.
Proof.
  apply (evaluation_outcomes "ab+" [VAR "A"; VAR "B"; binary_op "OR" 1]);
    reflexivity.
Defined.

Lemma insertImplicit_app l1 l2 :
  insertImplicit (l1 ++ l2)
  = insertImplicit l1
    ++ (if isOperand (last l1) && beginsOperand (head l2)
        then [implicit_and] else [])
    ++ insertImplicit l2.
Proof.
  induction l1 as [|a l1 IH]; [reflexivity|].
  cbn [app insertImplicit]. rewrite IH. destruct l1 as [|b l1].
  - cbn [app head last insertImplicit beginsOperand].
    rewrite andb_false_r. cbn [app].
    destruct (isOperand (Some a) && beginsOperand (head l2)); reflexivity.
  - cbn [app head]. rewrite (last_cons_cons a b l1).
    destruct (isOperand (Some a) && beginsOperand (Some b)); reflexivity.
Qed.

Lemma head_tokens_of t :
  beginsOperand (head (tokens_of t)) = true.
Proof.
  induction t; cbn [tokens_of]; try reflexivity.
  - destruct (tokens_of t) as [|x l]; [discriminate|exact IHt].
  - destruct (tokens_of t1) as [|x l]; [discriminate|exact IHt1].
  - destruct (tokens_of t1) as [|x l]; [discriminate|exact IHt1].
Qed.

Lemma last_tokens_of t :
  isOperand (last (tokens_of t)) = true.
Proof.
  induction t; cbn [tokens_of]; try reflexivity.
  - rewrite last_cons, last_snoc. reflexivity.
  - rewrite last_snoc. reflexivity.
  - rewrite last_cons. destruct (last (tokens_of t)); [exact IHt|discriminate].
  - rewrite last_app, last_cons.
    destruct (last (tokens_of t2)); [exact IHt2|discriminate].
  - rewrite last_app. destruct (last (tokens_of t2)); [exact IHt2|discriminate].
Qed.

Lemma op_token_not_operand op :
  isOperand (Some (op_token op)) = false
  ∧ beginsOperand (Some (op_token op)) = false.
Proof. destruct op; split; reflexivity. Qed.

(** The implicit ANDs are inserted between adjacent operands and nowhere
    else. *)
Lemma insertImplicit_tokens_of t :
  insertImplicit (tokens_of t) = explicit_of t.
Proof.
  induction t as [v|n|t IH|t IH|t IH|op a IHa b IHb|a IHa b IHb];
    cbn [tokens_of explicit_of]; try reflexivity.
  - change (LP :: tokens_of t ++ [RP]) with ([LP] ++ tokens_of t ++ [RP]).
    rewrite insertImplicit_app, (insertImplicit_app (tokens_of t)), IH.
    cbn [last isOperand andb head beginsOperand]. rewrite andb_false_r.
    reflexivity.
  - rewrite insertImplicit_app, IH.
    cbn [head beginsOperand postfix_not op_value postfix String.eqb]. 
    rewrite andb_false_r. reflexivity.
  - change (prefix_not :: tokens_of t) with ([prefix_not] ++ tokens_of t).
    rewrite insertImplicit_app, IH. reflexivity.
  - change (op_token op :: tokens_of b) with ([op_token op] ++ tokens_of b).
    rewrite insertImplicit_app, (insertImplicit_app [op_token op]), IHa, IHb.
    cbn [head last app]. destruct (op_token_not_operand op) as [H1 H2].
    rewrite H1, H2, andb_false_r. cbn [insertImplicit head beginsOperand andb app].
    rewrite andb_false_r. reflexivity.
  - rewrite insertImplicit_app, IHa, IHb, last_tokens_of, head_tokens_of.
    reflexivity.
Qed.

Lemma shields_mono k k' stack : k ≤ k' → shields k stack → shields k' stack.
Proof. destruct stack as [|[| |o| |] ?]; cbn; trivial. lia. Qed.

Lemma pending_mono k k' s : k ≤ k' → pending k' s → pending k s.
Proof. intros Hk (o & -> & H1 & H2). exists o. repeat split; trivial. lia. Qed.

Lemma pending_5 pend : Forall (pending 5) pend → pend = [].
Proof.
  destruct pend as [|s pend]; [reflexivity|].
  intros [(o & _ & H1 & H2) _]%Forall_cons. lia.
Qed.

Lemma pop_operators_pending o pend :
  ∀ stack output,
    String.eqb (associativity o) "left" = true → precedence o ≤ 3 →
    Forall (pending (precedence o)) pend → shields (precedence o) stack →
    pop_operators o (pend ++ stack) output = (stack, output ++ pend).
Proof.
  intros stack output Hleft Hprec Hpend Hsh. revert output.
  induction Hpend as [|s pend (top & -> & H1 & H2) _ IH]; intros output.
  - cbn [app]. rewrite app_nil_r.
    destruct stack as [|[| |top| |] stack]; try reflexivity.
    cbn [pop_operators]. cbn in Hsh.
    replace (precedence o <? precedence top) with false
      by (symmetry; apply Nat.ltb_ge; lia).
    replace (precedence top =? precedence o) with false
      by (symmetry; apply Nat.eqb_neq; lia).
    reflexivity.
  - cbn [app pop_operators]. rewrite Hleft.
    replace ((precedence o <? precedence top)
             || (precedence top =? precedence o) && true) with true.
    + rewrite IH, <- app_assoc. reflexivity.
    + symmetry. destruct (decide (precedence top = precedence o)) as [->|Hne].
      * rewrite Nat.eqb_refl, orb_true_r. reflexivity.
      * apply orb_true_iff. left. apply Nat.ltb_lt. lia.
Qed.

Lemma pop_until_LP_pending k pend stack output :
  Forall (pending k) pend →
  pop_until_LP (pend ++ LP :: stack) output = Some (stack, output ++ pend).
Proof.
  intros Hpend. revert output.
  induction Hpend as [|s pend (top & -> & _) _ IH]; intros output.
  - cbn. rewrite app_nil_r. reflexivity.
  - cbn [app pop_until_LP]. rewrite IH, <- app_assoc. reflexivity.
Qed.

Lemma shunting_loop_cons t rest stack output :
  shunting_loop (t :: rest) stack output
  = (so <-! shunt t stack output; shunting_loop rest so.1 so.2).
Proof. reflexivity. Qed.

Lemma shunt_binary o pend stack output :
  unary o = false → postfix o = false →
  String.eqb (associativity o) "left" = true → precedence o ≤ 3 →
  Forall (pending (precedence o)) pend → shields (precedence o) stack →
  shunt (OP o) (pend ++ stack) output = Ok (OP o :: stack, output ++ pend).
Proof.
  intros Hu Hp Hleft Hprec Hpend Hsh. cbn [shunt]. rewrite Hu, Hp. cbn [andb negb].
  rewrite pop_operators_pending by assumption. reflexivity.
Qed.

(** The parser on the tokens of a tree: the operators still on the stack
    when the tree has been read are [pend], what has reached the output is
    [body], and together they are the postfix form. *)
Lemma shunting_tree t :
  well_formed t = true →
  ∃ body pend,
    postfix_of t = body ++ pend ∧ Forall (pending (level t)) pend
    ∧ ∀ stack output rest,
        shields (level t) stack →
        shunting_loop (explicit_of t ++ rest) stack output
        = shunting_loop rest (pend ++ stack) (output ++ body).
Proof.
  induction t as [v|n|t IH|t IH|t IH|op a IHa b IHb|a IHa b IHb];
    cbn [well_formed explicit_of postfix_of level].
  - intros _. exists [VAR v], []. split; [reflexivity|]. split; [constructor|].
    reflexivity.
  - intros _. exists [NUM n], []. split; [reflexivity|]. split; [constructor|].
    reflexivity.
  - intros (body & pend & Hpost & Hpend & Hrun)%IH.
    exists (body ++ pend), []. rewrite app_nil_r.
    split; [exact Hpost|]. split; [constructor|].
    intros stack output rest _.
    cbn [app]. rewrite shunting_loop_cons. cbn [shunt rbind fst snd].
    rewrite <- app_assoc, Hrun by exact I.
    cbn [app]. rewrite shunting_loop_cons. cbn [shunt].
    rewrite (pop_until_LP_pending _ _ _ _ Hpend). cbn [rbind fst snd].
    rewrite app_assoc. reflexivity.
  - intros [(body & pend & Hpost & Hpend & Hrun)%IH Hlev%Nat.leb_le]%andb_true_iff.
    assert (pend = []) as ->.
    { apply pending_5. eapply Forall_impl; [exact Hpend|].
      intros s. apply pending_mono, Hlev. }
    exists (body ++ [postfix_not]), []. rewrite Hpost, !app_nil_r.
    split; [reflexivity|]. split; [constructor|].
    intros stack output rest Hsh. rewrite <- app_assoc, Hrun.
    + cbn [app]. rewrite shunting_loop_cons. cbn. rewrite app_assoc. reflexivity.
    + destruct stack as [|[| |o| |] ?]; cbn; trivial. lia.
  - intros [(body & pend & Hpost & Hpend & Hrun)%IH Hlev%Nat.leb_le]%andb_true_iff.
    exists body, (pend ++ [prefix_not]). rewrite Hpost, app_assoc.
    split; [reflexivity|]. split.
    + apply Forall_app. split.
      * eapply Forall_impl; [exact Hpend|]. intros s. apply pending_mono, Hlev.
      * apply Forall_cons_2; [|constructor].
        eexists. split; [reflexivity|]. cbn. lia.
    + intros stack output rest _.
      cbn [app]. rewrite shunting_loop_cons. cbn [shunt prefix_not postfix unary
        op_value andb negb rbind fst snd String.eqb Ascii.eqb Bool.eqb].
      rewrite Hrun, <- app_assoc; [reflexivity|].
      cbn. right. exact Hlev.
  - intros [[[(bodya & penda & Hposta & Hpenda & Hruna)%IHa
               (bodyb & pendb & Hpostb & Hpendb & Hrunb)%IHb]%andb_true_iff
              Hla%Nat.leb_le]%andb_true_iff Hlb%Nat.ltb_lt]%andb_true_iff.
    exists (bodya ++ penda ++ bodyb), (pendb ++ [op_token op]).
    rewrite Hposta, Hpostb, <- !app_assoc. split; [reflexivity|]. split.
    + apply Forall_app. split.
      * eapply Forall_impl; [exact Hpendb|]. intros s. apply pending_mono. lia.
      * apply Forall_cons_2; [|constructor].
        destruct op; (eexists; split; [reflexivity|]); cbn; lia.
    + intros stack output rest Hsh.
      rewrite <- app_assoc, Hruna by (eapply shields_mono; eassumption).
      cbn [app]. rewrite shunting_loop_cons.
      assert (Hshunt : shunt (op_token op) (penda ++ stack) (output ++ bodya)
                       = Ok (op_token op :: stack, (output ++ bodya) ++ penda)).
      { destruct op; apply shunt_binary; try reflexivity; cbn; try lia;
          try exact Hsh;
          (eapply Forall_impl; [exact Hpenda|]; intros s; apply pending_mono;
           exact Hla). }
      rewrite Hshunt. cbn [rbind fst snd].
      rewrite Hrunb, <- !app_assoc; [reflexivity|].
      destruct op; cbn; left; cbn in Hlb; exact Hlb.
  - intros [[[(bodya & penda & Hposta & Hpenda & Hruna)%IHa
               (bodyb & pendb & Hpostb & Hpendb & Hrunb)%IHb]%andb_true_iff
              Hla%Nat.leb_le]%andb_true_iff Hlb%Nat.ltb_lt]%andb_true_iff.
    exists (bodya ++ penda ++ bodyb), (pendb ++ [implicit_and]).
    rewrite Hposta, Hpostb, <- !app_assoc. split; [reflexivity|]. split.
    + apply Forall_app. split.
      * eapply Forall_impl; [exact Hpendb|]. intros s. apply pending_mono. lia.
      * apply Forall_cons_2; [|constructor].
        eexists. split; [reflexivity|]. cbn. lia.
    + intros stack output rest Hsh.
      rewrite <- app_assoc, Hruna by (eapply shields_mono; eassumption).
      cbn [app]. rewrite shunting_loop_cons.
      assert (Hshunt : shunt implicit_and (penda ++ stack) (output ++ bodya)
                       = Ok (implicit_and :: stack, (output ++ bodya) ++ penda)).
      { apply shunt_binary; try reflexivity; cbn; try lia; try exact Hsh.
        eapply Forall_impl; [exact Hpenda|]. intros s. apply pending_mono.
        exact Hla. }
      rewrite Hshunt. cbn [rbind fst snd].
      rewrite Hrunb, <- !app_assoc; [reflexivity|].
      cbn. left. exact Hlb.
Qed.

Lemma drain_stack_pending k pend :
  ∀ output, Forall (pending k) pend → drain_stack pend output = Ok (output ++ pend).
Proof.
  induction pend as [|s pend IH]; intros output Hp.
  - rewrite app_nil_r. reflexivity.
  - apply Forall_cons in Hp as [(o & -> & _) Hp]. cbn [drain_stack].
    rewrite IH, <- app_assoc by exact Hp. reflexivity.
Qed.

Lemma toRPN_tokens_of t :
  well_formed t = true → toRPN (tokens_of t) = Ok (postfix_of t).
Proof.
  intros (body & pend & -> & Hpend & Hrun)%shunting_tree.
  unfold toRPN. rewrite insertImplicit_tokens_of.
  rewrite <- (app_nil_r (explicit_of t)), Hrun by exact I.
  cbn [shunting_loop rbind fst snd]. rewrite app_nil_r.
  apply (drain_stack_pending _ _ _ Hpend).
Qed.

Lemma rbind_assoc {A B C} (r : outcome A) (f : A → outcome B) (g : B → outcome C) :
  rbind (rbind r f) g = rbind r (fun x => rbind (f x) g).
Proof. destruct r; reflexivity. Qed.

Lemma eval_loop_postfix_of env t :
  ∀ stack,
    eval_loop env (postfix_of t) stack
    = (x <-! value_of env t; Ok (x :: stack)).
Proof.
  induction t as [v|n|t IH|t IH|t IH|op a IHa b IHb|a IHa b IHb];
    intros stack; cbn [postfix_of value_of].
  - cbn. destruct (has_property env v); reflexivity.
  - reflexivity.
  - apply IH.
  - rewrite eval_loop_app, IH, !rbind_assoc.
    destruct (value_of env t); reflexivity.
  - rewrite eval_loop_app, IH, !rbind_assoc.
    destruct (value_of env t); reflexivity.
  - rewrite eval_loop_app, IHa, rbind_assoc.
    destruct (value_of env a) as [x|e]; [|reflexivity]. cbn [rbind].
    rewrite eval_loop_app, IHb, rbind_assoc.
    destruct (value_of env b) as [y|e]; [|reflexivity].
    destruct op; reflexivity.
  - rewrite eval_loop_app, IHa, rbind_assoc.
    destruct (value_of env a) as [x|e]; [|reflexivity]. cbn [rbind].
    rewrite eval_loop_app, IHb, rbind_assoc.
    destruct (value_of env b) as [y|e]; reflexivity.
Qed.

Lemma evalRPN_postfix_of env t :
  evalRPN (postfix_of t) env = (x <-! value_of env t; Ok (bit_of x)).
Proof.
  unfold evalRPN. rewrite eval_loop_postfix_of, rbind_assoc.
  destruct (value_of env t) as [[]|]; reflexivity.
Qed.

(** X8: the parser on a well-formed syntax tree.  The tokens of the tree
    parse to its postfix form, and evaluating that gives the value of the
    tree: NOT binds more strongly than AND (written out or implicit), AND
    more strongly than XOR, XOR more strongly than OR, and operators of the
    same strength group to the left.  A variable of any name is read as a
    property of the environment: a key by the truth value of its number, a
    member inherited from [Object.prototype] as true, any other name as
    undefined. *)
Theorem toRPN_evaluates_trees t :
  well_formed t = true →
  toRPN (tokens_of t) = Ok (postfix_of t)
  ∧ ∀ env, evalRPN (postfix_of t) env = (x <-! value_of env t; Ok (bit_of x)).
Proof.
  intros Hwf. split; [apply toRPN_tokens_of, Hwf|].
  intros env. apply evalRPN_postfix_of.
Qed.

Lemma toRPN_evaluates_trees_witness :
  toRPN (tokens_of (TBin BOr (TJuxt (TVar "A") (TPostNot (TVar "B"))) (TVar "C")))
  = Ok (postfix_of (TBin BOr (TJuxt (TVar "A") (TPostNot (TVar "B"))) (TVar "C")))
  ∧ ∀ env,
      evalRPN (postfix_of (TBin BOr (TJuxt (TVar "A") (TPostNot (TVar "B"))) (TVar "C")))
        env
      = (x <-! value_of env
                 (TBin BOr (TJuxt (TVar "A") (TPostNot (TVar "B"))) (TVar "C"));
         Ok (bit_of x)).
Proof.
  apply (toRPN_evaluates_trees
           (TBin BOr (TJuxt (TVar "A") (TPostNot (TVar "B"))) (TVar "C"))).
  reflexivity.
Defined.

Lemma upper_name_char v : upper_name v = true → ∃ c, v = char_string c ∧ is_upper c = true.
Proof.
  destruct v as [|c [|? ?]]; try discriminate. intros H. exists c. auto.
Qed.

Lemma tokenize_upper c :
  is_upper c = true →
  tokenize (char_string c) = Ok [VAR (char_string c)]
  ∧ tokenize (char_string c +:+ "'") = Ok [VAR (char_string c); postfix_not].
Proof.
  intros Hc. pose proof (is_upper_letter c Hc) as Hl.
  assert (Hw : is_whitespace c = false).
  { unfold is_whitespace, is_upper in *.
    apply andb_true_iff in Hc as [H1%Nat.leb_le H2%Nat.leb_le].
    repeat (apply orb_false_iff; split);
      rewrite ?andb_false_iff, ?Nat.leb_gt, ?Nat.eqb_neq; lia. }
  assert (H01 : Ascii.eqb c "0" || Ascii.eqb c "1" = false).
  { apply orb_false_iff. split; apply Ascii.eqb_neq; intros ->; discriminate. }
  change (char_string c +:+ "'") with (String c "'").
  unfold tokenize, char_string. cbn [strip_whitespace]. rewrite Hw.
  change (is_whitespace "'") with false. cbn iota.
  rewrite !tokenize_loop_letter by assumption.
  rewrite (is_upper_toUpperCase c Hc). split; reflexivity.
Qed.

Lemma tokenize_text_of t :
  printable t = true → tokenize (text_of t) = Ok (tokens_of t).
Proof.
  induction t as [v|n|t IH|t IH|t IH|op a IHa b IHb|a IHa b IHb];
    cbn [printable text_of tokens_of].
  - intros (c & -> & Hc)%upper_name_char. apply tokenize_upper, Hc.
  - intros [->%Z.eqb_eq| ->%Z.eqb_eq]%orb_true_iff; reflexivity.
  - intros Ht. apply (tokenize_app_Ok "(" _ [LP]); [reflexivity|].
    apply tokenize_app_Ok; [apply IH, Ht|reflexivity].
  - destruct t; try discriminate.
    intros (c & -> & Hc)%upper_name_char. apply tokenize_upper, Hc.
  - intros Ht. apply (tokenize_app_Ok "!" _ [prefix_not]); [reflexivity|].
    apply IH, Ht.
  - intros [Ha Hb]%andb_true_iff.
    apply tokenize_app_Ok; [apply IHa, Ha|].
    apply (tokenize_app_Ok _ _ [op_token op]); [destruct op; reflexivity|].
    apply IHb, Hb.
  - intros [Ha Hb]%andb_true_iff.
    apply tokenize_app_Ok; [apply IHa, Ha|apply IHb, Hb].
Qed.

Lemma strip_whitespace_idemp raw :
  strip_whitespace (strip_whitespace raw) = strip_whitespace raw.
Proof. apply strip_fixed, strip_no_whitespace. Qed.

(** X9: from the text to the value.  A text that is, up to white space, the
    text of a well-formed syntax tree is scanned, parsed and evaluated to the
    value of the tree, or to the error of its first undefined variable. *)
Theorem text_evaluates_to_tree_value t raw env :
  printable t = true → well_formed t = true →
  strip_whitespace raw = text_of t →
  ∃ toks rpn,
    tokenize raw = Ok toks ∧ toRPN toks = Ok rpn
    ∧ evalRPN rpn env = (x <-! value_of env t; Ok (bit_of x)).
Proof.
  intros Hp Hwf Hraw. exists (tokens_of t), (postfix_of t).
  split; [|split].
  - pose proof (tokenize_text_of t Hp) as H. unfold tokenize in *.
    rewrite <- Hraw, strip_whitespace_idemp in H. exact H.
  - apply toRPN_tokens_of, Hwf.
  - apply evalRPN_postfix_of.
Qed.

Lemma text_evaluates_to_tree_value_witness :
  ∃ toks rpn,
    tokenize "!(A ^ B) C'" = Ok toks ∧ toRPN toks = Ok rpn
    ∧ evalRPN rpn env_100
      = (x <-! value_of env_100
                 (TJuxt (TPreNot (TParen (TBin BXor (TVar "A") (TVar "B"))))
                    (TPostNot (TVar "C")));
         Ok (bit_of x)).
Proof.
  apply (text_evaluates_to_tree_value
           (TJuxt (TPreNot (TParen (TBin BXor (TVar "A") (TVar "B"))))
              (TPostNot (TVar "C")))); reflexivity.
Defined.

Lemma pos_literals_mask letters mask :
  ∀ i,
    String.length mask + i ≤ length letters →
    pos_literals (map char_string letters) i mask
    = map lit_text (pos_mask_literals mask (drop i letters)).
Proof.
  induction mask as [|c mask IH]; intros i Hlen.
  { cbn. destruct (drop i letters); reflexivity. }
  cbn [String.length] in Hlen.
  destruct (lookup_lt_is_Some_2 letters i) as [l Hl]; [lia|].
  rewrite (drop_S _ _ _ Hl). cbn [pos_literals pos_mask_literals].
  destruct (Ascii.eqb c "-"); [apply IH; lia|].
  rewrite IH by lia. cbn [map]. f_equal.
  unfold var_name. rewrite lookup_map_char_string, Hl.
  cbn [fmap option_fmap option_map]. unfold lit_text. cbn [fst snd].
  destruct (Ascii.eqb c "0"); reflexivity.
Qed.

Lemma text_of_literal_tree l : text_of (literal_tree l) = lit_text l.
Proof. destruct l as [c []]; reflexivity. Qed.

Lemma text_of_or_chain ls :
  ∀ acc,
    text_of (fold_left (fun acc l' => TBin BOr acc (literal_tree l')) ls acc)
    = text_of acc +:+ String.concat "" (map (fun l => "+" +:+ lit_text l) ls).
Proof.
  induction ls as [|l ls IH]; intros acc; cbn [fold_left map].
  - cbn. rewrite string_app_nil_r. reflexivity.
  - rewrite IH, concat_empty_cons. cbn [text_of op_text].
    rewrite text_of_literal_tree, <- !string_app_assoc. reflexivity.
Qed.

Lemma text_of_juxt_chain fs :
  ∀ acc,
    text_of (fold_left (fun acc f' => TJuxt acc (sum_tree f')) fs acc)
    = text_of acc +:+ String.concat "" (map (fun f => text_of (sum_tree f)) fs).
Proof.
  induction fs as [|f fs IH]; intros acc; cbn [fold_left map].
  - cbn. rewrite string_app_nil_r. reflexivity.
  - rewrite IH, concat_empty_cons. cbn [text_of].
    rewrite <- !string_app_assoc. reflexivity.
Qed.

Lemma no_whitespace_lit_text l :
  is_upper l.1 = true → no_whitespace (lit_text l) = true.
Proof.
  intros H. unfold lit_text. cbn [no_whitespace].
  rewrite (is_upper_not_whitespace _ H). destruct l.2; reflexivity.
Qed.

Lemma strip_pos_sum lits :
  Forall (fun l : literal => is_upper l.1 = true) lits →
  strip_whitespace
    (match map lit_text lits with
     | [] => "1"
     | texts => "(" +:+ String.concat " + " texts +:+ ")"
     end)
  = text_of (sum_tree lits).
Proof.
  intros Hup. destruct lits as [|l ls]; [reflexivity|].
  cbn [map sum_tree text_of].
  rewrite !strip_whitespace_app, strip_whitespace_concat.
  - change (strip_whitespace "(") with "(". change (strip_whitespace ")") with ")".
    rewrite text_of_or_chain, text_of_literal_tree, concat_sep_cons, map_map.
    reflexivity.
  - change (lit_text l :: map lit_text ls) with (map lit_text (l :: ls)).
    apply Forall_forall. intros s (l' & -> & Hl')%elem_of_map.
    apply no_whitespace_lit_text. rewrite Forall_forall in Hup. apply Hup, Hl'.
Qed.

Lemma strip_whitespace_concat_empty parts :
  strip_whitespace (String.concat "" parts)
  = String.concat "" (map strip_whitespace parts).
Proof.
  induction parts as [|p parts IH]; [reflexivity|].
  cbn [map]. rewrite !concat_empty_cons, strip_whitespace_app, IH. reflexivity.
Qed.

Lemma pos_mask_literals_letters mask letters l :
  l ∈ pos_mask_literals mask letters → l.1 ∈ letters.
Proof.
  revert letters. induction mask as [|c mask IH]; intros [|x letters];
    cbn [pos_mask_literals]; try (intros []%elem_of_nil).
  destruct (Ascii.eqb c "-").
  - intros H%IH. right. exact H.
  - intros [->|H%IH]%elem_of_cons; [left|right; exact H].
Qed.

(** The text of a product of sums is the text of its tree. *)
Lemma strip_implicantsToPOS letters impls :
  Forall (fun c => is_upper c = true) letters →
  Forall (fun p => String.length p = length letters) impls →
  strip_whitespace (implicantsToPOS impls (map char_string letters))
  = text_of (product_tree (map (fun p => pos_mask_literals p letters) impls)).
Proof.
  intros Hup Hlen.
  assert (Hvars : Forall (fun v => v ≠ "") (map char_string letters)).
  { apply Forall_forall. intros v (c & -> & _)%elem_of_map. discriminate. }
  assert (Hfactor : ∀ p, p ∈ impls →
    strip_whitespace (pos_term (map char_string letters) p)
    = text_of (sum_tree (pos_mask_literals p letters))).
  { intros p Hp. rewrite pos_term_spec by exact Hvars. unfold pos_sum.
    rewrite Forall_forall in Hlen.
    rewrite pos_literals_mask by (rewrite (Hlen p Hp); lia).
    rewrite drop_0. apply strip_pos_sum.
    apply Forall_forall. intros l Hl%pos_mask_literals_letters.
    rewrite Forall_forall in Hup. apply Hup, Hl. }
  unfold implicantsToPOS. destruct impls as [|p impls]; [reflexivity|].
  rewrite strip_whitespace_concat_empty. cbn [map product_tree].
  rewrite text_of_juxt_chain, concat_empty_cons, Hfactor by left.
  f_equal. f_equal. rewrite !map_map. apply map_ext_in.
  intros q Hq%list_elem_of_In. apply Hfactor. right. exact Hq.
Qed.

Lemma level_ge_1 t : 1 ≤ level t.
Proof. destruct t as [| | | | |[]|]; cbn; lia. Qed.

Lemma literal_tree_ok l :
  is_upper l.1 = true →
  printable (literal_tree l) = true ∧ well_formed (literal_tree l) = true
  ∧ level (literal_tree l) = 5.
Proof. destruct l as [c []]; cbn; auto. Qed.

Lemma or_chain_ok ls :
  ∀ acc,
    Forall (fun l : literal => is_upper l.1 = true) ls →
    printable acc = true → well_formed acc = true →
    printable (fold_left (fun acc l' => TBin BOr acc (literal_tree l')) ls acc) = true
    ∧ well_formed (fold_left (fun acc l' => TBin BOr acc (literal_tree l')) ls acc)
      = true.
Proof.
  induction ls as [|l ls IH]; intros acc Hup Hp Hwf; [auto|].
  apply Forall_cons in Hup as [Hl Hup].
  destruct (literal_tree_ok l Hl) as (Hpl & Hwl & Hll).
  cbn [fold_left]. apply IH; [exact Hup| |].
  - cbn [printable]. rewrite Hp, Hpl. reflexivity.
  - cbn [well_formed op_level]. rewrite Hwf, Hwl, Hll. cbn [andb].
    apply andb_true_iff. split; [|reflexivity].
    apply Nat.leb_le, level_ge_1.
Qed.

Lemma sum_tree_ok lits :
  Forall (fun l : literal => is_upper l.1 = true) lits →
  printable (sum_tree lits) = true ∧ well_formed (sum_tree lits) = true
  ∧ level (sum_tree lits) = 5.
Proof.
  destruct lits as [|l ls]; [auto|]. intros [Hl Hup]%Forall_cons.
  destruct (literal_tree_ok l Hl) as (Hpl & Hwl & _).
  destruct (or_chain_ok ls _ Hup Hpl Hwl) as [Hp Hwf].
  cbn [sum_tree printable well_formed level]. auto.
Qed.

Lemma juxt_chain_ok fs :
  ∀ acc,
    Forall (Forall (fun l : literal => is_upper l.1 = true)) fs →
    printable acc = true → well_formed acc = true → 3 ≤ level acc →
    printable (fold_left (fun acc f' => TJuxt acc (sum_tree f')) fs acc) = true
    ∧ well_formed (fold_left (fun acc f' => TJuxt acc (sum_tree f')) fs acc) = true.
Proof.
  induction fs as [|f fs IH]; intros acc Hup Hp Hwf Hlev; [auto|].
  apply Forall_cons in Hup as [Hf Hup].
  destruct (sum_tree_ok f Hf) as (Hpf & Hwff & Hlf).
  cbn [fold_left]. apply IH; [exact Hup| | |cbn; lia].
  - cbn [printable]. rewrite Hp, Hpf. reflexivity.
  - cbn [well_formed]. rewrite Hwf, Hwff, Hlf. cbn [andb].
    apply andb_true_iff. split; [|reflexivity]. apply Nat.leb_le, Hlev.
Qed.

Lemma product_tree_ok factors :
  Forall (Forall (fun l : literal => is_upper l.1 = true)) factors →
  printable (product_tree factors) = true
  ∧ well_formed (product_tree factors) = true.
Proof.
  destruct factors as [|f fs]; [auto|]. intros [Hf Hup]%Forall_cons.
  destruct (sum_tree_ok f Hf) as (Hpf & Hwff & Hlf).
  apply juxt_chain_ok; [exact Hup|exact Hpf|exact Hwff|lia].
Qed.

(** *** The value of a product of sums *)

Section eval_product_of_sums.
Variable env : gmap string Z.

Lemma value_of_literal_tree l :
  bound env l → value_of env (literal_tree l) = Ok (lit_value env l).
Proof.
  destruct l as [c b]. unfold bound, literal_tree, lit_value. cbn [fst snd].
  intros [x Hx]. destruct (has_property_own env _ x Hx) as [Hhas Hval].
  destruct b; cbn [value_of]; rewrite Hhas, Hval, Hx; reflexivity.
Qed.

Lemma value_of_or_chain ls :
  ∀ acc x,
    Forall (bound env) ls → value_of env acc = Ok x →
    value_of env (fold_left (fun acc l' => TBin BOr acc (literal_tree l')) ls acc)
    = Ok (x || existsb (lit_value env) ls).
Proof.
  induction ls as [|l ls IH]; intros acc x Hb Hacc; cbn [fold_left existsb].
  - rewrite orb_false_r. exact Hacc.
  - apply Forall_cons in Hb as [Hl Hb].
    rewrite (IH _ (x || lit_value env l)); [rewrite orb_assoc; reflexivity|exact Hb|].
    cbn [value_of]. rewrite Hacc, value_of_literal_tree by exact Hl. reflexivity.
Qed.

Lemma value_of_sum_tree lits :
  Forall (bound env) lits →
  value_of env (sum_tree lits)
  = Ok (match lits with [] => true | _ => existsb (lit_value env) lits end).
Proof.
  destruct lits as [|l ls]; [reflexivity|]. intros [Hl Hb]%Forall_cons.
  cbn [sum_tree value_of existsb].
  apply value_of_or_chain; [exact Hb|apply value_of_literal_tree, Hl].
Qed.

Lemma value_of_juxt_chain (g : list literal → bool) fs :
  ∀ acc x,
    Forall (fun f => value_of env (sum_tree f) = Ok (g f)) fs →
    value_of env acc = Ok x →
    value_of env (fold_left (fun acc f' => TJuxt acc (sum_tree f')) fs acc)
    = Ok (x && forallb g fs).
Proof.
  induction fs as [|f fs IH]; intros acc x Hb Hacc; cbn [fold_left forallb].
  - rewrite andb_true_r. exact Hacc.
  - apply Forall_cons in Hb as [Hf Hb].
    rewrite (IH _ (x && g f)); [rewrite andb_assoc; reflexivity|exact Hb|].
    cbn [value_of]. rewrite Hacc, Hf. reflexivity.
Qed.

Lemma value_of_product_tree (g : list literal → bool) factors :
  Forall (fun f => value_of env (sum_tree f) = Ok (g f)) factors →
  value_of env (product_tree factors) = Ok (forallb g factors).
Proof.
  destruct factors as [|f fs]; [reflexivity|]. intros [Hf Hb]%Forall_cons.
  cbn [product_tree forallb]. apply value_of_juxt_chain; assumption.
Qed.

End eval_product_of_sums.

Lemma pos_mask_value env mask :
  ∀ letters,
    is_pattern mask = true → String.length mask = length letters →
    existsb (lit_value env) (pos_mask_literals mask letters)
    = negb (forallb (lit_value env) (mask_literals mask letters)).
Proof.
  induction mask as [|c mask IH]; intros [|l letters] Hpat Hlen;
    try reflexivity; try discriminate.
  cbn [pos_mask_literals mask_literals].
  unfold is_pattern in Hpat. cbn [string_forall] in Hpat.
  apply andb_true_iff in Hpat as [Hc Hpat].
  injection Hlen as Hlen.
  destruct (Ascii.eqb c "-") eqn:Ed; [apply IH; assumption|].
  cbn [existsb forallb]. rewrite IH by assumption.
  rewrite negb_andb. f_equal.
  unfold lit_value. cbn [fst snd].
  unfold pattern_char in Hc. rewrite Ed, orb_false_r in Hc.
  destruct (env !! char_string l) as [x|]; [destruct (truthy x)|];
    apply orb_true_iff in Hc as [->%Ascii.eqb_eq| ->%Ascii.eqb_eq]; reflexivity.
Qed.

Lemma pos_mask_literals_nil mask :
  ∀ letters,
    String.length mask = length letters →
    (countDashes mask =? String.length mask)
    = match pos_mask_literals mask letters with [] => true | _ => false end.
Proof.
  induction mask as [|c mask IH]; intros [|l letters] Hlen;
    try reflexivity; try discriminate.
  injection Hlen as Hlen. cbn [countDashes String.length pos_mask_literals].
  destruct (Ascii.eqb c "-").
  - rewrite <- (IH letters Hlen). reflexivity.
  - apply Nat.eqb_neq. pose proof (countDashes_le mask). lia.
Qed.

(** The POS text of a list of masks, read back and evaluated. *)
Lemma pos_text_evaluates letters impls :
  Forall (fun c => is_upper c = true) letters →
  NoDup letters → length letters ≤ 30 →
  Forall (fun p => is_pattern p = true ∧ String.length p = length letters) impls →
  ∃ toks rpn,
    tokenize (implicantsToPOS impls (map char_string letters)) = Ok toks
    ∧ toRPN toks = Ok rpn
    ∧ ∀ m, m < 2 ^ length letters →
        evalRPN rpn (make_env (map char_string letters) (Z.of_nat m))
        = Ok (bit_of (forallb
                        (fun p => pos_factor p
                                    (bits_string (N.of_nat m) (length letters)))
                        impls)).
Proof.
  intros Hupper Hnd Hlen Himpls.
  set (factors := map (fun p => pos_mask_literals p letters) impls).
  assert (Hletters : Forall (Forall (fun l : literal => is_upper l.1 = true)) factors).
  { apply Forall_forall. intros t (mask & -> & _)%elem_of_map.
    apply Forall_forall. intros l Hl%pos_mask_literals_letters.
    rewrite Forall_forall in Hupper. apply Hupper, Hl. }
  destruct (product_tree_ok factors Hletters) as [Hp Hwf].
  exists (tokens_of (product_tree factors)), (postfix_of (product_tree factors)).
  split; [|split].
  - pose proof (tokenize_text_of _ Hp) as H. unfold tokenize in *.
    unfold factors in H. rewrite <- strip_implicantsToPOS in H.
    + rewrite strip_whitespace_idemp in H. exact H.
    + exact Hupper.
    + eapply Forall_impl; [exact Himpls|]. intros p [_ H']. exact H'.
  - apply toRPN_tokens_of, Hwf.
  - intros m Hm. rewrite evalRPN_postfix_of.
    set (env := make_env (map char_string letters) (Z.of_nat m)).
    set (x := bits_string (N.of_nat m) (length letters)).
    rewrite (value_of_product_tree env
               (fun f => match f with [] => true | _ => existsb (lit_value env) f end)).
    + cbn [rbind]. f_equal. f_equal. unfold factors.
      clear Hletters Hp Hwf factors.
      induction Himpls as [|mask impls [Hpat Hwidth] Himpls IH]; [reflexivity|].
      cbn [map forallb]. rewrite IH. f_equal.
      unfold pos_factor. rewrite (pos_mask_literals_nil mask letters Hwidth).
      pose proof (pos_mask_value env mask letters Hpat Hwidth) as Hval.
      destruct (pos_mask_literals mask letters) as [|l ls]; [reflexivity|].
      rewrite Hval. cbn [orb]. f_equal.
      apply mask_value; [exact Hpat|exact Hwidth|]. intros pos l' Hl'.
      unfold env.
      destruct (make_env_bound letters m l' Hnd Hlen Hm) as (pos' & Hpos' & ->).
      { eapply list_elem_of_lookup_2, Hl'. }
      assert (pos' = pos) as ->; [|reflexivity].
      eapply NoDup_lookup; eassumption.
    + apply Forall_forall. intros f (mask & -> & _)%elem_of_map.
      apply value_of_sum_tree.
      apply Forall_forall. intros l Hl%pos_mask_literals_letters. unfold bound.
      destruct (make_env_bound letters m l.1 Hnd Hlen Hm) as (pos & _ & Hb);
        [exact Hl|]. unfold env. rewrite Hb. eauto.
Qed.

(** ** The cells of the K-map *)


(** X10: for 1 to 4 variables the grid has
    2^n cells; the cell in row [r] and column [c] holds the number spelled by
    the row label followed by the column label; and the numbers of the cells
    are a permutation of 0 .. 2^n - 1, so that every minterm has exactly one
    cell.  For any other number of variables there is no layout. *)
Theorem kmap_cells_hold_each_minterm_once n :
  match kmapLayoutForVars n with
  | None => n = 0 ∨ 4 < n
  | Some L =>
      1 ≤ n ≤ 4
      ∧ length (rowVars L) + length (colVars L) = n
      ∧ length (rows L) = 2 ^ length (rowVars L)
      ∧ length (cols L) = 2 ^ length (colVars L)
      ∧ (∀ r c, r < length (rows L) → c < length (cols L) →
           index L r c = labelled L r c)
      ∧ grid_numbers L ≡ₚ map (fun m => Some (Z.of_nat m)) (seq 0 (2 ^ n))
  end.
Proof.
  destruct n as [|[|[|[|[|n]]]]]; cbn [kmapLayoutForVars];
    [left; reflexivity| | | | |right; lia].
  all: split; [lia|]; split; [reflexivity|]; split; [reflexivity|];
       split; [reflexivity|]; split.
  all: try (intros r c Hr Hc; cbn in Hr, Hc;
            repeat (destruct r as [|r]; [|try lia]);
            repeat (destruct c as [|c]; [|try lia]); reflexivity).
  all: apply NoDup_Permutation; [decide_by_compute|decide_by_compute|].
  all: intros x; split; revert x; apply Forall_forall; decide_by_compute.
Qed.

(** ** Minimization with don't-care terms, read back *)

Lemma covers_all_dashes p x :
  countDashes p = String.length p → covers p x = true.
Proof.
  revert x. induction p as [|c p IH]; intros x; [reflexivity|].
  cbn [countDashes String.length covers]. destruct (uncons x) as [y x'].
  destruct (Ascii.eqb c "-").
  - intros [= H]. apply IH, H.
  - intros H. pose proof (countDashes_le p). lia.
Qed.

Lemma existsb_covers_toBin W m (impls : list string) :
  0 < W → m < 2 ^ W →
  existsb (fun p => covers p (toBin m W)) impls
  = existsb (fun p => covers p (bits_string (N.of_nat m) W)) impls.
Proof. intros HW Hm. rewrite toBin_bits by assumption. reflexivity. Qed.

(** The text that [qmSimplify] returns, read back: it scans and parses, and
    its value on a row is that of the implicants, as a sum of products or as
    a product of sums. *)
Lemma qmSimplify_text_values letters minterms dontcares md :
  let vars := map char_string letters in
  let n := length letters in
  Forall (fun c => is_upper c = true) letters → NoDup letters →
  0 < n ≤ 30 → Forall (fun m => m < 2 ^ n) (minterms ++ dontcares) →
  minterms ++ dontcares ≠ [] →
  ∃ out toks rpn,
    qmSimplify minterms dontcares vars md = Some out
    ∧ tokenize (result out) = Ok toks ∧ toRPN toks = Ok rpn
    ∧ (∀ m, m ∈ minterms →
         existsb (fun p => covers p (toBin m n)) (implicants out) = true)
    ∧ (∀ m, m < 2 ^ n →
         existsb (fun p => covers p (toBin m n)) (implicants out) = true →
         m ∈ minterms ++ dontcares)
    ∧ ∀ m, m < 2 ^ n →
        evalRPN rpn (make_env vars (Z.of_nat m))
        = Ok (bit_of
                match md with
                | SOP => existsb (fun p => covers p (toBin m n)) (implicants out)
                | POS => forallb (fun p => pos_factor p (toBin m n)) (implicants out)
                end).
Proof.
  intros vars n Hup Hnd [Hn0 Hn] Hterms Hne.
  assert (Hlen : length vars = n) by (unfold vars; apply length_map).
  destruct (qmSimplify_covers minterms dontcares vars md Hne)
    as (out & Hout & Hpat & Hcov & Hsound & Hres);
    [rewrite Hlen; exact Hn0|rewrite Hlen; exact Hterms|].
  rewrite Hlen in Hpat, Hcov, Hsound. exists out. rewrite Hres.
  destruct md.
  - destruct (sop_text_evaluates letters (implicants out) Hup Hnd Hn Hpat)
      as (toks & rpn & Htok & Hrpn & Heval).
    exists toks, rpn. repeat (split; [assumption|]).
    intros m Hm. rewrite toBin_bits by assumption. apply Heval, Hm.
  - destruct (pos_text_evaluates letters (implicants out) Hup Hnd Hn Hpat)
      as (toks & rpn & Htok & Hrpn & Heval).
    exists toks, rpn. repeat (split; [assumption|]).
    intros m Hm. rewrite toBin_bits by assumption. apply Heval, Hm.
Qed.

(** In SOP mode, for the ones of a function. *)
Lemma qmSimplify_sop_values letters minterms dontcares :
  let vars := map char_string letters in
  let n := length letters in
  Forall (fun c => is_upper c = true) letters → NoDup letters →
  0 < n ≤ 30 → Forall (fun m => m < 2 ^ n) (minterms ++ dontcares) →
  ∃ out toks rpn,
    qmSimplify minterms dontcares vars SOP = Some out
    ∧ tokenize (result out) = Ok toks ∧ toRPN toks = Ok rpn
    ∧ ∀ m, m < 2 ^ n →
        ∃ y, evalRPN rpn (make_env vars (Z.of_nat m)) = Ok y
             ∧ (m ∈ minterms → y = 1%Z)
             ∧ (m ∉ minterms ++ dontcares → y = 0%Z).
Proof.
  intros vars n Hup Hnd Hn Hterms.
  destruct (decide (minterms ++ dontcares = [])) as [Hnil|Hne].
  { exists (mkOutput [] "0"), [NUM 0], [NUM 0].
    unfold qmSimplify. rewrite Hnil. repeat split; try reflexivity.
    intros m Hm. exists 0%Z. repeat split; try reflexivity.
    apply app_eq_nil in Hnil as [-> _]. intros []%elem_of_nil. }
  destruct (qmSimplify_text_values letters minterms dontcares SOP Hup Hnd Hn
              Hterms Hne)
    as (out & toks & rpn & Hout & Htok & Hrpn & Hcov & Hsound & Heval).
  exists out, toks, rpn.
  split; [exact Hout|]. split; [exact Htok|]. split; [exact Hrpn|].
  intros m Hm. eexists. split; [apply Heval, Hm|]. split.
  - intros Hin. rewrite (Hcov m Hin). reflexivity.
  - intros Hnotin.
    destruct (existsb _ (implicants out)) eqn:E; [|reflexivity].
    destruct (Hnotin (Hsound m Hm E)).
Qed.

(** X11: the SOP text of a minimization with don't-care
    terms, read back: it scans and parses, and it evaluates to 1 on every
    minterm and to 0 on every row that is neither a minterm nor a don't-care
    term. *)
Theorem sop_with_dontcares letters minterms dontcares :
  let vars := map char_string letters in
  let n := length letters in
  Forall (fun c => is_upper c = true) letters → NoDup letters →
  0 < n ≤ 30 → Forall (fun m => m < 2 ^ n) (minterms ++ dontcares) →
  ∃ out toks rpn,
    qmSimplify minterms dontcares vars SOP = Some out
    ∧ tokenize (result out) = Ok toks ∧ toRPN toks = Ok rpn
    ∧ ∀ m, m < 2 ^ n →
        ∃ y, evalRPN rpn (make_env vars (Z.of_nat m)) = Ok y
             ∧ (m ∈ minterms → y = 1%Z)
             ∧ (m ∉ minterms ++ dontcares → y = 0%Z).
Proof.
  intros vars n Hup Hnd Hn Hterms.
  apply (qmSimplify_sop_values letters minterms dontcares); assumption.
Qed.

Lemma sop_with_dontcares_witness :
  ∃ out toks rpn,
    qmSimplify [1; 3] [2] (map char_string ["A"; "B"]%char) SOP = Some out
    ∧ tokenize (result out) = Ok toks ∧ toRPN toks = Ok rpn
    ∧ ∀ m, m < 2 ^ 2 →
        ∃ y, evalRPN rpn (make_env (map char_string ["A"; "B"]%char) (Z.of_nat m))
             = Ok y
             ∧ (m ∈ [1; 3] → y = 1%Z)
             ∧ (m ∉ [1; 3] ++ [2] → y = 0%Z).
Proof.
  apply (sop_with_dontcares ["A"; "B"]%char [1; 3] [2]).
  - decide_by_compute.
  - decide_by_compute.
  - cbn. lia.
  - decide_by_compute.
Defined.

Lemma pos_factors_without_dashes x (impls : list string) :
  Forall (fun p => countDashes p ≠ String.length p) impls →
  forallb (fun p => pos_factor p x) impls
  = negb (existsb (fun p => covers p x) impls).
Proof.
  induction 1 as [|p ps Hp _ IH]; [reflexivity|].
  cbn [forallb existsb]. rewrite IH, negb_orb. f_equal.
  unfold pos_factor. apply Nat.eqb_neq in Hp. rewrite Hp. reflexivity.
Qed.

(** The same in POS mode, for the zeros of a function that has a one. *)
Lemma qmSimplify_pos_values letters zeros dontcares one :
  let vars := map char_string letters in
  let n := length letters in
  Forall (fun c => is_upper c = true) letters → NoDup letters →
  0 < n ≤ 30 → Forall (fun m => m < 2 ^ n) (zeros ++ dontcares) →
  one < 2 ^ n → one ∉ zeros ++ dontcares →
  ∃ out toks rpn,
    qmSimplify zeros dontcares vars POS = Some out
    ∧ tokenize (result out) = Ok toks ∧ toRPN toks = Ok rpn
    ∧ ∀ m, m < 2 ^ n →
        ∃ y, evalRPN rpn (make_env vars (Z.of_nat m)) = Ok y
             ∧ (m ∈ zeros → y = 0%Z)
             ∧ (m ∉ zeros ++ dontcares → y = 1%Z).
Proof.
  intros vars n Hup Hnd Hn Hterms Hone Hnotin.
  destruct (decide (zeros ++ dontcares = [])) as [Hnil|Hne].
  { exists (mkOutput [] "1"), [NUM 1], [NUM 1].
    unfold qmSimplify. rewrite Hnil. repeat split; try reflexivity.
    intros m Hm. exists 1%Z. repeat split; try reflexivity.
    apply app_eq_nil in Hnil as [-> _]. intros []%elem_of_nil. }
  destruct (qmSimplify_text_values letters zeros dontcares POS Hup Hnd Hn
              Hterms Hne)
    as (out & toks & rpn & Hout & Htok & Hrpn & Hcov & Hsound & Heval).
  exists out, toks, rpn.
  split; [exact Hout|]. split; [exact Htok|]. split; [exact Hrpn|].
  intros m Hm. eexists. split; [apply Heval, Hm|].
  rewrite pos_factors_without_dashes.
  2:{ apply Forall_forall. intros p Hp Hd. apply Hnotin, (Hsound one Hone).
      apply existsb_exists. exists p. split; [apply list_elem_of_In, Hp|].
      apply covers_all_dashes, Hd. }
  split.
  - intros Hin. rewrite (Hcov m Hin). reflexivity.
  - intros Hout'.
    destruct (existsb _ (implicants out)) eqn:E; [|reflexivity].
    destruct (Hout' (Hsound m Hm E)).
Qed.

(** X12: the POS text of a minimization of the zeros of a
    function, with don't-care terms, read back: when some row is neither a
    zero nor a don't-care term, the text scans and parses, and it evaluates
    to 0 on every given zero and to 1 on every row that is neither a zero nor
    a don't-care term. *)
Theorem pos_with_dontcares letters zeros dontcares one :
  let vars := map char_string letters in
  let n := length letters in
  Forall (fun c => is_upper c = true) letters → NoDup letters →
  0 < n ≤ 30 → Forall (fun m => m < 2 ^ n) (zeros ++ dontcares) →
  one < 2 ^ n → one ∉ zeros ++ dontcares →
  ∃ out toks rpn,
    qmSimplify zeros dontcares vars POS = Some out
    ∧ tokenize (result out) = Ok toks ∧ toRPN toks = Ok rpn
    ∧ ∀ m, m < 2 ^ n →
        ∃ y, evalRPN rpn (make_env vars (Z.of_nat m)) = Ok y
             ∧ (m ∈ zeros → y = 0%Z)
             ∧ (m ∉ zeros ++ dontcares → y = 1%Z).
Proof.
  intros vars n Hup Hnd Hn Hterms Hone Hnotin.
  apply (qmSimplify_pos_values letters zeros dontcares one); assumption.
Qed.

Lemma pos_with_dontcares_witness :
  ∃ out toks rpn,
    qmSimplify [0; 3] [2] (map char_string ["A"; "B"]%char) POS = Some out
    ∧ tokenize (result out) = Ok toks ∧ toRPN toks = Ok rpn
    ∧ ∀ m, m < 2 ^ 2 →
        ∃ y, evalRPN rpn (make_env (map char_string ["A"; "B"]%char) (Z.of_nat m))
             = Ok y
             ∧ (m ∈ [0; 3] → y = 0%Z)
             ∧ (m ∉ [0; 3] ++ [2] → y = 1%Z).
Proof.
  apply (pos_with_dontcares ["A"; "B"]%char [0; 3] [2] 1).
  - decide_by_compute.
  - decide_by_compute.
  - cbn. lia.
  - decide_by_compute.
  - cbn. lia.
  - decide_by_compute.
Defined.

(** ** Quine-McCluskey: the prime implicants *)

(** *** One round without its state *)

Lemma pairs_of_mark_l c a g2 : pairs_of (mark_if c a) g2 = pairs_of a g2.
Proof.
  unfold pairs_of. apply flat_map_ext'. intros b.
  rewrite can_pair_mark_l. destruct c; reflexivity.
Qed.

Lemma map_ext_eq {A B} (f g : A → B) (l : list A) :
  (∀ x, f x = g x) → map f l = map g l.
Proof. intros H. apply map_ext_in. intros x _. apply H. Qed.

Lemma existsb_map {A B} (f : B → bool) (h : A → B) (l : list A) :
  existsb f (map h l) = existsb (fun x => f (h x)) l.
Proof. induction l as [|x l IH]; [reflexivity|]. cbn. rewrite IH. reflexivity. Qed.

Lemma flat_map_map {A B C} (f : B → list C) (h : A → B) (l : list A) :
  flat_map f (map h l) = flat_map (fun x => f (h x)) l.
Proof. induction l as [|x l IH]; [reflexivity|]. cbn. rewrite IH. reflexivity. Qed.

Lemma combine_adjacent_eq rest :
  ∀ k1 g1 prev ng any,
    combine_adjacent k1
      (map (fun a => mark_if (existsb (fun b => can_pair b a) prev) a) g1)
      rest ng any
    = (mark_round prev ((k1, g1) :: rest),
       push_all (pairs_round ((k1, g1) :: rest)) ng,
       any || any_round ((k1, g1) :: rest)).
Proof.
  induction rest as [|[k2 g2] rest IH]; intros k1 g1 prev ng any.
  - cbn [combine_adjacent mark_round pairs_round any_round next_group].
    f_equal; [f_equal|].
    + f_equal. f_equal. apply map_ext_eq. intros a. unfold marked.
      cbn [existsb]. rewrite orb_false_r. reflexivity.
    + replace (flat_map _ g1) with (@nil item); [reflexivity|].
      induction g1; [reflexivity|]. cbn. assumption.
    + replace (existsb _ g1) with false; [rewrite !orb_false_r; reflexivity|].
      induction g1; [reflexivity|]. cbn. assumption.
  - cbn [combine_adjacent]. rewrite combine_groups_eq.
    rewrite map_map.
    rewrite (map_ext_eq
               (fun b => mark_if (existsb (fun a => can_pair a b) (map _ g1)) b)
               (fun b => mark_if (existsb (fun a => can_pair a b) g1) b)).
    2:{ intros b. f_equal. rewrite existsb_map. apply existsb_ext.
        intros a. apply can_pair_mark_l. }
    rewrite IH.
    change (pairs_round ((k1, g1) :: (k2, g2) :: rest))
      with (flat_map (fun a => pairs_of a g2) g1 ++ pairs_round ((k2, g2) :: rest)).
    change (any_round ((k1, g1) :: (k2, g2) :: rest))
      with (existsb (fun a => existsb (can_pair a) g2) g1
            || any_round ((k2, g2) :: rest)).
    change (mark_round prev ((k1, g1) :: (k2, g2) :: rest))
      with ((k1, map (marked prev g2) g1) :: mark_round g1 ((k2, g2) :: rest)).
    rewrite push_all_app, flat_map_map, existsb_map, orb_assoc.
    f_equal; [f_equal|].
    + f_equal. f_equal. apply map_ext_eq. intros a. unfold marked.
      rewrite mark_if_mark_if. f_equal. f_equal.
      apply existsb_ext. intros b. apply can_pair_mark_l.
    + f_equal. f_equal. apply flat_map_ext'. intros a. apply pairs_of_mark_l.
    + f_equal. f_equal. apply existsb_ext. intros a. apply existsb_ext.
      intros b. apply can_pair_mark_l.
Qed.

Lemma combine_round_eq g :
  combine_round g = (mark_round [] g, push_all (pairs_round g) [], any_round g).
Proof.
  destruct g as [|[k1 g1] rest]; [reflexivity|].
  cbn [combine_round].
  assert (Hg : map (fun a => mark_if (existsb (fun b => can_pair b a) []) a) g1 = g1).
  { etrans; [|apply map_id]. apply map_ext_eq. intros a. reflexivity. }
  pose proof (combine_adjacent_eq rest k1 g1 [] [] false) as H.
  rewrite Hg in H. exact H.
Qed.

(** *** Patterns and their generalizations *)

Lemma generalizes_length q p :
  generalizes q p = true → String.length q = String.length p.
Proof.
  revert p. induction q as [|a q IH]; intros [|b p]; cbn; try discriminate;
    [reflexivity|].
  intros [_ H]%andb_true_iff. f_equal. apply IH, H.
Qed.

Lemma generalizes_covers q p x :
  generalizes q p = true → covers p x = true → covers q x = true.
Proof.
  revert p x. induction q as [|a q IH]; intros [|b p] x; cbn [generalizes covers];
    try discriminate; [reflexivity|].
  intros [Hab Hq]%andb_true_iff. destruct (uncons x) as [y x'].
  destruct (Ascii.eqb a "-") eqn:Ea.
  - destruct (Ascii.eqb b "-"); [apply IH, Hq|].
    destruct (same_char b y); [apply IH, Hq|discriminate].
  - cbn in Hab. apply Ascii.eqb_eq in Hab as <-. rewrite Ea.
    destruct (same_char a y); [apply IH, Hq|discriminate].
Qed.

Lemma generalizes_combine_l a b :
  String.length a = String.length b → generalizes (combine a b) a = true.
Proof.
  revert b. induction a as [|x a IH]; intros [|y b]; cbn [combine generalizes uncons];
    try discriminate; [reflexivity|].
  intros [= Hlen]. rewrite IH by exact Hlen.
  cbn [same_char]. destruct (Ascii.eqb x y) eqn:E.
  - rewrite Ascii.eqb_refl, orb_true_r. reflexivity.
  - reflexivity.
Qed.

Lemma generalizes_combine_r a b :
  String.length a = String.length b → generalizes (combine a b) b = true.
Proof.
  revert b. induction a as [|x a IH]; intros [|y b]; cbn [combine generalizes uncons];
    try discriminate; [reflexivity|].
  intros [= Hlen]. rewrite IH by exact Hlen.
  cbn [same_char]. destruct (Ascii.eqb x y) eqn:E.
  - rewrite E, orb_true_r. reflexivity.
  - reflexivity.
Qed.

Lemma sound_pattern_generalized W X q p :
  sound_pattern W X q → is_pattern p = true → generalizes q p = true →
  sound_pattern W X p.
Proof.
  intros (Hq & Hlen & Hsound) Hp Hgen. split; [exact Hp|]. split.
  - rewrite <- (generalizes_length _ _ Hgen). exact Hlen.
  - intros x Hx Hlx Hcov. apply Hsound; [exact Hx|exact Hlx|].
    eapply generalizes_covers; eassumption.
Qed.

Lemma canCombine_loop_same s : canCombine_loop s s 1 = true.
Proof.
  induction s as [|c s IH]; [reflexivity|].
  cbn [canCombine_loop uncons same_char]. rewrite Ascii.eqb_refl. exact IH.
Qed.

Lemma canCombine_cons_same c a b :
  canCombine (String c a) (String c b) = canCombine a b.
Proof.
  unfold canCombine. cbn [canCombine_loop uncons same_char].
  rewrite Ascii.eqb_refl. reflexivity.
Qed.

Lemma canCombine_cons_diff x y s :
  x ≠ y → canCombine (String x s) (String y s) = true.
Proof.
  intros Hxy%Ascii.eqb_neq. unfold canCombine.
  cbn [canCombine_loop uncons same_char]. rewrite Hxy. apply canCombine_loop_same.
Qed.

(** An implicant with a dash is the combination of two implicants with one
    dash less, the second with one more 1 than the first. *)
Lemma pattern_specialize p e :
  is_pattern p = true → countDashes p = S e →
  ∃ p0 p1,
    canCombine p0 p1 = true ∧ combine p0 p1 = p
    ∧ generalizes p p0 = true ∧ generalizes p p1 = true
    ∧ is_pattern p0 = true ∧ is_pattern p1 = true
    ∧ countDashes p0 = e ∧ countDashes p1 = e
    ∧ countOnes p1 = S (countOnes p0).
Proof.
  induction p as [|c p IH]; [discriminate|].
  unfold is_pattern. cbn [string_forall countDashes].
  intros [Hc Hp]%andb_true_iff.
  assert (Hrefl : generalizes p p = true).
  { clear. induction p as [|c p IH]; [reflexivity|]. cbn.
    rewrite Ascii.eqb_refl, orb_true_r. exact IH. }
  destruct (Ascii.eqb c "-") eqn:Ec.
  - apply Ascii.eqb_eq in Ec as ->. intros [= Hd].
    exists (String "0" p), (String "1" p).
    split; [apply canCombine_cons_diff; discriminate|].
    split; [cbn [combine uncons same_char]; rewrite combine_same; reflexivity|].
    cbn [generalizes]. rewrite Hrefl.
    unfold is_pattern. cbn [string_forall countDashes countOnes]. cbn.
    rewrite Hp. auto 10.
  - intros Hd. destruct (IH Hp Hd)
      as (p0 & p1 & Hcan & Hcomb & Hg0 & Hg1 & Hp0 & Hp1 & Hd0 & Hd1 & Hones).
    exists (String c p0), (String c p1).
    rewrite canCombine_cons_same. split; [exact Hcan|].
    cbn [combine uncons same_char generalizes countDashes countOnes].
    rewrite Ascii.eqb_refl, Hcomb, Hg0, Hg1, Ec, orb_true_r.
    unfold is_pattern in *. cbn [string_forall]. rewrite Hc, Hp0, Hp1, Hd0, Hd1.
    destruct (Ascii.eqb c "1"); auto 10.
Qed.

(** A pattern that another pattern properly generalizes has a neighbour that
    the other pattern generalizes too: the pattern with one character that is
    not a dash flipped. *)
Lemma generalized_neighbour q p :
  is_pattern q = true → is_pattern p = true →
  generalizes q p = true → q ≠ p →
  ∃ p',
    generalizes q p' = true ∧ is_pattern p' = true
    ∧ countDashes p' = countDashes p
    ∧ ((canCombine p p' = true ∧ countOnes p' = S (countOnes p))
       ∨ (canCombine p' p = true ∧ countOnes p = S (countOnes p'))).
Proof.
  revert p. induction q as [|a q IH]; intros [|b p]; cbn [generalizes];
    try discriminate; [intros _ _ _ []; reflexivity|].
  unfold is_pattern. cbn [string_forall].
  intros [Ha Hq]%andb_true_iff [Hb Hp]%andb_true_iff [Hab Hgen]%andb_true_iff Hne.
  destruct (Ascii.eqb a b) eqn:Eab.
  - apply Ascii.eqb_eq in Eab as ->.
    destruct (IH p Hq Hp Hgen) as (p' & Hg' & Hp' & Hd' & Hor);
      [intros ->; apply Hne; reflexivity|].
    exists (String b p'). cbn [generalizes string_forall countDashes countOnes].
    rewrite Ascii.eqb_refl, orb_true_r, Hg', Hb, Hd', !canCombine_cons_same.
    split; [reflexivity|]. split; [exact Hp'|]. split; [reflexivity|].
    destruct (Ascii.eqb b "1"); [|exact Hor].
    destruct Hor as [[? ->]|[? ->]]; auto.
  - rewrite orb_false_r in Hab. apply Ascii.eqb_eq in Hab as ->.
    unfold pattern_char in Hb.
    assert (Hb' : b = "0"%char ∨ b = "1"%char).
    { destruct (Ascii.eqb b "0") eqn:E0; [left; apply Ascii.eqb_eq, E0|].
      destruct (Ascii.eqb b "1") eqn:E1; [right; apply Ascii.eqb_eq, E1|].
      cbn in Hb. apply Ascii.eqb_eq in Hb as ->. discriminate. }
    destruct Hb' as [-> | ->].
    + exists (String "1" p). cbn [generalizes string_forall countDashes countOnes].
      cbn. fold (is_pattern p). rewrite Hgen.
      split; [reflexivity|]. split; [exact Hp|]. split; [reflexivity|].
      left. split; [apply canCombine_loop_same|reflexivity].
    + exists (String "0" p). cbn [generalizes string_forall countDashes countOnes].
      cbn. fold (is_pattern p). rewrite Hgen.
      split; [reflexivity|]. split; [exact Hp|]. split; [reflexivity|].
      right. split; [apply canCombine_loop_same|reflexivity].
Qed.

(** *** The groups *)

Lemma countOnes_remove_dashes s : countOnes (remove_dashes s) = countOnes s.
Proof.
  induction s as [|c s IH]; [reflexivity|]. cbn [remove_dashes countOnes].
  destruct (Ascii.eqb c "-") eqn:Ec.
  - apply Ascii.eqb_eq in Ec as ->. exact IH.
  - cbn [countOnes]. rewrite IH. reflexivity.
Qed.

Lemma push_group_keys k it g kg :
  kg ∈ push_group k it g → kg.1 = k ∨ ∃ kg', kg' ∈ g ∧ kg.1 = kg'.1.
Proof.
  induction g as [|[k' its] g IH]; cbn [push_group].
  - intros ->%list_elem_of_singleton. left. reflexivity.
  - destruct (k =? k') eqn:E1; [|destruct (k <? k') eqn:E2].
    + apply Nat.eqb_eq in E1 as ->.
      intros [->|H]%elem_of_cons; [left; reflexivity|].
      right. exists kg. split; [right; exact H|reflexivity].
    + intros [->|H]%elem_of_cons; [left; reflexivity|].
      right. exists kg. split; [exact H|reflexivity].
    + intros [->|H]%elem_of_cons.
      * right. exists (k', its). split; [left|reflexivity].
      * destruct (IH H) as [?|(kg' & Hkg' & ?)]; [left; assumption|].
        right. exists kg'. split; [right; exact Hkg'|assumption].
Qed.

Lemma ascending_push_group k it g :
  countOnes (bin it) = k → ascending g → ascending (push_group k it g).
Proof.
  intros Hk [Hs Hkeyed].
  induction g as [|[k' its] g IH]; cbn [push_group].
  - split; repeat constructor. exact Hk.
  - apply StronglySorted_inv in Hs as [Hs Hlt].
    apply Forall_cons in Hkeyed as [Hits Hkeyed].
    destruct (k =? k') eqn:E1; [|destruct (k <? k') eqn:E2].
    + apply Nat.eqb_eq in E1 as ->. split.
      * constructor; [exact Hs|exact Hlt].
      * constructor; [|exact Hkeyed]. cbn [fst snd] in *.
        apply Forall_app. split; [exact Hits|]. repeat constructor. exact Hk.
    + apply Nat.ltb_lt in E2. split.
      * constructor; [constructor; assumption|].
        constructor; [exact E2|].
        eapply Forall_impl; [exact Hlt|]. cbn. intros; lia.
      * constructor; [repeat constructor; exact Hk|].
        constructor; assumption.
    + apply Nat.eqb_neq in E1. apply Nat.ltb_ge in E2.
      destruct (IH Hs Hkeyed) as [Hs' Hkeyed']. split.
      * constructor; [exact Hs'|].
        apply Forall_forall. intros kg [Hkg|(kg' & Hkg' & Heq)]%push_group_keys.
        -- cbn. lia.
        -- rewrite Forall_forall in Hlt. rewrite Heq. apply Hlt, Hkg'.
      * constructor; assumption.
Qed.

Lemma ascending_push_all its :
  ∀ g, ascending g → ascending (push_all its g).
Proof.
  induction its as [|it its IH]; intros g Hg; [exact Hg|].
  cbn [push_all fold_left]. apply IH, ascending_push_group; [|exact Hg].
  symmetry. apply countOnes_remove_dashes.
Qed.

Lemma ascending_initial_groups bins : ascending (initial_groups bins).
Proof.
  unfold initial_groups.
  assert (H : ∀ g, ascending g →
    ascending (fold_left (fun g b => push_group (countOnes b) (mkItem b false [b]) g)
                 bins g)).
  { induction bins as [|b bins IH]; intros g Hg; [exact Hg|].
    cbn [fold_left]. apply IH, ascending_push_group; [reflexivity|exact Hg]. }
  apply H. split; constructor.
Qed.

Lemma ascending_dedup_groups g : ascending g → ascending (dedup_groups g).
Proof.
  intros [Hs Hkeyed]. unfold dedup_groups. split.
  - clear Hkeyed. induction Hs as [|kg g Hs IH Hlt]; [constructor|].
    cbn [map]. constructor; [exact IH|].
    apply Forall_forall. intros kg' (x & -> & Hx)%elem_of_map.
    rewrite Forall_forall in Hlt. apply (Hlt x Hx).
  - apply Forall_forall. intros kg' (x & -> & Hx)%elem_of_map.
    rewrite Forall_forall in Hkeyed. specialize (Hkeyed x Hx).
    cbn [fst snd]. apply Forall_forall. intros it Hit%(proj1 (dedup_loop_start _)).
    rewrite Forall_forall in Hkeyed. apply Hkeyed, Hit.
Qed.

Lemma ascending_tail kg G : ascending (kg :: G) → ascending G.
Proof.
  intros [Hs Hk]. apply StronglySorted_inv in Hs as [Hs _].
  apply Forall_cons in Hk as [_ Hk]. split; assumption.
Qed.

Lemma ascending_head k g G it :
  ascending ((k, g) :: G) → it ∈ g → countOnes (bin it) = k.
Proof.
  intros [_ Hk]. apply Forall_cons in Hk as [Hg _].
  rewrite Forall_forall in Hg. apply Hg.
Qed.

Lemma ascending_later k g G it :
  ascending ((k, g) :: G) → it ∈ all_items G → k < countOnes (bin it).
Proof.
  intros [Hs Hk]. apply StronglySorted_inv in Hs as [_ Hlt].
  apply Forall_cons in Hk as [_ Hk].
  unfold all_items. intros (kg & Hkg & Hit)%elem_of_flat_map.
  rewrite Forall_forall in Hlt, Hk. specialize (Hlt kg Hkg).
  specialize (Hk kg Hkg). rewrite Forall_forall in Hk.
  rewrite (Hk it Hit). exact Hlt.
Qed.

Lemma ascending_next k g G it :
  ascending ((k, g) :: G) → it ∈ all_items G → countOnes (bin it) = S k →
  it ∈ next_group G.
Proof.
  intros Hasc Hit Hones. destruct G as [|[k2 g2] G]; [apply elem_of_nil in Hit; destruct Hit|].
  cbn [next_group].
  change (all_items ((k2, g2) :: G)) with (g2 ++ all_items G) in Hit.
  apply elem_of_app in Hit as [Hit|Hit]; [exact Hit|].
  pose proof (ascending_tail _ _ Hasc) as Htail.
  pose proof (ascending_later _ _ _ _ Htail Hit) as H2.
  destruct Hasc as [Hs _]. apply StronglySorted_inv in Hs as [_ Hlt].
  apply Forall_cons in Hlt as [Hlt _]. cbn in Hlt. lia.
Qed.

(** Every pair of items that can be combined, one with one more 1 than the
    other, is a new item of the round. *)
Lemma pairs_round_complete G :
  ascending G →
  ∀ a b, a ∈ all_items G → b ∈ all_items G →
         countOnes (bin b) = S (countOnes (bin a)) → can_pair a b = true →
         combined_item a b ∈ pairs_round G.
Proof.
  induction G as [|[k g] G IH]; intros Hasc a b Ha Hb Hones Hpair;
    [apply elem_of_nil in Ha; destruct Ha|].
  change (all_items ((k, g) :: G)) with (g ++ all_items G) in Ha, Hb.
  cbn [pairs_round]. apply elem_of_app.
  apply elem_of_app in Ha as [Ha|Ha].
  - left. pose proof (ascending_head _ _ _ _ Hasc Ha) as Hka.
    apply elem_of_flat_map. exists a. split; [exact Ha|].
    apply elem_of_pairs_of. exists b. split; [|auto].
    apply elem_of_app in Hb as [Hb|Hb].
    + pose proof (ascending_head _ _ _ _ Hasc Hb). lia.
    + eapply ascending_next; [exact Hasc|exact Hb|lia].
  - right. pose proof (ascending_later _ _ _ _ Hasc Ha) as Hka.
    apply elem_of_app in Hb as [Hb|Hb].
    + pose proof (ascending_head _ _ _ _ Hasc Hb). lia.
    + apply IH; [eapply ascending_tail, Hasc|assumption..].
Qed.

Lemma elem_of_pairs_round G c :
  c ∈ pairs_round G →
  ∃ a b, a ∈ all_items G ∧ b ∈ all_items G ∧ can_pair a b = true
         ∧ c = combined_item a b.
Proof.
  induction G as [|[k g] G IH]; cbn [pairs_round]; [intros []%elem_of_nil|].
  change (all_items ((k, g) :: G)) with (g ++ all_items G).
  intros [(a & Ha & (b & Hb & Hab & ->)%elem_of_pairs_of)%elem_of_flat_map|Hc]%elem_of_app.
  - exists a, b. rewrite !elem_of_app. split; [auto|]. split; [|auto].
    right. destruct G as [|[k2 g2] G]; [apply elem_of_nil in Hb; destruct Hb|].
    cbn [next_group] in Hb.
    change (all_items ((k2, g2) :: G)) with (g2 ++ all_items G).
    apply elem_of_app. auto.
  - destruct (IH Hc) as (a & b & Ha & Hb & Hab & ->).
    exists a, b. rewrite !elem_of_app. auto.
Qed.

Lemma pairs_of_nil a g2 : existsb (can_pair a) g2 = false → pairs_of a g2 = [].
Proof.
  unfold pairs_of. induction g2 as [|b l IH]; [reflexivity|].
  cbn [existsb flat_map]. intros [Hb Hl]%orb_false_iff.
  rewrite Hb, (IH Hl). reflexivity.
Qed.

Lemma any_round_false G : any_round G = false → pairs_round G = [].
Proof.
  induction G as [|[k g] G IH]; [reflexivity|]. cbn [any_round pairs_round].
  intros [Hg HG]%orb_false_iff. rewrite (IH HG), app_nil_r.
  induction g as [|a g IHg]; [reflexivity|].
  cbn [existsb flat_map] in *. apply orb_false_iff in Hg as [Ha Hg].
  rewrite (IHg Hg), app_nil_r. apply pairs_of_nil, Ha.
Qed.

(** The items after the marking pass: each is an item of the groups, marked
    by the group before it and the group after it, which hold every item
    with one 1 less and every item with one 1 more. *)
Lemma mark_round_items G :
  ∀ prev,
    ascending G →
    (∀ b kg, b ∈ prev → kg ∈ G → countOnes (bin b) < kg.1) →
    ∀ it, it ∈ all_items (mark_round prev G) →
      ∃ a P N,
        a ∈ all_items G ∧ it = marked P N a
        ∧ (∀ b, b ∈ P → b ∈ prev ∨ b ∈ all_items G)
        ∧ (∀ b, b ∈ N → b ∈ all_items G)
        ∧ (∀ b, b ∈ prev ∨ b ∈ all_items G →
               countOnes (bin a) = S (countOnes (bin b)) → b ∈ P)
        ∧ (∀ b, b ∈ prev ∨ b ∈ all_items G →
               countOnes (bin b) = S (countOnes (bin a)) → b ∈ N).
Proof.
  induction G as [|[k g] G IH]; intros prev Hasc Hprev it.
  { cbn. intros []%elem_of_nil. }
  cbn [mark_round].
  change (all_items ((k, map (marked prev (next_group G)) g) :: mark_round g G))
    with (map (marked prev (next_group G)) g ++ all_items (mark_round g G)).
  change (all_items ((k, g) :: G)) with (g ++ all_items G).
  assert (Hprevk : ∀ b, b ∈ prev → countOnes (bin b) < k).
  { intros b Hb. apply (Hprev b (k, g) Hb). left. }
  assert (Hnext : ∀ b, b ∈ next_group G → b ∈ all_items G).
  { intros b Hb. destruct G as [|[k2 g2] G]; [exact Hb|].
    change (all_items ((k2, g2) :: G)) with (g2 ++ all_items G).
    apply elem_of_app. left. exact Hb. }
  assert (Hfirst : ∀ a, a ∈ g →
    (∀ b, b ∈ prev → b ∈ prev ∨ b ∈ g ++ all_items G)
    ∧ (∀ b, b ∈ next_group G → b ∈ g ++ all_items G)
    ∧ (∀ b, b ∈ prev ∨ b ∈ g ++ all_items G →
           countOnes (bin a) = S (countOnes (bin b)) → b ∈ prev)
    ∧ (∀ b, b ∈ prev ∨ b ∈ g ++ all_items G →
           countOnes (bin b) = S (countOnes (bin a)) → b ∈ next_group G)).
  { intros a Ha. pose proof (ascending_head _ _ _ _ Hasc Ha) as Hka.
    split; [auto|]. split; [intros b Hb; apply elem_of_app; auto|]. split.
    - intros b [Hb|[Hb|Hb]%elem_of_app] Hones; [exact Hb| |].
      + pose proof (ascending_head _ _ _ _ Hasc Hb). lia.
      + pose proof (ascending_later _ _ _ _ Hasc Hb). lia.
    - intros b [Hb|[Hb|Hb]%elem_of_app] Hones.
      + pose proof (Hprevk b Hb). lia.
      + pose proof (ascending_head _ _ _ _ Hasc Hb). lia.
      + eapply ascending_next; [exact Hasc|exact Hb|lia]. }
  assert (Hrest : ∀ b kg, b ∈ g → kg ∈ G → countOnes (bin b) < kg.1).
  { intros b kg Hb Hkg. rewrite (ascending_head _ _ _ _ Hasc Hb).
    destruct Hasc as [Hs _]. apply StronglySorted_inv in Hs as [_ Hlt].
    rewrite Forall_forall in Hlt. apply (Hlt kg Hkg). }
  intros [(a & -> & Ha)%elem_of_map|Hit]%elem_of_app.
  - exists a, prev, (next_group G). rewrite elem_of_app.
    split; [auto|]. split; [reflexivity|]. apply Hfirst, Ha.
  - destruct (IH g (ascending_tail _ _ Hasc) Hrest it Hit)
      as (a & P & N & Ha & -> & HP & HN & HP' & HN').
    pose proof (ascending_later _ _ _ _ Hasc Ha) as Hka.
    exists a, P, N. rewrite elem_of_app.
    split; [auto|]. split; [reflexivity|]. split; [|split; [|split]].
    + intros b Hb. right. apply elem_of_app. destruct (HP b Hb); auto.
    + intros b Hb. apply elem_of_app. auto.
    + intros b [Hb|[Hb|Hb]%elem_of_app] Hones; [|apply HP'; auto..].
      pose proof (Hprevk b Hb). lia.
    + intros b [Hb|[Hb|Hb]%elem_of_app] Hones; [|apply HN'; auto..].
      pose proof (Hprevk b Hb). lia.
Qed.

Lemma mark_round_keeps G :
  ∀ prev a,
    a ∈ all_items G →
    ∃ P N,
      marked P N a ∈ all_items (mark_round prev G)
      ∧ (∀ b, b ∈ P → b ∈ prev ∨ b ∈ all_items G)
      ∧ (∀ b, b ∈ N → b ∈ all_items G).
Proof.
  induction G as [|[k g] G IH]; intros prev a; [intros []%elem_of_nil|].
  cbn [mark_round].
  change (all_items ((k, map (marked prev (next_group G)) g) :: mark_round g G))
    with (map (marked prev (next_group G)) g ++ all_items (mark_round g G)).
  change (all_items ((k, g) :: G)) with (g ++ all_items G).
  intros [Ha|Ha]%elem_of_app.
  - exists prev, (next_group G). split; [|split].
    + apply elem_of_app. left. apply elem_of_map. eauto.
    + auto.
    + intros b Hb. apply elem_of_app. right.
      destruct G as [|[k2 g2] G]; [exact Hb|].
      change (all_items ((k2, g2) :: G)) with (g2 ++ all_items G).
      apply elem_of_app. left. exact Hb.
  - destruct (IH g a Ha) as (P & N & Hin & HP & HN).
    exists P, N. split; [|split].
    + apply elem_of_app. right. exact Hin.
    + intros b Hb. right. apply elem_of_app. destruct (HP b Hb); auto.
    + intros b Hb. apply elem_of_app. auto.
Qed.

(** *** One round finds the prime implicants of its level *)

Section prime_rounds.
Variables (W : nat) (X : list string).

Lemma round_item_facts d it :
  round_item W d X it →
  used it = false ∧ countDashes (bin it) = d ∧ is_pattern (bin it) = true
  ∧ String.length (bin it) = W ∧ sound_pattern W X (bin it).
Proof. intros (Hu & Hd & Hs). destruct Hs as (Hp & Hl & Hc) eqn:E. auto 10. Qed.

Lemma used_marked P N a :
  used (marked P N a)
  = existsb (fun b => can_pair b a) P || existsb (can_pair a) N || used a.
Proof. unfold marked. apply used_mark_if. Qed.

Lemma bin_marked P N a : bin (marked P N a) = bin a.
Proof. unfold marked. apply bin_mark_if. Qed.

(** A pair of implicants of one level that can be combined shows that
    neither is prime. *)
Lemma paired_not_prime d a b :
  round_item W d X a → round_item W d X b → can_pair a b = true →
  ¬ prime_implicant W X (bin a) ∧ ¬ prime_implicant W X (bin b).
Proof.
  intros (_ & Hda & Hpa & Hla & Hsa)%round_item_facts
         (_ & Hdb & Hpb & Hlb & Hsb)%round_item_facts Hpair.
  unfold can_pair in Hpair.
  assert (Hlen : String.length (bin a) = String.length (bin b)) by congruence.
  pose proof (sound_pattern_combine W X _ _ Hsa Hsb Hpair) as Hsound.
  pose proof (countDashes_combine _ _ Hlen ltac:(congruence) Hpair) as Hdash.
  split; intros [_ Hprime].
  - pose proof (Hprime _ Hsound (generalizes_combine_l _ _ Hlen)) as Heq.
    rewrite Heq in Hdash. lia.
  - pose proof (Hprime _ Hsound (generalizes_combine_r _ _ Hlen)) as Heq.
    rewrite Heq in Hdash. lia.
Qed.

Lemma unused_are_prime d g :
  Forall (round_item W d X) (all_items g) → level_complete W d X g →
  ascending g →
  ∀ p, p ∈ unused_bins (mark_round [] g)
       ↔ prime_implicant W X p ∧ countDashes p = d.
Proof.
  intros Hitems Hcomplete Hasc p. rewrite Forall_forall in Hitems.
  rewrite elem_of_unused_bins. split.
  - intros (it & Hit & Hunused & <-).
    destruct (mark_round_items g [] Hasc ltac:(intros ? ? []%elem_of_nil) it Hit)
      as (a & P & N & Ha & -> & HP & HN & HP' & HN').
    rewrite used_marked in Hunused.
    apply orb_false_iff in Hunused as [[HnoP HnoN]%orb_false_iff _].
    rewrite bin_marked.
    destruct (round_item_facts _ _ (Hitems a Ha)) as (_ & Hd & Hpat & Hlen & Hsound).
    split; [|exact Hd]. split; [exact Hsound|].
    intros q Hq Hgen. destruct (decide (q = bin a)) as [Heq|Hne]; [exact Heq|].
    exfalso.
    destruct (generalized_neighbour q (bin a) (proj1 Hq) Hpat Hgen Hne)
      as (p' & Hg' & Hp' & Hd' & Hor).
    pose proof (sound_pattern_generalized W X q p' Hq Hp' Hg') as Hs'.
    assert (Hin : p' ∈ all_bins g) by (apply Hcomplete; [exact Hs'|congruence]).
    rewrite all_bins_eq in Hin. apply elem_of_map in Hin as (b & -> & Hb).
    destruct Hor as [[Hcan Hones]|[Hcan Hones]].
    + assert (Hex : existsb (can_pair a) N = true).
      { apply existsb_true. exists b. split; [|exact Hcan].
        apply HN'; [right; exact Hb|exact Hones]. }
      congruence.
    + assert (Hex : existsb (fun b => can_pair b a) P = true).
      { apply existsb_true. exists b. split; [|exact Hcan].
        apply HP'; [right; exact Hb|exact Hones]. }
      congruence.
  - intros [Hprime Hd].
    assert (Hin : p ∈ all_bins g) by (apply Hcomplete; [apply Hprime|exact Hd]).
    rewrite all_bins_eq in Hin. apply elem_of_map in Hin as (a & -> & Ha).
    destruct (mark_round_keeps g [] a Ha) as (P & N & Hin & HP & HN).
    exists (marked P N a). split; [exact Hin|]. split; [|apply bin_marked].
    rewrite used_marked.
    destruct (round_item_facts _ _ (Hitems a Ha)) as (-> & _).
    rewrite orb_false_r. apply orb_false_iff. split.
    + apply not_true_iff_false. intros (b & Hb & Hpair)%existsb_true.
      destruct (HP b Hb) as [[]%elem_of_nil|Hb'].
      destruct (paired_not_prime d b a (Hitems b Hb') (Hitems a Ha) Hpair)
        as [_ Hnot]. apply Hnot, Hprime.
    + apply not_true_iff_false. intros (b & Hb & Hpair)%existsb_true.
      destruct (paired_not_prime d a b (Hitems a Ha) (Hitems b (HN b Hb)) Hpair)
        as [Hnot _]. apply Hnot, Hprime.
Qed.

Lemma next_level_complete d g :
  Forall (round_item W d X) (all_items g) → level_complete W d X g →
  ascending g →
  level_complete W (S d) X (dedup_groups (push_all (pairs_round g) [])).
Proof.
  intros Hitems Hcomplete Hasc p Hp Hd.
  destruct (pattern_specialize p d (proj1 Hp) Hd)
    as (p0 & p1 & Hcan & Hcomb & Hg0 & Hg1 & Hp0 & Hp1 & Hd0 & Hd1 & Hones).
  pose proof (sound_pattern_generalized W X p p0 Hp Hp0 Hg0) as Hs0.
  pose proof (sound_pattern_generalized W X p p1 Hp Hp1 Hg1) as Hs1.
  pose proof (Hcomplete p0 Hs0 Hd0) as Hin0.
  pose proof (Hcomplete p1 Hs1 Hd1) as Hin1.
  rewrite all_bins_eq in Hin0, Hin1.
  apply elem_of_map in Hin0 as (a & -> & Ha).
  apply elem_of_map in Hin1 as (b & -> & Hb).
  pose proof (pairs_round_complete g Hasc a b Ha Hb Hones Hcan) as Hpair.
  assert (Hng : combined_item a b ∈ all_items (push_all (pairs_round g) [])).
  { apply elem_of_all_items_push_all. left. exact Hpair. }
  destruct (dedup_groups_keeps _ _ Hng) as (c' & Hc' & Hkey).
  rewrite all_bins_eq. apply elem_of_map. exists c'. split; [|exact Hc'].
  rewrite <- Hcomb. symmetry.
  change (combine (bin a) (bin b)) with (bin (combined_item a b)).
  apply item_key_bin; [| |exact Hkey].
  - pose proof (combine_round_wf W d X g _ _ _ (combine_round_eq g) Hitems)
      as (Hnew & _).
    rewrite Forall_forall in Hnew.
    apply (round_item_facts _ _ (Hnew c' Hc')).
  - cbn [combined_item bin]. rewrite Hcomb. apply Hp.
Qed.

Lemma no_implicant_above d :
  (∀ p, sound_pattern W X p → countDashes p ≠ S d) →
  ∀ p, sound_pattern W X p → countDashes p ≤ d.
Proof.
  intros Hnone.
  assert (H : ∀ n p, sound_pattern W X p → countDashes p ≠ S d + n).
  { induction n as [|n IH]; intros p Hp Hd.
    - apply (Hnone p Hp). lia.
    - replace (S d + S n) with (S (S d + n)) in Hd by lia.
      destruct (pattern_specialize p _ (proj1 Hp) Hd)
        as (p0 & _ & _ & _ & Hg0 & _ & Hp0 & _ & Hd0 & _).
      apply (IH p0); [|exact Hd0].
      eapply sound_pattern_generalized; eassumption. }
  intros p Hp. destruct (le_gt_dec (countDashes p) d) as [Hle|Hgt]; [exact Hle|].
  exfalso. apply (H (countDashes p - S d) p Hp). lia.
Qed.

Lemma combine_rounds_primes fuel :
  ∀ d g levels levels' g',
    combine_rounds fuel g levels = Some (levels', g') →
    Forall (round_item W d X) (all_items g) → level_complete W d X g →
    ascending g →
    (∀ p, p ∈ concat levels ↔ prime_implicant W X p ∧ countDashes p < d) →
    ∀ p, p ∈ concat levels' ++ all_bins g' ↔ prime_implicant W X p.
Proof.
  induction fuel as [|fuel IH]; intros d g levels levels' g'; [discriminate|].
  cbn [combine_rounds]. rewrite combine_round_eq.
  intros Hrun Hitems Hcomplete Hasc Hlevels.
  pose proof (combine_round_wf W d X g _ _ _ (combine_round_eq g) Hitems)
    as (Hnew & _ & _).
  pose proof (next_level_complete d g Hitems Hcomplete Hasc) as Hnext.
  assert (Hlevels1 : ∀ p,
    p ∈ concat (levels ++ [unused_bins (mark_round [] g)])
    ↔ prime_implicant W X p ∧ countDashes p < S d).
  { intros p. rewrite concat_app, elem_of_app, Hlevels. cbn [concat].
    rewrite app_nil_r, (unused_are_prime d g Hitems Hcomplete Hasc).
    split; [intros [[? ?]|[? ?]]; split; (assumption || lia)|].
    intros [Hp Hd]. destruct (decide (countDashes p = d)); [right|left];
      (split; [assumption|lia]). }
  destruct (any_round g) eqn:Hany.
  - apply (IH (S d) _ _ _ _ Hrun Hnew Hnext); [|exact Hlevels1].
    apply ascending_dedup_groups, ascending_push_all. split; constructor.
  - injection Hrun as <- <-. rewrite (any_round_false g Hany) in *.
    cbn in Hnext |- *. intros p. rewrite app_nil_r, Hlevels1.
    split; [tauto|]. intros Hp. split; [exact Hp|].
    assert (countDashes p ≤ d); [|lia].
    apply no_implicant_above; [|apply Hp].
    intros q Hq Hd. apply (Hnext q Hq) in Hd. destruct (elem_of_nil q).
    tauto.
Qed.

End prime_rounds.

Lemma is_binary_no_dashes p :
  is_pattern p = true → countDashes p = 0 → is_binary p = true.
Proof.
  induction p as [|c p IH]; [reflexivity|].
  unfold is_pattern, is_binary, pattern_char, binary_char in *.
  cbn [string_forall countDashes].
  intros [Hc Hp]%andb_true_iff. destruct (Ascii.eqb c "-"); [discriminate|].
  intros Hd. rewrite orb_false_r in Hc. rewrite Hc. apply IH; assumption.
Qed.

(** The list of prime implicants is the list of the prime implicants. *)
Lemma prime_list_primes W bins :
  Forall (fun b => is_binary b = true ∧ String.length b = W) bins →
  ∃ primeList,
    prime_list (S W) bins = Some primeList
    ∧ NoDup primeList
    ∧ ∀ p, p ∈ primeList ↔ prime_implicant W bins p.
Proof.
  intros Hbins.
  destruct (prime_list_sound W bins Hbins) as (primeList & Hlist & _).
  exists primeList. split; [exact Hlist|]. split.
  - eapply prime_list_complete; [|exact Hlist].
    eapply Forall_impl; [exact Hbins|]. intros b [Hb _].
    apply is_binary_pattern, Hb.
  - unfold prime_list in Hlist.
    destruct (combine_rounds (S W) (initial_groups bins) [])
      as [[levels g]|] eqn:Hrun; [|discriminate].
    injection Hlist as <-. intros p.
    rewrite (proj1 (ordered_set_spec _) p).
    apply (combine_rounds_primes W bins (S W) 0 _ _ _ _ Hrun).
    + apply Forall_forall. intros it (b & Hb & ->)%elem_of_initial_groups.
      rewrite Forall_forall in Hbins. destruct (Hbins b Hb) as [Hbin Hlen].
      split; [reflexivity|]. split; [apply countDashes_binary, Hbin|].
      split; [apply is_binary_pattern, Hbin|]. split; [exact Hlen|].
      intros x Hx Hlx Hcov. cbn in Hcov.
      rewrite (covers_binary b x); [exact Hb|exact Hbin|congruence|exact Hcov].
    + intros p' (Hpat & Hlen & Hsound) Hd.
      pose proof (is_binary_no_dashes p' Hpat Hd) as Hbin.
      rewrite all_bins_eq. apply elem_of_map.
      exists (mkItem p' false [p']). split; [reflexivity|].
      apply elem_of_initial_groups. exists p'. split; [|reflexivity].
      apply Hsound; [exact Hbin|exact Hlen|apply covers_refl].
    + apply ascending_initial_groups.
    + intros p'. cbn. split; [intros []%elem_of_nil|]. intros [_ ?]. lia.
Qed.

(** ** Quine-McCluskey: what the selection returns *)

Section selection_size.
Variables primeList minBin : list string.

Let cover := cover_chart primeList minBin.

Lemma NoDup_essentials rows :
  ∀ chosen, NoDup chosen → NoDup (essentials rows chosen).
Proof.
  induction rows as [|js rows IH]; intros chosen Hnd; [exact Hnd|].
  cbn [essentials]. destruct js as [|j [|? ?]]; try apply IH, Hnd.
  apply IH, NoDup_ordered_add, Hnd.
Qed.

Lemma uncovered_snoc chosen j :
  uncovered primeList minBin (chosen ++ [j])
  = filter (fun i => covers_row primeList minBin j i ≠ true)
      (uncovered primeList minBin chosen).
Proof.
  unfold uncovered. rewrite list_filter_filter. apply list_filter_iff.
  intros i. rewrite existsb_app. cbn [existsb]. rewrite orb_false_r.
  destruct (existsb _ chosen), (covers_row primeList minBin j i);
    cbn; intuition congruence.
Qed.

Lemma uncovered_gain chosen j :
  length (uncovered primeList minBin (chosen ++ [j]))
  + gain primeList minBin chosen j
  = length (uncovered primeList minBin chosen).
Proof.
  rewrite uncovered_snoc. unfold gain.
  pose proof (filter_app_complement
                (fun i => covers_row primeList minBin j i = true)
                (uncovered primeList minBin chosen)) as Hperm.
  apply Permutation_length in Hperm. rewrite length_app in Hperm. lia.
Qed.

Lemma gain_positive chosen j :
  0 < gain primeList minBin chosen j →
  ∃ i, covers_row primeList minBin j i = true.
Proof.
  unfold gain. intros Hpos.
  destruct (filter _ (uncovered primeList minBin chosen)) as [|i l] eqn:E;
    [cbn in Hpos; lia|].
  exists i. assert (Hi : i ∈ i :: l) by left. rewrite <- E in Hi.
  apply list_elem_of_filter in Hi. tauto.
Qed.

(** What the greedy loop adds: implicants that are new, each covering a
    minterm, and never more of them than minterms that were uncovered. *)
Lemma greedy_cover_adds chosen final :
  greedy_cover primeList minBin chosen final →
  NoDup chosen →
  NoDup final
  ∧ (∀ j, j ∈ final →
          j ∈ chosen ∨ ∃ i, covers_row primeList minBin j i = true)
  ∧ length final + length (uncovered primeList minBin final)
    ≤ length chosen + length (uncovered primeList minBin chosen).
Proof.
  induction 1 as [chosen _|chosen j final Hunc Hj Hnew Hgain Hbest Hfirst _ IH];
    intros Hnd.
  - split; [exact Hnd|]. split; [auto|lia].
  - destruct IH as (Hnd' & Hin & Hlen).
    { apply NoDup_app. split; [exact Hnd|]. split; [|apply NoDup_singleton].
      intros x Hx ->%list_elem_of_singleton. contradiction. }
    split; [exact Hnd'|]. split.
    + intros j' Hj'. destruct (Hin j' Hj') as [[?| ->%list_elem_of_singleton]%elem_of_app|?];
        [auto| |auto].
      right. eapply gain_positive, Hgain.
    + pose proof (uncovered_gain chosen j) as Hg.
      rewrite length_app in Hlen. cbn [length] in Hlen. lia.
Qed.

Lemma sole_coverers_rows (l : list nat) :
  NoDup l → (∀ j, j ∈ l → essential primeList minBin j) →
  ∃ rows,
    NoDup rows ∧ length rows = length l
    ∧ ∀ i, i ∈ rows →
           ∃ j, j ∈ l ∧ ∀ j', covers_row primeList minBin j' i = true ↔ j' = j.
Proof.
  induction l as [|j l IH]; intros Hnd Hess.
  - exists []. split; [constructor|]. split; [reflexivity|].
    intros i []%elem_of_nil.
  - apply NoDup_cons in Hnd as [Hj Hnd].
    destruct IH as (rows & Hrows & Hlen & Hsole);
      [exact Hnd|intros j' Hj'; apply Hess; right; exact Hj'|].
    destruct (Hess j) as [i Hi]; [left|].
    exists (i :: rows). split; [|split].
    + apply NoDup_cons. split; [|exact Hrows].
      intros Hin. destruct (Hsole i Hin) as (j2 & Hj2 & Hi2).
      assert (j = j2) as -> by (apply Hi2, Hi; reflexivity).
      contradiction.
    + cbn. rewrite Hlen. reflexivity.
    + intros i' [->|Hi']%elem_of_cons.
      * exists j. split; [left|exact Hi].
      * destruct (Hsole i' Hi') as (j2 & Hj2 & Hi2).
        exists j2. split; [right; exact Hj2|exact Hi2].
Qed.

Lemma essentials_count :
  length (essentials cover [])
  + length (uncovered primeList minBin (essentials cover []))
  ≤ length minBin.
Proof.
  set (ess := essentials cover []).
  set (C := markCovered cover 0 ess ∅).
  assert (HC : covered_rows_of primeList minBin ess C).
  { apply (markCovered_spec primeList minBin [] ess);
      [intros j []%elem_of_nil|apply covered_rows_of_empty]. }
  pose proof (covered_rows_size primeList minBin ess C HC) as Hsize.
  destruct (sole_coverers_rows ess) as (rows & Hrows & Hlen & Hsole).
  { apply NoDup_essentials. constructor. }
  { intros j Hj. apply essentials_spec, Hj. }
  assert (Hsub : size (list_to_set rows : gset nat) ≤ size C).
  { apply subseteq_size. intros i Hi%elem_of_list_to_set.
    destruct (Hsole i Hi) as (j & Hj & Hij). apply (HC i).
    assert (Hcov : covers_row primeList minBin j i = true) by (apply Hij; reflexivity).
    split; [apply (covers_row_lt primeList minBin j i), Hcov|].
    apply existsb_true. eauto. }
  rewrite size_list_to_set in Hsub by exact Hrows. lia.
Qed.

(** The selection as a whole. *)
Lemma select_implicants_size :
  (∀ i, i < length minBin → ∃ j, covers_row primeList minBin j i = true) →
  ∃ chosen,
    select_implicants primeList minBin = Some chosen
    ∧ NoDup chosen ∧ length chosen ≤ length minBin
    ∧ ∀ j, j ∈ chosen →
           j < length primeList
           ∧ ∃ i, covers_row primeList minBin j i = true.
Proof.
  intros Hcoverer. unfold select_implicants. fold cover.
  destruct (greedy_loop_spec primeList minBin (S (length primeList))
              (essentials cover [])
              (markCovered cover 0 (essentials cover []) ∅))
    as (final & Hfinal & Hgreedy).
  - exact Hcoverer.
  - apply (markCovered_spec primeList minBin []);
      [intros j []%elem_of_nil|apply covered_rows_of_empty].
  - unfold unchosen. etrans; [apply length_filter|]. rewrite length_seq. lia.
  - exists final. split; [exact Hfinal|].
    destruct (greedy_cover_adds _ _ Hgreedy) as (Hnd & Hin & Hlen).
    { apply NoDup_essentials. constructor. }
    pose proof essentials_count as Hcount. fold cover in Hlen.
    split; [exact Hnd|]. split; [lia|].
    intros j Hj.
    assert (Hex : ∃ i, covers_row primeList minBin j i = true).
    { destruct (Hin j Hj) as [Hess|Hex]; [|exact Hex].
      apply essentials_spec in Hess as [i Hi]. exists i. apply Hi. reflexivity. }
    split; [|exact Hex]. destruct Hex as [i Hi].
    apply (covers_row_lt primeList minBin j i), Hi.
Qed.

End selection_size.

(** ** Quine-McCluskey: the result *)

Lemma lookup_total_map_NoDup (l : list string) (js : list nat) :
  NoDup l → NoDup js → (∀ j, j ∈ js → j < length l) →
  NoDup (map (fun j => l !!! j) js).
Proof.
  intros Hl Hjs Hlt. induction Hjs as [|j js Hj Hjs IH]; [constructor|].
  cbn [map]. apply NoDup_cons. split.
  - intros (j' & Heq & Hj')%elem_of_map. apply Hj.
    destruct (lookup_lt_is_Some_2 l j) as [p Hp]; [apply Hlt; left|].
    destruct (lookup_lt_is_Some_2 l j') as [p' Hp']; [apply Hlt; right; exact Hj'|].
    rewrite (list_lookup_total_correct _ _ _ Hp),
            (list_lookup_total_correct _ _ _ Hp') in Heq. subst p'.
    rewrite (NoDup_lookup l j j' p Hl Hp Hp'). exact Hj'.
  - apply IH. intros j' Hj'. apply Hlt. right. exact Hj'.
Qed.

Lemma lookup_map_toBin (minterms : list nat) W i m :
  map (fun m => toBin m W) minterms !! i = Some m →
  ∃ m0, m0 ∈ minterms ∧ m = toBin m0 W.
Proof.
  intros H%list_elem_of_lookup_2. apply elem_of_map in H as (m0 & -> & H).
  eauto.
Qed.

(** X13: the implicants that [qmSimplify]
    returns are prime implicants of the minterms and don't-care terms taken
    together, no two of them are equal, each of them covers at least one
    minterm, and there are at most as many of them as minterms. *)
Theorem qmSimplify_returns_prime_implicants minterms dontcares varNames md :
  let W := length varNames in
  let bins := map (fun m => toBin m W) (minterms ++ dontcares) in
  0 < W → Forall (fun m => m < 2 ^ W) (minterms ++ dontcares) →
  ∃ out,
    qmSimplify minterms dontcares varNames md = Some out
    ∧ NoDup (implicants out)
    ∧ length (implicants out) ≤ length minterms
    ∧ Forall (fun p => prime_implicant W bins p
                       ∧ ∃ m, m ∈ minterms ∧ covers p (toBin m W) = true)
        (implicants out).
Proof.
  intros W bins HW Hbelow.
  destruct (decide (minterms ++ dontcares = [])) as [Hnil|Hne].
  { exists (mkOutput [] (match md with SOP => "0" | POS => "1" end)).
    unfold qmSimplify. rewrite Hnil. cbn [implicants length].
    split; [reflexivity|]. split; [constructor|]. split; [lia|constructor]. }
  set (minBin := map (fun m => toBin m W) minterms).
  destruct (prime_list_primes W bins) as (primeList & Hprimes & Hnd & Hprime).
  { apply toBin_wellformed; assumption. }
  destruct (select_implicants_size primeList minBin)
    as (chosen & Hchosen & Hndc & Hlen & Hin).
  { eapply minterms_have_coverers. exact Hprimes. }
  eexists. split; [|split; [|split]].
  - rewrite (qmSimplify_nonempty _ _ _ _ Hne). cbv zeta. fold W bins minBin.
    rewrite Hprimes, Hchosen. reflexivity.
  - cbn [implicants]. apply lookup_total_map_NoDup; [exact Hnd|exact Hndc|].
    intros j Hj. apply (Hin j Hj).
  - cbn [implicants]. rewrite length_map.
    unfold minBin in Hlen. rewrite length_map in Hlen. exact Hlen.
  - cbn [implicants]. apply Forall_forall. intros p (j & -> & Hj)%elem_of_map.
    destruct (Hin j Hj) as (Hlt & i & Hi).
    destruct (lookup_lt_is_Some_2 primeList j Hlt) as [p Hp].
    rewrite (list_lookup_total_correct _ _ _ Hp). split.
    + apply Hprime. eapply list_elem_of_lookup_2, Hp.
    + unfold covers_row in Hi. rewrite Hp in Hi.
      destruct (minBin !! i) as [m|] eqn:Hm; [|discriminate].
      apply lookup_map_toBin in Hm as (m0 & Hm0 & ->). eauto.
Qed.

Lemma qmSimplify_returns_prime_implicants_witness :
  ∃ out,
    qmSimplify [0; 1; 2; 5; 6; 7] [] ["A"; "B"; "C"] SOP = Some out
    ∧ NoDup (implicants out)
    ∧ length (implicants out) ≤ length [0; 1; 2; 5; 6; 7]
    ∧ Forall (fun p =>
                prime_implicant 3
                  (map (fun m => toBin m 3) ([0; 1; 2; 5; 6; 7] ++ [])) p
                ∧ ∃ m, m ∈ [0; 1; 2; 5; 6; 7] ∧ covers p (toBin m 3) = true)
        (implicants out).
Proof.
  apply (qmSimplify_returns_prime_implicants [0; 1; 2; 5; 6; 7] [] ["A"; "B"; "C"] SOP).
  - cbn. lia.
  - decide_by_compute.
Defined.

(** X14: phases 1 to 3 compute the prime
    implicants: for terms below 2^W the combination rounds end within W + 1
    rounds, and the list they leave holds every prime implicant of the terms
    once and nothing else. *)
Theorem prime_list_is_the_prime_implicants W (terms : list nat) :
  let bins := map (fun m => toBin m W) terms in
  0 < W → Forall (fun m => m < 2 ^ W) terms →
  ∃ primeList,
    prime_list (S W) bins = Some primeList
    ∧ NoDup primeList
    ∧ ∀ p, p ∈ primeList ↔ prime_implicant W bins p.
Proof.
  intros bins HW Hterms. apply prime_list_primes, toBin_wellformed; assumption.
Qed.

Lemma prime_list_is_the_prime_implicants_witness :
  ∃ primeList,
    prime_list 4 (map (fun m => toBin m 3) [0; 1; 2; 5; 6; 7]) = Some primeList
    ∧ NoDup primeList
    ∧ ∀ p, p ∈ primeList
           ↔ prime_implicant 3 (map (fun m => toBin m 3) [0; 1; 2; 5; 6; 7]) p.
Proof.
  apply (prime_list_is_the_prime_implicants 3 [0; 1; 2; 5; 6; 7]).
  - lia.
  - decide_by_compute.
Defined.

(** *** A function without zeros *)

Lemma N_lt_pow2_bits (a : N) (n : nat) :
  (∀ i, n ≤ i → N.testbit a (N.of_nat i) = false) → (a < 2 ^ N.of_nat n)%N.
Proof.
  intros Hbits. destruct (N.eq_dec a 0%N) as [->|Hne].
  - apply N.neq_0_lt_0, N.pow_nonzero. discriminate.
  - apply N.log2_lt_pow2; [lia|].
    destruct (N.lt_ge_cases (N.log2 a) (N.of_nat n)) as [Hlt|Hge]; [exact Hlt|].
    pose proof (N.bit_log2 a Hne) as Hbit.
    rewrite <- (N2Nat.id (N.log2 a)) in Hbit.
    rewrite Hbits in Hbit; [discriminate|lia].
Qed.

Lemma bits_string_ext (m m' : N) k :
  (∀ i, i < k → N.testbit m (N.of_nat i) = N.testbit m' (N.of_nat i)) →
  bits_string m k = bits_string m' k.
Proof.
  induction k as [|k IH]; intros H; [reflexivity|].
  cbn [bits_string]. rewrite (H k) by lia. f_equal. apply IH.
  intros i Hi. apply H. lia.
Qed.

(** Every binary string of width [W] is the string of a number below 2^W. *)
Lemma binary_is_bits_string x :
  is_binary x = true →
  ∃ m : N, (m < 2 ^ N.of_nat (String.length x))%N
           ∧ bits_string m (String.length x) = x.
Proof.
  induction x as [|c x IH]; [exists 0%N; split; [reflexivity|reflexivity]|].
  unfold is_binary. cbn [string_forall String.length].
  intros [Hc Hx]%andb_true_iff. destruct (IH Hx) as (m & Hm & Hbits).
  set (k := String.length x) in *.
  exists (if Ascii.eqb c "1" then N.setbit m (N.of_nat k) else m).
  assert (Hhigh : ∀ i, k ≤ i → N.testbit m (N.of_nat i) = false).
  { intros i Hi. apply (testbit_above m k i Hm Hi). }
  split.
  - apply N_lt_pow2_bits. intros i Hi. destruct (Ascii.eqb c "1").
    + rewrite N.setbit_eqb, Hhigh by lia.
      replace (N.of_nat k =? N.of_nat i)%N with false; [reflexivity|].
      symmetry. apply N.eqb_neq. lia.
    + apply Hhigh. lia.
  - cbn [bits_string]. f_equal.
    + unfold binary_char in Hc. destruct (Ascii.eqb c "1") eqn:E1.
      * rewrite N.setbit_eqb, N.eqb_refl. cbn. symmetry. apply Ascii.eqb_eq, E1.
      * rewrite Hhigh by lia. cbn. rewrite orb_false_r in Hc.
        symmetry. apply Ascii.eqb_eq, Hc.
    + rewrite <- Hbits. apply bits_string_ext. intros i Hi.
      destruct (Ascii.eqb c "1"); [|reflexivity].
      rewrite N.setbit_eqb.
      replace (N.of_nat k =? N.of_nat i)%N with false; [reflexivity|].
      symmetry. apply N.eqb_neq. lia.
Qed.

Lemma binary_is_toBin W x :
  0 < W → is_binary x = true → String.length x = W →
  ∃ m, m < 2 ^ W ∧ toBin m W = x.
Proof.
  intros HW Hx Hlen. destruct (binary_is_bits_string x Hx) as (m & Hm & Hbits).
  rewrite Hlen in Hm, Hbits. exists (N.to_nat m).
  assert (Hlt : N.to_nat m < 2 ^ W).
  { assert (Hpow : N.of_nat (2 ^ W) = (2 ^ N.of_nat W)%N)
      by (rewrite Nat2N.inj_pow; reflexivity).
    rewrite <- Hpow in Hm. lia. }
  split; [exact Hlt|]. rewrite toBin_bits by assumption.
  rewrite N2Nat.id. exact Hbits.
Qed.

Lemma length_repeat_char c k : String.length (repeat_char c k) = k.
Proof. induction k as [|k IH]; [reflexivity|]. cbn. rewrite IH. reflexivity. Qed.

Lemma countDashes_repeat k : countDashes (repeat_char "-" k) = k.
Proof. induction k as [|k IH]; [reflexivity|]. cbn. rewrite IH. reflexivity. Qed.

Lemma generalizes_dashes p :
  generalizes (repeat_char "-" (String.length p)) p = true.
Proof. induction p as [|c p IH]; [reflexivity|]. cbn. exact IH. Qed.

Lemma generalizes_of_dashes q k :
  generalizes q (repeat_char "-" k) = true → q = repeat_char "-" k.
Proof.
  revert k. induction q as [|a q IH]; intros [|k]; cbn; try discriminate;
    [reflexivity|].
  intros [Ha Hq]%andb_true_iff. rewrite (IH k Hq). f_equal.
  rewrite orb_diag in Ha. apply Ascii.eqb_eq, Ha.
Qed.

Lemma singleton_list {A} (l : list A) (x : A) :
  NoDup l → (∀ y, y ∈ l ↔ y = x) → l = [x].
Proof.
  intros Hnd Hin. destruct l as [|a l].
  - assert (H : x ∈ @nil A) by (apply Hin; reflexivity).
    apply elem_of_nil in H. destruct H.
  - assert (a = x) as -> by (apply Hin; left).
    destruct l as [|b l]; [reflexivity|].
    assert (b = x) as -> by (apply Hin; right; left).
    apply NoDup_cons in Hnd as [Hnot _]. destruct Hnot. left.
Qed.

Lemma pos_term_loop_dashes vars k i s :
  pos_term_loop (repeat_char "-" k) i vars s = s.
Proof.
  revert i. induction k as [|k IH]; intros i; [reflexivity|]. cbn. apply IH.
Qed.

(** The selection among a single implicant that covers every minterm. *)
Lemma select_single p minBin :
  minBin ≠ [] → Forall (fun m => covers p m = true) minBin →
  select_implicants [p] minBin = Some [0].
Proof.
  intros Hne Hall.
  assert (Hrows : ∀ i, i < length minBin → covers_row [p] minBin 0 i = true).
  { intros i Hi. unfold covers_row. cbn.
    destruct (lookup_lt_is_Some_2 minBin i Hi) as [m Hm]. rewrite Hm.
    rewrite Forall_forall in Hall. eapply Hall, list_elem_of_lookup_2, Hm. }
  destruct (select_implicants_size [p] minBin)
    as (chosen & Hchosen & Hnd & _ & Hin).
  { intros i Hi. exists 0. apply Hrows, Hi. }
  rewrite Hchosen. f_equal. apply singleton_list; [exact Hnd|].
  intros j. split.
  - intros Hj. destruct (Hin j Hj) as [Hlt _]. cbn in Hlt. lia.
  - intros ->.
    destruct (select_implicants_spec [p] minBin)
      as (chosen' & Hchosen' & ess & Hess & Hgreedy & _).
    { intros i Hi. exists 0. apply Hrows, Hi. }
    rewrite Hchosen in Hchosen'. injection Hchosen' as <-.
    apply (greedy_cover_final _ _ _ _ Hgreedy), Hess.
    destruct minBin as [|m minBin]; [contradiction|].
    exists 0. intros j'. split; [|intros ->; apply Hrows; cbn; lia].
    intros [Hlt _]%covers_row_lt. cbn in Hlt. lia.
Qed.

(** When every row below 2^W is a minterm or a
    don't-care term and there is a minterm, [qmSimplify] returns the single
    implicant of W dashes and the text ["1"], in SOP mode and in POS mode
    alike. *)
Lemma qmSimplify_all_rows minterms dontcares varNames md :
  let W := length varNames in
  0 < W → Forall (fun m => m < 2 ^ W) (minterms ++ dontcares) →
  (∀ m, m < 2 ^ W → m ∈ minterms ++ dontcares) →
  minterms ≠ [] →
  qmSimplify minterms dontcares varNames md
  = Some (mkOutput [repeat_char "-" W] "1").
Proof.
  intros W HW Hbelow Hall Hne.
  set (bins := map (fun m => toBin m W) (minterms ++ dontcares)).
  set (minBin := map (fun m => toBin m W) minterms).
  set (dashes := repeat_char "-" W).
  destruct (prime_list_primes W bins) as (primeList & Hprimes & Hnd & Hprime).
  { apply toBin_wellformed; assumption. }
  assert (Hsound : sound_pattern W bins dashes).
  { split; [apply string_forall_repeat; reflexivity|].
    split; [apply length_repeat_char|].
    intros x Hx Hlen _.
    destruct (binary_is_toBin W x HW Hx Hlen) as (m & Hm & <-).
    apply elem_of_map. exists m. split; [reflexivity|apply Hall, Hm]. }
  assert (HprimeList : primeList = [dashes]).
  { apply singleton_list; [exact Hnd|]. intros p. rewrite Hprime. split.
    - intros [(Hp & Hlen & _) Hmax]. symmetry. apply Hmax; [exact Hsound|].
      unfold dashes. rewrite <- Hlen. apply generalizes_dashes.
    - intros ->. split; [exact Hsound|].
      intros q _ Hq. apply generalizes_of_dashes, Hq. }
  assert (Hsel : select_implicants primeList minBin = Some [0]).
  { rewrite HprimeList. apply select_single.
    - unfold minBin. destruct minterms; [contradiction|discriminate].
    - apply Forall_forall. intros m _. apply covers_all_dashes.
      unfold dashes. rewrite countDashes_repeat, length_repeat_char. reflexivity. }
  rewrite qmSimplify_nonempty.
  2:{ destruct minterms; [contradiction|discriminate]. }
  cbv zeta. fold W bins minBin. rewrite Hprimes, Hsel, HprimeList.
  cbn [map lookup_total list_lookup_total]. f_equal. f_equal.
  destruct md; cbn [implicantsToSOP implicantsToPOS map String.concat].
  - apply sop_term_dashes.
  - unfold pos_term, dashes. rewrite pos_term_loop_dashes. reflexivity.
Qed.

(** X15: when every row below 2^W is a minterm or a
    don't-care term and there is a minterm, [qmSimplify] returns the single
    implicant of W dashes and the text ["1"], in SOP mode and in POS mode
    alike. *)
Theorem qmSimplify_without_zeros minterms dontcares varNames md :
  let W := length varNames in
  0 < W → Forall (fun m => m < 2 ^ W) (minterms ++ dontcares) →
  (∀ m, m < 2 ^ W → m ∈ minterms ++ dontcares) →
  minterms ≠ [] →
  qmSimplify minterms dontcares varNames md
  = Some (mkOutput [repeat_char "-" W] "1").
Proof.
  intros W HW Hbelow Hall Hne.
  apply qmSimplify_all_rows; assumption.
Qed.

Lemma qmSimplify_without_zeros_witness :
  qmSimplify [0; 1; 3] [2] ["A"; "B"] POS = Some (mkOutput ["--"] "1").
Proof.
  apply (qmSimplify_without_zeros [0; 1; 3] [2] ["A"; "B"] POS).
  - cbn. lia.
  - decide_by_compute.
  - intros m Hm. cbn in Hm.
    destruct m as [|[|[|[|m]]]]; [| | | |lia]; cbn [app];
      rewrite !elem_of_cons; auto 10.
  - discriminate.
Defined.

(** ** The K-map state *)


Lemma fill_zero_lookup k :
  ∀ a (cells : list cell) i,
    fold_left (fun cells i => <[i := Zero]> cells) (seq a k) cells !! i
    = if decide (a ≤ i < a + k ∧ i < length cells) then Some Zero else cells !! i.
Proof.
  induction k as [|k IH]; intros a cells i; cbn [seq fold_left].
  - rewrite decide_False by lia. reflexivity.
  - rewrite IH, length_insert.
    destruct (decide (i = a)) as [->|Hne].
    + destruct (decide (a < length cells)) as [Hlt|Hge].
      * rewrite list_lookup_insert_eq by exact Hlt.
        rewrite (decide_True (P := a ≤ a < a + S k ∧ _)) by lia.
        destruct (decide (S a ≤ a < S a + k ∧ _)); reflexivity.
      * rewrite !decide_False by lia.
        rewrite list_insert_ge by lia. reflexivity.
    + rewrite list_lookup_insert_ne by congruence.
      destruct (decide (S a ≤ i < S a + k ∧ i < length cells)) as [H|H].
      * rewrite decide_True by lia. reflexivity.
      * rewrite decide_False by lia. reflexivity.
Qed.

Lemma fill_zero_length k :
  ∀ a (cells : list cell),
    length (fold_left (fun cells i => <[i := Zero]> cells) (seq a k) cells)
    = length cells.
Proof.
  induction k as [|k IH]; intros a cells; cbn [seq fold_left]; [reflexivity|].
  rewrite IH, length_insert. reflexivity.
Qed.

Lemma paint_terms_length v total terms :
  ∀ cells, length (paint_terms v total terms cells) = length cells.
Proof.
  unfold paint_terms. induction terms as [|m terms IH]; intros cells;
    cbn [fold_left]; [reflexivity|].
  rewrite IH. destruct (_ && _); [apply length_insert|reflexivity].
Qed.

Lemma paint_terms_lookup v total terms :
  ∀ cells i,
    Z.of_nat (length cells) = total →
    paint_terms v total terms cells !! i
    = if decide (i < length cells ∧ Z.of_nat i ∈ terms) then Some v
      else cells !! i.
Proof.
  unfold paint_terms. induction terms as [|m terms IH]; intros cells i Hlen;
    cbn [fold_left].
  - rewrite decide_False; [reflexivity|]. intros [_ []%elem_of_nil].
  - destruct ((0 <=? m)%Z && (m <? total)%Z) eqn:Hm.
    + apply andb_true_iff in Hm as [H0%Z.leb_le Ht%Z.ltb_lt].
      rewrite IH by (rewrite length_insert; exact Hlen). rewrite length_insert.
      destruct (decide (i < length cells ∧ Z.of_nat i ∈ terms)) as [H|H].
      * rewrite decide_True; [reflexivity|]. rewrite elem_of_cons. tauto.
      * destruct (decide (Z.to_nat m = i)) as [<-|Hne].
        -- rewrite list_lookup_insert_eq by lia.
           rewrite decide_True; [reflexivity|]. split; [lia|].
           rewrite Z2Nat.id by lia. left.
        -- rewrite list_lookup_insert_ne by exact Hne.
           rewrite decide_False; [reflexivity|].
           rewrite elem_of_cons. intros [? [?|?]]; [lia|tauto].
    + rewrite IH by exact Hlen.
      destruct (decide (i < length cells ∧ Z.of_nat i ∈ terms)) as [H|H].
      * rewrite decide_True; [reflexivity|]. rewrite elem_of_cons. tauto.
      * rewrite decide_False; [reflexivity|].
        rewrite elem_of_cons. intros [? [?|?]]; [|tauto].
        apply andb_false_iff in Hm as [Hm%Z.leb_gt|Hm%Z.ltb_ge]; lia.
Qed.

Lemma collect_loop_eq cells count :
  ∀ i minterms dontcares,
    collect_loop cells i count minterms dontcares
    = (minterms ++ filter (fun j => cells !! j = Some One) (seq i count),
       dontcares ++ filter (fun j => cells !! j = Some DontCare) (seq i count)).
Proof.
  induction count as [|count IH]; intros i minterms dontcares;
    cbn [collect_loop seq].
  - cbn. rewrite !app_nil_r. reflexivity.
  - rewrite !filter_cons.
    destruct (cells !! i) as [[| |]|] eqn:Hc; rewrite IH;
      repeat (rewrite decide_True by reflexivity);
      repeat (rewrite decide_False by discriminate);
      rewrite <- ?app_assoc; reflexivity.
Qed.

Lemma StronglySorted_filter_seq (P : nat → Prop) `{∀ x, Decision (P x)} a k :
  StronglySorted Nat.le (filter P (seq a k)).
Proof.
  revert a. induction k as [|k IH]; intros a; cbn [seq]; [constructor|].
  rewrite filter_cons. destruct (decide (P a)); [|apply IH].
  constructor; [apply IH|]. apply Forall_forall.
  intros x [_ Hx%elem_of_seq]%list_elem_of_filter. unfold Nat.le. lia.
Qed.

Lemma merge_sort_sorted (l : list nat) :
  StronglySorted Nat.le l → merge_sort Nat.le l = l.
Proof.
  intros Hs. apply (StronglySorted_unique Nat.le).
  - apply StronglySorted_merge_sort.
    + intros x y z. unfold Nat.le. lia.
    + intros x y. unfold Nat.le. lia.
  - exact Hs.
  - apply merge_sort_Permutation.
Qed.

(** What [collectDataFromKMap] returns: the cells that show 1 and the cells
    that show d. *)
Lemma collectDataFromKMap_eq s :
  length (km_cells s) = Z.to_nat (km_total s) →
  collectDataFromKMap s = (cells_showing One s, cells_showing DontCare s).
Proof.
  intros Hlen. unfold collectDataFromKMap, cells_showing.
  rewrite collect_loop_eq, Hlen. cbn [app].
  rewrite !merge_sort_sorted by apply StronglySorted_filter_seq. reflexivity.
Qed.

Lemma filter_iff_in {A} (P Q : A → Prop) `{∀ x, Decision (P x)}
    `{∀ x, Decision (Q x)} (l : list A) :
  (∀ x, x ∈ l → P x ↔ Q x) → filter P l = filter Q l.
Proof.
  induction l as [|a l IH]; intros Hiff; [reflexivity|].
  rewrite !filter_cons, IH by (intros x Hx; apply Hiff; right; exact Hx).
  destruct (decide (P a)) as [Hp|Hp], (decide (Q a)) as [Hq|Hq];
    try reflexivity; exfalso; apply (Hiff a) in Hp || apply Hp, (Hiff a);
    try left; tauto.
Qed.

Lemma kmap_ok_length s :
  kmap_ok s → length (km_cells s) = Z.to_nat (km_total s).
Proof. intros [_ <-]. rewrite Nat2Z.id. reflexivity. Qed.

(** The cells after [paintKMapFromData]. *)
Lemma paintKMapFromData_cells s minterms dontcares :
  kmap_ok s →
  kmap_ok (paintKMapFromData s minterms dontcares)
  ∧ ∀ i, i < length (km_cells s) →
      km_cells (paintKMapFromData s minterms dontcares) !! i
      = Some (if decide (Z.of_nat i ∈ dontcares) then DontCare
              else if decide (Z.of_nat i ∈ minterms) then One else Zero).
Proof.
  intros Hok. pose proof (kmap_ok_length s Hok) as Hlen.
  destruct Hok as [Hlayout Htotal]. unfold paintKMapFromData.
  destruct (km_layout s) as [L|] eqn:HL; [|contradiction].
  set (cells0 := fold_left _ (seq 0 _) (km_cells s)).
  assert (Hlen0 : length cells0 = length (km_cells s)) by apply fill_zero_length.
  set (cells1 := paint_terms One (km_total s) minterms cells0).
  assert (Hlen1 : length cells1 = length (km_cells s)).
  { unfold cells1. rewrite paint_terms_length. exact Hlen0. }
  split.
  - split; cbn [with_cells km_layout km_cells km_total].
    + rewrite HL. discriminate.
    + rewrite paint_terms_length, Hlen1. exact Htotal.
  - intros i Hi. cbn [with_cells km_cells].
    rewrite paint_terms_lookup by (rewrite Hlen1; exact Htotal).
    rewrite Hlen1.
    destruct (decide (Z.of_nat i ∈ dontcares)) as [Hd|Hd].
    { rewrite decide_True by tauto. reflexivity. }
    rewrite decide_False by tauto. unfold cells1.
    rewrite paint_terms_lookup by (rewrite Hlen0; exact Htotal).
    rewrite Hlen0.
    destruct (decide (Z.of_nat i ∈ minterms)) as [Hm|Hm].
    { rewrite decide_True by tauto. reflexivity. }
    rewrite decide_False by tauto. unfold cells0.
    rewrite fill_zero_lookup, decide_True; [reflexivity|]. lia.
Qed.

(** X16: painting the K-map from lists of numbers and
    collecting its data again returns, in ascending order and each once, the
    cell numbers listed as minterms but not as don't-care terms, and the cell
    numbers listed as don't-care terms; numbers that are negative or not
    below [total] are dropped.  Without a layout painting changes nothing. *)
Theorem paint_then_collect s minterms dontcares :
  (km_layout s = None → paintKMapFromData s minterms dontcares = s)
  ∧ (kmap_ok s →
     collectDataFromKMap (paintKMapFromData s minterms dontcares)
     = (filter (fun i => Z.of_nat i ∈ minterms ∧ Z.of_nat i ∉ dontcares)
          (seq 0 (Z.to_nat (km_total s))),
        filter (fun i => Z.of_nat i ∈ dontcares)
          (seq 0 (Z.to_nat (km_total s))))).
Proof.
  split.
  { intros HL. unfold paintKMapFromData. rewrite HL. reflexivity. }
  intros Hok.
  destruct (paintKMapFromData_cells s minterms dontcares Hok) as [Hok' Hcells].
  pose proof (kmap_ok_length _ Hok) as Hlen.
  pose proof (kmap_ok_length _ Hok') as Hlen'.
  assert (Htot : km_total (paintKMapFromData s minterms dontcares) = km_total s).
  { unfold paintKMapFromData. destruct (km_layout s); reflexivity. }
  rewrite collectDataFromKMap_eq by exact Hlen'.
  unfold cells_showing. rewrite Hlen', Htot. f_equal.
  - apply filter_iff_in. intros i Hi%elem_of_seq.
    rewrite Hcells by lia.
    destruct (decide (Z.of_nat i ∈ dontcares)), (decide (Z.of_nat i ∈ minterms));
      split; try tauto; try discriminate; intros [? ?]; tauto.
  - apply filter_iff_in. intros i Hi%elem_of_seq.
    rewrite Hcells by lia.
    destruct (decide (Z.of_nat i ∈ dontcares)), (decide (Z.of_nat i ∈ minterms));
      split; try tauto; try discriminate.
Qed.

Lemma paint_then_collect_witness :
  collectDataFromKMap
    (paintKMapFromData (initKMap ["A"; "B"]) [3; 1; 3; 7; -1]%Z [1]%Z)
  = (filter (fun i => Z.of_nat i ∈ [3; 1; 3; 7; -1]%Z ∧ Z.of_nat i ∉ [1]%Z)
       (seq 0 (Z.to_nat (km_total (initKMap ["A"; "B"])))),
     filter (fun i => Z.of_nat i ∈ [1]%Z)
       (seq 0 (Z.to_nat (km_total (initKMap ["A"; "B"]))))).
Proof.
  apply (proj2 (paint_then_collect (initKMap ["A"; "B"]) [3; 1; 3; 7; -1]%Z [1]%Z)).
  split; [discriminate|reflexivity].
Defined.

Lemma elem_of_cells_showing v s i :
  i ∈ cells_showing v s ↔ km_cells s !! i = Some v.
Proof.
  unfold cells_showing. rewrite list_elem_of_filter, elem_of_seq. split; [tauto|].
  intros H. split; [exact H|]. apply lookup_lt_Some in H. lia.
Qed.

(** X17: collecting the data of a K-map that has a grid
    and painting the K-map from them leaves it as it is. *)
Theorem collect_then_paint s :
  kmap_ok s →
  paintKMapFromData s
    (map Z.of_nat (collectDataFromKMap s).1)
    (map Z.of_nat (collectDataFromKMap s).2)
  = s.
Proof.
  intros Hok. pose proof (kmap_ok_length _ Hok) as Hlen.
  rewrite collectDataFromKMap_eq by exact Hlen. cbn [fst snd].
  set (M := map Z.of_nat (cells_showing One s)).
  set (D := map Z.of_nat (cells_showing DontCare s)).
  destruct (paintKMapFromData_cells s M D Hok) as [[_ Hlen'] Hcells].
  assert (Hsame : km_cells (paintKMapFromData s M D) = km_cells s).
  { apply list_eq. intros i.
    destruct (decide (i < length (km_cells s))) as [Hi|Hi].
    - rewrite Hcells by exact Hi.
      destruct (lookup_lt_is_Some_2 _ _ Hi) as [c Hc]. rewrite Hc. f_equal.
      assert (HM : Z.of_nat i ∈ M ↔ c = One).
      { unfold M. rewrite elem_of_map. split.
        - intros (j & Hj%Nat2Z.inj & Hin%elem_of_cells_showing). congruence.
        - intros ->. exists i. split; [reflexivity|].
          apply elem_of_cells_showing, Hc. }
      assert (HD : Z.of_nat i ∈ D ↔ c = DontCare).
      { unfold D. rewrite elem_of_map. split.
        - intros (j & Hj%Nat2Z.inj & Hin%elem_of_cells_showing). congruence.
        - intros ->. exists i. split; [reflexivity|].
          apply elem_of_cells_showing, Hc. }
      destruct (decide (Z.of_nat i ∈ D)) as [H|H]; [symmetry; apply HD, H|].
      destruct (decide (Z.of_nat i ∈ M)) as [H'|H']; [symmetry; apply HM, H'|].
      destruct c; [reflexivity|destruct H'; apply HM; reflexivity
                  |destruct H; apply HD; reflexivity].
    - rewrite !lookup_ge_None_2; [reflexivity|lia|].
      assert (Htot : km_total (paintKMapFromData s M D) = km_total s).
      { unfold paintKMapFromData. destruct (km_layout s); reflexivity. }
      rewrite Htot in Hlen'. destruct Hok as [_ Hl]. lia. }
  unfold paintKMapFromData in *. destruct (km_layout s) eqn:HL; [|reflexivity].
  cbn [with_cells km_cells] in Hsame. rewrite Hsame.
  destruct s; reflexivity.
Qed.

Lemma collect_then_paint_witness :
  paintKMapFromData (cell_click (cell_click (cell_click (initKMap ["A"; "B"]) 2) 2) 1)
    (map Z.of_nat
       (collectDataFromKMap
          (cell_click (cell_click (cell_click (initKMap ["A"; "B"]) 2) 2) 1)).1)
    (map Z.of_nat
       (collectDataFromKMap
          (cell_click (cell_click (cell_click (initKMap ["A"; "B"]) 2) 2) 1)).2)
  = cell_click (cell_click (cell_click (initKMap ["A"; "B"]) 2) 2) 1.
Proof.
  apply (collect_then_paint
           (cell_click (cell_click (cell_click (initKMap ["A"; "B"]) 2) 2) 1)).
  split; [discriminate|reflexivity].
Defined.

Lemma kmap_for_initKMap vars : kmap_for vars (initKMap vars).
Proof.
  unfold kmap_for, initKMap. cbv zeta.
  cbn [km_vars km_n km_layout km_total km_cells].
  assert (Hn : Nat.min (length vars) MAX_VARS ≤ 30) by (unfold MAX_VARS; lia).
  rewrite length_replicate, (shl32_one _ Hn).
  change 2%Z with (Z.of_nat 2). rewrite <- Nat2Z.inj_pow, Nat2Z.id.
  repeat split; reflexivity.
Qed.

Lemma kmap_for_ok vars s : 0 < length vars → kmap_for vars s → kmap_ok s.
Proof.
  intros Hv (_ & _ & HL & Ht & Hlen). split.
  - rewrite HL. unfold MAX_VARS.
    destruct (length vars) as [|[|[|[|[|k]]]]]; cbn; try discriminate; lia.
  - rewrite Ht, Hlen. reflexivity.
Qed.

Lemma kmap_for_cell_click vars s idx :
  kmap_for vars s → kmap_for vars (cell_click s idx).
Proof.
  intros (? & ? & ? & ? & ?). unfold kmap_for, cell_click, with_cells.
  cbn [km_vars km_n km_layout km_total km_cells]. rewrite length_insert. auto.
Qed.

Lemma kmap_for_paint vars s minterms dontcares :
  kmap_for vars s → kmap_for vars (paintKMapFromData s minterms dontcares).
Proof.
  intros (? & ? & ? & ? & ?). unfold kmap_for, paintKMapFromData.
  destruct (km_layout s) eqn:HL; [|rewrite HL; auto].
  unfold with_cells. cbn [km_vars km_n km_layout km_total km_cells].
  rewrite !paint_terms_length, fill_zero_length, HL. auto.
Qed.

(** X18: the K-map that [initKMap] makes for a list of
    variables has the first [min(length, 4)] variables, [2^n] cells that all
    show 0, and [total = 2^n]; a click on one of its cells and
    [paintKMapFromData] change neither the variables, nor the grid, nor the
    number of cells. *)
Theorem kmap_state_invariant vars :
  kmap_for vars (initKMap vars)
  ∧ km_cells (initKMap vars)
    = replicate (2 ^ Nat.min (length vars) MAX_VARS) Zero
  ∧ ∀ s, kmap_for vars s →
      (∀ idx, idx < length (km_cells s) → kmap_for vars (cell_click s idx))
      ∧ ∀ minterms dontcares,
          kmap_for vars (paintKMapFromData s minterms dontcares).
Proof.
  split; [apply kmap_for_initKMap|]. split.
  - destruct (kmap_for_initKMap vars) as (_ & _ & _ & Ht & _).
    unfold initKMap in *. cbn [km_cells km_total] in *.
    rewrite Ht, Nat2Z.id. reflexivity.
  - intros s Hs. split.
    + intros idx _. apply kmap_for_cell_click, Hs.
    + intros M D. apply kmap_for_paint, Hs.
Qed.

(** X19: a click on a cell of the K-map changes that cell
    only, from 0 to 1, from 1 to d and from d to 0, so that three clicks on
    the same cell leave the K-map as it was. *)
Theorem cell_click_cycles s idx :
  idx < length (km_cells s) →
  km_cells (cell_click s idx) !! idx
  = match km_cells s !! idx with
    | Some Zero => Some One
    | Some One => Some DontCare
    | _ => Some Zero
    end
  ∧ (∀ j, j ≠ idx → km_cells (cell_click s idx) !! j = km_cells s !! j)
  ∧ cell_click (cell_click (cell_click s idx) idx) idx = s.
Proof.
  intros Hidx. split; [|split].
  - unfold cell_click, with_cells. cbn [km_cells].
    rewrite list_lookup_insert_eq by exact Hidx.
    destruct (km_cells s !! idx) as [[| |]|]; reflexivity.
  - intros j Hj. unfold cell_click, with_cells. cbn [km_cells].
    apply list_lookup_insert_ne. congruence.
  - destruct s as [v n L cells total]. unfold cell_click, with_cells.
    cbn [km_vars km_n km_layout km_cells km_total] in *. f_equal.
    rewrite !list_lookup_insert_eq by (rewrite ?length_insert; exact Hidx).
    rewrite !list_insert_insert_eq.
    destruct (lookup_lt_is_Some_2 _ _ Hidx) as [c Hc]. rewrite Hc.
    apply list_insert_id. destruct c; exact Hc.
Qed.

Lemma cell_click_cycles_witness :
  cell_click (cell_click (cell_click (initKMap ["A"; "B"]) 2) 2) 2
  = initKMap ["A"; "B"].
Proof.
  apply (cell_click_cycles (initKMap ["A"; "B"]) 2). vm_compute. lia.
Defined.

(** With don't-care terms only, no implicant is chosen. *)
Lemma qmSimplify_only_dontcares dontcares varNames md :
  let W := length varNames in
  0 < W → Forall (fun m => m < 2 ^ W) dontcares → dontcares ≠ [] →
  qmSimplify [] dontcares varNames md
  = Some (mkOutput [] (match md with SOP => "0" | POS => "1" end)).
Proof.
  intros W HW Hbelow Hne.
  destruct (prime_list_sound W (map (fun m => toBin m W) dontcares))
    as (primeList & Hprimes & _).
  { apply toBin_wellformed; assumption. }
  rewrite qmSimplify_nonempty by exact Hne. cbv zeta. fold W. cbn [app map].
  rewrite Hprimes. unfold select_implicants. cbn.
  destruct md; reflexivity.
Qed.

Lemma shown_below s n v m :
  length (km_cells s) = 2 ^ n → m ∈ cells_showing v s → m < 2 ^ n.
Proof.
  intros Hcells Hm%elem_of_cells_showing. apply lookup_lt_Some in Hm. lia.
Qed.

(** The zeros that [simplifyFromKMap] computes in POS mode. *)
Lemma elem_of_zeros s n m :
  km_total s = Z.of_nat (2 ^ n) → length (km_cells s) = 2 ^ n →
  m ∈ filter (fun m => m ∉ (list_to_set
               (cells_showing One s ++ cells_showing DontCare s) : gset nat))
        (seq 0 (Z.to_nat (km_total s)))
  ↔ km_cells s !! m = Some Zero.
Proof.
  intros Htotal Hcells.
  rewrite list_elem_of_filter, elem_of_seq, elem_of_list_to_set, elem_of_app,
    !elem_of_cells_showing, Htotal, Nat2Z.id. split.
  - intros [Hnot Hm].
    destruct (lookup_lt_is_Some_2 (km_cells s) m ltac:(lia)) as [c Hc].
    rewrite Hc in *. destruct c; [reflexivity|destruct Hnot; auto..].
  - intros Hc. split.
    + rewrite Hc. intros [?|?]; discriminate.
    + apply lookup_lt_Some in Hc. lia.
Qed.

Lemma simplifyFromKMap_eq s n md :
  0 < n → km_n s = n →
  km_total s = Z.of_nat (2 ^ n) → length (km_cells s) = 2 ^ n →
  simplifyFromKMap s md
  = match qmSimplify
            match md with
            | SOP => cells_showing One s
            | POS =>
                filter (fun m => m ∉ (list_to_set
                   (cells_showing One s ++ cells_showing DontCare s) : gset nat))
                  (seq 0 (Z.to_nat (km_total s)))
            end
            (cells_showing DontCare s) (km_vars s) md with
    | Some out => Some (result out)
    | None => None
    end.
Proof.
  intros Hn Hkn Htotal Hcells. unfold simplifyFromKMap. rewrite Hkn.
  destruct (Nat.eqb_spec n 0) as [->|_]; [lia|].
  rewrite collectDataFromKMap_eq by (rewrite Htotal, Nat2Z.id; exact Hcells).
  reflexivity.
Qed.

(** X20: the text that [simplifyFromKMap] writes
    for a K-map of one to four variables, read back: it scans and parses, and
    it evaluates to 1 on every cell that shows 1 and to 0 on every cell that
    shows 0; in POS mode when some cell shows 1. *)
Theorem simplifyFromKMap_reads_cells letters s md :
  let vars := map char_string letters in
  let n := length letters in
  Forall (fun c => is_upper c = true) letters → NoDup letters →
  0 < n ≤ 4 → kmap_for vars s →
  (md = POS → ∃ i, km_cells s !! i = Some One) →
  ∃ text toks rpn,
    simplifyFromKMap s md = Some text
    ∧ tokenize text = Ok toks ∧ toRPN toks = Ok rpn
    ∧ ∀ m, m < 2 ^ n →
        ∃ y, evalRPN rpn (make_env vars (Z.of_nat m)) = Ok y
             ∧ (km_cells s !! m = Some One → y = 1%Z)
             ∧ (km_cells s !! m = Some Zero → y = 0%Z).
Proof.
  intros vars n Hup Hnd Hn Hfor Hone.
  assert (Hlen : length vars = n) by (unfold vars; apply length_map).
  destruct Hfor as (Hv & Hkn & _ & Ht & Hc).
  rewrite Hlen in *. replace (Nat.min n MAX_VARS) with n in *
    by (unfold MAX_VARS; lia).
  rewrite take_ge in Hv by lia.
  rewrite (simplifyFromKMap_eq s n) by (try assumption; lia). rewrite Hv.
  assert (Hn30 : 0 < n ≤ 30) by lia.
  destruct md.
  - destruct (qmSimplify_sop_values letters (cells_showing One s)
                (cells_showing DontCare s) Hup Hnd Hn30)
      as (out & toks & rpn & Hout & Htok & Hrpn & Heval).
    { apply Forall_forall. intros m [Hm|Hm]%elem_of_app;
        apply (shown_below s n _ m Hc Hm). }
    fold vars in Hout. rewrite Hout. exists (result out), toks, rpn.
    split; [reflexivity|]. split; [exact Htok|]. split; [exact Hrpn|].
    intros m Hm. destruct (Heval m Hm) as (y & Hy & H1 & H0).
    exists y. split; [exact Hy|]. split.
    + intros Hcell. apply H1, elem_of_cells_showing, Hcell.
    + intros Hcell. apply H0. rewrite elem_of_app, !elem_of_cells_showing, Hcell.
      intros [?|?]; discriminate.
  - destruct (Hone eq_refl) as [one Hcell1].
    set (zeros := filter _ (seq 0 (Z.to_nat (km_total s)))).
    assert (Hz : ∀ m, m ∈ zeros ↔ km_cells s !! m = Some Zero)
      by (intros m; apply (elem_of_zeros s n m Ht Hc)).
    destruct (qmSimplify_pos_values letters zeros (cells_showing DontCare s) one
                Hup Hnd Hn30)
      as (out & toks & rpn & Hout & Htok & Hrpn & Heval).
    { apply Forall_forall. intros m [Hm%Hz|Hm]%elem_of_app.
      - apply lookup_lt_Some in Hm. rewrite Hc in Hm. exact Hm.
      - apply (shown_below s n _ m Hc Hm). }
    { apply lookup_lt_Some in Hcell1. rewrite Hc in Hcell1. exact Hcell1. }
    { rewrite elem_of_app, Hz, elem_of_cells_showing, Hcell1.
      intros [?|?]; discriminate. }
    fold vars in Hout. rewrite Hout. exists (result out), toks, rpn.
    split; [reflexivity|]. split; [exact Htok|]. split; [exact Hrpn|].
    intros m Hm. destruct (Heval m Hm) as (y & Hy & H0 & H1).
    exists y. split; [exact Hy|]. split.
    + intros Hcell. apply H1. rewrite elem_of_app, Hz, elem_of_cells_showing, Hcell.
      intros [?|?]; discriminate.
    + intros Hcell. apply H0, Hz, Hcell.
Qed.

Lemma simplifyFromKMap_reads_cells_witness :
  ∃ text toks rpn,
    simplifyFromKMap (cell_click (cell_click (initKMap ["A"; "B"]) 2) 3) POS
    = Some text
    ∧ tokenize text = Ok toks ∧ toRPN toks = Ok rpn
    ∧ ∀ m, m < 2 ^ 2 →
        ∃ y, evalRPN rpn (make_env ["A"; "B"] (Z.of_nat m)) = Ok y
             ∧ (km_cells (cell_click (cell_click (initKMap ["A"; "B"]) 2) 3) !! m
                = Some One → y = 1%Z)
             ∧ (km_cells (cell_click (cell_click (initKMap ["A"; "B"]) 2) 3) !! m
                = Some Zero → y = 0%Z).
Proof.
  apply (simplifyFromKMap_reads_cells ["A"; "B"]%char
           (cell_click (cell_click (initKMap ["A"; "B"]) 2) 3) POS).
  - repeat constructor.
  - apply (bool_decide_unpack _). vm_compute. reflexivity.
  - cbn. lia.
  - repeat split.
  - intros _. exists 2. reflexivity.
Defined.

(** X21: in POS mode a K-map of one to four
    variables in which no cell shows 1 gives the text ["1"], whatever its
    cells show otherwise. *)
Theorem simplifyFromKMap_pos_without_ones vars s :
  0 < length vars → kmap_for vars s →
  (∀ i, km_cells s !! i ≠ Some One) →
  simplifyFromKMap s POS = Some "1".
Proof.
  intros Hvars (Hv & Hkn & _ & Ht & Hc) Hnone.
  set (n := Nat.min (length vars) MAX_VARS) in *.
  assert (Hn : 0 < n) by (unfold n, MAX_VARS; lia).
  rewrite (simplifyFromKMap_eq s n) by assumption.
  set (zeros := filter _ (seq 0 (Z.to_nat (km_total s)))).
  assert (Hz : ∀ m, m ∈ zeros ↔ km_cells s !! m = Some Zero)
    by (intros m; apply (elem_of_zeros s n m Ht Hc)).
  assert (HW : length (km_vars s) = n).
  { rewrite Hv, length_take. unfold n. lia. }
  assert (Hbelow : Forall (fun m => m < 2 ^ length (km_vars s))
                     (zeros ++ cells_showing DontCare s)).
  { rewrite HW. apply Forall_forall. intros m [Hm%Hz|Hm]%elem_of_app.
    - apply lookup_lt_Some in Hm. lia.
    - apply (shown_below s n _ m Hc Hm). }
  assert (Hall : ∀ m, m < 2 ^ length (km_vars s) →
                      m ∈ zeros ++ cells_showing DontCare s).
  { rewrite HW. intros m Hm. rewrite elem_of_app, Hz, elem_of_cells_showing.
    destruct (lookup_lt_is_Some_2 (km_cells s) m ltac:(lia)) as [c Hcell].
    rewrite Hcell. destruct c; [auto|destruct (Hnone m Hcell)|auto]. }
  destruct (decide (zeros = [])) as [Hnil|Hne].
  - rewrite Hnil in *. cbn [app] in *.
    rewrite qmSimplify_only_dontcares; [reflexivity|lia|exact Hbelow|].
    intros HD. specialize (Hall 0). rewrite HD in Hall.
    apply elem_of_nil in Hall; [exact Hall|]. rewrite HW.
    apply Nat.lt_le_trans with 1; [lia|]. apply Nat.neq_0_lt_0, Nat.pow_nonzero. lia.
  - rewrite qmSimplify_all_rows; [reflexivity|lia|exact Hbelow|exact Hall|exact Hne].
Qed.

Lemma simplifyFromKMap_pos_without_ones_witness :
  simplifyFromKMap (initKMap ["A"; "B"]) POS = Some "1".
Proof.
  apply (simplifyFromKMap_pos_without_ones ["A"; "B"]).
  - cbn. lia.
  - repeat split.
  - intros i. destruct i as [|[|[|[|i]]]]; discriminate.
Defined.

(** ** The Evaluate button *)

Lemma trimStart_empty s :
  trimStart s = "" ↔ string_forall is_whitespace s = true.
Proof.
  induction s as [|c s IH]; cbn; [tauto|].
  destruct (is_whitespace c); cbn; [exact IH|]. split; discriminate.
Qed.

Lemma trimEnd_empty s :
  trimEnd s = "" ↔ string_forall is_whitespace s = true.
Proof.
  induction s as [|c s IH]; cbn; [tauto|].
  destruct (trimEnd s) eqn:E.
  - destruct (is_whitespace c); cbn; [tauto|]. split; discriminate.
  - split; [discriminate|]. intros [_ H]%andb_true_iff.
    apply IH in H. discriminate.
Qed.

Lemma string_forall_trimStart f s :
  string_forall f s = true → string_forall f (trimStart s) = true.
Proof.
  induction s as [|c s IH]; cbn; [tauto|].
  intros [Hc Hs]%andb_true_iff. destruct (is_whitespace c); [auto|].
  cbn. rewrite Hc, Hs. reflexivity.
Qed.

(** [trim] gives the empty string for white space only. *)
Lemma trim_empty s : trim s = "" ↔ string_forall is_whitespace s = true.
Proof.
  unfold trim. rewrite trimEnd_empty. split.
  - intros H. apply trimStart_empty.
    induction s as [|c s IH]; [reflexivity|]. cbn in *.
    destruct (is_whitespace c) eqn:Hc; [auto|].
    cbn in H. rewrite Hc in H. discriminate.
  - apply string_forall_trimStart.
Qed.

Lemma strip_whitespace_trimStart s :
  strip_whitespace (trimStart s) = strip_whitespace s.
Proof.
  induction s as [|c s IH]; cbn; [reflexivity|].
  destruct (is_whitespace c) eqn:Hc; [exact IH|]. cbn. rewrite Hc. reflexivity.
Qed.

Lemma strip_whitespace_trimEnd s :
  strip_whitespace (trimEnd s) = strip_whitespace s.
Proof.
  induction s as [|c s IH]; [reflexivity|]. cbn [trimEnd].
  change (strip_whitespace (String c s))
    with (if is_whitespace c then strip_whitespace s
          else String c (strip_whitespace s)).
  rewrite <- IH. destruct (trimEnd s) eqn:E.
  - destruct (is_whitespace c) eqn:Hc; cbn [strip_whitespace]; rewrite ?Hc;
      reflexivity.
  - reflexivity.
Qed.

Lemma strip_whitespace_trim s : strip_whitespace (trim s) = strip_whitespace s.
Proof.
  unfold trim. rewrite strip_whitespace_trimEnd. apply strip_whitespace_trimStart.
Qed.

Lemma tokenize_trim s : tokenize (trim s) = tokenize s.
Proof. unfold tokenize. rewrite strip_whitespace_trim. reflexivity. Qed.

Lemma is_letter_not_whitespace c : is_letter c = true → is_whitespace c = false.
Proof.
  unfold is_letter, is_whitespace.
  destruct (Nat.leb_spec 9 (char_code c)), (Nat.leb_spec (char_code c) 13),
    (Nat.eqb_spec (char_code c) 32), (Nat.eqb_spec (char_code c) 160),
    (Nat.leb_spec 65 (char_code c)), (Nat.leb_spec (char_code c) 90),
    (Nat.leb_spec 97 (char_code c)), (Nat.leb_spec (char_code c) 122);
    simpl; try done; lia.
Qed.

Lemma letters_trimStart s :
  filter (fun c => is_letter c = true) (list_ascii_of_string (trimStart s))
  = filter (fun c => is_letter c = true) (list_ascii_of_string s).
Proof.
  induction s as [|c s IH]; cbn [trimStart]; [reflexivity|].
  destruct (is_whitespace c) eqn:Hc; [|reflexivity].
  cbn [list_ascii_of_string]. rewrite filter_cons, decide_False; [exact IH|].
  intros Hl%is_letter_not_whitespace. congruence.
Qed.

Lemma letters_trimEnd s :
  filter (fun c => is_letter c = true) (list_ascii_of_string (trimEnd s))
  = filter (fun c => is_letter c = true) (list_ascii_of_string s).
Proof.
  induction s as [|c s IH]; cbn [trimEnd]; [reflexivity|].
  destruct (trimEnd s) eqn:E.
  - cbn [list_ascii_of_string] in *. rewrite (filter_cons _ c), <- IH.
    destruct (is_whitespace c) eqn:Hc; [|reflexivity].
    rewrite decide_False; [reflexivity|].
    intros Hl%is_letter_not_whitespace. congruence.
  - cbn [list_ascii_of_string] in *. rewrite !(filter_cons _ c), IH. reflexivity.
Qed.

Lemma extractVars_trim s : extractVars (trim s) = extractVars s.
Proof.
  unfold extractVars, match_letters, trim.
  rewrite letters_trimEnd, letters_trimStart. reflexivity.
Qed.

Lemma extractVars_empty : extractVars "" = [].
Proof. reflexivity. Qed.

Lemma table_loop_Ok_inv vars rpn count :
  ∀ m rows0 rows,
    table_loop vars rpn m count rows0 = Ok rows →
    ∀ k, k < count →
      ∃ y, row_output rpn (make_env vars (m + Z.of_nat k)) = Ok y.
Proof.
  induction count as [|count IH]; intros m rows0 rows H k Hk; [lia|].
  cbn [table_loop] in H. fold (row_output rpn (make_env vars m)) in H.
  destruct (row_output rpn (make_env vars m)) as [y|e] eqn:Hy; [|discriminate].
  cbn [rbind] in H. destruct k as [|k].
  - exists y. rewrite Z.add_0_r. exact Hy.
  - destruct (IH _ _ _ H k ltac:(lia)) as [y' Hy']. exists y'.
    rewrite <- Hy'. do 2 f_equal. lia.
Qed.

(** The rows of a truth table that was built. *)
Lemma buildTruthTable_Ok_rows vars rpn table :
  length vars ≤ 30 → buildTruthTable vars rpn = Ok table →
  length table = 2 ^ length vars
  ∧ ∀ m, m < 2 ^ length vars →
      ∃ r, table !! m = Some r
           ∧ row_m r = Z.of_nat m
           ∧ row_env r = make_env vars (Z.of_nat m)
           ∧ row_output rpn (row_env r) = Ok (row_y r).
Proof.
  intros Hlen H.
  destruct (buildTruthTable_success vars rpn Hlen) as (table' & Ht & Hl & Hrows).
  { intros m Hm. unfold buildTruthTable in H.
    rewrite buildTruthTable_total in H by exact Hlen.
    destruct (table_loop_Ok_inv _ _ _ _ _ _ H m Hm) as [y Hy].
    exists y. rewrite Z.add_0_l in Hy. exact Hy. }
  rewrite H in Ht. injection Ht as <-. auto.
Qed.

Lemma evalRPN_bit rpn env y : evalRPN rpn env = Ok y → y = 0%Z ∨ y = 1%Z.
Proof.
  unfold evalRPN. destruct (eval_loop env rpn []) as [[|[] [|]]|]; cbn;
    intros [= <-] || discriminate; auto.
Qed.

(** The numbers of the rows whose output is 1. *)
Lemma elem_of_minFull vars rpn table z :
  length vars ≤ 30 → buildTruthTable vars rpn = Ok table →
  z ∈ map row_m (filter (fun r => row_y r = 1%Z) table)
  ↔ ∃ m r, table !! m = Some r ∧ z = Z.of_nat m ∧ row_y r = 1%Z.
Proof.
  intros Hlen H. destruct (buildTruthTable_Ok_rows _ _ _ Hlen H) as [Hl Hrows].
  rewrite elem_of_map. split.
  - intros (r & -> & [Hy Hr]%list_elem_of_filter).
    apply list_elem_of_lookup in Hr as [m Hm].
    exists m, r. split; [exact Hm|]. split; [|exact Hy].
    destruct (Hrows m) as (r' & Hr' & Hm' & _).
    { apply lookup_lt_Some in Hm. lia. }
    congruence.
  - intros (m & r & Hm & -> & Hy). exists r. split.
    + destruct (Hrows m) as (r' & Hr' & Hm' & _).
      { apply lookup_lt_Some in Hm. lia. }
      congruence.
    + apply list_elem_of_filter. split; [exact Hy|].
      eapply list_elem_of_lookup_2, Hm.
Qed.

(** The minimization of the rows of a truth table, read back. *)
Lemma simplified_matches_rows letters rpn table minFull md :
  let vars := map char_string letters in
  let n := length letters in
  Forall (fun c => is_upper c = true) letters → NoDup letters → 0 < n ≤ 4 →
  buildTruthTable vars (Some rpn) = Ok table →
  (∀ z, z ∈ minFull ↔
        ∃ m r, table !! m = Some r ∧ z = Z.of_nat m ∧ row_y r = 1%Z) →
  ∃ out,
    qmSimplify
      match md with
      | SOP => map Z.to_nat minFull
      | POS => filter (fun m => Z.of_nat m ∉ (list_to_set minFull : gset Z))
                 (seq 0 (2 ^ n))
      end [] vars md = Some out
    ∧ match md, minFull with
      | POS, [] => result out = "1"
      | _, _ =>
          ∃ toks rpn',
            tokenize (result out) = Ok toks ∧ toRPN toks = Ok rpn'
            ∧ ∀ r, r ∈ table → evalRPN rpn' (row_env r) = Ok (row_y r)
      end.
Proof.
  intros vars n Hup Hnd Hn Htable Hmin.
  assert (Hlen : length vars = n) by (unfold vars; apply length_map).
  destruct (buildTruthTable_Ok_rows vars (Some rpn) table) as [Hl Hrows];
    [lia|exact Htable|].
  rewrite Hlen in Hl, Hrows.
  assert (Hn30 : 0 < n ≤ 30) by lia.
  assert (Hbits : ∀ m r, table !! m = Some r →
            m < 2 ^ n ∧ row_env r = make_env vars (Z.of_nat m)
            ∧ (row_y r = 0%Z ∨ row_y r = 1%Z)).
  { intros m r Hm. assert (Hlt : m < 2 ^ n).
    { apply lookup_lt_Some in Hm. lia. }
    destruct (Hrows m Hlt) as (r' & Hr' & _ & Henv & Hy).
    assert (r' = r) as -> by congruence.
    split; [exact Hlt|]. split; [exact Henv|].
    apply (evalRPN_bit rpn (row_env r)), Hy. }
  destruct md.
  - set (ones := map Z.to_nat minFull).
    assert (Hin : ∀ m, m ∈ ones ↔ ∃ r, table !! m = Some r ∧ row_y r = 1%Z).
    { intros m. unfold ones. rewrite elem_of_map. split.
      - intros (z & -> & (m' & r & Hm & -> & Hy)%Hmin).
        rewrite Nat2Z.id. eauto.
      - intros (r & Hm & Hy). exists (Z.of_nat m).
        split; [rewrite Nat2Z.id; reflexivity|]. apply Hmin. eauto. }
    destruct (qmSimplify_sop_values letters ones [] Hup Hnd Hn30)
      as (out & toks & rpn' & Hout & Htok & Hrpn & Heval).
    { rewrite app_nil_r. apply Forall_forall.
      intros m (r & Hm & _)%Hin. apply (Hbits m r Hm). }
    exists out. split; [exact Hout|]. exists toks, rpn'.
    split; [exact Htok|]. split; [exact Hrpn|].
    intros r [m Hm]%list_elem_of_lookup.
    destruct (Hbits m r Hm) as (Hlt & Henv & Hy).
    destruct (Heval m Hlt) as (y & Hev & H1 & H0).
    rewrite Henv. unfold vars. rewrite Hev. f_equal.
    destruct Hy as [Hy|Hy]; rewrite Hy.
    + apply H0. rewrite app_nil_r. intros (r' & Hr' & Hy')%Hin.
      assert (r' = r) as -> by congruence. lia.
    + apply H1, Hin. eauto.
  - set (zeros := filter _ (seq 0 (2 ^ n))).
    assert (Hin : ∀ m, m ∈ zeros ↔ ∃ r, table !! m = Some r ∧ row_y r ≠ 1%Z).
    { intros m. unfold zeros.
      rewrite list_elem_of_filter, elem_of_seq, elem_of_list_to_set, Hmin. split.
      - intros [Hnot Hm]. destruct (Hrows m ltac:(lia)) as (r & Hr & _).
        exists r. split; [exact Hr|]. intros Hy. apply Hnot. eauto.
      - intros (r & Hr & Hy). split.
        + intros (m' & r' & Hr' & ->%Nat2Z.inj & Hy'). congruence.
        + apply lookup_lt_Some in Hr. lia. }
    assert (Hbelow : Forall (fun m => m < 2 ^ n) (zeros ++ [])).
    { rewrite app_nil_r. apply Forall_forall.
      intros m (r & Hm & _)%Hin. apply (Hbits m r Hm). }
    destruct minFull as [|z0 rest].
    + assert (Hall : ∀ m, m < 2 ^ n → m ∈ zeros ++ []).
      { intros m Hm. rewrite app_nil_r. apply Hin.
        destruct (Hrows m Hm) as (r & Hr & _). exists r. split; [exact Hr|].
        intros Hy. apply (elem_of_nil (Z.of_nat m)), Hmin. eauto. }
      exists (mkOutput [repeat_char "-" (length vars)] "1").
      split; [|reflexivity].
      apply qmSimplify_all_rows; rewrite ?Hlen; [lia|exact Hbelow|exact Hall|].
      intros Hnil. specialize (Hall 0). rewrite Hnil in Hall.
      apply (elem_of_nil 0), Hall.
      apply Nat.lt_le_trans with 1; [lia|].
      apply Nat.neq_0_lt_0, Nat.pow_nonzero. lia.
    + destruct (proj1 (Hmin z0)) as (one & r1 & Hr1 & _ & Hy1); [left|].
      destruct (qmSimplify_pos_values letters zeros [] one Hup Hnd Hn30 Hbelow)
        as (out & toks & rpn' & Hout & Htok & Hrpn & Heval).
      { apply (Hbits one r1 Hr1). }
      { rewrite app_nil_r. intros (r' & Hr' & Hy')%Hin.
        assert (r' = r1) as -> by congruence. contradiction. }
      exists out. split; [exact Hout|]. exists toks, rpn'.
      split; [exact Htok|]. split; [exact Hrpn|].
      intros r [m Hm]%list_elem_of_lookup.
      destruct (Hbits m r Hm) as (Hlt & Henv & Hy).
      destruct (Heval m Hlt) as (y & Hev & H0 & H1).
      rewrite Henv. unfold vars. rewrite Hev. f_equal.
      destruct Hy as [Hy|Hy]; rewrite Hy.
      * apply H0, Hin. exists r. split; [exact Hm|]. lia.
      * apply H1. rewrite app_nil_r. intros (r' & Hr' & Hy')%Hin.
        assert (r' = r) as -> by congruence. contradiction.
Qed.

(** What the handler computes for an expression of one to four variables
    that is scanned, parsed and evaluated. *)
Lemma btnEval_click_small raw md toks rpn table :
  let vars := extractVars raw in
  0 < length vars ≤ 4 →
  tokenize raw = Ok toks → toRPN toks = Ok rpn →
  buildTruthTable vars (Some rpn) = Ok table →
  let minFull := map row_m (filter (fun r => row_y r = 1%Z) table) in
  ∃ out,
    btnEval_click raw md
    = Some (Evaluated
              (mkEvaluated vars rpn table minFull
                 (paintKMapFromData (initKMap vars) minFull [])
                 (Some (result out))))
    ∧ match md, minFull with
      | POS, [] => result out = "1"
      | _, _ =>
          ∃ toks' rpn',
            tokenize (result out) = Ok toks' ∧ toRPN toks' = Ok rpn'
            ∧ ∀ r, r ∈ table → evalRPN rpn' (row_env r) = Ok (row_y r)
      end.
Proof.
  intros vars Hn Htok Hrpn Htable minFull.
  destruct (extractVars_chars raw) as (Hl & Hnd & Hup).
  set (letters := map first_char (extractVars raw)) in *. fold vars in Hl.
  assert (Hlen : length letters = length vars).
  { rewrite Hl, length_map. reflexivity. }
  destruct (simplified_matches_rows letters rpn table minFull md Hup Hnd)
    as (out & Hout & Htext).
  { lia. }
  { rewrite <- Hl. exact Htable. }
  { intros z. apply (elem_of_minFull vars (Some rpn)); [lia|exact Htable]. }
  rewrite <- Hl, Hlen in Hout.
  exists out. split; [|exact Htext].
  unfold btnEval_click. cbv zeta. rewrite extractVars_trim, tokenize_trim.
  fold vars.
  destruct (String.eqb_spec (trim raw) "") as [He|_].
  { exfalso. pose proof (extractVars_trim raw) as H. rewrite He in H.
    fold vars in H. rewrite <- H in Hn. cbn in Hn. lia. }
  destruct (Nat.eqb_spec (length vars) 0) as [?|_]; [lia|].
  destruct (Nat.ltb_spec MAX_TRUTH_TABLE_VARS (length vars)) as [?|_];
    [unfold MAX_TRUTH_TABLE_VARS in *; lia|].
  rewrite (take_ge vars MAX_TRUTH_TABLE_VARS)
    by (unfold MAX_TRUTH_TABLE_VARS; lia).
  rewrite Htok. cbn [rbind]. rewrite Hrpn. cbn [rbind].
  rewrite Htable. cbn [rbind].
  rewrite (take_ge vars MAX_VARS) by (unfold MAX_VARS; lia).
  destruct (Nat.leb_spec (length vars) MAX_VARS) as [_|?];
    [|unfold MAX_VARS in *; lia].
  fold minFull.
  destruct (kmap_for_paint vars (initKMap vars) minFull []
              (kmap_for_initKMap vars)) as (_ & _ & _ & Ht & _).
  rewrite Ht, Nat2Z.id.
  replace (Nat.min (length vars) MAX_VARS) with (length vars)
    by (unfold MAX_VARS; lia).
  rewrite Hout. reflexivity.
Qed.

(** X22: the Evaluate button on an expression
    of one to four variables that is scanned, parsed and evaluated on every
    row: the K-map shows 1 on the rows whose output is 1 and 0 elsewhere, and
    the simplified text, read back, has the truth table of the expression,
    in SOP mode always and in POS mode when some row has output 1; in POS
    mode when no row has output 1 the simplified text is ["1"]. *)
Theorem btnEval_simplifies_expression raw md toks rpn table :
  let vars := extractVars raw in
  0 < length vars ≤ 4 →
  tokenize raw = Ok toks → toRPN toks = Ok rpn →
  buildTruthTable vars (Some rpn) = Ok table →
  ∃ ev text,
    btnEval_click raw md = Some (Evaluated ev)
    ∧ ev_vars ev = vars ∧ ev_rpn ev = rpn ∧ ev_rows ev = table
    ∧ ev_simplified ev = Some text
    ∧ (∀ m r, table !! m = Some r →
         km_cells (ev_kmap ev) !! m
         = Some (if decide (row_y r = 1%Z) then One else Zero))
    ∧ (md = POS → (∀ r, r ∈ table → row_y r = 0%Z) → text = "1")
    ∧ (md = SOP ∨ (∃ r, r ∈ table ∧ row_y r = 1%Z) →
       ∃ toks' rpn',
         tokenize text = Ok toks' ∧ toRPN toks' = Ok rpn'
         ∧ ∀ r, r ∈ table → evalRPN rpn' (row_env r) = Ok (row_y r)).
Proof.
  intros vars Hn Htok Hrpn Htable.
  destruct (btnEval_click_small raw md toks rpn table Hn Htok Hrpn Htable)
    as (out & Hclick & Htext).
  fold vars in Hclick.
  pose proof (fun z => elem_of_minFull vars (Some rpn) table z
                         ltac:(lia) Htable) as Hmin.
  destruct (buildTruthTable_Ok_rows vars (Some rpn) table ltac:(lia) Htable)
    as [Hl Hrows].
  set (minFull := map row_m (filter (fun r => row_y r = 1%Z) table)) in *.
  eexists _, (result out). split; [exact Hclick|].
  cbn [ev_vars ev_rpn ev_rows ev_simplified ev_kmap].
  do 4 (split; [reflexivity|]). split; [|clearbody minFull; split].
  - intros m r Hm.
    assert (Hok : kmap_ok (initKMap vars)).
    { apply (kmap_for_ok vars); [lia|apply kmap_for_initKMap]. }
    destruct (paintKMapFromData_cells (initKMap vars) minFull [] Hok)
      as [_ Hcells].
    destruct (kmap_for_initKMap vars) as (_ & _ & _ & _ & Hc).
    replace (Nat.min (length vars) MAX_VARS) with (length vars) in Hc
      by (unfold MAX_VARS; lia).
    rewrite Hcells by (apply lookup_lt_Some in Hm; lia).
    rewrite decide_False by apply not_elem_of_nil. f_equal.
    destruct (decide (row_y r = 1%Z)) as [Hy|Hy].
    + rewrite decide_True; [reflexivity|]. apply Hmin. eauto.
    + rewrite decide_False; [reflexivity|].
      intros (m' & r' & Hr' & ->%Nat2Z.inj & Hy')%Hmin. congruence.
  - intros -> Hzero. destruct minFull as [|z0 rest]; [exact Htext|].
    destruct (proj1 (Hmin z0)) as (m & r & Hr & _ & Hy); [left|].
    rewrite (Hzero r) in Hy by (eapply list_elem_of_lookup_2, Hr).
    discriminate.
  - intros Hcase. destruct md; [exact Htext|].
    destruct minFull as [|z0 rest]; [|exact Htext].
    destruct Hcase as [?|(r & [m Hr]%list_elem_of_lookup & Hy)]; [discriminate|].
    exfalso. apply (proj1 (elem_of_nil (Z.of_nat m))), Hmin. eauto.
Qed.

Lemma btnEval_simplifies_expression_witness :
  ∃ toks rpn table,
    tokenize " a ^ b " = Ok toks ∧ toRPN toks = Ok rpn
    ∧ buildTruthTable (extractVars " a ^ b ") (Some rpn) = Ok table
    ∧ ∃ ev text,
        btnEval_click " a ^ b " POS = Some (Evaluated ev)
        ∧ ev_vars ev = extractVars " a ^ b " ∧ ev_rpn ev = rpn
        ∧ ev_rows ev = table
        ∧ ev_simplified ev = Some text
        ∧ (∀ m r, table !! m = Some r →
             km_cells (ev_kmap ev) !! m
             = Some (if decide (row_y r = 1%Z) then One else Zero))
        ∧ (POS = POS → (∀ r, r ∈ table → row_y r = 0%Z) → text = "1")
        ∧ (POS = SOP ∨ (∃ r, r ∈ table ∧ row_y r = 1%Z) →
           ∃ toks' rpn',
             tokenize text = Ok toks' ∧ toRPN toks' = Ok rpn'
             ∧ ∀ r, r ∈ table → evalRPN rpn' (row_env r) = Ok (row_y r)).
Proof.
  eexists _, _, _.
  split; [vm_compute; reflexivity|].
  split; [vm_compute; reflexivity|].
  split; [vm_compute; reflexivity|].
  eapply (btnEval_simplifies_expression " a ^ b " POS).
  - vm_compute. lia.
  - vm_compute. reflexivity.
  - vm_compute. reflexivity.
  - vm_compute. reflexivity.
Defined.

(** X23: the Evaluate button always ends in one of its
    outcomes.  The input is rejected as empty when it is white space only, as
    without variables when it has no letter, and as too large when it has
    more than eight variables; otherwise the first error of the scanner, the
    parser or the truth table is reported, or the truth table of the
    expression is built, and the simplified text is left out exactly when
    the expression has more than four variables. *)
Theorem btnEval_click_outcomes raw md :
  let vars := extractVars raw in
  ∃ ev,
    btnEval_click raw md = Some ev
    ∧ match ev with
      | Rejected EmptyExpression => string_forall is_whitespace raw = true
      | Rejected NoVariables =>
          string_forall is_whitespace raw = false ∧ vars = []
      | Rejected TooManyVariables => MAX_TRUTH_TABLE_VARS < length vars
      | Thrown e =>
          0 < length vars ≤ MAX_TRUTH_TABLE_VARS
          ∧ (toks <-! tokenize raw;
             rpn <-! toRPN toks;
             buildTruthTable vars (Some rpn)) = Err e
      | Evaluated ev =>
          0 < length vars ≤ MAX_TRUTH_TABLE_VARS
          ∧ ev_vars ev = vars
          ∧ (toks <-! tokenize raw; toRPN toks) = Ok (ev_rpn ev)
          ∧ buildTruthTable vars (Some (ev_rpn ev)) = Ok (ev_rows ev)
          ∧ (ev_simplified ev = None ↔ MAX_VARS < length vars)
      end.
Proof.
  intros vars.
  destruct (string_forall is_whitespace raw) eqn:Hws.
  { exists (Rejected EmptyExpression). split; [|reflexivity].
    unfold btnEval_click. cbv zeta.
    rewrite (proj2 (trim_empty raw) Hws). reflexivity. }
  assert (Heq : String.eqb (trim raw) "" = false).
  { apply String.eqb_neq. intros He%trim_empty. congruence. }
  destruct (length vars =? 0) eqn:Hz.
  { exists (Rejected NoVariables). split.
    - unfold btnEval_click. cbv zeta. rewrite Heq, extractVars_trim.
      fold vars. rewrite Hz. reflexivity.
    - split; [reflexivity|]. apply nil_length_inv, Nat.eqb_eq, Hz. }
  destruct (MAX_TRUTH_TABLE_VARS <? length vars) eqn:Hlt.
  { exists (Rejected TooManyVariables). split.
    - unfold btnEval_click. cbv zeta. rewrite Heq, extractVars_trim.
      fold vars. rewrite Hz, Hlt. reflexivity.
    - apply Nat.ltb_lt, Hlt. }
  apply Nat.eqb_neq in Hz. apply Nat.ltb_ge in Hlt.
  assert (Hn : 0 < length vars ≤ MAX_TRUTH_TABLE_VARS) by lia.
  assert (Hstart : btnEval_click raw md
    = match (toks <-! tokenize raw;
             currentRPN <-! toRPN toks;
             rows <-! buildTruthTable vars (Some currentRPN);
             Ok (currentRPN, rows)) with
      | Err e => Some (Thrown e)
      | Ok (currentRPN, rows) =>
          let minFull := map row_m (filter (fun r => row_y r = 1%Z) rows) in
          let km := initKMap (take MAX_VARS vars) in
          if length vars <=? MAX_VARS then
            let km := paintKMapFromData km minFull [] in
            match qmSimplify
                    match md with
                    | SOP => map Z.to_nat minFull
                    | POS =>
                        filter (fun m => Z.of_nat m ∉ (list_to_set minFull : gset Z))
                          (seq 0 (Z.to_nat (km_total km)))
                    end [] (take MAX_VARS vars) md with
            | Some out =>
                Some (Evaluated
                        (mkEvaluated vars currentRPN rows minFull km
                           (Some (result out))))
            | None => None
            end
          else
            Some (Evaluated (mkEvaluated vars currentRPN rows minFull km None))
      end).
  { unfold btnEval_click. cbv zeta. rewrite Heq, extractVars_trim, tokenize_trim.
    fold vars. rewrite (proj2 (Nat.eqb_neq _ _) Hz), (proj2 (Nat.ltb_ge _ _) Hlt).
    rewrite (take_ge vars MAX_TRUTH_TABLE_VARS) by exact Hlt. reflexivity. }
  destruct (tokenize raw) as [toks|e] eqn:Htok; cbn [rbind] in *;
    [|exists (Thrown e); split; [exact Hstart|split; [exact Hn|reflexivity]]].
  destruct (toRPN toks) as [rpn|e] eqn:Hrpn; cbn [rbind] in *;
    [|exists (Thrown e); split; [exact Hstart|split; [exact Hn|reflexivity]]].
  destruct (buildTruthTable vars (Some rpn)) as [table|e] eqn:Htable;
    cbn [rbind] in *;
    [|exists (Thrown e); split; [exact Hstart|split; [exact Hn|reflexivity]]].
  destruct (Nat.leb_spec (length vars) MAX_VARS) as [Hle|Hgt].
  - destruct (btnEval_click_small raw md toks rpn table) as (out & Hclick & _);
      [unfold MAX_VARS in Hle; fold vars; lia|exact Htok|exact Hrpn|exact Htable|].
    eexists. split; [exact Hclick|]. cbn [ev_vars ev_rpn ev_rows ev_simplified].
    split; [exact Hn|]. split; [reflexivity|]. split; [reflexivity|].
    split; [exact Htable|]. split; [discriminate|]. fold vars. lia.
  - eexists. split; [exact Hstart|].
    cbn [ev_vars ev_rpn ev_rows ev_simplified].
    split; [exact Hn|]. split; [reflexivity|]. split; [reflexivity|].
    split; [exact Htable|]. split; [intros _; exact Hgt|reflexivity].
Qed.

(** ** Combining two patterns *)

Lemma canCombine_one_place pre x y suf :
  x ≠ y → canCombine (pre +:+ String x suf) (pre +:+ String y suf) = true.
Proof.
  intros Hxy. induction pre as [|c pre IH].
  - apply canCombine_cons_diff, Hxy.
  - change (String c pre +:+ String x suf) with (String c (pre +:+ String x suf)).
    change (String c pre +:+ String y suf) with (String c (pre +:+ String y suf)).
    rewrite canCombine_cons_same. exact IH.
Qed.

(** X24: two strings of the same length can be
    combined exactly when they differ at one position and agree elsewhere,
    whatever the two characters at that position are; their combination has
    a dash at that position and their characters elsewhere. *)
Theorem canCombine_one_difference a b :
  String.length a = String.length b →
  canCombine a b = true
  ↔ ∃ pre x y suf,
      a = pre +:+ String x suf ∧ b = pre +:+ String y suf ∧ x ≠ y
      ∧ combine a b = pre +:+ String "-" suf.
Proof.
  intros Hlen. split.
  - intros Hc.
    destruct (canCombine_split a b Hlen Hc) as (pre & x & y & suf & -> & -> & Hxy).
    exists pre, x, y, suf. repeat (split; [reflexivity || exact Hxy|]).
    apply combine_split, Hxy.
  - intros (pre & x & y & suf & -> & -> & Hxy & _).
    apply canCombine_one_place, Hxy.
Qed.

Lemma canCombine_one_difference_witness :
  canCombine "1-0" "1-1" = true
  ↔ ∃ pre x y suf,
      "1-0" = pre +:+ String x suf ∧ "1-1" = pre +:+ String y suf ∧ x ≠ y
      ∧ combine "1-0" "1-1" = pre +:+ String "-" suf.
Proof.
  apply (canCombine_one_difference "1-0" "1-1"). reflexivity.
Defined.

(** X25: the combination of two patterns that can be
    combined covers exactly the rows that one of the two covers. *)
Theorem combine_covers_both a b x :
  String.length a = String.length b →
  String.length x = String.length a →
  is_pattern a = true → is_pattern b = true → is_binary x = true →
  canCombine a b = true →
  covers (combine a b) x = true ↔ covers a x = true ∨ covers b x = true.
Proof.
  intros Hlen Hx Ha Hb Hbin Hc. split.
  - apply covers_combine_inv; assumption.
  - intros [H|H]; [apply covers_combine_l|apply covers_combine_r]; assumption.
Qed.

Lemma combine_covers_both_witness :
  covers (combine "1-0" "1-1") "101" = true
  ↔ covers "1-0" "101" = true ∨ covers "1-1" "101" = true.
Proof.
  apply (combine_covers_both "1-0" "1-1" "101"); reflexivity.
Defined.
